(** * A shallow embedding of the OSL execution back end

    The development follows three translation units of liboslexec:

    - [dictionary.cpp]: the attribute dictionary cache
      ([Dictionary::dict_next], [Dictionary::dict_value]);
    - [llvm_gen.cpp]: the per-opcode IR generators for arithmetic on dual
      numbers ([llvm_gen_add], [llvm_gen_sub], [llvm_gen_mul],
      [llvm_gen_div], [llvm_gen_minmax]) and closure construction
      ([llvm_gen_closure]);
    - [instance.cpp]: parameter binding ([ShaderInstance::parameters],
      [ShaderInstance::param_storage]) and the merge test
      ([ShaderInstance::mergeable]).

    Conventions.  A C++ [int] is a [Z]; a conversion from [size_t] goes
    through [to_int], which writes the 32-bit wrap-around out.  A [float]
    held in storage is its 32-bit pattern (a [Z]), so that [memcmp] is
    equality of patterns.  A [ustring] is a [string] (ustrings are interned,
    so comparing the pointers compares the characters).  Behaviour that C++
    leaves undefined (an index past the end of a vector, a null
    dereference) and a failed [OSL_ASSERT] make a function return [None];
    [OSL_DASSERT] is compiled out of release builds and is not modelled. *)

From Stdlib Require Import ZArith Ascii String List Bool Lia.
From Stdlib Require Import Floats.SpecFloat DecimalString.
From stdpp Require Import base option list strings.

Open Scope Z_scope.

(** ** Machine integers *)

Definition to_int (z : Z) : Z := (z + 2 ^ 31) mod 2 ^ 32 - 2 ^ 31.

Definition is_int (z : Z) : Prop := - 2 ^ 31 <= z < 2 ^ 31.

Definition size_as_int {A} (v : list A) : Z := to_int (Z.of_nat (length v)).

(** [v[i]] on a [std::vector]: undefined outside the bounds. *)
Definition at_index {A} (v : list A) (i : Z) : option A :=
  if 0 <=? i then v !! Z.to_nat i else None.

(** [v[i] = x] on a [std::vector]. *)
Definition set_index {A} (v : list A) (i : Z) (x : A) : option (list A) :=
  match at_index v i with
  | Some _ => Some (<[Z.to_nat i := x]> v)
  | None => None
  end.

(** ** Type descriptors *)

Inductive BASETYPE := UNKNOWN | NONE | INT | FLOAT | STRING | PTR.

#[global] Instance BASETYPE_eq_dec : EqDecision BASETYPE.
Proof. solve_decision. Defined.

(** [OIIO::TypeDesc], with the fields the back end reads.  The type and
    its accessors ([numelements], [basevalues], [is_vec3], the test for
    arrays) belong to OpenImageIO; they are written here as that library
    documents them. *)
Record TypeDesc := mkTypeDesc
  { basetype : BASETYPE;
    aggregate : Z;
    vecsemantics : Z;
    arraylen : Z }.

#[global] Instance TypeDesc_eq_dec : EqDecision TypeDesc.
Proof. solve_decision. Defined.

Definition TypeFloat : TypeDesc := mkTypeDesc FLOAT 1 0 0.
Definition TypeInt : TypeDesc := mkTypeDesc INT 1 0 0.
Definition TypeString : TypeDesc := mkTypeDesc STRING 1 0 0.
Definition TypeUnknown : TypeDesc := mkTypeDesc UNKNOWN 1 0 0.

Definition VEC3 : Z := 3.
Definition MATRIX44 : Z := 16.

Definition numelements (t : TypeDesc) : Z :=
  if 1 <=? arraylen t then arraylen t else 1.

Definition basevalues (t : TypeDesc) : Z := numelements t * aggregate t.

Definition td_is_array (t : TypeDesc) : bool := negb (arraylen t =? 0).

Definition td_is_unsized_array (t : TypeDesc) : bool := arraylen t <? 0.

Definition is_vec3 (t : TypeDesc) : bool :=
  (aggregate t =? VEC3) && bool_decide (basetype t = FLOAT)
  && negb (td_is_array t).

(** Modelled from the spec: [TypeSpec] and its accessors are declared in a
    header that is not among the sources.  A semantic type is a "scalar
    kind {int, float, string, closure, matrix, aggregate-of-float}, array
    length, aggregate arity": a simple type, a structure id and a closure
    flag; the tests below read those three fields. *)
Record TypeSpec := mkTypeSpec
  { simpletype : TypeDesc;
    structure : Z;
    closure : bool }.

#[global] Instance TypeSpec_eq_dec : EqDecision TypeSpec.
Proof. solve_decision. Defined.

Definition is_array (t : TypeSpec) : bool := td_is_array (simpletype t).
Definition is_unsized_array (t : TypeSpec) : bool :=
  td_is_unsized_array (simpletype t).
Definition is_closure (t : TypeSpec) : bool := closure t && negb (is_array t).
Definition is_closure_array (t : TypeSpec) : bool := closure t && is_array t.
Definition is_closure_based (t : TypeSpec) : bool := closure t.
Definition is_structure (t : TypeSpec) : bool :=
  (0 <? structure t) && negb (is_array t).
Definition is_string (t : TypeSpec) : bool :=
  bool_decide (simpletype t = TypeString) && negb (is_closure t).
Definition is_float (t : TypeSpec) : bool :=
  bool_decide (simpletype t = TypeFloat) && negb (is_closure t).
Definition is_matrix (t : TypeSpec) : bool :=
  bool_decide (basetype (simpletype t) = FLOAT)
  && (aggregate (simpletype t) =? MATRIX44)
  && negb (is_array t) && negb (is_closure t).
Definition is_float_based (t : TypeSpec) : bool :=
  bool_decide (basetype (simpletype t) = FLOAT) && negb (is_closure t).

(** ** Typed storage *)

(** A run of base values: what a [void*] plus a [TypeDesc] designates. *)
Inductive Data :=
| DInt (l : list Z)
| DFloat (l : list Z)
| DString (l : list string).

#[global] Instance Data_eq_dec : EqDecision Data.
Proof. solve_decision. Defined.

Definition data_basetype (d : Data) : BASETYPE :=
  match d with DInt _ => INT | DFloat _ => FLOAT | DString _ => STRING end.

Definition data_length (d : Data) : nat :=
  match d with DInt l | DFloat l => length l | DString l => length l end.

(** The elements [off, off+n) of a vector, when they all exist. *)
Definition slice {A} (v : list A) (off n : Z) : option (list A) :=
  if (0 <=? off) && (0 <=? n) && (off + n <=? Z.of_nat (length v))
  then Some (take (Z.to_nat n) (drop (Z.to_nat off) v))
  else None.

(** [memcpy (&v[off], src, ...)] of the whole of [src]. *)
Definition blit {A} (v : list A) (off : Z) (src : list A) : option (list A) :=
  if (0 <=? off) && (off + Z.of_nat (length src) <=? Z.of_nat (length v))
  then Some (take (Z.to_nat off) v ++ src
             ++ drop (Z.to_nat off + length src) v)
  else None.

(** Modelled from the spec: [expand] is a helper of a header that is not
    among the sources; it "allocates fresh storage at the end of the
    relevant pool": [n] more value-initialised elements. *)
Definition expand {A} (v : list A) (n : Z) (zero : A) : list A :=
  v ++ replicate (Z.to_nat n) zero.

(** ** Symbols, opcodes, masters and instances *)

Inductive SymType :=
| SymTypeParam | SymTypeOutputParam | SymTypeLocal | SymTypeTemp
| SymTypeGlobal | SymTypeConst | SymTypeType.

#[global] Instance SymType_eq_dec : EqDecision SymType.
Proof. solve_decision. Defined.

Inductive ValueSource := DefaultVal | InstanceVal | GeomVal | ConnectedVal.

#[global] Instance ValueSource_eq_dec : EqDecision ValueSource.
Proof. solve_decision. Defined.

(** Modelled from the spec: [Symbol] is declared in a header that is not
    among the sources.  A symbol is "a named, typed storage slot" with a
    storage category, a value source, a data offset, flags and the range
    of its initialization ops.  [sym_data] is what the symbol's data
    pointer designates (the value of a constant).  A symbol is constant
    when its category is that of constants, has init ops when their range
    is not empty, and is locked against geometry when it is neither
    interpolated nor interactive (as [parameters] computes it for an
    override). *)
Record Symbol := mkSymbol
  { sym_name : string;
    typespec : TypeSpec;
    symtype : SymType;
    valuesource : ValueSource;
    dataoffset : Z;
    has_derivs : bool;
    interpolated : bool;
    interactive : bool;
    connected_down : bool;
    everused : bool;
    everused_in_group : bool;
    renderer_output : bool;
    fieldid : Z;
    initbegin : Z;
    initend : Z;
    sym_data : option Data }.

Definition is_constant (s : Symbol) : bool :=
  bool_decide (symtype s = SymTypeConst).

Definition has_init_ops (s : Symbol) : bool := negb (initbegin s =? initend s).

Definition lockgeom (s : Symbol) : bool :=
  negb (interpolated s) && negb (interactive s).

Definition get_string (s : Symbol) : option string :=
  match sym_data s with
  | Some (DString (x :: _)) => Some x
  | _ => None
  end.

Record Opcode := mkOpcode
  { opname : string;
    firstarg : Z;
    nargs : Z;
    sourcefile : string;
    sourceline : Z;
    jump : list Z }.

(** Modelled from the spec: [SymOverrideInfo] is declared in a header that
    is not among the sources.  An override records, "before
    specialization, [the] per-instance value source, array length,
    interpolation/interactivity, and offset" of a parameter.  A
    default-constructed record is [so_default]. *)
Record SymOverrideInfo := mkOverride
  { so_valuesource : ValueSource;
    so_connected_down : bool;
    so_interpolated : bool;
    so_interactive : bool;
    so_arraylen : Z;
    so_dataoffset : Z }.

Definition so_default : SymOverrideInfo :=
  mkOverride DefaultVal false false false 0 0.

Record ConnectedParam := mkConnectedParam
  { cp_param : Z;
    cp_arrayindex : Z;
    cp_channel : Z;
    cp_type : TypeSpec }.

#[global] Instance ConnectedParam_eq_dec : EqDecision ConnectedParam.
Proof. solve_decision. Defined.

Record Connection := mkConnection
  { srclayer : Z;
    src : ConnectedParam;
    dst : ConnectedParam }.

#[global] Instance Connection_eq_dec : EqDecision Connection.
Proof. solve_decision. Defined.

(** [ShaderMaster].  [master_addr] stands for the address of the shared
    object: two instances have the same master when the pointers agree. *)
Record ShaderMaster := mkMaster
  { master_addr : Z;
    shadername : string;
    m_symbols : list Symbol;
    m_ops : list Opcode;
    m_args : list Z;
    m_idefaults : list Z;
    m_fdefaults : list Z;
    m_sdefaults : list string;
    master_firstparam : Z;
    master_lastparam : Z }.

Record ShaderInstance := mkInstance
  { m_master : ShaderMaster;
    m_instsymbols : list Symbol;
    m_instops : list Opcode;
    m_instargs : list Z;
    m_layername : string;
    m_instoverrides : list SymOverrideInfo;
    m_iparams : list Z;
    m_fparams : list Z;
    m_sparams : list string;
    m_connections : list Connection;
    m_run_lazily : bool;
    m_renderer_outputs : bool;
    m_userdata_params : bool;
    m_firstparam : Z;
    m_lastparam : Z;
    m_maincodebegin : Z;
    m_maincodeend : Z;
    m_Psym : Z;
    m_Nsym : Z }.

Definition symbol (inst : ShaderInstance) (i : Z) : option Symbol :=
  at_index (m_instsymbols inst) i.

Definition mastersymbol (inst : ShaderInstance) (i : Z) : option Symbol :=
  at_index (m_symbols (m_master inst)) i.

(** ** Diagnostics *)

Inductive Severity := SevWarning | SevError.

Record Diagnostic := mkDiag { severity : Severity; message : string }.

(** [fmtformat]: every replacement field of the format, [{}] or
    [{:spec}], is replaced by the next argument, which the caller has
    printed as the field asks.  [in_field] is set between the opening
    brace of a field and the brace that closes it. *)
Fixpoint fmtformat_from (in_field : bool) (fmt : string)
    (args : list string) : string :=
  match fmt with
  | EmptyString => EmptyString
  | String c rest =>
      if in_field then
        fmtformat_from (negb (Ascii.eqb c "}")) rest args
      else if Ascii.eqb c "{" then
        match rest with
        | String c' _ =>
            if Ascii.eqb c' "}" || Ascii.eqb c' ":" then
              match args with
              | a :: args' => (a ++ fmtformat_from true rest args')%string
              | [] => fmtformat_from true rest []
              end
            else String c (fmtformat_from false rest args)
        | EmptyString => String c EmptyString
        end
      else String c (fmtformat_from false rest args)
  end.

Definition fmtformat (fmt : string) (args : list string) : string :=
  fmtformat_from false fmt args.

Definition print_int (z : Z) : string := NilZero.string_of_int (Z.to_int z).

(** The double-quote character, as a string. *)
Definition dquote : string := String (ascii_of_nat 34) EmptyString.

(** ** dictionary.cpp *)

Module Dictionary.

(** The string parsing and hashing of OpenImageIO that [dict_value]
    calls.  A parser returns what it read, if anything, and the rest of
    the text. *)
Class Strutil := mkStrutil
  { parse_int : string -> option Z * string;
    parse_float : string -> option Z * string;
    parse_char : string -> ascii -> string;
    ustring_hash : string -> Z }.

(** What the code reads of a [pugi::xml_node]. *)
Record xml_node := mk_xml_node
  { xml_value : string;
    xml_attributes : list (string * string) }.

Record Query := mkQuery
  { q_document : Z;
    q_node : Z;
    q_name : string;
    q_type : TypeDesc }.

#[global] Instance Query_eq_dec : EqDecision Query.
Proof. solve_decision. Defined.

Record QueryResult := mkQueryResult
  { valueoffset : Z;
    is_valid : bool }.

Record Node := mkNode
  { document : Z;
    node : xml_node;
    next : Z }.

Definition QueryMap := list (Query * QueryResult).

Record t := mkDictionary
  { m_cache : QueryMap;
    m_nodes : list Node;
    m_floatdata : list Z;
    m_intdata : list Z;
    m_stringdata : list string }.

(** One element of the caller's buffer, as the code writes it. *)
Inductive Cell :=
| CInt (v : Z)
| CFloat (v : Z)
| CString (s : string)
| CHash (h : Z).

Fixpoint cache_find (m : QueryMap) (q : Query) : option QueryResult :=
  match m with
  | [] => None
  | (k, r) :: m' => if decide (k = q) then Some r else cache_find m' q
  end.

Fixpoint cache_set (m : QueryMap) (q : Query) (r : QueryResult) : QueryMap :=
  match m with
  | [] => [(q, r)]
  | (k, r') :: m' =>
      if decide (k = q) then (k, r) :: m' else (k, r') :: cache_set m' q r
  end.

(** Past the guard the handle is within the vector, so that the last
    branch is never taken. *)
Definition dict_next (d : t) (nodeID : Z) : Z :=
  if (nodeID <=? 0) || (size_as_int (m_nodes d) <=? nodeID)
  then 0
  else match at_index (m_nodes d) nodeID with
       | Some n => next n
       | None => 0
       end.

(** The copy loop of a cached int or float attribute: element [i] of the
    caller's buffer receives [pool[offset++]]. *)
Fixpoint copy_out (wrap : Z -> Cell) (pool : list Z) (count : nat)
    (i offset : Z) (data : list Cell) : option (list Cell) :=
  match count with
  | O => Some data
  | S count' =>
      v ← at_index pool offset;
      data' ← set_index data i (wrap v);
      copy_out wrap pool count' (i + 1) (offset + 1) data'
  end.

(** The decoding loop of an uncached int or float attribute: every value
    parsed is appended to the pool and written to the caller. *)
Fixpoint decode (parse : string -> option Z * string)
    (skip : string -> string) (wrap : Z -> Cell) (count : nat) (i : Z)
    (valstr : string) (pool : list Z) (data : list Cell)
    : option (list Z * list Cell) :=
  match count with
  | O => Some (pool, data)
  | S count' =>
      let '(v, valstr1) := parse valstr in
      let valstr2 := skip valstr1 in
      v ← v;
      data' ← set_index data i (wrap v);
      decode parse skip wrap count' (i + 1) valstr2 (pool ++ [v]) data'
  end.

Fixpoint find_attribute (attrs : list (string * string)) (name : string)
    : option string :=
  match attrs with
  | [] => None
  | (k, v) :: attrs' =>
      if decide (k = name) then Some v else find_attribute attrs' name
  end.

Section dict_value.
Context `{Strutil}.

Definition dict_value (d : t) (nodeID : Z) (attribname : string)
    (type : TypeDesc) (data : list Cell) (treat_ustrings_as_hash : bool)
    : option (Z * t * list Cell) :=
  if (nodeID <=? 0) || (size_as_int (m_nodes d) <=? nodeID)
  then Some (0, d, data)
  else
    nd ← at_index (m_nodes d) nodeID;
    let q := mkQuery (document nd) nodeID attribname type in
    let n := to_int (numelements type * aggregate type) in
    match cache_find (m_cache d) q with
    | Some found =>
        let offset := valueoffset found in
        match basetype type with
        | STRING =>
            s ← at_index (m_stringdata d) offset;
            data' ← set_index data 0
              (if treat_ustrings_as_hash then CHash (ustring_hash s)
               else CString s);
            Some (1, d, data')
        | INT =>
            data' ← copy_out CInt (m_intdata d) (Z.to_nat n) 0 offset data;
            Some (1, d, data')
        | FLOAT =>
            data' ← copy_out CFloat (m_floatdata d) (Z.to_nat n) 0 offset
              data;
            Some (1, d, data')
        | _ => Some (0, d, data)
        end
    | None =>
        let val :=
          if decide (attribname = EmptyString)
          then Some (xml_value (node nd))
          else find_attribute (xml_attributes (node nd)) attribname in
        match val with
        | None => Some (0, d, data)
        | Some val =>
            match basetype type with
            | STRING =>
                if n =? 1 then
                  let r := mkQueryResult (size_as_int (m_stringdata d)) true in
                  data' ← set_index data 0
                    (if treat_ustrings_as_hash then CHash (ustring_hash val)
                     else CString val);
                  Some (1,
                        mkDictionary (cache_set (m_cache d) q r) (m_nodes d)
                          (m_floatdata d) (m_intdata d)
                          (m_stringdata d ++ [val]),
                        data')
                else Some (0, d, data)
            | INT =>
                let r := mkQueryResult (size_as_int (m_intdata d)) true in
                '(pool, data') ← decode parse_int
                  (fun s => parse_char s ","%char) CInt (Z.to_nat n) 0 val
                  (m_intdata d) data;
                Some (1,
                      mkDictionary (cache_set (m_cache d) q r) (m_nodes d)
                        (m_floatdata d) pool (m_stringdata d),
                      data')
            | FLOAT =>
                let r := mkQueryResult (size_as_int (m_floatdata d)) true in
                '(pool, data') ← decode parse_float
                  (fun s => parse_char s ","%char) CFloat (Z.to_nat n) 0 val
                  (m_floatdata d) data;
                Some (1,
                      mkDictionary (cache_set (m_cache d) q r) (m_nodes d)
                        pool (m_intdata d) (m_stringdata d),
                      data')
            | _ => Some (0, d, data)
            end
        end
    end.
End dict_value.

End Dictionary.

(** ** Type compatibility

    The comparisons that [parameters] and [llvm_gen_closure] call are
    declared in headers; the code here takes them as given. *)
Class TypeRules := mkTypeRules
  { equivalent : TypeDesc -> TypeDesc -> bool;
    relaxed_equivalent : TypeSpec -> TypeDesc -> bool }.

(** How types, floats and symbol names are printed in messages. *)
Class Printer := mkPrinter
  { typedesc_str : TypeDesc -> string;
    typespec_str : TypeSpec -> string;
    float_str : Z -> string;
    unmangled : Symbol -> string }.

(** ** llvm_gen.cpp *)

Module LLVMGen.

(** *** The IR the generators build

    Modelled from the spec: the IR builder and the methods of the back end
    that wrap it are not in llvm_gen.cpp.  The builder is "an external
    code-emission facility supporting: new basic block creation,
    branch/conditional-branch, named external-function calls with explicit
    typed argument lists, [...] load/store/pointer-cast operations".  An
    [llvm::Value*] is the expression that computes it.  What the builder
    appends to the current block with an effect on memory or on control
    (stores, calls, branches) is an [Instr] of the emitted sequence. *)

#[local] Set Warnings "-register-all".

Inductive Value :=
| Load (sym deriv component : Z) (cast : TypeDesc)
| Void_ptr (sym : Z)
| Sg_void_ptr
| Constant_float (bits : Z)
| Constant_int (z : Z)
| Constant_ptr (what : string)
| Void_ptr_null
| Op_add (a b : Value)
| Op_sub (a b : Value)
| Op_mul (a b : Value)
| Op_div (a b : Value)
| Op_le (a b : Value)
| Op_gt (a b : Value)
| Op_ne (a b : Value)
| Op_select (c a b : Value)
| Call_function (name : string) (args : list Value)
| Call_pointer (fn : Value) (args : list Value)
| Offset_ptr (p : Value) (offset : Z)
| Ptr_cast (p : Value) (type : string)
| GEP (type : string) (p : Value) (i j : Z).

Record BasicBlock := mkBlock { block_id : nat; block_name : string }.

Inductive Instr :=
| Store_value (v : Value) (sym deriv : Z) (arrayindex : option Value)
    (component : Z)
| Zero_derivs (sym : Z)
| Call (name : string) (args : list Value)
| Call_indirect (fn : Value) (args : list Value)
| Call_on_symbols (name : string) (syms : list Z)
| Memset (p : Value) (val len align : Z)
| Memcpy (dst src : Value) (len align : Z)
| Branch_if (cond : Value) (thenblock elseblock : BasicBlock)
| Branch (block : BasicBlock).

Record GenState := mkGenState
  { emitted : list Instr;
    nblocks : nat;
    messages : list Diagnostic }.

(** A generator runs on the builder's state; [None] is an abort. *)
Definition Gen (A : Type) : Type := GenState -> option (A * GenState).

Definition gret {A} (x : A) : Gen A := fun s => Some (x, s).

Definition gbind {A B} (m : Gen A) (k : A -> Gen B) : Gen B :=
  fun s => match m s with Some (x, s') => k x s' | None => None end.

Notation "'let*' x ':=' m 'in' k" := (gbind m (fun x => k))
  (at level 10, x name, m at level 100, k at level 200).

Definition abort {A} : Gen A := fun _ => None.

(** A pointer the code dereferences or hands to the builder unchecked. *)
Definition deref {A} (o : option A) : Gen A :=
  fun s => match o with Some x => Some (x, s) | None => None end.

Definition emit (i : Instr) : Gen unit :=
  fun s => Some (tt, mkGenState (emitted s ++ [i]) (nblocks s) (messages s)).

Definition new_basic_block (name : string) : Gen BasicBlock :=
  fun s => Some (mkBlock (nblocks s) name,
                 mkGenState (emitted s) (S (nblocks s)) (messages s)).

Definition report (sev : Severity) (fmt : string) (args : list string)
    : Gen unit :=
  fun s => Some (tt, mkGenState (emitted s) (nblocks s)
                       (messages s ++ [mkDiag sev (fmtformat fmt args)])).

Definition errorfmt := report SevError.
Definition warningfmt := report SevWarning.

(** [rop.ll.call_function]: the call is emitted and its result is a
    value. *)
Definition call_function (name : string) (args : list Value) : Gen Value :=
  let* _ := emit (Call name args) in gret (Call_function name args).

Definition call_pointer (fn : Value) (args : list Value) : Gen Value :=
  let* _ := emit (Call_indirect fn args) in gret (Call_pointer fn args).

Record ClosureParam := mkClosureParam
  { cparam_type : TypeDesc;
    cparam_offset : Z;
    cparam_key : option string;
    cparam_field_size : Z }.

Record ClosureEntry := mkClosureEntry
  { closure_id : Z;
    nformal : Z;
    nkeyword : Z;
    params : list ClosureParam;
    struct_size : Z;
    prepare : option string;
    setup : option string }.

(** [BackendLLVM]: the instance being compiled and the services of the
    back end that live in other translation units, taken as given: the
    load of a channel of a component of a symbol (null when it fails), the
    test for a constant zero, and the registry of closures. *)
Record BackendLLVM := mkBackend
  { inst : ShaderInstance;
    layer : Z;
    group_name : string;
    llvm_load_value : Z -> Z -> Z -> TypeDesc -> option Value;
    is_zero : Symbol -> bool;
    find_closure : string -> option ClosureEntry }.

(** A [Symbol&]: the symbol and its index in the instance's table, which
    is what tells two symbols apart. *)
Record SymRef := mkSymRef { index : Z; sym : Symbol }.

Coercion sym : SymRef >-> Symbol.

Definition opargsym (rop : BackendLLVM) (op : Opcode) (i : Z)
    : option SymRef :=
  a ← at_index (m_instargs (inst rop)) (firstarg op + i);
  s ← symbol (inst rop) a;
  Some (mkSymRef a s).

(** The size in bytes of a value of a type, on a 64-bit target. *)
Definition basesize (b : BASETYPE) : Z :=
  match b with
  | INT | FLOAT => 4
  | STRING | PTR => 8
  | UNKNOWN | NONE => 0
  end.

Definition td_size (t : TypeDesc) : Z := basevalues t * basesize (basetype t).

Section generators.
Context `{TypeRules} `{Printer} (rop : BackendLLVM).

Definition load (s : SymRef) (deriv component : Z) (cast : TypeDesc)
    : option Value :=
  llvm_load_value rop (index s) deriv component cast.

(** The older spelling of the load and of the store takes the component
    before the derivative. *)
Definition loadLLVMValue (s : SymRef) (component deriv : Z)
    (cast : TypeDesc) : option Value :=
  load s deriv component cast.

Definition llvm_store_value (v : Value) (s : SymRef) (deriv component : Z)
    : Gen unit :=
  emit (Store_value v (index s) deriv None component).

Definition storeLLVMValue (v : Value) (s : SymRef) (component deriv : Z)
    : Gen unit :=
  llvm_store_value v s deriv component.

Definition llvm_zero_derivs (s : SymRef) : Gen unit :=
  emit (Zero_derivs (index s)).

Definition llvm_call_function (name : string) (syms : list SymRef)
    : Gen unit :=
  emit (Call_on_symbols name (map index syms)).

Definition num_components (Result : SymRef) : nat :=
  Z.to_nat (aggregate (simpletype (typespec Result))).

(** *** add and sub *)

(** The value loop of [llvm_gen_add] and [llvm_gen_sub]; [false] is the
    early [return false] on a null load. *)
Fixpoint values_loop (op_ : Value -> Value -> Value)
    (Result A B : SymRef) (type : TypeDesc) (n : nat) (i : Z) : Gen bool :=
  match n with
  | O => gret true
  | S n' =>
      match loadLLVMValue A i 0 type, loadLLVMValue B i 0 type with
      | Some a, Some b =>
          let* _ := storeLLVMValue (op_ a b) Result i 0 in
          values_loop op_ Result A B type n' (i + 1)
      | _, _ => gret false
      end
  end.

Fixpoint derivs_loop (op_ : Value -> Value -> Value)
    (Result A B : SymRef) (type : TypeDesc) (d : Z) (n : nat) (i : Z)
    : Gen unit :=
  match n with
  | O => gret tt
  | S n' =>
      let* a := deref (loadLLVMValue A i d type) in
      let* b := deref (loadLLVMValue B i d type) in
      let* _ := storeLLVMValue (op_ a b) Result i d in
      derivs_loop op_ Result A B type d n' (i + 1)
  end.

Definition addsub_derivs (op_ : Value -> Value -> Value)
    (Result A B : SymRef) (type : TypeDesc) : Gen unit :=
  if has_derivs Result then
    if has_derivs A || has_derivs B then
      let* _ := derivs_loop op_ Result A B type 1 (num_components Result) 0 in
      derivs_loop op_ Result A B type 2 (num_components Result) 0
    else llvm_zero_derivs Result
  else gret tt.

Definition llvm_gen_add (opnum : Z) : Gen bool :=
  let* op := deref (at_index (m_instops (inst rop)) opnum) in
  let* Result := deref (opargsym rop op 0) in
  let* A := deref (opargsym rop op 1) in
  let* B := deref (opargsym rop op 2) in
  if is_closure (typespec Result) then
    let* a := deref (load A 0 0 TypeUnknown) in
    let* b := deref (load B 0 0 TypeUnknown) in
    let* res := call_function "osl_add_closure_closure" [Sg_void_ptr; a; b] in
    let* _ := llvm_store_value res Result 0 0 in
    gret true
  else
    let type := simpletype (typespec Result) in
    let* ok := values_loop Op_add Result A B type (num_components Result) 0 in
    if ok : bool then
      let* _ := addsub_derivs Op_add Result A B type in
      gret true
    else gret false.

Definition llvm_gen_sub (opnum : Z) : Gen bool :=
  let* op := deref (at_index (m_instops (inst rop)) opnum) in
  let* Result := deref (opargsym rop op 0) in
  let* A := deref (opargsym rop op 1) in
  let* B := deref (opargsym rop op 2) in
  let type := simpletype (typespec Result) in
  let* ok := values_loop Op_sub Result A B type (num_components Result) 0 in
  if ok : bool then
    let* _ := addsub_derivs Op_sub Result A B type in
    gret true
  else gret false.

(** *** mul *)

Definition mul_derivs (Result A B : SymRef) (type : TypeDesc)
    (a b : Value) (i : Z) : Gen unit :=
  if has_derivs Result && (has_derivs A || has_derivs B) then
    let* ax := deref (load A 1 i type) in
    let* bx := deref (load B 1 i type) in
    let abx := Op_mul a bx in
    let axb := Op_mul ax b in
    let rx := Op_add abx axb in
    let* ay := deref (load A 2 i type) in
    let* by_ := deref (load B 2 i type) in
    let aby := Op_mul a by_ in
    let ayb := Op_mul ay b in
    let ry := Op_add aby ayb in
    let* _ := llvm_store_value rx Result 1 i in
    llvm_store_value ry Result 2 i
  else gret tt.

Fixpoint mul_loop (Result A B : SymRef) (type : TypeDesc) (n : nat)
    (i : Z) : Gen bool :=
  match n with
  | O => gret true
  | S n' =>
      match load A 0 i type, load B 0 i type with
      | Some a, Some b =>
          let r := Op_mul a b in
          let* _ := llvm_store_value r Result 0 i in
          let* _ := mul_derivs Result A B type a b i in
          mul_loop Result A B type n' (i + 1)
      | _, _ => gret false
      end
  end.

Definition mul_closure (Result A B : SymRef) : Gen bool :=
  let (clos, other) := if is_closure (typespec A) then (A, B) else (B, A) in
  let tfloat := is_float (typespec other) in
  let* v1 := deref (load clos 0 0 TypeUnknown) in
  let* v2 := if tfloat then deref (load other 0 0 TypeUnknown)
             else gret (Void_ptr (index other)) in
  let* res := if tfloat
              then call_function "osl_mul_closure_float" [Sg_void_ptr; v1; v2]
              else call_function "osl_mul_closure_color" [Sg_void_ptr; v1; v2] in
  let* _ := llvm_store_value res Result 0 0 in
  gret true.

Definition mul_matrix (Result A B : SymRef) : Gen bool :=
  let* _ :=
    if is_float (typespec A) then
      if is_matrix (typespec B)
      then llvm_call_function "osl_mul_mmf" [Result; B; A]
      else abort
    else if is_matrix (typespec A) then
      if is_float (typespec B)
      then llvm_call_function "osl_mul_mmf" [Result; A; B]
      else if is_matrix (typespec B)
      then llvm_call_function "osl_mul_mmm" [Result; A; B]
      else abort
    else abort in
  let* _ := if has_derivs Result then llvm_zero_derivs Result
            else gret tt in
  gret true.

Definition llvm_gen_mul (opnum : Z) : Gen bool :=
  let* op := deref (at_index (m_instops (inst rop)) opnum) in
  let* Result := deref (opargsym rop op 0) in
  let* A := deref (opargsym rop op 1) in
  let* B := deref (opargsym rop op 2) in
  let type := simpletype (typespec Result) in
  if is_closure (typespec Result) then mul_closure Result A B
  else if is_matrix (typespec Result) then mul_matrix Result A B
  else
    let* ok := mul_loop Result A B type (num_components Result) 0 in
    if ok : bool then
      let* _ :=
        if has_derivs Result && negb (has_derivs A || has_derivs B)
        then llvm_zero_derivs Result
        else gret tt in
      gret true
    else gret false.

(** *** div *)

Definition constant_1_0f : Value := Constant_float 1065353216.

(** The quotient of two values: a divide instruction when the divisor
    symbol is a constant that is not zero, a call of [safe_div]
    otherwise. *)
Definition div_values (B : SymRef) (safe_div : string) (a b : Value)
    : Gen Value :=
  if is_constant B && negb (is_zero rop B)
  then gret (Op_div a b)
  else call_function safe_div [a; b].

Fixpoint div_loop (Result A B : SymRef) (type : TypeDesc)
    (safe_div : string) (deriv : bool) (n : nat) (i : Z) : Gen bool :=
  match n with
  | O => gret true
  | S n' =>
      match load A 0 i type, load B 0 i type with
      | Some a, Some b =>
          let* a_div_b := div_values B safe_div a b in
          let* rxy :=
            if deriv then
              let* binv := div_values B safe_div constant_1_0f b in
              let* ax := deref (load A 1 i type) in
              let* bx := deref (load B 1 i type) in
              let a_div_b_mul_bx := Op_mul a_div_b bx in
              let ax_minus_a_div_b_mul_bx := Op_sub ax a_div_b_mul_bx in
              let rx := Op_mul binv ax_minus_a_div_b_mul_bx in
              let* ay := deref (load A 2 i type) in
              let* by_ := deref (load B 2 i type) in
              let a_div_b_mul_by := Op_mul a_div_b by_ in
              let ay_minus_a_div_b_mul_by := Op_sub ay a_div_b_mul_by in
              let ry := Op_mul binv ay_minus_a_div_b_mul_by in
              gret (Some (rx, ry))
            else gret None in
          let* _ := llvm_store_value a_div_b Result 0 i in
          let* _ :=
            match rxy with
            | Some (rx, ry) =>
                let* _ := llvm_store_value rx Result 1 i in
                llvm_store_value ry Result 2 i
            | None => gret tt
            end in
          div_loop Result A B type safe_div deriv n' (i + 1)
      | _, _ => gret false
      end
  end.

Definition div_matrix (Result A B : SymRef) : Gen bool :=
  let* _ :=
    if is_float (typespec A) then
      if is_float (typespec B) then abort
      else if is_matrix (typespec B)
      then llvm_call_function "osl_div_mfm" [Result; A; B]
      else abort
    else if is_matrix (typespec A) then
      if is_float (typespec B)
      then llvm_call_function "osl_div_mmf" [Result; A; B]
      else if is_matrix (typespec B)
      then llvm_call_function "osl_div_mmm" [Result; A; B]
      else abort
    else abort in
  let* _ := if has_derivs Result then llvm_zero_derivs Result
            else gret tt in
  gret true.

Definition llvm_gen_div (opnum : Z) : Gen bool :=
  let* op := deref (at_index (m_instops (inst rop)) opnum) in
  let* Result := deref (opargsym rop op 0) in
  let* A := deref (opargsym rop op 1) in
  let* B := deref (opargsym rop op 2) in
  let type := simpletype (typespec Result) in
  let is_float := is_float_based (typespec Result) in
  if is_matrix (typespec Result) then div_matrix Result A B
  else
    let safe_div :=
      if is_float then "osl_safe_div_fff" else "osl_safe_div_iii" in
    let deriv := has_derivs Result && (has_derivs A || has_derivs B) in
    let* ok := div_loop Result A B type safe_div deriv
                 (num_components Result) 0 in
    if ok : bool then
      let* _ :=
        if has_derivs Result && negb (has_derivs A || has_derivs B)
        then llvm_zero_derivs Result
        else gret tt in
      gret true
    else gret false.

(** *** min and max *)

Definition op_min : string := "min".

Fixpoint minmax_loop (op : Opcode) (Result x y : SymRef) (type : TypeDesc)
    (n : nat) (i : Z) : Gen unit :=
  match n with
  | O => gret tt
  | S n' =>
      let* x_val := deref (load x 0 i type) in
      let* y_val := deref (load y 0 i type) in
      let cond := if decide (opname op = op_min)
                  then Op_le x_val y_val
                  else Op_gt x_val y_val in
      let res_val := Op_select cond x_val y_val in
      let* _ := llvm_store_value res_val Result 0 i in
      let* _ :=
        if has_derivs Result then
          let* x_dx := deref (load x 1 i type) in
          let* x_dy := deref (load x 2 i type) in
          let* y_dx := deref (load y 1 i type) in
          let* y_dy := deref (load y 2 i type) in
          let* _ := llvm_store_value (Op_select cond x_dx y_dx) Result 1 i in
          llvm_store_value (Op_select cond x_dy y_dy) Result 2 i
        else gret tt in
      minmax_loop op Result x y type n' (i + 1)
  end.

Definition llvm_gen_minmax (opnum : Z) : Gen bool :=
  let* op := deref (at_index (m_instops (inst rop)) opnum) in
  let* Result := deref (opargsym rop op 0) in
  let* x := deref (opargsym rop op 1) in
  let* y := deref (opargsym rop op 2) in
  let type := simpletype (typespec Result) in
  let* _ := minmax_loop op Result x y type (num_components Result) 0 in
  gret true.

(** *** closures *)

(** The inner loop of [llvm_gen_keyword_fill]: the first keyword
    parameter of the entry with the type and the key of the argument
    receives it. *)
Fixpoint keyword_search (clentry : ClosureEntry) (key : string)
    (Value_ : SymRef) (mem_void_ptr : Value) (n : nat) (t_ : Z)
    : Gen bool :=
  match n with
  | O => gret false
  | S n' =>
      let* p := deref (at_index (params clentry) (nformal clentry + t_)) in
      let ValueType := simpletype (typespec Value_) in
      if equivalent (cparam_type p) ValueType then
        let* pkey := deref (cparam_key p) in
        if decide (key = pkey) then
          let dst := Offset_ptr mem_void_ptr (cparam_offset p) in
          let src := Void_ptr (index Value_) in
          let* _ := emit (Memcpy dst src (to_int (td_size (cparam_type p)))
                            4) in
          gret true
        else keyword_search clentry key Value_ mem_void_ptr n' (t_ + 1)
      else keyword_search clentry key Value_ mem_void_ptr n' (t_ + 1)
  end.

Fixpoint keyword_loop (op : Opcode) (clentry : ClosureEntry)
    (clname : string) (mem_void_ptr : Value) (argsoffset : Z) (n : nat)
    (attr_i : Z) : Gen unit :=
  match n with
  | O => gret tt
  | S n' =>
      let argno := attr_i * 2 + argsoffset in
      let* Key := deref (opargsym rop op argno) in
      let* Value_ := deref (opargsym rop op (argno + 1)) in
      if is_constant Key then
        let* key := deref (get_string Key) in
        let* legal := keyword_search clentry key Value_ mem_void_ptr
                        (Z.to_nat (nkeyword clentry)) 0 in
        let* _ :=
          if legal : bool then gret tt
          else warningfmt
                 ("Unsupported closure keyword arg " ++ dquote ++ "{}"
                  ++ dquote ++ " for {} ({}:{})")
                 [key; clname; sourcefile op; print_int (sourceline op)] in
        keyword_loop op clentry clname mem_void_ptr argsoffset n'
          (attr_i + 1)
      else abort
  end.

Definition llvm_gen_keyword_fill (op : Opcode) (clentry : ClosureEntry)
    (clname : string) (mem_void_ptr : Value) (argsoffset : Z) : Gen unit :=
  let Nattrs := Z.quot (nargs op - argsoffset) 2 in
  keyword_loop op clentry clname mem_void_ptr argsoffset (Z.to_nat Nattrs) 0.

(** The positional parameters; the loop stops at the first parameter of
    the entry that has a key. *)
Fixpoint formal_loop (op : Opcode) (clentry : ClosureEntry)
    (closure_name : string) (weighted : Z) (mem_void_ptr : Value)
    (n : nat) (carg : Z) : Gen unit :=
  match n with
  | O => gret tt
  | S n' =>
      let* p := deref (at_index (params clentry) carg) in
      match cparam_key p with
      | Some _ => gret tt
      | None =>
          let* s := deref (opargsym rop op (carg + 2 + weighted)) in
          let t_ := simpletype (typespec s) in
          let* _ :=
            if negb (is_closure_array (typespec s))
               && negb (is_structure (typespec s))
               && equivalent t_ (cparam_type p)
            then
              let dst := Offset_ptr mem_void_ptr (cparam_offset p) in
              let src := Void_ptr (index s) in
              emit (Memcpy dst src (to_int (td_size (cparam_type p))) 4)
            else
              errorfmt
                "Incompatible formal argument {} to '{}' closure ({} {}, expected {}). Prototypes don't match renderer registry ({}:{})."
                [print_int (carg + 1); closure_name;
                 typespec_str (typespec s); unmangled s;
                 typedesc_str (cparam_type p); sourcefile op;
                 print_int (sourceline op)] in
          formal_loop op clentry closure_name weighted mem_void_ptr n'
            (carg + 1)
      end
  end.

Definition llvm_gen_closure (opnum : Z) : Gen bool :=
  let* op := deref (at_index (m_instops (inst rop)) opnum) in
  let* Result := deref (opargsym rop op 0) in
  let* arg1 := deref (opargsym rop op 1) in
  let weighted := if is_string (typespec arg1) then 0 else 1 in
  let weight := if weighted =? 0 then None else Some arg1 in
  let* Id := deref (opargsym rop op (1 + weighted)) in
  let* closure_name := deref (get_string Id) in
  match find_closure rop closure_name with
  | None =>
      let* _ :=
        errorfmt
          ("Closure '{}' is not supported by the current renderer, called from {}:{} in shader "
           ++ dquote ++ "{}" ++ dquote ++ ", layer {} " ++ dquote ++ "{}"
           ++ dquote ++ ", group " ++ dquote ++ "{}" ++ dquote)
          [closure_name; sourcefile op; print_int (sourceline op);
           shadername (m_master (inst rop)); print_int (layer rop);
           m_layername (inst rop); group_name rop] in
      gret false
  | Some clentry =>
      let render_ptr := Constant_ptr "renderer" in
      let sg_ptr := Sg_void_ptr in
      let id_int := Constant_int (closure_id clentry) in
      let size_int := Constant_int (struct_size clentry) in
      let* return_ptr :=
        match weight with
        | Some w =>
            call_function "osl_allocate_weighted_closure_component"
              [sg_ptr; id_int; size_int; Void_ptr (index w)]
        | None =>
            call_function "osl_allocate_closure_component"
              [sg_ptr; id_int; size_int]
        end in
      let comp_void_ptr := return_ptr in
      let* next_block :=
        match weight with
        | Some w =>
            if negb (is_constant w && negb (is_zero rop w)) then
              let* notnull_block := new_basic_block "non_null_closure" in
              let* next_block := new_basic_block EmptyString in
              let cond := Op_ne return_ptr Void_ptr_null in
              let* _ := emit (Branch_if cond notnull_block next_block) in
              gret (Some next_block)
            else gret None
        | None => gret None
        end in
      let comp_ptr := Ptr_cast comp_void_ptr "closure_component_ptr" in
      let mem_void_ptr :=
        Ptr_cast (GEP "closure_component" comp_ptr 0 2) "void_ptr" in
      let* _ :=
        match prepare clentry with
        | Some f =>
            let funct_ptr := Constant_ptr f in
            let* _ := call_pointer funct_ptr
                        [render_ptr; id_int; mem_void_ptr] in
            gret tt
        | None => emit (Memset mem_void_ptr 0 (struct_size clentry) 4)
        end in
      let* _ := formal_loop op clentry closure_name weighted mem_void_ptr
                  (Z.to_nat (nformal clentry)) 0 in
      let* _ :=
        match setup clentry with
        | Some f =>
            let funct_ptr := Constant_ptr f in
            let* _ := call_pointer funct_ptr
                        [render_ptr; id_int; mem_void_ptr] in
            gret tt
        | None => gret tt
        end in
      let* _ := llvm_gen_keyword_fill op clentry closure_name mem_void_ptr
                  (2 + weighted + nformal clentry) in
      let* _ :=
        match next_block with
        | Some b => emit (Branch b)
        | None => gret tt
        end in
      let* _ := llvm_store_value return_ptr Result 0 0 in
      gret true
  end.

End generators.

End LLVMGen.

(** ** instance.cpp *)

Module Inst.

(** The options of the shading system that this file reads. *)
Record ShadingSystem := mkShadingSystem
  { relaxed_param_typecheck : bool;
    m_opt_merge_instances_with_userdata : bool }.

(** Comparisons of override records and of opcodes, and the conversions
    between [int] and [float], come from headers and from the language. *)
Class MergeRules := mkMergeRules
  { equivalent_override : SymOverrideInfo -> SymOverrideInfo -> bool;
    equivalent_opcode : Opcode -> Opcode -> bool }.

Class Conversions := mkConversions
  { float_of_int : Z -> Z;
    int_of_float : Z -> Z }.

Record ParamValue := mkParamValue
  { pv_name : string;
    pv_type : TypeDesc;
    pv_data : Data }.

(** Modelled from the spec: [ParamHints] is declared in a header that is
    not among the sources; it carries the "interpolated/interactive
    hints" of a value, one bit each. *)
Definition hint_interpolated : Z := 1.
Definition hint_interactive : Z := 2.

Definition has_hint (hint flag : Z) : bool := Z.land hint flag =? flag.

(** *** Field updates *)

Definition with_overrides (inst : ShaderInstance)
    (ov : list SymOverrideInfo) : ShaderInstance :=
  mkInstance (m_master inst) (m_instsymbols inst) (m_instops inst)
    (m_instargs inst) (m_layername inst) ov (m_iparams inst)
    (m_fparams inst) (m_sparams inst) (m_connections inst)
    (m_run_lazily inst) (m_renderer_outputs inst) (m_userdata_params inst)
    (m_firstparam inst) (m_lastparam inst) (m_maincodebegin inst)
    (m_maincodeend inst) (m_Psym inst) (m_Nsym inst).

Definition with_params (inst : ShaderInstance) (ip fp : list Z)
    (sp : list string) : ShaderInstance :=
  mkInstance (m_master inst) (m_instsymbols inst) (m_instops inst)
    (m_instargs inst) (m_layername inst) (m_instoverrides inst) ip fp sp
    (m_connections inst) (m_run_lazily inst) (m_renderer_outputs inst)
    (m_userdata_params inst) (m_firstparam inst) (m_lastparam inst)
    (m_maincodebegin inst) (m_maincodeend inst) (m_Psym inst) (m_Nsym inst).

Definition set_valuesource (so : SymOverrideInfo) (v : ValueSource) :=
  mkOverride v (so_connected_down so) (so_interpolated so)
    (so_interactive so) (so_arraylen so) (so_dataoffset so).

Definition set_interpolated (so : SymOverrideInfo) (v : bool) :=
  mkOverride (so_valuesource so) (so_connected_down so) v
    (so_interactive so) (so_arraylen so) (so_dataoffset so).

Definition set_interactive (so : SymOverrideInfo) (v : bool) :=
  mkOverride (so_valuesource so) (so_connected_down so) (so_interpolated so)
    v (so_arraylen so) (so_dataoffset so).

Definition set_arraylen (so : SymOverrideInfo) (v : Z) :=
  mkOverride (so_valuesource so) (so_connected_down so) (so_interpolated so)
    (so_interactive so) v (so_dataoffset so).

Definition set_dataoffset (so : SymOverrideInfo) (v : Z) :=
  mkOverride (so_valuesource so) (so_connected_down so) (so_interpolated so)
    (so_interactive so) (so_arraylen so) v.

(** [v.resize (n)] with value-initialised new elements. *)
Definition resize {A} (v : list A) (n : nat) (zero : A) : list A :=
  take n v ++ replicate (n - length v) zero.

(** *** Parameter lookup and storage *)

(** [for (i = first; i < last; ++i) if (syms[i].name () == name) return i;]
    over [n] remaining indices; [Some None] when the loop ends. *)
Fixpoint find_name (syms : list Symbol) (name : string) (n : nat) (i : Z)
    : option (option Z) :=
  match n with
  | O => Some None
  | S n' =>
      s ← at_index syms i;
      if decide (sym_name s = name) then Some (Some i)
      else find_name syms name n' (i + 1)
  end.

Definition findparam (inst : ShaderInstance) (name : string)
    (search_master : bool) : option Z :=
  let n := Z.to_nat (m_lastparam inst - m_firstparam inst) in
  found ←
    (if negb (bool_decide (m_instsymbols inst = []))
     then find_name (m_instsymbols inst) name n (m_firstparam inst)
     else Some None);
  match found with
  | Some i => Some i
  | None =>
      if search_master then
        found' ← find_name (m_symbols (m_master inst)) name n
                   (m_firstparam inst);
        Some (default (-1) found')
      else Some (-1)
  end.

(** Where a parameter's value lives: an element of one of the three
    pools, or null. *)
Inductive Storage :=
| InInts (offset : Z)
| InFloats (offset : Z)
| InStrings (offset : Z)
| Null.

Definition storage_of (t : TypeDesc) (offset : Z) : Storage :=
  match basetype t with
  | INT => InInts offset
  | FLOAT => InFloats offset
  | STRING => InStrings offset
  | _ => Null
  end.

Definition param_storage (inst : ShaderInstance) (index : Z)
    : option Storage :=
  s ← (if negb (bool_decide (m_instsymbols inst = []))
       then symbol inst index else mastersymbol inst index);
  offset ←
    (if negb (bool_decide (m_instoverrides inst = [])) then
       so ← at_index (m_instoverrides inst) index;
       Some (if negb (so_arraylen so =? 0) then so_dataoffset so
             else dataoffset s)
     else Some (dataoffset s));
  Some (storage_of (simpletype (typespec s)) offset).

(** Modelled from the spec: [ShaderMaster::param_default_storage] is not
    in this file.  The "Master's default" of a parameter is read from the
    master's default pool of the parameter's base type, at the data offset
    of the master's symbol. *)
Definition param_default_storage (m : ShaderMaster) (index : Z)
    : option Storage :=
  s ← at_index (m_symbols m) index;
  Some (storage_of (simpletype (typespec s)) (dataoffset s)).

(** Reading [n] base values through a pointer into the three pools. *)
Definition read (ip fp : list Z) (sp : list string) (p : Storage) (n : Z)
    : option Data :=
  match p with
  | InInts off => DInt <$> slice ip off n
  | InFloats off => DFloat <$> slice fp off n
  | InStrings off => DString <$> slice sp off n
  | Null => None
  end.

(** The number of elements of the pool that holds values of a base
    type. *)
Definition pool_size (inst : ShaderInstance) (b : BASETYPE) : nat :=
  match b with
  | INT => length (m_iparams inst)
  | FLOAT => length (m_fparams inst)
  | STRING => length (m_sparams inst)
  | _ => O
  end.

Definition read_params (inst : ShaderInstance) (p : Storage) (n : Z)
    : option Data :=
  read (m_iparams inst) (m_fparams inst) (m_sparams inst) p n.

Definition read_defaults (m : ShaderMaster) (p : Storage) (n : Z)
    : option Data :=
  read (m_idefaults m) (m_fdefaults m) (m_sdefaults m) p n.

(** The first [n] base values of a run. *)
Definition data_prefix (d : Data) (n : Z) : option Data :=
  match d with
  | DInt l => DInt <$> slice l 0 n
  | DFloat l => DFloat <$> slice l 0 n
  | DString l => DString <$> slice l 0 n
  end.

(** [memcpy (p, data, n values)] into the instance's pools.  The values
    must have the base type of the pool. *)
Definition write_params (inst : ShaderInstance) (p : Storage) (d : Data)
    : option ShaderInstance :=
  match p, d with
  | InInts off, DInt l =>
      ip ← blit (m_iparams inst) off l;
      Some (with_params inst ip (m_fparams inst) (m_sparams inst))
  | InFloats off, DFloat l =>
      fp ← blit (m_fparams inst) off l;
      Some (with_params inst (m_iparams inst) fp (m_sparams inst))
  | InStrings off, DString l =>
      sp ← blit (m_sparams inst) off l;
      Some (with_params inst (m_iparams inst) (m_fparams inst) sp)
  | _, _ => None
  end.

(** *** parameters *)

Definition warning (fmt : string) (args : list string) : Diagnostic :=
  mkDiag SevWarning (fmtformat fmt args).

Definition error (fmt : string) (args : list string) : Diagnostic :=
  mkDiag SevError (fmtformat fmt args).

Section parameters.
Context `{TypeRules} `{Conversions} `{Printer} (ss : ShadingSystem).

Definition compatible_param (a b : TypeDesc) : bool :=
  equivalent a b || (is_vec3 a && bool_decide (b = TypeFloat)).

(** The first loop: interpolated, interactive and data offset of every
    override come from the master's symbol. *)
Fixpoint seed_overrides (m : ShaderMaster) (ov : list SymOverrideInfo)
    (i : Z) : option (list SymOverrideInfo) :=
  match ov with
  | [] => Some []
  | so :: ov' =>
      s ← at_index (m_symbols m) i;
      rest ← seed_overrides m ov' (i + 1);
      Some (set_dataoffset
              (set_interactive (set_interpolated so (interpolated s))
                 (interactive s))
              (dataoffset s) :: rest)
  end.

(** The type check of one supplied value: the messages it reports and,
    unless the value is skipped, the data and the type to bind. *)
Definition typecheck (sm : Symbol) (data : Data) (valuetype : TypeDesc)
    : option (list Diagnostic * option (Data * TypeDesc)) :=
  let paramtype := simpletype (typespec sm) in
  if relaxed_param_typecheck ss then
    converted ←
      (if (bool_decide (paramtype = TypeFloat) || is_vec3 paramtype)
          && bool_decide (basetype valuetype = INT)
          && (basevalues valuetype =? 1)
       then
         match data with
         | DInt (val :: _) =>
             let conv := float_of_int val in
             Some (if negb (val =? int_of_float conv)
                   then [error
                           "attempting to set parameter from wrong type would change the value: {} (set {:.9g} from {})"
                           [sym_name sm; float_str conv; print_int val]]
                   else [],
                   DFloat [conv], TypeFloat)
         | _ => None
         end
       else Some ([], data, valuetype));
    let '(msgs, data, valuetype) := converted in
    if negb (relaxed_equivalent (typespec sm) valuetype) then
      Some (msgs ++
            [error
               "attempting to set parameter from incompatible type: {} (expected '{}', received '{}')"
               [sym_name sm; typedesc_str paramtype;
                typedesc_str valuetype]],
            None)
    else Some (msgs, Some (data, valuetype))
  else if negb (compatible_param paramtype valuetype) then
    Some ([warning
             "attempting to set parameter with wrong type: {} (expected '{}', received '{}')"
             [sym_name sm; typedesc_str paramtype; typedesc_str valuetype]],
          None)
  else Some ([], Some (data, valuetype)).

(** [memcmp (defaultdata, data, valuetype.size ()) == 0]. *)
Definition same_as_default (m : ShaderMaster) (defaultdata : Storage)
    (data : Data) (valuetype : TypeDesc) : option bool :=
  d1 ← read_defaults m defaultdata (basevalues valuetype);
  d2 ← data_prefix data (basevalues valuetype);
  if decide (data_basetype d1 = data_basetype d2)
  then Some (bool_decide (d1 = d2))
  else None.

(** The indefinite-length branch: the array length is recorded and the
    storage is allocated at the end of the pool of the base type. *)
Definition allocate_unsized (inst : ShaderInstance) (so : SymOverrideInfo)
    (paramtype valuetype : TypeDesc)
    : option (SymOverrideInfo * ShaderInstance) :=
  let nelements := to_int (basevalues valuetype) in
  if aggregate paramtype =? 0 then None
  else
    let so := set_arraylen so (Z.quot nelements (aggregate paramtype)) in
    match basetype paramtype with
    | FLOAT =>
        Some (set_dataoffset so (size_as_int (m_fparams inst)),
              with_params inst (m_iparams inst)
                (expand (m_fparams inst) nelements 0) (m_sparams inst))
    | INT =>
        Some (set_dataoffset so (size_as_int (m_iparams inst)),
              with_params inst (expand (m_iparams inst) nelements 0)
                (m_fparams inst) (m_sparams inst))
    | STRING =>
        Some (set_dataoffset so (size_as_int (m_sparams inst)),
              with_params inst (m_iparams inst) (m_fparams inst)
                (expand (m_sparams inst) nelements EmptyString))
    | _ => Some (so, inst)
    end.

(** A float supplied for a triple is replicated into the three
    components, and the value takes the type of the parameter. *)
Definition replicate_float (paramtype : TypeDesc) (data : Data)
    (valuetype : TypeDesc) : option (Data * TypeDesc) :=
  if is_vec3 paramtype && bool_decide (valuetype = TypeFloat) then
    match data with
    | DFloat (x :: _) => Some (DFloat [x; x; x], paramtype)
    | _ => None
    end
  else Some (data, valuetype).

(** The body of the loop over the supplied values. *)
Definition bind_param (hints : list Z) (pi : Z) (p : ParamValue)
    (inst : ShaderInstance) : option (ShaderInstance * list Diagnostic) :=
  if decide (pv_name p = EmptyString) then Some (inst, [])
  else
    i ← findparam inst (pv_name p) true;
    if 0 <=? i then
      sm ← at_index (m_symbols (m_master inst)) i;
      so ← at_index (m_instoverrides inst) i;
      let sm_typespec := typespec sm in
      if is_closure_based sm_typespec then
        Some (inst,
              [warning "skipping assignment of closure: {}" [sym_name sm]])
      else if is_structure sm_typespec then Some (inst, [])
      else
        let paramtype := simpletype sm_typespec in
        '(msgs, checked) ← typecheck sm (pv_data p) (pv_type p);
        match checked with
        | None => Some (inst, msgs)
        | Some (data, valuetype) =>
            let so := set_valuesource so InstanceVal in
            hint ← at_index hints pi;
            let so := set_interpolated so
                        (interpolated sm
                         || has_hint hint hint_interpolated) in
            let so := set_interactive so (has_hint hint hint_interactive) in
            let lockgeom :=
              negb (so_interpolated so) && negb (so_interactive so) in
            let so := set_dataoffset so (dataoffset sm) in
            '(data, valuetype) ← replicate_float paramtype data valuetype;
            '(so, inst) ←
              (if arraylen paramtype <? 0
               then allocate_unsized inst so paramtype valuetype
               else
                 defaultdata ← param_default_storage (m_master inst) i;
                 if lockgeom && negb (has_init_ops sm) then
                   same ← same_as_default (m_master inst) defaultdata data
                            valuetype;
                   Some (if same : bool then set_valuesource so DefaultVal
                         else so, inst)
                 else Some (so, inst));
            ov ← set_index (m_instoverrides inst) i so;
            let inst := with_overrides inst ov in
            storage ← param_storage inst i;
            payload ← data_prefix data (basevalues valuetype);
            inst ← write_params inst storage payload;
            Some (inst, msgs)
        end
    else
      Some (inst,
            [warning "attempting to set nonexistent parameter: {}"
               [pv_name p]]).

Fixpoint bind_params (hints : list Z) (params : list ParamValue) (pi : Z)
    (inst : ShaderInstance) : option (ShaderInstance * list Diagnostic) :=
  match params with
  | [] => Some (inst, [])
  | p :: params' =>
      '(inst, msgs) ← bind_param hints pi p inst;
      '(inst, msgs') ← bind_params hints params' (pi + 1) inst;
      Some (inst, msgs ++ msgs')
  end.

Definition parameters (inst : ShaderInstance) (params : list ParamValue)
    (hints : list Z) : option (ShaderInstance * list Diagnostic) :=
  let m := m_master inst in
  let inst := with_params inst (m_idefaults m) (m_fdefaults m)
                (m_sdefaults m) in
  let ov := resize (m_instoverrides inst)
              (Z.to_nat (Z.max 0 (m_lastparam inst))) so_default in
  ov ← seed_overrides m ov 0;
  bind_params hints params 0 (with_overrides inst ov).

End parameters.

(** *** mergeable *)

Section mergeable.
Context `{MergeRules} (ss : ShadingSystem).

Definition default_or_instance (v : ValueSource) : bool :=
  bool_decide (v = DefaultVal) || bool_decide (v = InstanceVal).

(** An instance that owns symbols or code has been optimized. *)
Definition optimized (a : ShaderInstance) : bool :=
  negb (bool_decide (m_instsymbols a = []))
  || negb (bool_decide (m_instops a = [])).

(** [memcmp (a.data (), b.data (), n values) != 0] on the data of two
    constants. *)
Definition data_differ (a b : option Data) (n : Z) : option bool :=
  da ← a; db ← b;
  pa ← data_prefix da n; pb ← data_prefix db n;
  if decide (data_basetype pa = data_basetype pb)
  then Some (negb (bool_decide (pa = pb)))
  else None.

(** Are two symbols equivalent, from the point of view of merging? *)
Definition equivalent_symbol (a b : Symbol) : option bool :=
  if negb (everused a) && negb (everused b) then Some true
  else if negb (bool_decide (symtype a = symtype b))
          || negb (bool_decide (typespec a = typespec b))
  then Some false
  else if negb (bool_decide (symtype a = SymTypeTemp))
          && negb (bool_decide (symtype a = SymTypeConst))
          && negb (bool_decide (sym_name a = sym_name b))
  then Some false
  else
    differ ←
      (if bool_decide (symtype a = SymTypeConst)
       then data_differ (sym_data a) (sym_data b)
              (basevalues (simpletype (typespec a)))
       else Some false);
    if differ : bool then Some false
    else Some (bool_decide (has_derivs a = has_derivs b)
               && bool_decide (lockgeom a = lockgeom b)
               && bool_decide (valuesource a = valuesource b)
               && (fieldid a =? fieldid b)
               && (initbegin a =? initbegin b)
               && (initend a =? initend b)).

(** Are two vectors equivalent in each of their members? *)
Fixpoint equivalent_members {T} (eqv : T -> T -> option bool)
    (a b : list T) : option bool :=
  match a, b with
  | x :: a', y :: b' =>
      e ← eqv x y;
      if e : bool then equivalent_members eqv a' b' else Some false
  | _, _ => Some true
  end.

Definition equivalent_vectors {T} (eqv : T -> T -> option bool)
    (a b : list T) : option bool :=
  if negb (length a =? length b)%nat then Some false
  else equivalent_members eqv a b.

(** The loop over the override records.  [Some true]: the loop ran to
    its end; [Some false]: [return false]. *)
Fixpoint overrides_loop (a b : ShaderInstance) (n : nat) (i : Z)
    : option bool :=
  match n with
  | O => Some true
  | S n' =>
      oa ← at_index (m_instoverrides a) i;
      ob ← at_index (m_instoverrides b) i;
      if default_or_instance (so_valuesource oa)
         && default_or_instance (so_valuesource ob)
      then overrides_loop a b n' (i + 1)
      else if negb (equivalent_override oa ob) then
        s ← mastersymbol a i;
        bsym ← mastersymbol b i;
        if negb (everused_in_group s) && negb (everused_in_group bsym)
        then overrides_loop a b n' (i + 1)
        else Some false
      else if negb (bool_decide (so_interpolated oa = so_interpolated ob))
              || negb (bool_decide (so_interactive oa = so_interactive ob))
      then Some false
      else overrides_loop a b n' (i + 1)
  end.

(** [memcmp (param_storage (i), b.param_storage (i), n values) != 0]. *)
Definition params_differ (a b : ShaderInstance) (i n : Z) : option bool :=
  pa ← param_storage a i;
  pb ← param_storage b i;
  da ← read_params a pa n;
  db ← read_params b pb n;
  if decide (data_basetype da = data_basetype db)
  then Some (negb (bool_decide (da = db)))
  else None.

(** The loop over the parameters, from [firstparam] to [lastparam]. *)
Fixpoint params_loop (a b : ShaderInstance) (optimized : bool) (n : nat)
    (i : Z) : option bool :=
  match n with
  | O => Some true
  | S n' =>
      s ← (if optimized then symbol a i else mastersymbol a i);
      if negb (everused_in_group s) then
        params_loop a b optimized n' (i + 1)
      else if is_closure (typespec s) then
        params_loop a b optimized n' (i + 1)
      else if default_or_instance (valuesource s) then
        differ ← params_differ a b i (basevalues (simpletype (typespec s)));
        if differ : bool then Some false
        else
          b_sym ← (if optimized then symbol b i else mastersymbol b i);
          if interactive b_sym then Some false
          else params_loop a b optimized n' (i + 1)
      else params_loop a b optimized n' (i + 1)
  end.

Definition mergeable (a b : ShaderInstance) : option bool :=
  if negb (master_addr (m_master a) =? master_addr (m_master b))
  then Some false
  else if m_renderer_outputs a || m_renderer_outputs b then Some false
  else
    let optimized := optimized a in
    same_overrides ←
      (if negb (bool_decide (m_instoverrides a = []))
          || negb (bool_decide (m_instoverrides b = []))
       then
         if optimized then None
         else if negb (length (m_instoverrides a)
                       =? length (m_instoverrides b))%nat
         then None
         else overrides_loop a b (length (m_instoverrides a)) 0
       else Some true);
    if negb same_overrides then Some false
    else
      same_params ←
        params_loop a b optimized
          (Z.to_nat (m_lastparam a - m_firstparam a)) (m_firstparam a);
      if negb same_params then Some false
      else if negb (bool_decide (m_run_lazily a = m_run_lazily b))
      then Some false
      else if negb (length (m_connections a) =? length (m_connections b))%nat
      then Some false
      else if negb (bool_decide (m_connections a = m_connections b))
      then Some false
      else if negb (m_opt_merge_instances_with_userdata ss)
              && (m_userdata_params a || m_userdata_params b)
      then Some false
      else if negb optimized then Some true
      else
        same_symbols ←
          equivalent_vectors equivalent_symbol (m_instsymbols a)
            (m_instsymbols b);
        if negb same_symbols then Some false
        else
          same_ops ←
            equivalent_vectors (fun x y => Some (equivalent_opcode x y))
              (m_instops a) (m_instops b);
          if negb same_ops then Some false
          else if negb (bool_decide (m_instargs a = m_instargs b))
          then Some false
          else if negb (m_firstparam a =? m_firstparam b)
                  || negb (m_lastparam a =? m_lastparam b)
                  || negb (m_maincodebegin a =? m_maincodebegin b)
                  || negb (m_maincodeend a =? m_maincodeend b)
                  || negb (m_Psym a =? m_Psym b)
                  || negb (m_Nsym a =? m_Nsym b)
          then Some false
          else Some true.

End mergeable.

End Inst.

(** ** What the emitted code computes *)

Module Runtime.
Import LLVMGen.

(** The arithmetic of the target on one kind of number ([float] or
    [int]).  [eqb x y] is the comparison [x == y] of the language. *)
Class Arith := mkArith
  { number : Type;
    zero : number;
    of_float_bits : Z -> number;
    of_int_constant : Z -> number;
    add : number -> number -> number;
    sub : number -> number -> number;
    mul : number -> number -> number;
    div : number -> number -> number;
    leb : number -> number -> bool;
    gtb : number -> number -> bool;
    eqb : number -> number -> bool;
    safe_div_by_zero : number -> number;
    leb_of_eqb : forall x y, eqb x y = true -> leb x y = true }.

(** Modelled from the spec: the runtime functions [osl_safe_div_fff] and
    [osl_safe_div_iii] are not in llvm_gen.cpp.  A safe divide "must not
    trap on zero", and on a divisor that is not zero it is the division
    itself; what it returns on a zero divisor is left to the runtime. *)
Definition safe_div `{Arith} (a b : number) : number :=
  if eqb b zero then safe_div_by_zero a else div a b.

Section eval.
Context `{Arith}.

Inductive RtValue :=
| Num (x : number)
| Bit (b : bool)
| Undef.

Definition arith (f : number -> number -> number) (x y : RtValue)
    : RtValue :=
  match x, y with
  | Num a, Num b => Num (f a b)
  | _, _ => Undef
  end.

Definition compare (f : number -> number -> bool) (x y : RtValue)
    : RtValue :=
  match x, y with
  | Num a, Num b => Bit (f a b)
  | _, _ => Undef
  end.

Definition is_safe_div (name : string) : bool :=
  bool_decide (name = "osl_safe_div_fff")
  || bool_decide (name = "osl_safe_div_iii").

(** The value of an expression, given what every load reads. *)
Fixpoint eval (mem : Z -> Z -> Z -> TypeDesc -> number) (v : Value)
    : RtValue :=
  match v with
  | Load s d c t => Num (mem s d c t)
  | Constant_float bits => Num (of_float_bits bits)
  | Constant_int z => Num (of_int_constant z)
  | Op_add a b => arith add (eval mem a) (eval mem b)
  | Op_sub a b => arith sub (eval mem a) (eval mem b)
  | Op_mul a b => arith mul (eval mem a) (eval mem b)
  | Op_div a b => arith div (eval mem a) (eval mem b)
  | Op_le a b => compare leb (eval mem a) (eval mem b)
  | Op_gt a b => compare gtb (eval mem a) (eval mem b)
  | Op_select c a b =>
      match eval mem c with
      | Bit true => eval mem a
      | Bit false => eval mem b
      | _ => Undef
      end
  | Call_function name [a; b] =>
      if is_safe_div name
      then arith safe_div (eval mem a) (eval mem b)
      else Undef
  | _ => Undef
  end.
End eval.

(** The values stored, in order, to one channel of one component of a
    symbol. *)
Definition stored_to (s d c : Z) (i : Instr) : option Value :=
  match i with
  | Store_value v s' d' None c' =>
      if bool_decide (s' = s) && bool_decide (d' = d) && bool_decide (c' = c)
      then Some v else None
  | _ => None
  end.

Definition stores_to (tr : list Instr) (s d c : Z) : list Value :=
  omap (stored_to s d c) tr.

(** Does the pointer point into the storage of the symbol? *)
Fixpoint points_to (s : Z) (p : Value) : bool :=
  match p with
  | Void_ptr s' => bool_decide (s' = s)
  | Offset_ptr p' _ | Ptr_cast p' _ | GEP _ p' _ _ => points_to s p'
  | _ => false
  end.

(** What an instruction leaves in a channel of a component of a symbol:
    a value that is known, or one that is not, when the storage of the
    symbol is handed to code outside the emitted sequence (a call, a
    memset or a memcpy that receives a pointer to it) or is stored to at
    an index that is computed. *)
Inductive Written :=
| Known (v : Value)
| Unknown.

(** Modelled from the spec: [BackendLLVM::llvm_zero_derivs] is not in
    llvm_gen.cpp.  "If a result symbol has derivatives but no contributing
    operand does, its derivative channels must be explicitly zero-filled":
    the instruction writes the constant zero to the dx and dy channels of
    every component of the symbol. *)
Definition written_to (s d c : Z) (i : Instr) : option Written :=
  match i with
  | Store_value _ _ _ None _ => Known <$> stored_to s d c i
  | Store_value _ s' d' (Some _) _ =>
      if bool_decide (s' = s) && bool_decide (d' = d)
      then Some Unknown else None
  | Zero_derivs s' =>
      if bool_decide (s' = s) && ((d =? 1) || (d =? 2))
      then Some (Known (Constant_float 0)) else None
  | Call _ args | Call_indirect _ args =>
      if existsb (points_to s) args then Some Unknown else None
  | Call_on_symbols _ syms =>
      if existsb (Z.eqb s) syms then Some Unknown else None
  | Memset p _ _ _ | Memcpy p _ _ _ =>
      if points_to s p then Some Unknown else None
  | Branch_if _ _ _ | Branch _ => None
  end.

(** What a channel of a component of a symbol holds after an emitted
    sequence without branches has run: the value that the last
    instruction that writes the channel leaves there, when it is
    known. *)
Definition content (tr : list Instr) (s d c : Z) : option Value :=
  match last (omap (written_to s d c) tr) with
  | Some (Known v) => Some v
  | _ => None
  end.

(** An instruction that leaves the storage of the symbol to the stores of
    the sequence: a store to a component, or a call that receives no
    pointer to the symbol. *)
Definition plain (s : Z) (i : Instr) : bool :=
  match i with
  | Store_value _ _ _ None _ => true
  | Call _ args => negb (existsb (points_to s) args)
  | _ => false
  end.

(** The calls of a named function in the emitted sequence. *)
Definition calls_of (tr : list Instr) (name : string)
    : list (list Value) :=
  omap (fun i => match i with
                 | Call n args => if decide (n = name) then Some args else None
                 | _ => None
                 end) tr.

(** *** IEEE binary32 *)

Definition prec32 : Z := 24.
Definition emax32 : Z := 128.

Definition decode32 (bits : Z) : spec_float :=
  let s := Z.testbit bits 31 in
  let e := Z.land (Z.shiftr bits 23) 255 in
  let m := Z.land bits (2 ^ 23 - 1) in
  if e =? 0 then
    match m with
    | Zpos p => S754_finite s p (-149)
    | _ => S754_zero s
    end
  else if e =? 255 then
    if m =? 0 then S754_infinity s else S754_nan
  else
    match m + 2 ^ 23 with
    | Zpos p => S754_finite s p (e - 150)
    | _ => S754_nan
    end.

End Runtime.
(** ** dictionary.cpp: documents and queries for nodes *)

From stdpp Require Import gmap.

Open Scope Z_scope.

(** The result of signed arithmetic on [int]: undefined when it
    overflows. *)
Definition int_of (z : Z) : option Z :=
  if (- 2 ^ 31 <=? z) && (z <? 2 ^ 31) then Some z else None.

(** [Strutil::ends_with] of OpenImageIO. *)
Definition ends_with (s suffix : string) : bool :=
  let n := String.length s in
  let k := String.length suffix in
  (k <=? n)%nat && bool_decide (substring (n - k) k s = suffix).

Module Documents.
Import Dictionary.

(** What the code reads of a [pugi::xml_parse_result]: its conversion to
    [bool], its description and its offset. *)
Record xml_parse_result := mk_parse_result
  { parse_ok : bool;
    description : string;
    parse_offset : Z }.

(** pugixml, taken as given: loading a document from a file or from a
    string, and the node set an XPath query selects from a document or
    from a node, as the list of its nodes in the order in which the code
    iterates it (the order in which the library returned them: the code
    does not sort the set).  [inl what] is an [xpath_exception] and its
    message. *)
Class Pugi := mkPugi
  { xml_document : Type;
    load_file : string -> xml_document * xml_parse_result;
    load_string : string -> xml_document * xml_parse_result;
    document_select_nodes :
      xml_document -> string -> string + list xml_node;
    node_select_nodes : xml_node -> string -> string + list xml_node }.

(** An [ExecContextPtr] is null or the address of an execution context;
    an error goes to the shading context when it is null, and to the
    execution context otherwise. *)
Inductive Sink :=
| ToContext
| ToExecContext (ec : Z).

Definition sink_of (ec : option Z) : Sink :=
  match ec with
  | None => ToContext
  | Some e => ToExecContext e
  end.

Section find.
Context `{Pugi}.

(** The [Dictionary] object: the documents read so far, the map from
    names to their indices, the members that [dict_value] uses, and the
    errors reported so far. *)
Record Store := mkStore
  { m_documents : list xml_document;
    m_document_map : gmap string Z;
    dict : t;
    log : list (Sink * Diagnostic) }.

(** The null node that the constructor stores as element 0. *)
Definition null_node : xml_node := mk_xml_node EmptyString [].

(** [Dictionary::Dictionary]: element 0 of the nodes is the placeholder
    for 'not found'. *)
Definition Dictionary_new : Store :=
  mkStore [] ∅ (mkDictionary [] [mkNode 0 null_node 0] [] [] []) [].

Definition with_dict (st : Store) (d : t) : Store :=
  mkStore (m_documents st) (m_document_map st) d (log st).

Definition with_cache (d : t) (c : QueryMap) : t :=
  mkDictionary c (m_nodes d) (m_floatdata d) (m_intdata d) (m_stringdata d).

Definition with_nodes (d : t) (nodes : list Node) : t :=
  mkDictionary (m_cache d) nodes (m_floatdata d) (m_intdata d)
    (m_stringdata d).

Definition errorfmt (ec : option Z) (fmt : string) (args : list string)
    (st : Store) : Store :=
  mkStore (m_documents st) (m_document_map st) (dict st)
    (log st ++ [(sink_of ec, mkDiag SevError (fmtformat fmt args))]).

(** Return the document index given the dictionary name. *)
Definition get_document_index (ec : option Z) (dictionaryname : string)
    (st : Store) : Z * Store :=
  match m_document_map st !! dictionaryname with
  | None =>
      let dindex := size_as_int (m_documents st) in
      let '(doc, parse_result) :=
        if ends_with dictionaryname ".xml"
        then load_file dictionaryname
        else load_string dictionaryname in
      let st :=
        mkStore (m_documents st ++ [doc])
          (<[dictionaryname := dindex]> (m_document_map st)) (dict st)
          (log st) in
      if negb (parse_ok parse_result) then
        let st :=
          errorfmt ec "XML parsed with errors: {}, at offset {}"
            [description parse_result;
             print_int (parse_offset parse_result)] st in
        (-1,
         mkStore (m_documents st)
           (<[dictionaryname := -1]> (m_document_map st)) (dict st)
           (log st))
      else (dindex, st)
  | Some dindex => (dindex, st)
  end.

(** [m_nodes[last].next = nodeid]. *)
Definition set_next (nodes : list Node) (last nodeid : Z)
    : option (list Node) :=
  n ← at_index nodes last;
  set_index nodes last (mkNode (document n) (node n) nodeid).

(** The loop over the matches: every match becomes a new node; the first
    one is entered in the cache, and every later one is linked from the
    one before. *)
Fixpoint link_matches (document : Z) (q : Query) (matches : list xml_node)
    (last : Z) (d : t) : option t :=
  match matches with
  | [] => Some d
  | m :: matches' =>
      let nodes := m_nodes d ++ [mkNode document m 0] in
      nodeid ← int_of (size_as_int nodes - 1);
      d ← (if last <? 0 then
             Some (with_cache (with_nodes d nodes)
                     (cache_set (m_cache d) q (mkQueryResult nodeid true)))
           else
             nodes ← set_next nodes last nodeid;
             Some (with_nodes d nodes));
      link_matches document q matches' nodeid d
  end.

(** What follows the cache miss, in both overloads of [dict_find]. *)
Definition lookup (ec : option Z) (document : Z) (q : Query)
    (query : string) (selected : string + list xml_node) (st : Store)
    : option (Z * Store) :=
  match selected with
  | inl what =>
      Some (0, errorfmt ec "Invalid dict_find query '{}': {}" [query; what]
                 st)
  | inr [] =>
      Some (0,
            with_dict st
              (with_cache (dict st)
                 (cache_set (m_cache (dict st)) q (mkQueryResult 0 false))))
  | inr matches =>
      let firstmatch := size_as_int (m_nodes (dict st)) in
      d ← link_matches document q matches (-1) (dict st);
      Some (firstmatch, with_dict st d)
  end.

(** [dict_find (ec, dictionaryname, query)]. *)
Definition dict_find (ec : option Z) (dictionaryname query : string)
    (st : Store) : option (Z * Store) :=
  let '(dindex, st) := get_document_index ec dictionaryname st in
  if dindex <? 0 then Some (dindex, st)
  else
    let q := mkQuery dindex 0 query TypeUnknown in
    match cache_find (m_cache (dict st)) q with
    | Some found => Some (valueoffset found, st)
    | None =>
        doc ← at_index (m_documents st) dindex;
        lookup ec dindex q query (document_select_nodes doc query) st
    end.

(** [dict_find (ec, nodeID, query)]. *)
Definition dict_find_node (ec : option Z) (nodeID : Z) (query : string)
    (st : Store) : option (Z * Store) :=
  if (nodeID <=? 0) || (size_as_int (m_nodes (dict st)) <=? nodeID)
  then Some (0, st)
  else
    nd ← at_index (m_nodes (dict st)) nodeID;
    let document := document nd in
    let q := mkQuery document nodeID query TypeUnknown in
    match cache_find (m_cache (dict st)) q with
    | Some found => Some (valueoffset found, st)
    | None =>
        lookup ec document q query (node_select_nodes (node nd) query) st
    end.

(** The handles that a shader visits from [nodeID] with [dict_next],
    until the handle is 0 or [fuel] handles have been visited. *)
Fixpoint handles (d : t) (fuel : nat) (nodeID : Z) : list Z :=
  match fuel with
  | O => []
  | S fuel' =>
      if nodeID =? 0 then []
      else nodeID :: handles d fuel' (dict_next d nodeID)
  end.

End find.

(** The dictionaries that a shading context can hold: what the
    constructor builds, and what the queries and [dict_value] make of a
    dictionary ([dict_next] changes nothing). *)
Section steps.
Context `{Pugi} `{Strutil}.

Inductive step : Store -> Store -> Prop :=
| step_find ec dictionaryname query st r st' :
    dict_find ec dictionaryname query st = Some (r, st') -> step st st'
| step_find_node ec nodeID query st r st' :
    dict_find_node ec nodeID query st = Some (r, st') -> step st st'
| step_value nodeID attribname type data treat_ustrings_as_hash st r d
    data' :
    dict_value (dict st) nodeID attribname type data treat_ustrings_as_hash
    = Some (r, d, data') ->
    step st (with_dict st d).

Definition reachable (st : Store) : Prop := rtc step Dictionary_new st.

End steps.

(** Every node is linked to 0 or to a later node. *)
Definition linked (nodes : list Node) : Prop :=
  forall (i : nat) (n : Node),
    nodes !! i = Some n ->
    next n = 0 \/ Z.of_nat i < next n < Z.of_nat (length nodes).

(** The invariant of the dictionaries that can be reached: element 0 is
    there, the nodes are linked forwards, a cached answer to a query for
    nodes is 0 or a handle, and a document index is -1 or an index. *)
Definition sound `{Pugi} (st : Store) : Prop :=
  m_nodes (dict st) <> []
  /\ linked (m_nodes (dict st))
  /\ (forall q r,
        cache_find (m_cache (dict st)) q = Some r ->
        basetype (q_type q) = UNKNOWN ->
        0 <= valueoffset r < Z.of_nat (length (m_nodes (dict st))))
  /\ (forall name i, m_document_map st !! name = Some i -> -1 <= i).

(** The nodes of the matches [ms], the first of which gets the handle
    [first]: each is linked to the next one, and the last to 0. *)
Fixpoint chain (document first : Z) (ms : list xml_node) : list Node :=
  match ms with
  | [] => []
  | m :: ms' =>
      mkNode document m (match ms' with [] => 0 | _ => first + 1 end)
      :: chain document (first + 1) ms'
  end.

End Documents.

(** ** instance.cpp: connections and groups *)

Module Wiring.
Import Inst.

Definition with_connections (inst : ShaderInstance)
    (connections : list Connection) : ShaderInstance :=
  mkInstance (m_master inst) (m_instsymbols inst) (m_instops inst)
    (m_instargs inst) (m_layername inst) (m_instoverrides inst)
    (m_iparams inst) (m_fparams inst) (m_sparams inst) connections
    (m_run_lazily inst) (m_renderer_outputs inst) (m_userdata_params inst)
    (m_firstparam inst) (m_lastparam inst) (m_maincodebegin inst)
    (m_maincodeend inst) (m_Psym inst) (m_Nsym inst).

(** The members of an instance that binding a parameter does not
    write. *)
Definition same_shell (a b : ShaderInstance) : Prop :=
  m_master b = m_master a
  /\ m_instsymbols b = m_instsymbols a
  /\ m_instops b = m_instops a
  /\ m_instargs b = m_instargs a
  /\ m_layername b = m_layername a
  /\ m_connections b = m_connections a
  /\ m_firstparam b = m_firstparam a
  /\ m_lastparam b = m_lastparam a.

Definition pools_grow (a b : ShaderInstance) : Prop :=
  (length (m_iparams a) <= length (m_iparams b))%nat
  /\ (length (m_fparams a) <= length (m_fparams b))%nat
  /\ (length (m_sparams a) <= length (m_sparams b))%nat.

(** [TypeSpec::arraylength]. *)
Definition arraylength (t : TypeSpec) : Z := arraylen (simpletype t).

(** The specialization of a destination that is an array of undetermined
    length: the override takes the array length of the source, and
    storage is allocated at the end of the pool of the base type of the
    source; the pool grows by [type.size ()], the size of the type in
    bytes. *)
Definition specialize_unsized (inst : ShaderInstance)
    (srccon dstcon : ConnectedParam) : option ShaderInstance :=
  so ← at_index (m_instoverrides inst) (cp_param dstcon);
  let so := set_arraylen so (arraylength (cp_type srccon)) in
  let type := simpletype (cp_type srccon) in
  let '(so, inst) :=
    match basetype type with
    | FLOAT =>
        (set_dataoffset so (size_as_int (m_fparams inst)),
         with_params inst (m_iparams inst)
           (expand (m_fparams inst) (LLVMGen.td_size type) 0)
           (m_sparams inst))
    | INT =>
        (set_dataoffset so (size_as_int (m_iparams inst)),
         with_params inst (expand (m_iparams inst) (LLVMGen.td_size type) 0)
           (m_fparams inst) (m_sparams inst))
    | STRING =>
        (set_dataoffset so (size_as_int (m_sparams inst)),
         with_params inst (m_iparams inst) (m_fparams inst)
           (expand (m_sparams inst) (LLVMGen.td_size type) EmptyString))
    | _ => (so, inst)
    end in
  ov ← set_index (m_instoverrides inst) (cp_param dstcon) so;
  Some (with_overrides inst ov).

Definition add_connection (inst : ShaderInstance) (srclayer : Z)
    (srccon dstcon : ConnectedParam) : option ShaderInstance :=
  inst ← (if is_unsized_array (cp_type dstcon)
          then specialize_unsized inst srccon dstcon
          else Some inst);
  Some (with_connections inst
          (m_connections inst ++ [mkConnection srclayer srccon dstcon])).

End Wiring.

Module Group.

(** A layer of a group: the instance and its [entry_layer] flag, the one
    member of the instance that the group sets. *)
Record Layer := mkLayer
  { layer_instance : ShaderInstance;
    m_entry_layer : bool }.

(** [ShaderGroup], with the members that the functions below use. *)
Record ShaderGroup := mkGroup
  { m_layers : list Layer;
    m_num_entry_layers : Z }.

Definition nlayers (g : ShaderGroup) : Z := size_as_int (m_layers g).

Definition layer (g : ShaderGroup) (i : Z) : option Layer :=
  at_index (m_layers g) i.

(** [for (; i >= 0 && layer(i)->layername() != layername; --i);] with at
    most [n] iterations left. *)
Fixpoint find_layer_loop (g : ShaderGroup) (layername : string) (n : nat)
    (i : Z) : option Z :=
  match n with
  | O => Some i
  | S n' =>
      if 0 <=? i then
        l ← layer g i;
        if negb (bool_decide (m_layername (layer_instance l) = layername))
        then find_layer_loop g layername n' (i - 1)
        else Some i
      else Some i
  end.

(** The index of the last layer of that name, or -1. *)
Definition find_layer (g : ShaderGroup) (layername : string) : option Z :=
  find_layer_loop g layername (Z.to_nat (nlayers g) + 1) (nlayers g - 1).

Definition entry_layer (l : Layer) (v : bool) : Layer :=
  mkLayer (layer_instance l) v.

(** The loop runs over the indices below [nlayers ()]. *)
Definition clear_entry_layers (g : ShaderGroup) : ShaderGroup :=
  let n := Z.to_nat (nlayers g) in
  mkGroup
    (map (fun l => entry_layer l false) (take n (m_layers g))
     ++ drop n (m_layers g))
    0.

Definition mark_entry_layer (g : ShaderGroup) (i : Z) : option ShaderGroup :=
  if (0 <=? i) && (i <? nlayers g) then
    l ← layer g i;
    if negb (m_entry_layer l) then
      layers ← set_index (m_layers g) i (entry_layer l true);
      n ← int_of (m_num_entry_layers g + 1);
      Some (mkGroup layers n)
    else Some g
  else Some g.

(** A sequence of calls of [mark_entry_layer]. *)
Fixpoint mark_entry_layers (g : ShaderGroup) (marks : list Z)
    : option ShaderGroup :=
  match marks with
  | [] => Some g
  | i :: marks' =>
      g ← mark_entry_layer g i;
      mark_entry_layers g marks'
  end.

(** The number of layers that are marked as entry layers. *)
Definition entry_layers (g : ShaderGroup) : nat :=
  length (filter (fun l => m_entry_layer l = true) (m_layers g)).

End Group.

(** ** llvm_gen.cpp: mix, select, Dx and Dy, and the colour constructor *)

Module Lowering.
Import LLVMGen.

(** Modelled from the spec: [TypeSpec::is_int] is declared with [TypeSpec]
    in a header that is not among the sources; "scalar kind {int, float,
    string, [...]}": the test reads the simple type as [is_float] does. *)
Definition typespec_is_int (t : TypeSpec) : bool :=
  bool_decide (simpletype t = TypeInt) && negb (is_closure t).

Definition constant_0_0f : Value := Constant_float 0.

(** An instruction that fills a closure component: a memset, a memcpy,
    or a call through a pointer of the registry entry.  It is neither a
    call of a named function, nor a store to a symbol, nor a branch. *)
Definition fills (i : Instr) : bool :=
  match i with
  | Memset _ _ _ _ | Memcpy _ _ _ _ | Call_indirect _ _ => true
  | _ => false
  end.

(** A generator that only fills a closure component: it emits nothing
    but such instructions, and creates no block. *)
Definition quiet {A} (g : Gen A) : Prop :=
  forall st x st',
    g st = Some (x, st') ->
    exists delta,
      emitted st' = emitted st ++ delta
      /\ Forall (fun i => fills i = true) delta
      /\ nblocks st' = nblocks st.

Section generators.
Context (rop : BackendLLVM).

(** *** mix *)

(** What the loop of [llvm_gen_mix] carries from one component to the
    next: [x], [one_minus_x], [xx] and [xy]; the last two are null when
    no derivatives are computed, or when their load failed. *)
Record MixState := mkMixState
  { mix_x : Value;
    mix_one_minus_x : Value;
    mix_xx : option Value;
    mix_xy : option Value }.

Fixpoint mix_loop (Result A B X : SymRef) (type : TypeDesc)
    (x_components : Z) (derivs : bool) (n : nat) (i : Z) (c : MixState)
    : Gen bool :=
  match n with
  | O => gret true
  | S n' =>
      match load rop A 0 i type, load rop B 0 i type with
      | Some a, Some b =>
          let reload := (0 <? i) && (1 <? x_components) in
          let* x := (if reload then deref (load rop X 0 i type)
                     else gret (mix_x c)) in
          let one_minus_x := if reload then Op_sub constant_1_0f x
                             else mix_one_minus_x c in
          let r1 := Op_mul a one_minus_x in
          let r2 := Op_mul b x in
          let r := Op_add r1 r2 in
          let* _ := llvm_store_value r Result 0 i in
          if derivs then
            let* ax := deref (load rop A 1 i type) in
            let* bx := deref (load rop B 1 i type) in
            let xx := if reload then load rop X 1 i type else mix_xx c in
            let* xx_ := deref xx in
            let rx1 := Op_mul a xx_ in
            let rx2 := Op_mul ax one_minus_x in
            let rx := Op_sub rx2 rx1 in
            let rx3 := Op_mul b xx_ in
            let rx := Op_add rx rx3 in
            let rx4 := Op_mul bx x in
            let rx := Op_add rx rx4 in
            let* ay := deref (load rop A 2 i type) in
            let* by_ := deref (load rop B 2 i type) in
            let xy := if reload then load rop X 2 i type else mix_xy c in
            let* xy_ := deref xy in
            let ry1 := Op_mul a xy_ in
            let ry2 := Op_mul ay one_minus_x in
            let ry := Op_sub ry2 ry1 in
            let ry3 := Op_mul b xy_ in
            let ry := Op_add ry ry3 in
            let ry4 := Op_mul by_ x in
            let ry := Op_add ry ry4 in
            let* _ := llvm_store_value rx Result 1 i in
            let* _ := llvm_store_value ry Result 2 i in
            mix_loop Result A B X type x_components derivs n' (i + 1)
              (mkMixState x one_minus_x xx xy)
          else
            mix_loop Result A B X type x_components derivs n' (i + 1)
              (mkMixState x one_minus_x (mix_xx c) (mix_xy c))
      | _, _ => gret false
      end
  end.

Definition llvm_gen_mix (opnum : Z) : Gen bool :=
  let* op := deref (at_index (m_instops (inst rop)) opnum) in
  let* Result := deref (opargsym rop op 0) in
  let* A := deref (opargsym rop op 1) in
  let* B := deref (opargsym rop op 2) in
  let* X := deref (opargsym rop op 3) in
  let type := simpletype (typespec Result) in
  let x_components := aggregate (simpletype (typespec X)) in
  let derivs := has_derivs Result
                && (has_derivs A || has_derivs B || has_derivs X) in
  let one := constant_1_0f in
  let* x := deref (load rop X 0 0 type) in
  let one_minus_x := Op_sub one x in
  let xx := if derivs then load rop X 1 0 type else None in
  let xy := if derivs then load rop X 2 0 type else None in
  let* ok := mix_loop Result A B X type x_components derivs
               (num_components Result) 0
               (mkMixState x one_minus_x xx xy) in
  if ok : bool then
    let* _ := (if has_derivs Result && negb derivs
               then llvm_zero_derivs Result else gret tt) in
    gret true
  else gret false.

(** *** select *)

(** [cond[i] = rop.ll.op_ne (rop.llvm_load_value (X, 0, i), zero)], for
    the components of [X]; [cond] has three elements, which are not
    initialized. *)
Fixpoint cond_loop (X : SymRef) (zero : Value) (n : nat) (i : Z)
    (cond : list (option Value)) : Gen (list (option Value)) :=
  match n with
  | O => gret cond
  | S n' =>
      let* x := deref (load rop X 0 i TypeUnknown) in
      let* cond := deref (set_index cond i (Some (Op_ne x zero))) in
      cond_loop X zero n' (i + 1) cond
  end.

Fixpoint select_derivs (Result A B : SymRef) (type : TypeDesc) (c : Value)
    (i : Z) (n : nat) (d : Z) : Gen unit :=
  match n with
  | O => gret tt
  | S n' =>
      let* a := deref (load rop A d i type) in
      let* b := deref (load rop B d i type) in
      let r := Op_select c b a in
      let* _ := llvm_store_value r Result d i in
      select_derivs Result A B type c i n' (d + 1)
  end.

Fixpoint select_loop (Result A B : SymRef) (type : TypeDesc)
    (x_components : Z) (derivs : bool) (cond : list (option Value))
    (n : nat) (i : Z) : Gen unit :=
  match n with
  | O => gret tt
  | S n' =>
      let* a := deref (load rop A 0 i type) in
      let* b := deref (load rop B 0 i type) in
      let* c := deref (mjoin (at_index cond
                                (if x_components <=? i then 0 else i))) in
      let r := Op_select c b a in
      let* _ := llvm_store_value r Result 0 i in
      let* _ := (if derivs then select_derivs Result A B type c i 2 1
                 else gret tt) in
      select_loop Result A B type x_components derivs cond n' (i + 1)
  end.

Definition llvm_gen_select (opnum : Z) : Gen bool :=
  let* op := deref (at_index (m_instops (inst rop)) opnum) in
  let* Result := deref (opargsym rop op 0) in
  let* A := deref (opargsym rop op 1) in
  let* B := deref (opargsym rop op 2) in
  let* X := deref (opargsym rop op 3) in
  let type := simpletype (typespec Result) in
  let x_components := aggregate (simpletype (typespec X)) in
  let derivs := has_derivs Result && (has_derivs A || has_derivs B) in
  let zero := if typespec_is_int (typespec X) then Constant_int 0
              else constant_0_0f in
  let* cond := cond_loop X zero (Z.to_nat x_components) 0
                 [None; None; None] in
  let* _ := select_loop Result A B type x_components derivs cond
              (num_components Result) 0 in
  let* _ := (if has_derivs Result && negb derivs
             then llvm_zero_derivs Result else gret tt) in
  gret true.

(** *** Dx and Dy *)

Fixpoint DxDy_loop (Result Src : SymRef) (deriv : Z) (n : nat) (i : Z)
    : Gen unit :=
  match n with
  | O => gret tt
  | S n' =>
      let* src_val := deref (load rop Src deriv i TypeUnknown) in
      let* _ := storeLLVMValue src_val Result i 0 in
      DxDy_loop Result Src deriv n' (i + 1)
  end.

Definition llvm_gen_DxDy (opnum : Z) : Gen bool :=
  let* op := deref (at_index (m_instops (inst rop)) opnum) in
  let* Result := deref (opargsym rop op 0) in
  let* Src := deref (opargsym rop op 1) in
  let deriv := if decide (opname op = "Dx") then 1 else 2 in
  let* _ := DxDy_loop Result Src deriv (num_components Result) 0 in
  let* _ := llvm_zero_derivs Result in
  gret true.

(** *** The colour constructor *)

Definition Z_of_bool (b : bool) : Z := if b then 1 else 0.

(** The loop over the components, for one channel. *)
Fixpoint components_loop (op : Opcode) (Result : SymRef)
    (using_space : bool) (d : Z) (n : nat) (c : Z) : Gen unit :=
  match n with
  | O => gret tt
  | S n' =>
      let* comp := deref (opargsym rop op (c + 1 + Z_of_bool using_space)) in
      let* val := deref (load rop comp d 0 TypeFloat) in
      let* _ := llvm_store_value val Result d c in
      components_loop op Result using_space d n' (c + 1)
  end.

(** The loop over the channels. *)
Fixpoint channels_loop (op : Opcode) (Result : SymRef) (using_space : bool)
    (n : nat) (d : Z) : Gen unit :=
  match n with
  | O => gret tt
  | S n' =>
      let* _ := components_loop op Result using_space d 3 0 in
      channels_loop op Result using_space n' (d + 1)
  end.

Definition llvm_gen_construct_color (opnum : Z) : Gen bool :=
  let* op := deref (at_index (m_instops (inst rop)) opnum) in
  let* Result := deref (opargsym rop op 0) in
  let using_space := nargs op =? 5 in
  let* Space := deref (opargsym rop op 1) in
  let* X := deref (opargsym rop op (1 + Z_of_bool using_space)) in
  let* Y := deref (opargsym rop op (2 + Z_of_bool using_space)) in
  let* Z_ := deref (opargsym rop op (3 + Z_of_bool using_space)) in
  let dmax := if has_derivs Result then 3%nat else 1%nat in
  let* _ := channels_loop op Result using_space dmax 0 in
  let* _ :=
    (if using_space then
       let* from := deref (load rop Space 0 0 TypeUnknown) in
       let args := [Sg_void_ptr; Void_ptr (index Result); from] in
       let* _ := call_function "osl_prepend_color_from" args in
       if has_derivs Result then llvm_zero_derivs Result else gret tt
     else gret tt) in
  gret true.

(** *** What the loops keep *)

(** The component of [X] that weighs the component [i] of the result of
    [mix], and that decides it for [select]: the component [i] when [X]
    has it, and the first otherwise. *)
Definition mix_component (x_components i : Z) : Z :=
  if 1 <? x_components then i else 0.

Definition select_component (x_components i : Z) : Z :=
  if x_components <=? i then 0 else i.

(** What the loop of [llvm_gen_mix] carries into the component [i] when
    it does not load [X] again: the loads of the first component. *)
Definition carried (X : SymRef) (type : TypeDesc) (x_components : Z)
    (derivs : bool) (i : Z) (c : MixState) : Prop :=
  (0 <? i) && (1 <? x_components) = false ->
  load rop X 0 0 type = Some (mix_x c)
  /\ mix_one_minus_x c = Op_sub constant_1_0f (mix_x c)
  /\ (derivs = true ->
      mix_xx c = load rop X 1 0 type /\ mix_xy c = load rop X 2 0 type).

End generators.

End Lowering.


(** ** Instances of the interfaces *)

Module Models.
Import Runtime.

(** Strict type checking; instances that read userdata may be merged. *)
Definition shadingsys : Inst.ShadingSystem :=
  Inst.mkShadingSystem false true.

(** IEEE binary32 arithmetic, from the specification of floating-point
    numbers of the standard library. *)
#[export] Instance binary32 : Arith :=
  {| number := spec_float;
     zero := S754_zero false;
     of_float_bits := decode32;
     of_int_constant := fun z => binary_normalize prec32 emax32 z 0 false;
     add := SFadd prec32 emax32;
     sub := SFsub prec32 emax32;
     mul := SFmul prec32 emax32;
     div := SFdiv prec32 emax32;
     leb := SFleb;
     gtb := fun x y => SFltb y x;
     eqb := SFeqb;
     safe_div_by_zero := fun _ => S754_zero false;
     leb_of_eqb := fun x y =>
       match SFcompare x y as c
         return (match c with Some Eq => true | _ => false end = true ->
                 match c with Some Eq | Some Lt => true | _ => false end
                 = true)
       with
       | Some Eq | Some Lt => fun _ => eq_refl
       | _ => fun e => e
       end |}.

(** Modelled from the spec: the comparison of types is declared in a
    header.  Two types are compatible on an "exact type match", where an
    array of undetermined length matches an array of any length. *)
#[export] Instance exact_types : TypeRules :=
  {| equivalent := fun a b =>
       bool_decide (basetype a = basetype b)
       && (aggregate a =? aggregate b)
       && ((arraylen a =? arraylen b)
           || (td_is_unsized_array a && (0 <? arraylen b)));
     relaxed_equivalent := fun a b =>
       bool_decide (basetype (simpletype a) = basetype b)
       && (basevalues (simpletype a) =? basevalues b) |}.

#[export] Instance plain_printer : Printer :=
  {| typedesc_str := fun _ => "type";
     typespec_str := fun _ => "type";
     float_str := fun _ => "float";
     unmangled := sym_name |}.

(** Modelled from the spec: "two overrides are equivalent if their value
    source, array length [...] match"; opcodes are compared field by
    field. *)
#[export] Instance merge_rules : Inst.MergeRules :=
  {| Inst.equivalent_override := fun a b =>
       bool_decide (so_valuesource a = so_valuesource b)
       && (so_arraylen a =? so_arraylen b);
     Inst.equivalent_opcode := fun a b =>
       bool_decide (opname a = opname b)
       && (firstarg a =? firstarg b) && (nargs a =? nargs b)
       && bool_decide (jump a = jump b) |}.

(** The bit pattern of a binary32 number, and the conversions of the
    language between [int] and [float]. *)
Definition encode32 (f : spec_float) : Z :=
  let sign (s : bool) := if s then 2 ^ 31 else 0 in
  match f with
  | S754_zero s => sign s
  | S754_infinity s => sign s + 255 * 2 ^ 23
  | S754_nan => 255 * 2 ^ 23 + 2 ^ 22
  | S754_finite s m e =>
      if Zpos m <? 2 ^ 23 then sign s + Zpos m
      else sign s + (e + 150) * 2 ^ 23 + (Zpos m - 2 ^ 23)
  end.

Definition truncate (f : spec_float) : Z :=
  match f with
  | S754_finite s m e =>
      let magnitude :=
        if 0 <=? e then Zpos m * 2 ^ e else Zpos m / 2 ^ (- e) in
      if s then - magnitude else magnitude
  | _ => 0
  end.

#[export] Instance conversions : Inst.Conversions :=
  {| Inst.float_of_int := fun z =>
       encode32 (binary_normalize prec32 emax32 z 0 false);
     Inst.int_of_float := fun bits => truncate (decode32 bits) |}.

(** A parser that reads nothing, for the examples that do not decode. *)
#[export] Instance no_parser : Dictionary.Strutil :=
  {| Dictionary.parse_int := fun s => (None, s);
     Dictionary.parse_float := fun s => (None, s);
     Dictionary.parse_char := fun s _ => s;
     Dictionary.ustring_hash := fun s => Z.of_nat (String.length s) |}.

End Models.

(** ** A small shader, for the examples *)

Module Examples.
Import LLVMGen Models.

(** A dictionary that holds the placeholder node and one node found by a
    query. *)
Definition dictionary : Dictionary.t :=
  Dictionary.mkDictionary []
    [ Dictionary.mkNode 0 (Dictionary.mk_xml_node EmptyString []) 0;
      Dictionary.mkNode 0
        (Dictionary.mk_xml_node "steel" [("name", "steel")]) 0 ]
    [] [] [].

Definition float_spec : TypeSpec := mkTypeSpec TypeFloat 0 false.
Definition color_spec : TypeSpec := mkTypeSpec (mkTypeDesc FLOAT 3 1 0) 0 false.
Definition string_spec : TypeSpec := mkTypeSpec TypeString 0 false.
Definition closure_spec : TypeSpec := mkTypeSpec (mkTypeDesc PTR 1 0 0) 0 true.
Definition float_array_spec : TypeSpec :=
  mkTypeSpec (mkTypeDesc FLOAT 1 0 (-1)) 0 false.

Definition make_symbol (name : string) (t : TypeSpec) (st : SymType)
    (derivs : bool) (offset : Z) (data : option Data) : Symbol :=
  mkSymbol name t st DefaultVal offset derivs false false false true true
    false (-1) 0 0 data.

(** The bit patterns of 0.8f, 1.0f, 2.0f and 3.0f. *)
Definition f0_8 : Z := 1061997773.
Definition f1_0 : Z := 1065353216.
Definition f2_0 : Z := 1073741824.
Definition f3_0 : Z := 1077936128.

(** The symbols: a parameter [Kd], an array parameter [knots] of
    undetermined length, three locals, two constants and a closure. *)
Definition symbols : list Symbol :=
  [ make_symbol "Kd" float_spec SymTypeParam false 0 (Some (DFloat [f0_8]));
    make_symbol "knots" float_array_spec SymTypeParam false 1 None;
    make_symbol "R" color_spec SymTypeLocal true 0 None;
    make_symbol "A" color_spec SymTypeLocal true 0 None;
    make_symbol "B" float_spec SymTypeLocal false 0 None;
    make_symbol "$const1" float_spec SymTypeConst false 0
      (Some (DFloat [f2_0]));
    make_symbol "$const2" string_spec SymTypeConst false 0
      (Some (DString ["glossy"]));
    make_symbol "Ci" closure_spec SymTypeGlobal false 0 None ].

(** [mul R A B], [add R B B], [div R A $const1], [div R A B],
    [min R A B], [closure Ci "glossy"], [sub R B B], [mul R B B] and
    [div R B B]. *)
Definition ops : list Opcode :=
  [ mkOpcode "mul" 0 3 "shader.osl" 10 [];
    mkOpcode "add" 3 3 "shader.osl" 11 [];
    mkOpcode "div" 6 3 "shader.osl" 12 [];
    mkOpcode "div" 9 3 "shader.osl" 13 [];
    mkOpcode "min" 12 3 "shader.osl" 14 [];
    mkOpcode "closure" 15 2 "shader.osl" 15 [];
    mkOpcode "sub" 17 3 "shader.osl" 16 [];
    mkOpcode "mul" 20 3 "shader.osl" 17 [];
    mkOpcode "div" 23 3 "shader.osl" 18 [] ].

Definition args : list Z :=
  [2; 3; 4;  2; 4; 4;  2; 3; 5;  2; 3; 4;  2; 3; 4;  7; 6;
   2; 4; 4;  2; 4; 4;  2; 4; 4].

Definition master : ShaderMaster :=
  mkMaster 4096 "example" symbols ops args [] [f0_8; 0] [] 0 2.

(** An instance that has been specialized: it owns its symbols and its
    code. *)
Definition specialized : ShaderInstance :=
  mkInstance master symbols ops args "layer1" [] [] [f0_8; 0] [] [] false
    false false 0 2 0 9 (-1) (-1).

(** An instance as the shading system creates it, before any parameter
    is bound. *)
Definition fresh : ShaderInstance :=
  mkInstance master [] [] [] "layer1" [] [] [] [] [] false false false 0 2
    0 9 (-1) (-1).

Definition bound (params : list Inst.ParamValue) (hints : list Z)
    : ShaderInstance :=
  match Inst.parameters shadingsys fresh params hints with
  | Some (inst, _) => inst
  | None => fresh
  end.

Definition Kd_default : Inst.ParamValue :=
  Inst.mkParamValue "Kd" TypeFloat (DFloat [f0_8]).

Definition three_knots : Inst.ParamValue :=
  Inst.mkParamValue "knots" (mkTypeDesc FLOAT 1 0 3)
    (DFloat [f1_0; f2_0; f3_0]).

(** No parameter set; [Kd] set to its default; [Kd] set to its default
    and marked interactive; [knots] set to three values. *)
Definition unset : ShaderInstance := bound [] [].
Definition Kd_set : ShaderInstance := bound [Kd_default] [0].
Definition Kd_interactive : ShaderInstance :=
  bound [Kd_default] [Inst.hint_interactive].
Definition knots_set : ShaderInstance := bound [three_knots] [0].

(** The instance [unset], bound to a renderer output. *)
Definition on_output : ShaderInstance :=
  mkInstance master [] [] [] "layer1" (m_instoverrides unset)
    (m_iparams unset) (m_fparams unset) (m_sparams unset) [] false true
    false 0 2 0 9 (-1) (-1).

(** A master whose only parameter is never used in the group, and two
    instances of it whose parameter is connected; the override of the
    first is interpolated, that of the second is not. *)
Definition dead_master : ShaderMaster :=
  mkMaster 8192 "passthrough"
    [mkSymbol "unused" float_spec SymTypeParam DefaultVal 0 false false false
       false false false false (-1) 0 0 None]
    [] [] [] [0] [] 0 1.

Definition connected (interp : bool) : ShaderInstance :=
  mkInstance dead_master [] [] [] "layer2"
    [mkOverride ConnectedVal false interp false 0 0] [] [0] [] [] false
    false false 0 1 0 0 (-1) (-1).

(** A symbol is zero when it is a constant whose values are all zero. *)
Definition constant_zero (s : Symbol) : bool :=
  is_constant s
  && match sym_data s with
     | Some (DFloat l) | Some (DInt l) => forallb (Z.eqb 0) l
     | _ => false
     end.

(** A back end whose loads always succeed and whose renderer registers
    the closure [diffuse] only. *)
Definition backend : BackendLLVM :=
  mkBackend specialized 0 "group1"
    (fun s d c t => Some (Load s d c t))
    constant_zero
    (fun name =>
       if decide (name = "diffuse")
       then Some (mkClosureEntry 1 0 0 [] 16 None None)
       else None).

Definition start : GenState := mkGenState [] 0 [].

(** The state in which a generator leaves the builder. *)
Definition after {A} (g : Gen A) : GenState :=
  match g start with
  | Some (_, st) => st
  | None => start
  end.

Definition opcode (i : nat) : Opcode :=
  nth i ops (mkOpcode EmptyString 0 0 EmptyString 0 []).

Definition symbol_at (i : nat) : Symbol :=
  nth i symbols (make_symbol EmptyString float_spec SymTypeTemp false 0 None).

Definition symref (i : nat) : SymRef := mkSymRef (Z.of_nat i) (symbol_at i).

End Examples.
(** ** Documents, for the examples *)

Module DocumentExamples.
Import Dictionary Documents.

Definition steel : xml_node :=
  mk_xml_node EmptyString [("name", "steel"); ("color", "7,8,9")].

Definition gold : xml_node :=
  mk_xml_node EmptyString [("name", "gold"); ("color", "1,2,3")].

Definition materials : string := "<m><steel/><gold/></m>".

Definition parsed : xml_parse_result := mk_parse_result true "No error" 0.

Definition no_element : xml_parse_result :=
  mk_parse_result false "No document element found" 0.

(** A library that knows one document, of two elements: the query [//*]
    selects both and the query [//gold] the second; from a node, the
    query [.] selects the node itself; every other query selects nothing,
    and the query [(] is not well formed. *)
#[export] Instance two_materials : Pugi :=
  {| xml_document := list xml_node;
     load_file := fun _ => ([], mk_parse_result false "File was not found" 0);
     load_string := fun s =>
       if decide (s = materials) then ([steel; gold], parsed)
       else ([], no_element);
     document_select_nodes := fun doc query =>
       if decide (query = "//*") then inr doc
       else if decide (query = "//gold") then inr (drop 1 doc)
       else if decide (query = "(") then inl "Unrecognized node test"
       else inr [];
     node_select_nodes := fun n query =>
       if decide (query = ".") then inr [n]
       else if decide (query = "(") then inl "Unrecognized node test"
       else inr [] |}.

(** A parser of unsigned decimal numbers, for the examples. *)
Definition digit (c : ascii) : option Z :=
  let n := Z.of_nat (nat_of_ascii c) in
  if (48 <=? n) && (n <=? 57) then Some (n - 48) else None.

Fixpoint digits (acc : option Z) (s : string) : option Z * string :=
  match s with
  | String c rest =>
      match digit c with
      | Some v => digits (Some (10 * default 0 acc + v)) rest
      | None => (acc, s)
      end
  | EmptyString => (acc, s)
  end.

#[export] Instance decimal_parser : Strutil :=
  {| parse_int := digits None;
     parse_float := fun s => (None, s);
     parse_char := fun s c =>
       match s with
       | String c' rest => if decide (c' = c) then rest else s
       | EmptyString => s
       end;
     ustring_hash := fun s => Z.of_nat (String.length s) |}.

(** The dictionary after the query [//*] for the document. *)
Definition after_find : Store :=
  match dict_find None materials "//*" Dictionary_new with
  | Some (_, st) => st
  | None => Dictionary_new
  end.

(** The dictionary after the query [//gold] has followed. *)
Definition after_gold : Store :=
  match dict_find None materials "//gold" after_find with
  | Some (_, st) => st
  | None => after_find
  end.

Definition int3 : TypeDesc := mkTypeDesc INT 1 0 3.

Definition buffer : list Cell := [CInt 0; CInt 0; CInt 0].

(** The dictionary and the buffer after the colour of the second match
    has been decoded. *)
Definition after_value : t * list Cell :=
  match dict_value (dict after_find) 2 "color" int3 buffer false with
  | Some (_, d, data) => (d, data)
  | None => (dict after_find, buffer)
  end.

End DocumentExamples.

(** ** Instances and groups, for the examples *)

Module InstanceExamples.
Import Models Examples Wiring Group.

(** A master of two parameters: a colour [Cs] and an array [knots] of
    undetermined length. *)
Definition Cs_symbol : Symbol :=
  make_symbol "Cs" color_spec SymTypeParam false 0
    (Some (DFloat [f0_8; f0_8; f0_8])).

Definition knots_symbol : Symbol :=
  make_symbol "knots" float_array_spec SymTypeParam false 3 None.

Definition paint_master : ShaderMaster :=
  mkMaster 12288 "paint" [Cs_symbol; knots_symbol] [] [] []
    [f0_8; f0_8; f0_8; 0] [] 0 2.

(** An instance of it, before and after [parameters] has run without
    values. *)
Definition paint_new : ShaderInstance :=
  mkInstance paint_master [] [] [] "paint" [] [] [] [] [] false false false
    0 2 0 0 (-1) (-1).

Definition paint : ShaderInstance :=
  match Inst.parameters shadingsys paint_new [] [] with
  | Some (inst, _) => inst
  | None => paint_new
  end.

(** A single float for the colour, and a value for a name that the master
    does not have. *)
Definition grey : Inst.ParamValue :=
  Inst.mkParamValue "Cs" TypeFloat (DFloat [f2_0]).

Definition Ks : Inst.ParamValue :=
  Inst.mkParamValue "Ks" TypeFloat (DFloat [f2_0]).

(** The instance and the messages after the colour has been set to the
    single float. *)
Definition painted : ShaderInstance * list Diagnostic :=
  match Inst.parameters shadingsys paint_new [grey] [0] with
  | Some r => r
  | None => (paint_new, [])
  end.

(** The ends of two connections: three floats of an earlier layer to
    [knots], and a colour of an earlier layer to [Cs]. *)
Definition float3_spec : TypeSpec :=
  mkTypeSpec (mkTypeDesc FLOAT 1 0 3) 0 false.

Definition three_floats : ConnectedParam :=
  mkConnectedParam 4 (-1) (-1) float3_spec.
Definition to_knots : ConnectedParam :=
  mkConnectedParam 1 (-1) (-1) float_array_spec.
Definition a_colour : ConnectedParam :=
  mkConnectedParam 2 (-1) (-1) color_spec.
Definition to_Cs : ConnectedParam :=
  mkConnectedParam 0 (-1) (-1) color_spec.

(** The instance after each of the two connections has been added. *)
Definition connect (srccon dstcon : ConnectedParam) : ShaderInstance :=
  match add_connection paint 0 srccon dstcon with
  | Some inst => inst
  | None => paint
  end.

Definition knots_connected : ShaderInstance := connect three_floats to_knots.
Definition Cs_connected : ShaderInstance := connect a_colour to_Cs.

(** A group of three layers, the first and the last of the same name; the
    second is marked as an entry layer. *)
Definition named (name : string) : ShaderInstance :=
  mkInstance master [] [] [] name [] [] [] [] [] false false false 0 2 0 9
    (-1) (-1).

Definition three_layers : ShaderGroup :=
  mkGroup
    [mkLayer (named "base") false; mkLayer (named "coat") true;
     mkLayer (named "base") false]
    1.

End InstanceExamples.

(** ** Operations, for the examples of the lowering *)

Module LoweringExamples.
Import LLVMGen Models Examples.

(** [add R A B], [Dx R A], [mix R A A A], [select R A A B],
    [color R "glossy" B B B], [closure Ci B "glossy"] and [color R B B B],
    on the symbols of the example: [R] and [A] are colours with
    derivatives and [B] is a float without. *)
Definition ops : list Opcode :=
  [ mkOpcode "add" 0 3 "shader.osl" 20 [];
    mkOpcode "Dx" 3 2 "shader.osl" 21 [];
    mkOpcode "mix" 5 4 "shader.osl" 22 [];
    mkOpcode "select" 9 4 "shader.osl" 23 [];
    mkOpcode "color" 13 5 "shader.osl" 24 [];
    mkOpcode "closure" 18 3 "shader.osl" 25 [];
    mkOpcode "color" 21 4 "shader.osl" 26 [] ].

Definition args : list Z :=
  [2; 3; 4;  2; 3;  2; 3; 3; 3;  2; 3; 3; 4;  2; 6; 4; 4; 4;  7; 4; 6;
   2; 4; 4; 4].

Definition instance : ShaderInstance :=
  mkInstance master symbols ops args "layer1" [] [] [f0_8; 0] [] [] false
    false false 0 2 0 7 (-1) (-1).

(** The closure that the renderer registers: no parameter, and neither a
    prepare nor a setup function. *)
Definition glossy : ClosureEntry := mkClosureEntry 1 0 0 [] 16 None None.

(** A back end whose loads always succeed. *)
Definition backend : BackendLLVM :=
  mkBackend instance 0 "group1"
    (fun s d c t => Some (Load s d c t))
    constant_zero
    (fun name => if decide (name = "glossy") then Some glossy else None).

Definition opcode (i : nat) : Opcode :=
  nth i ops (mkOpcode EmptyString 0 0 EmptyString 0 []).

Definition R : SymRef := symref 2.
Definition A : SymRef := symref 3.
Definition B : SymRef := symref 4.
Definition Ci : SymRef := symref 7.

End LoweringExamples.


(** * Properties *)

(** ** Machine integers and vectors *)

Lemma to_int_small (z : Z) : is_int z -> to_int z = z.
Proof.
  unfold is_int, to_int. intros Hz.
  rewrite Z.mod_small by lia. lia.
Qed.

Lemma size_as_int_small {A} (v : list A) :
  Z.of_nat (length v) < 2 ^ 31 -> size_as_int v = Z.of_nat (length v).
Proof. intros Hv. apply to_int_small. unfold is_int. lia. Qed.

(** ** Messages *)

(** A replacement field with a format specification takes the next
    argument, as an empty one does; braces that open no field stay. *)
Lemma fmtformat_fields :
  fmtformat "{} (set {:.9g} from {}) {x" ["Kd"; "3"; "4"]
  = "Kd (set 3 from 4) {x"%string.
Proof. reflexivity. Qed.

(** ** dictionary.cpp *)

Module DictionaryFacts.
Import Dictionary.

Lemma invalid_node_guard {A} (nodes : list A) (nodeID : Z) :
  is_int nodeID ->
  nodeID <= 0 \/ Z.of_nat (length nodes) <= nodeID ->
  (nodeID <=? 0) || (size_as_int nodes <=? nodeID) = true.
Proof.
  intros Hrange [Hle | Hge].
  - apply orb_true_iff. left. lia.
  - apply orb_true_iff. right.
    rewrite size_as_int_small by (unfold is_int in Hrange; lia). lia.
Qed.

(** C10.  For a node handle that is not positive, or not below the number
    of cached nodes, [dict_next] returns 0 and [dict_value] returns 0 and
    leaves the dictionary and the caller's buffer as they were. *)
Theorem invalid_node_handle `{Strutil} (d : t) (nodeID : Z)
    (attribname : string) (type : TypeDesc) (data : list Cell)
    (treat_ustrings_as_hash : bool) :
  is_int nodeID ->
  nodeID <= 0 \/ Z.of_nat (length (m_nodes d)) <= nodeID ->
  dict_next d nodeID = 0
  /\ dict_value d nodeID attribname type data treat_ustrings_as_hash
     = Some (0, d, data).
Proof.
  intros Hrange Hbad.
  pose proof (invalid_node_guard (m_nodes d) nodeID Hrange Hbad) as Hguard.
  unfold dict_next, dict_value. rewrite Hguard. split; reflexivity.
Qed.

(** The handle 7 in a dictionary of two nodes. *)
Lemma invalid_node_handle_witness :
  dict_next Examples.dictionary 7 = 0
  /\ dict_value (H := Models.no_parser) Examples.dictionary 7 "name"
       TypeString [CString "unset"] false
     = Some (0, Examples.dictionary, [CString "unset"]).
Proof.
  apply invalid_node_handle.
  - unfold is_int. lia.
  - right. simpl. lia.
Defined.

End DictionaryFacts.

(** ** llvm_gen.cpp *)

Module LLVMGenFacts.
Import LLVMGen Runtime.

(** *** Running a generator *)

Lemma gbind_inv {A B} (m : Gen A) (k : A -> Gen B) st y st' :
  gbind m k st = Some (y, st') ->
  exists x st1, m st = Some (x, st1) /\ k x st1 = Some (y, st').
Proof.
  unfold gbind. destruct (m st) as [[x st1]|]; [|discriminate].
  intros Hk. exists x, st1. auto.
Qed.

Lemma gret_inv {A} (x y : A) st st' :
  gret x st = Some (y, st') -> y = x /\ st' = st.
Proof. unfold gret. intros [= -> ->]. auto. Qed.

Lemma deref_inv {A} (o : option A) x st st' :
  deref o st = Some (x, st') -> o = Some x /\ st' = st.
Proof. unfold deref. destruct o; [|discriminate]. intros [= -> ->]. auto. Qed.

Lemma emit_inv i u st st' :
  emit i st = Some (u, st') ->
  st' = mkGenState (emitted st ++ [i]) (nblocks st) (messages st).
Proof. unfold emit. intros [= _ <-]. reflexivity. Qed.

Ltac gen_inv :=
  repeat match goal with
    | H : gbind _ _ _ = Some _ |- _ =>
        apply gbind_inv in H; destruct H as (? & ? & ? & H)
    | H : gret _ _ = Some _ |- _ =>
        apply gret_inv in H; destruct H as [? ?]; subst
    | H : deref _ _ = Some _ |- _ =>
        apply deref_inv in H; destruct H as [? ?]; subst
    | H : abort _ = Some _ |- _ => discriminate H
    | H : llvm_store_value _ _ _ _ _ = Some _ |- _ =>
        apply emit_inv in H; subst
    | H : storeLLVMValue _ _ _ _ _ = Some _ |- _ =>
        apply emit_inv in H; subst
    | H : llvm_zero_derivs _ _ = Some _ |- _ =>
        apply emit_inv in H; subst
    | H : llvm_call_function _ _ _ = Some _ |- _ =>
        apply emit_inv in H; subst
    | H : emit _ _ = Some _ |- _ =>
        apply emit_inv in H; subst
    end.

(** Reads one operand of a generator whose value is known. *)
Ltac take_operand Hrun Hknown :=
  let Hd := fresh "Hd" in
  apply gbind_inv in Hrun as (? & ? & Hd & Hrun);
  apply deref_inv in Hd as [Hd ->];
  rewrite Hknown in Hd; injection Hd as <-.

(** *** The stores of an emitted sequence *)

Lemma stores_to_app l1 l2 s d c :
  stores_to (l1 ++ l2) s d c = stores_to l1 s d c ++ stores_to l2 s d c.
Proof. unfold stores_to. apply omap_app. Qed.

Lemma stores_to_cons_store v s d c l s' d' c' :
  stores_to (Store_value v s d None c :: l) s' d' c'
  = (if bool_decide (s = s' /\ d = d' /\ c = c') then [v] else [])
    ++ stores_to l s' d' c'.
Proof.
  unfold stores_to. simpl.
  repeat case_bool_decide; simpl; try reflexivity; tauto.
Qed.

Lemma stores_to_cons_call name args l s d c :
  stores_to (Call name args :: l) s d c = stores_to l s d c.
Proof. reflexivity. Qed.

Lemma stores_to_nil s d c : stores_to [] s d c = [].
Proof. reflexivity. Qed.

(** Decides the stores of an explicit sequence, comparing channels and
    components by arithmetic. *)
Ltac stores_simpl :=
  repeat first
    [ rewrite stores_to_app
    | rewrite stores_to_cons_store
    | rewrite stores_to_cons_call
    | rewrite stores_to_nil
    | rewrite bool_decide_eq_true_2 by (repeat split; (reflexivity || lia))
    | rewrite bool_decide_eq_false_2 by (intros (? & ? & ?); lia)
    | rewrite app_nil_r
    | rewrite app_nil_l ].

(** *** Instructions that leave the derivative channels alone *)

Abbreviation value_only := (fun i : Instr =>
  forall v s d ai c, i = Store_value v s d ai c -> d = 0).

Ltac solve_value_only := intros ? ? ? ? ? ?; congruence.

(** *** What a channel holds after a sequence of stores *)

Abbreviation store_only := (fun i : Instr =>
  exists v s d c, i = Store_value v s d None c).

Abbreviation plain_for s := (fun i : Instr => plain s i = true).

Lemma stores_to_value_only delta s d c :
  Forall value_only delta -> d <> 0 -> stores_to delta s d c = [].
Proof.
  intros Hall Hd. induction Hall as [|i delta Hi _ IH]; [reflexivity|].
  unfold stores_to in *. cbn [omap list_omap]. rewrite IH.
  destruct i as [v s' d' [ai|] c'| | | | | | | |]; try reflexivity.
  cbn [stored_to]. specialize (Hi v s' d' None c' eq_refl). subst d'.
  rewrite (bool_decide_eq_false_2 (0 = d)) by congruence.
  rewrite andb_false_r. reflexivity.
Qed.

Lemma store_only_plain delta s :
  Forall store_only delta -> Forall (plain_for s) delta.
Proof.
  intros Hall. eapply Forall_impl; [exact Hall|].
  intros i (v & s' & d & c & ->). reflexivity.
Qed.

(** In a sequence of stores and of calls that receive no pointer to the
    symbol, the writes to a channel are its stores. *)
Lemma writes_plain delta s d c :
  Forall (plain_for s) delta ->
  omap (written_to s d c) delta = Known <$> stores_to delta s d c.
Proof.
  intros Hall. induction Hall as [|i delta Hi _ IH]; [reflexivity|].
  unfold stores_to in *. cbn [omap list_omap]. rewrite IH.
  destruct i as [v s' d' [ai|] c'| | name args | | | | | |];
    try discriminate Hi.
  - cbn [written_to].
    destruct (stored_to s d c (Store_value v s' d' None c')); reflexivity.
  - cbn [written_to stored_to plain] in *.
    apply negb_true_iff in Hi. rewrite Hi. reflexivity.
Qed.

(** The content of a channel after such a sequence that stores to it
    once, whatever was emitted before. *)
Lemma content_after_plain tr delta s d c v :
  Forall (plain_for s) delta ->
  stores_to delta s d c = [v] ->
  content (tr ++ delta) s d c = Some v.
Proof.
  intros Hall Hstores. unfold content.
  rewrite omap_app, (writes_plain _ _ _ _ Hall), Hstores.
  cbn [fmap list_fmap]. rewrite last_snoc. reflexivity.
Qed.

Lemma content_after_stores tr delta s d c v :
  Forall store_only delta ->
  stores_to delta s d c = [v] ->
  content (tr ++ delta) s d c = Some v.
Proof.
  intros Hall. apply content_after_plain, store_only_plain, Hall.
Qed.

(** Instructions that write nothing to a channel leave its content. *)
Lemma content_app_silent tr tail_ s d c :
  omap (written_to s d c) tail_ = [] ->
  content (tr ++ tail_) s d c = content tr s d c.
Proof.
  intros Hsilent. unfold content.
  rewrite omap_app, Hsilent, app_nil_r. reflexivity.
Qed.

(** The zero-fill of the derivatives leaves the values alone. *)
Lemma content_zero_fill_value tr s' s c :
  content (tr ++ [Zero_derivs s']) s 0 c = content tr s 0 c.
Proof.
  apply content_app_silent. cbn [omap list_omap written_to].
  cbn [Z.eqb orb]. rewrite andb_false_r. reflexivity.
Qed.

Lemma content_after_zero_fill (tr : list Instr) (s d c : Z) :
  d = 1 \/ d = 2 ->
  content (tr ++ [Zero_derivs s]) s d c = Some (Constant_float 0).
Proof.
  intros Hd. unfold content. rewrite omap_app.
  cbn [omap list_omap written_to].
  rewrite bool_decide_eq_true_2 by reflexivity.
  replace ((d =? 1) || (d =? 2)) with true
    by (symmetry; apply orb_true_iff; lia).
  cbn [andb]. rewrite last_snoc. reflexivity.
Qed.

Lemma calls_of_app l1 l2 name :
  calls_of (l1 ++ l2) name = calls_of l1 name ++ calls_of l2 name.
Proof. unfold calls_of. apply omap_app. Qed.

Lemma calls_of_store_only delta name :
  Forall store_only delta -> calls_of delta name = [].
Proof.
  intros Hall. induction Hall as [|i delta Hi _ IH]; [reflexivity|].
  unfold calls_of in *. cbn [omap list_omap]. rewrite IH.
  destruct Hi as (v & s & d & c & ->). reflexivity.
Qed.

Section generators.
Context `{TypeRules} `{Printer} (rop : BackendLLVM).

Lemma values_loop_value_only op_ (Result A B : SymRef) type n :
  forall i st ok st',
    values_loop rop op_ Result A B type n i st = Some (ok, st') ->
    exists delta,
      emitted st' = emitted st ++ delta /\ Forall value_only delta.
Proof.
  induction n as [|n IH]; intros i st ok st' Hrun; simpl in Hrun.
  - gen_inv. exists []. rewrite app_nil_r. auto.
  - destruct (loadLLVMValue rop A i 0 type) as [a|];
      [destruct (loadLLVMValue rop B i 0 type) as [b|]|];
      gen_inv; try (exists []; rewrite app_nil_r; auto; fail).
    apply IH in Hrun as (delta & Hdelta & Hvalue).
    eexists (_ :: delta). split.
    + rewrite Hdelta. simpl. rewrite <- app_assoc. reflexivity.
    + constructor; [solve_value_only | assumption].
Qed.

(** *** The generators succeed when the loads do *)

Definition loads_succeed (A B : SymRef) (type : TypeDesc) : Prop :=
  forall d j, is_Some (load rop A d j type) /\ is_Some (load rop B d j type).


Lemma values_loop_succeeds op_ (Result A B : SymRef) type n :
  loads_succeed A B type ->
  forall i st, exists st',
    values_loop rop op_ Result A B type n i st = Some (true, st').
Proof.
  intros Hload. induction n as [|n IH]; intros i st; simpl.
  - eexists. reflexivity.
  - destruct (Hload 0 i) as [[a Ha] [b Hb]].
    unfold loadLLVMValue. rewrite Ha, Hb.
    unfold gbind, storeLLVMValue, llvm_store_value, emit. apply IH.
Qed.

Lemma derivs_loop_succeeds op_ (Result A B : SymRef) type d n :
  loads_succeed A B type ->
  forall i st, exists st',
    derivs_loop rop op_ Result A B type d n i st = Some (tt, st').
Proof.
  intros Hload. induction n as [|n IH]; intros i st; simpl.
  - eexists. reflexivity.
  - destruct (Hload d i) as [[a Ha] [b Hb]].
    unfold loadLLVMValue. rewrite Ha, Hb.
    unfold gbind, deref, storeLLVMValue, llvm_store_value, emit. apply IH.
Qed.

Lemma mul_loop_succeeds (Result A B : SymRef) type n :
  loads_succeed A B type ->
  forall i st, exists st',
    mul_loop rop Result A B type n i st = Some (true, st').
Proof.
  intros Hload. induction n as [|n IH]; intros i st; simpl.
  - eexists. reflexivity.
  - destruct (Hload 0 i) as [[a Ha] [b Hb]].
    destruct (Hload 1 i) as [[ax Hax] [bx Hbx]].
    destruct (Hload 2 i) as [[ay Hay] [by_ Hby]].
    rewrite Ha, Hb. unfold mul_derivs.
    destruct (has_derivs Result && (has_derivs A || has_derivs B));
      unfold gbind, deref, llvm_store_value, emit, gret;
      rewrite ?Hax, ?Hbx, ?Hay, ?Hby; apply IH.
Qed.

Lemma div_loop_succeeds (Result A B : SymRef) type safe_div deriv n :
  loads_succeed A B type ->
  forall i st, exists st',
    div_loop rop Result A B type safe_div deriv n i st = Some (true, st').
Proof.
  intros Hload. induction n as [|n IH]; intros i st; simpl.
  - eexists. reflexivity.
  - destruct (Hload 0 i) as [[a Ha] [b Hb]].
    destruct (Hload 1 i) as [[ax Hax] [bx Hbx]].
    destruct (Hload 2 i) as [[ay Hay] [by_ Hby]].
    rewrite Ha, Hb. unfold div_values, call_function.
    destruct (is_constant B && negb (is_zero rop B)), deriv;
      unfold gbind, deref, llvm_store_value, emit, gret;
      rewrite ?Hax, ?Hbx, ?Hay, ?Hby; apply IH.
Qed.

Lemma minmax_loop_succeeds (op : Opcode) (Result x y : SymRef) type n :
  loads_succeed x y type ->
  forall i st, exists st',
    minmax_loop rop op Result x y type n i st = Some (tt, st').
Proof.
  intros Hload. induction n as [|n IH]; intros i st; simpl.
  - eexists. reflexivity.
  - destruct (Hload 0 i) as [[a Ha] [b Hb]].
    destruct (Hload 1 i) as [[ax Hax] [bx Hbx]].
    destruct (Hload 2 i) as [[ay Hay] [by_ Hby]].
    destruct (has_derivs Result);
      unfold gbind, deref, llvm_store_value, emit, gret;
      rewrite ?Ha, ?Hb, ?Hax, ?Hbx, ?Hay, ?Hby; apply IH.
Qed.

(** The four arithmetic generators and [llvm_gen_minmax] return true on
    operands that are neither closures nor matrices, whenever every load
    of the operands succeeds. *)
Lemma arithmetic_lowering_succeeds (opnum : Z) (op : Opcode)
    (Result A B : SymRef) (st : GenState) :
  at_index (m_instops (inst rop)) opnum = Some op ->
  opargsym rop op 0 = Some Result ->
  opargsym rop op 1 = Some A ->
  opargsym rop op 2 = Some B ->
  is_closure (typespec Result) = false ->
  is_matrix (typespec Result) = false ->
  loads_succeed A B (simpletype (typespec Result)) ->
  (exists st', llvm_gen_add rop opnum st = Some (true, st'))
  /\ (exists st', llvm_gen_sub rop opnum st = Some (true, st'))
  /\ (exists st', llvm_gen_mul rop opnum st = Some (true, st'))
  /\ (exists st', llvm_gen_div rop opnum st = Some (true, st'))
  /\ (exists st', llvm_gen_minmax rop opnum st = Some (true, st')).
Proof.
  intros Hop HR HA HB Hclosure Hmatrix Hload.
  unfold llvm_gen_add, llvm_gen_sub, llvm_gen_mul, llvm_gen_div,
    llvm_gen_minmax, addsub_derivs.
  unfold gbind at 1 2 3 4 5. unfold deref at 1 2 3 4. rewrite Hop.
  repeat split.
  - unfold gbind, deref. rewrite HR, HA, HB, Hclosure.
    destruct (values_loop_succeeds Op_add Result A B _
                (num_components Result) Hload 0 st) as [st1 ->].
    destruct (has_derivs Result); [|eexists; reflexivity].
    destruct (has_derivs A || has_derivs B).
    + destruct (derivs_loop_succeeds Op_add Result A B _ 1
                  (num_components Result) Hload 0 st1) as [st2 ->].
      destruct (derivs_loop_succeeds Op_add Result A B _ 2
                  (num_components Result) Hload 0 st2) as [st3 ->].
      eexists. reflexivity.
    + eexists. reflexivity.
  - unfold gbind, deref. rewrite HR, HA, HB.
    destruct (values_loop_succeeds Op_sub Result A B _
                (num_components Result) Hload 0 st) as [st1 ->].
    destruct (has_derivs Result); [|eexists; reflexivity].
    destruct (has_derivs A || has_derivs B).
    + destruct (derivs_loop_succeeds Op_sub Result A B _ 1
                  (num_components Result) Hload 0 st1) as [st2 ->].
      destruct (derivs_loop_succeeds Op_sub Result A B _ 2
                  (num_components Result) Hload 0 st2) as [st3 ->].
      eexists. reflexivity.
    + eexists. reflexivity.
  - unfold gbind, deref. rewrite HR, HA, HB, Hclosure, Hmatrix.
    destruct (mul_loop_succeeds Result A B _ (num_components Result) Hload
                0 st) as [st1 ->].
    destruct (has_derivs Result && negb (has_derivs A || has_derivs B));
      eexists; reflexivity.
  - unfold gbind, deref. rewrite HR, HA, HB, Hmatrix.
    match goal with
    | |- context [div_loop rop Result A B ?t ?sd ?dv ?n 0 st] =>
        destruct (div_loop_succeeds Result A B t sd dv n Hload 0 st)
          as [st1 ->]
    end.
    destruct (has_derivs Result && negb (has_derivs A || has_derivs B));
      eexists; reflexivity.
  - unfold gbind, deref. rewrite HR, HA, HB.
    destruct (minmax_loop_succeeds op Result A B _ (num_components Result)
                Hload 0 st) as [st1 ->].
    eexists. reflexivity.
Qed.

(** *** mul *)

Lemma mul_derivs_emits (Result A B : SymRef) type a b i st u st' :
  mul_derivs rop Result A B type a b i st = Some (u, st') ->
  exists extra,
    emitted st' = emitted st ++ extra
    /\ if has_derivs Result && (has_derivs A || has_derivs B) then
         exists ax bx ay by_,
           load rop A 1 i type = Some ax /\ load rop B 1 i type = Some bx
           /\ load rop A 2 i type = Some ay
           /\ load rop B 2 i type = Some by_
           /\ extra
              = [Store_value (Op_add (Op_mul a bx) (Op_mul ax b))
                   (index Result) 1 None i;
                 Store_value (Op_add (Op_mul a by_) (Op_mul ay b))
                   (index Result) 2 None i]
       else extra = [].
Proof.
  unfold mul_derivs.
  destruct (has_derivs Result && (has_derivs A || has_derivs B));
    intros Hrun; gen_inv.
  - eexists. split; [simpl; rewrite <- app_assoc; reflexivity|].
    eexists _, _, _, _. repeat (split; [eassumption|]). reflexivity.
  - exists []. rewrite app_nil_r. auto.
Qed.

(** What one run of the component loop of [llvm_gen_mul] stores, per
    channel and component. *)
Lemma mul_loop_stores (Result A B : SymRef) type n :
  forall i st st',
    mul_loop rop Result A B type n i st = Some (true, st') ->
    exists delta,
      emitted st' = emitted st ++ delta
      /\ (forall j d, ~ (i <= j < i + Z.of_nat n) ->
            stores_to delta (index Result) d j = [])
      /\ (forall j, i <= j < i + Z.of_nat n ->
            exists a b,
              load rop A 0 j type = Some a /\ load rop B 0 j type = Some b
              /\ stores_to delta (index Result) 0 j = [Op_mul a b]
              /\ (has_derivs Result && (has_derivs A || has_derivs B)
                  = true ->
                  exists ax bx ay by_,
                    load rop A 1 j type = Some ax
                    /\ load rop B 1 j type = Some bx
                    /\ load rop A 2 j type = Some ay
                    /\ load rop B 2 j type = Some by_
                    /\ stores_to delta (index Result) 1 j
                       = [Op_add (Op_mul a bx) (Op_mul ax b)]
                    /\ stores_to delta (index Result) 2 j
                       = [Op_add (Op_mul a by_) (Op_mul ay b)])).
Proof.
  induction n as [|n IH]; intros i st st' Hrun; simpl in Hrun.
  - gen_inv. exists []. rewrite app_nil_r.
    split; [reflexivity|]. split; [reflexivity|]. intros j Hj. lia.
  - destruct (load rop A 0 i type) as [a|] eqn:Ha;
      [destruct (load rop B 0 i type) as [b|] eqn:Hb|];
      gen_inv; try discriminate.
    match goal with
    | Hd : mul_derivs _ _ _ _ _ _ _ _ _ = Some _ |- _ =>
        apply mul_derivs_emits in Hd as (extra & Hextra & Hderivs)
    end.
    apply IH in Hrun as (delta & Hdelta & Hout & Hin).
    exists (Store_value (Op_mul a b) (index Result) 0 None i
              :: extra ++ delta).
    split.
    { rewrite Hdelta, Hextra. simpl. rewrite <- !app_assoc. reflexivity. }
    split.
    { intros j d Hj. rewrite stores_to_cons_store, stores_to_app.
      rewrite Hout by lia.
      destruct (has_derivs Result && (has_derivs A || has_derivs B)).
      - destruct Hderivs as (ax & bx & ay & by_ & _ & _ & _ & _ & ->).
        stores_simpl. reflexivity.
      - subst extra. stores_simpl. reflexivity. }
    intros j Hj. destruct (Z.eq_dec j i) as [->|Hne].
    + exists a, b. repeat (split; [assumption|]). split.
      * rewrite stores_to_cons_store, stores_to_app.
        rewrite Hout by lia.
        destruct (has_derivs Result && (has_derivs A || has_derivs B)).
        -- destruct Hderivs as (ax & bx & ay & by_ & _ & _ & _ & _ & ->).
           stores_simpl. reflexivity.
        -- subst extra. stores_simpl. reflexivity.
      * intros Hd. rewrite Hd in Hderivs.
        destruct Hderivs as (ax & bx & ay & by_ & ? & ? & ? & ? & ->).
        exists ax, bx, ay, by_. repeat (split; [assumption|]).
        rewrite !stores_to_cons_store, !stores_to_app, !Hout by lia.
        stores_simpl. split; reflexivity.
    + destruct (Hin j ltac:(lia)) as (a' & b' & Ha' & Hb' & H0j & Hdj).
      exists a', b'. repeat (split; [assumption|]).
      assert (Hskip : forall d,
                stores_to (Store_value (Op_mul a b) (index Result) 0 None i
                             :: extra ++ delta) (index Result) d j
                = stores_to delta (index Result) d j).
      { intros d. rewrite stores_to_cons_store, stores_to_app.
        destruct (has_derivs Result && (has_derivs A || has_derivs B)).
        - destruct Hderivs as (ax & bx & ay & by_ & _ & _ & _ & _ & ->).
          stores_simpl. reflexivity.
        - subst extra. stores_simpl. reflexivity. }
      split; [rewrite Hskip; assumption|].
      intros Hd.
      destruct (Hdj Hd)
        as (ax & bx & ay & by_ & Hax & Hbx & Hay & Hby & H1j & H2j).
      exists ax, bx, ay, by_. repeat (split; [assumption|]).
      rewrite !Hskip. split; assumption.
Qed.



Lemma mul_loop_store_only (Result A B : SymRef) type n :
  forall i st ok st',
    mul_loop rop Result A B type n i st = Some (ok, st') ->
    exists delta,
      emitted st' = emitted st ++ delta /\ Forall store_only delta.
Proof.
  induction n as [|n IH]; intros i st ok st' Hrun; simpl in Hrun.
  - gen_inv. exists []. rewrite app_nil_r. auto.
  - destruct (load rop A 0 i type) as [a|];
      [destruct (load rop B 0 i type) as [b|]|];
      gen_inv; try (exists []; rewrite app_nil_r; auto; fail).
    match goal with
    | Hd : mul_derivs _ _ _ _ _ _ _ _ _ = Some _ |- _ =>
        apply mul_derivs_emits in Hd as (extra & Hextra & Hderivs)
    end.
    apply IH in Hrun as (delta & Hdelta & Hstore).
    eexists (_ :: extra ++ delta). split.
    + rewrite Hdelta, Hextra. simpl. rewrite <- !app_assoc. reflexivity.
    + constructor; [eauto 6|]. apply Forall_app. split; [|assumption].
      destruct (has_derivs Result && (has_derivs A || has_derivs B)).
      * destruct Hderivs as (? & ? & ? & ? & _ & _ & _ & _ & ->).
        repeat constructor; eauto 6.
      * subst extra. constructor.
Qed.


(** *** div *)





(** *** min and max *)

Lemma minmax_loop_stores (op : Opcode) (Result x y : SymRef) type n :
  forall i st u st',
    minmax_loop rop op Result x y type n i st = Some (u, st') ->
    exists delta,
      emitted st' = emitted st ++ delta
      /\ (forall j d, ~ (i <= j < i + Z.of_nat n) ->
            stores_to delta (index Result) d j = [])
      /\ (forall j, i <= j < i + Z.of_nat n ->
            exists x_val y_val,
              load rop x 0 j type = Some x_val
              /\ load rop y 0 j type = Some y_val
              /\ let cond := if decide (opname op = op_min)
                             then Op_le x_val y_val
                             else Op_gt x_val y_val in
                 stores_to delta (index Result) 0 j
                 = [Op_select cond x_val y_val]
                 /\ (has_derivs Result = true ->
                     exists x_dx x_dy y_dx y_dy,
                       load rop x 1 j type = Some x_dx
                       /\ load rop x 2 j type = Some x_dy
                       /\ load rop y 1 j type = Some y_dx
                       /\ load rop y 2 j type = Some y_dy
                       /\ stores_to delta (index Result) 1 j
                          = [Op_select cond x_dx y_dx]
                       /\ stores_to delta (index Result) 2 j
                          = [Op_select cond x_dy y_dy])).
Proof.
  induction n as [|n IH]; intros i st u st' Hrun; simpl in Hrun.
  - gen_inv. exists []. rewrite app_nil_r.
    split; [reflexivity|]. split; [reflexivity|]. intros j Hj. lia.
  - apply gbind_inv in Hrun as (x_val & ? & Hx & Hrun).
    apply deref_inv in Hx as [Hx ->].
    apply gbind_inv in Hrun as (y_val & ? & Hy & Hrun).
    apply deref_inv in Hy as [Hy ->].
    cbv zeta in Hrun.
    set (cond := if decide (opname op = op_min)
                 then Op_le x_val y_val else Op_gt x_val y_val) in *.
    apply gbind_inv in Hrun as (? & st1 & Hstore & Hrun).
    apply emit_inv in Hstore. subst st1.
    apply gbind_inv in Hrun as (? & st2 & Hds & Hrun).
    assert (exists dstores,
               emitted st2
               = emitted st
                 ++ Store_value (Op_select cond x_val y_val)
                      (index Result) 0 None i :: dstores
               /\ if has_derivs Result then
                    exists x_dx x_dy y_dx y_dy,
                      load rop x 1 i type = Some x_dx
                      /\ load rop x 2 i type = Some x_dy
                      /\ load rop y 1 i type = Some y_dx
                      /\ load rop y 2 i type = Some y_dy
                      /\ dstores
                         = [Store_value (Op_select cond x_dx y_dx)
                              (index Result) 1 None i;
                            Store_value (Op_select cond x_dy y_dy)
                              (index Result) 2 None i]
                  else dstores = [])
      as (dstores & Hst2 & Hdstores).
    { destruct (has_derivs Result); gen_inv.
      - eexists. split; [simpl; rewrite <- !app_assoc; reflexivity|].
        eexists _, _, _, _. repeat (split; [eassumption|]). reflexivity.
      - exists []. simpl. auto. }
    apply IH in Hrun as (delta & Hdelta & Hout & Hin).
    exists (Store_value (Op_select cond x_val y_val) (index Result) 0 None i
              :: dstores ++ delta).
    split.
    { rewrite Hdelta, Hst2. rewrite <- app_assoc. reflexivity. }
    assert (Hskip : forall j d, j <> i ->
              stores_to (Store_value (Op_select cond x_val y_val)
                           (index Result) 0 None i :: dstores ++ delta)
                (index Result) d j
              = stores_to delta (index Result) d j).
    { intros j d Hj. rewrite stores_to_cons_store, stores_to_app.
      destruct (has_derivs Result).
      - destruct Hdstores as (? & ? & ? & ? & _ & _ & _ & _ & ->).
        stores_simpl. reflexivity.
      - subst dstores. stores_simpl. reflexivity. }
    split.
    { intros j d Hj. rewrite Hskip by lia. apply Hout. lia. }
    intros j Hj. destruct (Z.eq_dec j i) as [->|Hne].
    + exists x_val, y_val. repeat (split; [assumption|]).
      fold cond. cbv zeta. split.
      * rewrite stores_to_cons_store, stores_to_app, Hout by lia.
        destruct (has_derivs Result).
        -- destruct Hdstores as (? & ? & ? & ? & _ & _ & _ & _ & ->).
           stores_simpl. reflexivity.
        -- subst dstores. stores_simpl. reflexivity.
      * intros Hd. rewrite Hd in Hdstores.
        destruct Hdstores
          as (x_dx & x_dy & y_dx & y_dy & ? & ? & ? & ? & ->).
        exists x_dx, x_dy, y_dx, y_dy. repeat (split; [assumption|]).
        rewrite !stores_to_cons_store, !stores_to_app, !Hout by lia.
        stores_simpl. split; reflexivity.
    + destruct (Hin j ltac:(lia)) as (x' & y' & Hx' & Hy' & Hj').
      exists x', y'. repeat (split; [assumption|]).
      cbv zeta in Hj' |- *. rewrite !Hskip by assumption.
      exact Hj'.
Qed.

Lemma minmax_loop_store_only (op : Opcode) (Result x y : SymRef) type n :
  forall i st u st',
    minmax_loop rop op Result x y type n i st = Some (u, st') ->
    exists delta,
      emitted st' = emitted st ++ delta /\ Forall store_only delta.
Proof.
  induction n as [|n IH]; intros i st u st' Hrun; cbn [minmax_loop] in Hrun.
  - gen_inv. exists []. rewrite app_nil_r. auto.
  - destruct (has_derivs Result); gen_inv;
      apply IH in Hrun as (delta & Hdelta & Hstore);
      cbn [emitted] in Hdelta; rewrite <- !app_assoc in Hdelta;
      (eexists; split; [exact Hdelta|]);
      repeat (apply Forall_app; split); try assumption;
      repeat constructor; eauto 6.
Qed.


(** C1.  When [llvm_gen_mul] lowers a product whose result is neither a
    closure nor a matrix, the result has derivatives and so has one of
    the operands, the generator returns true whenever the loads of the
    operands succeed; and whenever it returns true, for every component
    the only value stored to the dx channel is [a*bx + ax*b] and the only
    value stored to the dy channel is [a*by + ay*b], where [a], [ax],
    [ay], [b], [bx], [by] are the loads of the value and derivative
    channels of the operands for that component; nothing that is emitted
    afterwards writes these channels, so that they hold these values when
    the generator returns; the emitted expressions compute that sum of
    products. *)
Theorem mul_product_rule (opnum : Z) (op : Opcode) (Result A B : SymRef)
    (st : GenState) :
  at_index (m_instops (inst rop)) opnum = Some op ->
  opargsym rop op 0 = Some Result ->
  opargsym rop op 1 = Some A ->
  opargsym rop op 2 = Some B ->
  is_closure (typespec Result) = false ->
  is_matrix (typespec Result) = false ->
  has_derivs Result = true ->
  has_derivs A || has_derivs B = true ->
  let type := simpletype (typespec Result) in
  (loads_succeed A B type ->
   exists st', llvm_gen_mul rop opnum st = Some (true, st'))
  /\ forall st', llvm_gen_mul rop opnum st = Some (true, st') ->
     forall i, 0 <= i < aggregate type ->
       exists a ax ay b bx by_,
         load rop A 0 i type = Some a /\ load rop A 1 i type = Some ax
         /\ load rop A 2 i type = Some ay
         /\ load rop B 0 i type = Some b /\ load rop B 1 i type = Some bx
         /\ load rop B 2 i type = Some by_
         /\ stores_to (emitted st') (index Result) 1 i
            = stores_to (emitted st) (index Result) 1 i
              ++ [Op_add (Op_mul a bx) (Op_mul ax b)]
         /\ stores_to (emitted st') (index Result) 2 i
            = stores_to (emitted st) (index Result) 2 i
              ++ [Op_add (Op_mul a by_) (Op_mul ay b)]
         /\ content (emitted st') (index Result) 0 i = Some (Op_mul a b)
         /\ content (emitted st') (index Result) 1 i
            = Some (Op_add (Op_mul a bx) (Op_mul ax b))
         /\ content (emitted st') (index Result) 2 i
            = Some (Op_add (Op_mul a by_) (Op_mul ay b))
         /\ forall (A_ : Arith) mem,
              eval mem (Op_add (Op_mul a bx) (Op_mul ax b))
              = arith add (arith mul (eval mem a) (eval mem bx))
                  (arith mul (eval mem ax) (eval mem b))
              /\ eval mem (Op_add (Op_mul a by_) (Op_mul ay b))
                 = arith add (arith mul (eval mem a) (eval mem by_))
                     (arith mul (eval mem ay) (eval mem b)).
Proof.
  intros Hop HR HA HB Hclosure Hmatrix HdR HdAB type. split.
  { intros Hload.
    destruct (arithmetic_lowering_succeeds opnum op Result A B st Hop HR HA
                HB Hclosure Hmatrix Hload) as (_ & _ & Hmul & _).
    exact Hmul. }
  intros st' Hrun i Hi.
  unfold llvm_gen_mul in Hrun.
  take_operand Hrun Hop. take_operand Hrun HR.
  take_operand Hrun HA. take_operand Hrun HB.
  cbv beta zeta in Hrun. rewrite Hclosure, Hmatrix in Hrun.
  apply gbind_inv in Hrun as ([] & st1 & Hloop & Hrun);
    [|gen_inv; discriminate].
  pose proof (mul_loop_store_only _ _ _ _ _ _ _ _ _ Hloop)
    as (delta' & Hdelta' & Hstore).
  apply mul_loop_stores in Hloop as (delta & Hdelta & _ & Hin).
  rewrite Hdelta in Hdelta'. apply app_inv_head in Hdelta'. subst delta'.
  destruct (Hin i) as (a & b & Ha & Hb & Hvalue & Hderivs).
  { unfold num_components. unfold type in Hi. lia. }
  destruct Hderivs as (ax & bx & ay & by_ & Hax & Hbx & Hay & Hby & H1 & H2).
  { rewrite HdR, HdAB. reflexivity. }
  exists a, ax, ay, b, bx, by_. repeat (split; [assumption|]).
  rewrite HdR, HdAB in Hrun. simpl in Hrun. gen_inv.
  rewrite Hdelta, !stores_to_app, H1, H2.
  repeat (split; [reflexivity|]).
  repeat (split; [apply content_after_stores; assumption|]).
  repeat split; reflexivity.
Qed.



(** C7.  [llvm_gen_minmax] returns true whenever the loads of the
    operands succeed.  On a [min] whose result has derivatives it
    selects, for every component, the value and both derivative channels
    under the one condition [x <= y], and nothing that is emitted
    afterwards writes the result, so that its three channels hold these
    selections when the generator returns; when the two operands compare
    equal, all three are those of the first operand. *)
Theorem min_ties_to_first (opnum : Z) (op : Opcode) (Result x y : SymRef)
    (st : GenState) :
  at_index (m_instops (inst rop)) opnum = Some op ->
  opargsym rop op 0 = Some Result ->
  opargsym rop op 1 = Some x ->
  opargsym rop op 2 = Some y ->
  opname op = op_min ->
  has_derivs Result = true ->
  let type := simpletype (typespec Result) in
  (loads_succeed x y type ->
   exists st', llvm_gen_minmax rop opnum st = Some (true, st'))
  /\ forall st', llvm_gen_minmax rop opnum st = Some (true, st') ->
     forall i, 0 <= i < aggregate type ->
       exists x_val x_dx x_dy y_val y_dx y_dy,
         load rop x 0 i type = Some x_val /\ load rop x 1 i type = Some x_dx
         /\ load rop x 2 i type = Some x_dy
         /\ load rop y 0 i type = Some y_val
         /\ load rop y 1 i type = Some y_dx
         /\ load rop y 2 i type = Some y_dy
         /\ stores_to (emitted st') (index Result) 0 i
            = stores_to (emitted st) (index Result) 0 i
              ++ [Op_select (Op_le x_val y_val) x_val y_val]
         /\ stores_to (emitted st') (index Result) 1 i
            = stores_to (emitted st) (index Result) 1 i
              ++ [Op_select (Op_le x_val y_val) x_dx y_dx]
         /\ stores_to (emitted st') (index Result) 2 i
            = stores_to (emitted st) (index Result) 2 i
              ++ [Op_select (Op_le x_val y_val) x_dy y_dy]
         /\ content (emitted st') (index Result) 0 i
            = Some (Op_select (Op_le x_val y_val) x_val y_val)
         /\ content (emitted st') (index Result) 1 i
            = Some (Op_select (Op_le x_val y_val) x_dx y_dx)
         /\ content (emitted st') (index Result) 2 i
            = Some (Op_select (Op_le x_val y_val) x_dy y_dy)
         /\ forall (A_ : Arith) mem vx vy,
              eval mem x_val = Num vx -> eval mem y_val = Num vy ->
              eqb vx vy = true ->
              eval mem (Op_select (Op_le x_val y_val) x_val y_val)
              = eval mem x_val
              /\ eval mem (Op_select (Op_le x_val y_val) x_dx y_dx)
                 = eval mem x_dx
              /\ eval mem (Op_select (Op_le x_val y_val) x_dy y_dy)
                 = eval mem x_dy.
Proof.
  intros Hop HR Hx Hy Hmin HdR type. split.
  { intros Hload. unfold llvm_gen_minmax.
    unfold gbind at 1 2 3 4, deref. rewrite Hop, HR, Hx, Hy.
    cbv beta zeta. unfold gbind. fold type.
    destruct (minmax_loop_succeeds op Result x y type
                (num_components Result) Hload 0 st) as [st1 ->].
    eexists. reflexivity. }
  intros st' Hrun i Hi.
  unfold llvm_gen_minmax in Hrun.
  take_operand Hrun Hop. take_operand Hrun HR.
  take_operand Hrun Hx. take_operand Hrun Hy.
  cbv beta zeta in Hrun.
  apply gbind_inv in Hrun as (? & st1 & Hloop & Hrun).
  apply gret_inv in Hrun as [_ ->].
  pose proof (minmax_loop_store_only _ _ _ _ _ _ _ _ _ _ Hloop)
    as (delta' & Hdelta' & Hstore).
  apply minmax_loop_stores in Hloop as (delta & Hdelta & _ & Hin).
  rewrite Hdelta in Hdelta'. apply app_inv_head in Hdelta'. subst delta'.
  destruct (Hin i) as (x_val & y_val & Hxv & Hyv & Hsel).
  { unfold num_components. unfold type in Hi. lia. }
  cbv zeta in Hsel. rewrite decide_True in Hsel by assumption.
  destruct Hsel as [Hv0 Hderivs].
  destruct (Hderivs HdR)
    as (x_dx & x_dy & y_dx & y_dy & ? & ? & ? & ? & Hv1 & Hv2).
  exists x_val, x_dx, x_dy, y_val, y_dx, y_dy.
  repeat (split; [assumption|]).
  rewrite Hdelta, !stores_to_app, Hv0, Hv1, Hv2.
  repeat (split; [reflexivity|]).
  repeat (split; [apply content_after_stores; assumption|]).
  intros A_ mem vx vy Hvx Hvy Heq. simpl. rewrite Hvx, Hvy. simpl.
  rewrite (leb_of_eqb vx vy Heq). auto.
Qed.

(** *** closures *)

(** C9.  When the name of the closure is not in the registry,
    [llvm_gen_closure] returns false, reports one error whose text
    holds the name of the closure, the source file and the source line
    of the opcode, and emits nothing: no storage is allocated. *)
Theorem unknown_closure_is_an_error (opnum : Z) (op : Opcode)
    (Result arg1 Id : SymRef) (closure_name : string) (st : GenState) :
  at_index (m_instops (inst rop)) opnum = Some op ->
  opargsym rop op 0 = Some Result ->
  opargsym rop op 1 = Some arg1 ->
  opargsym rop op (1 + (if is_string (typespec arg1) then 0 else 1))
  = Some Id ->
  get_string Id = Some closure_name ->
  find_closure rop closure_name = None ->
  exists st',
    llvm_gen_closure rop opnum st = Some (false, st')
    /\ emitted st' = emitted st
    /\ calls_of (emitted st') "osl_allocate_closure_component"
       = calls_of (emitted st) "osl_allocate_closure_component"
    /\ calls_of (emitted st') "osl_allocate_weighted_closure_component"
       = calls_of (emitted st) "osl_allocate_weighted_closure_component"
    /\ messages st'
       = messages st
         ++ [mkDiag SevError
               ("Closure '" ++ closure_name
                ++ "' is not supported by the current renderer, called from "
                ++ sourcefile op ++ ":" ++ print_int (sourceline op)
                ++ " in shader " ++ dquote
                ++ shadername (m_master (inst rop)) ++ dquote
                ++ ", layer " ++ print_int (layer rop) ++ " " ++ dquote
                ++ m_layername (inst rop) ++ dquote ++ ", group "
                ++ dquote ++ group_name rop ++ dquote)%string].
Proof.
  intros Hop HR Harg1 HId Hname Hfind.
  eexists. split.
  - unfold llvm_gen_closure, gbind, deref.
    rewrite Hop, HR, Harg1. cbv zeta. rewrite HId, Hname, Hfind.
    unfold errorfmt, report, gret. reflexivity.
  - cbn [emitted messages]. repeat (split; [reflexivity|]).
    reflexivity.
Qed.

End generators.

Import Models.

(** The loads of the back end of the example succeed, and return
    values. *)
Lemma example_loads_succeed (A B : SymRef) (type : TypeDesc) :
  loads_succeed Examples.backend A B type.
Proof. intros d j. split; eexists; reflexivity. Qed.


(** The lowering of [mul R A B] in the example shader, first component. *)
Lemma mul_product_rule_witness :
  let type := simpletype Examples.color_spec in
  exists st' a ax ay b bx by_,
    llvm_gen_mul Examples.backend 0 Examples.start = Some (true, st')
    /\ load Examples.backend (Examples.symref 3) 0 0 type = Some a
    /\ load Examples.backend (Examples.symref 3) 1 0 type = Some ax
    /\ load Examples.backend (Examples.symref 3) 2 0 type = Some ay
    /\ load Examples.backend (Examples.symref 4) 0 0 type = Some b
    /\ load Examples.backend (Examples.symref 4) 1 0 type = Some bx
    /\ load Examples.backend (Examples.symref 4) 2 0 type = Some by_
    /\ stores_to (emitted st') 2 1 0
       = stores_to (emitted Examples.start) 2 1 0
         ++ [Op_add (Op_mul a bx) (Op_mul ax b)]
    /\ stores_to (emitted st') 2 2 0
       = stores_to (emitted Examples.start) 2 2 0
         ++ [Op_add (Op_mul a by_) (Op_mul ay b)]
    /\ content (emitted st') 2 0 0 = Some (Op_mul a b)
    /\ content (emitted st') 2 1 0
       = Some (Op_add (Op_mul a bx) (Op_mul ax b))
    /\ content (emitted st') 2 2 0
       = Some (Op_add (Op_mul a by_) (Op_mul ay b))
    /\ forall (A_ : Arith) mem,
         eval mem (Op_add (Op_mul a bx) (Op_mul ax b))
         = arith add (arith mul (eval mem a) (eval mem bx))
             (arith mul (eval mem ax) (eval mem b))
         /\ eval mem (Op_add (Op_mul a by_) (Op_mul ay b))
            = arith add (arith mul (eval mem a) (eval mem by_))
                (arith mul (eval mem ay) (eval mem b)).
Proof.
  intros type.
  destruct (mul_product_rule Examples.backend 0 (Examples.opcode 0)
              (Examples.symref 2) (Examples.symref 3) (Examples.symref 4)
              Examples.start eq_refl eq_refl eq_refl eq_refl eq_refl eq_refl
              eq_refl eq_refl) as [Htotal Hrule].
  destruct (Htotal (example_loads_succeed _ _ _)) as [st' Hst'].
  destruct (Hrule st' Hst' 0 ltac:(simpl; lia))
    as (a & ax & ay & b & bx & by_ & Hw).
  exists st', a, ax, ay, b, bx, by_. split; [exact Hst' | exact Hw].
Defined.



(** The lowering of [min R A B] in the example shader. *)
Lemma min_ties_to_first_witness :
  let type := simpletype Examples.color_spec in
  exists st' x_val x_dx x_dy y_val y_dx y_dy,
    llvm_gen_minmax Examples.backend 4 Examples.start = Some (true, st')
    /\ load Examples.backend (Examples.symref 3) 0 0 type = Some x_val
    /\ load Examples.backend (Examples.symref 3) 1 0 type = Some x_dx
    /\ load Examples.backend (Examples.symref 3) 2 0 type = Some x_dy
    /\ load Examples.backend (Examples.symref 4) 0 0 type = Some y_val
    /\ load Examples.backend (Examples.symref 4) 1 0 type = Some y_dx
    /\ load Examples.backend (Examples.symref 4) 2 0 type = Some y_dy
    /\ stores_to (emitted st') 2 0 0
       = stores_to (emitted Examples.start) 2 0 0
         ++ [Op_select (Op_le x_val y_val) x_val y_val]
    /\ stores_to (emitted st') 2 1 0
       = stores_to (emitted Examples.start) 2 1 0
         ++ [Op_select (Op_le x_val y_val) x_dx y_dx]
    /\ stores_to (emitted st') 2 2 0
       = stores_to (emitted Examples.start) 2 2 0
         ++ [Op_select (Op_le x_val y_val) x_dy y_dy]
    /\ content (emitted st') 2 0 0
       = Some (Op_select (Op_le x_val y_val) x_val y_val)
    /\ content (emitted st') 2 1 0
       = Some (Op_select (Op_le x_val y_val) x_dx y_dx)
    /\ content (emitted st') 2 2 0
       = Some (Op_select (Op_le x_val y_val) x_dy y_dy)
    /\ forall (A_ : Arith) mem vx vy,
         eval mem x_val = Num vx -> eval mem y_val = Num vy ->
         eqb vx vy = true ->
         eval mem (Op_select (Op_le x_val y_val) x_val y_val)
         = eval mem x_val
         /\ eval mem (Op_select (Op_le x_val y_val) x_dx y_dx)
            = eval mem x_dx
         /\ eval mem (Op_select (Op_le x_val y_val) x_dy y_dy)
            = eval mem x_dy.
Proof.
  intros type.
  destruct (min_ties_to_first Examples.backend 4 (Examples.opcode 4)
              (Examples.symref 2) (Examples.symref 3) (Examples.symref 4)
              Examples.start eq_refl eq_refl eq_refl eq_refl eq_refl eq_refl)
    as [Htotal Hrule].
  destruct (Htotal (example_loads_succeed _ _ _)) as [st' Hst'].
  destruct (Hrule st' Hst' 0 ltac:(simpl; lia))
    as (x_val & x_dx & x_dy & y_val & y_dx & y_dy & Hw).
  exists st', x_val, x_dx, x_dy, y_val, y_dx, y_dy.
  split; [exact Hst' | exact Hw].
Defined.

(** The lowering of [closure Ci "glossy"] in the example shader, whose
    renderer registers [diffuse] only. *)
Lemma unknown_closure_is_an_error_witness :
  exists st',
    llvm_gen_closure Examples.backend 5 Examples.start = Some (false, st')
    /\ emitted st' = emitted Examples.start
    /\ calls_of (emitted st') "osl_allocate_closure_component"
       = calls_of (emitted Examples.start) "osl_allocate_closure_component"
    /\ calls_of (emitted st') "osl_allocate_weighted_closure_component"
       = calls_of (emitted Examples.start)
           "osl_allocate_weighted_closure_component"
    /\ messages st'
       = messages Examples.start
         ++ [mkDiag SevError
               ("Closure '" ++ "glossy"
                ++ "' is not supported by the current renderer, called from "
                ++ sourcefile (Examples.opcode 5) ++ ":"
                ++ print_int (sourceline (Examples.opcode 5))
                ++ " in shader " ++ dquote
                ++ shadername (m_master (inst Examples.backend)) ++ dquote
                ++ ", layer " ++ print_int (layer Examples.backend) ++ " "
                ++ dquote ++ m_layername (inst Examples.backend) ++ dquote
                ++ ", group " ++ dquote ++ group_name Examples.backend
                ++ dquote)%string].
Proof.
  apply (unknown_closure_is_an_error (H := exact_types) (H0 := plain_printer)
           Examples.backend 5 (Examples.opcode 5)
           (Examples.symref 7) (Examples.symref 6) (Examples.symref 6)
           "glossy" Examples.start);
    reflexivity.
Defined.

End LLVMGenFacts.

(** ** instance.cpp *)

Module InstanceFacts.
Import Inst.

(** *** Vectors *)

(** Turns the boolean tests of a hypothesis into arithmetic. *)
Ltac unbool H :=
  rewrite ?andb_true_iff, ?Z.leb_le, ?Z.ltb_lt, ?Z.eqb_eq in H.

Lemma at_index_lt {A} (v : list A) (i : Z) (x : A) :
  at_index v i = Some x -> 0 <= i < Z.of_nat (length v).
Proof.
  unfold at_index. destruct (Z.leb_spec 0 i) as [Hi|]; [|discriminate].
  intros Hx. apply lookup_lt_Some in Hx. lia.
Qed.

Lemma at_index_set {A} (v v' : list A) (i : Z) (x : A) :
  set_index v i x = Some v' -> at_index v' i = Some x.
Proof.
  unfold set_index. destruct (at_index v i) as [y|] eqn:Hy; [|discriminate].
  intros [= <-]. apply at_index_lt in Hy as Hi.
  unfold at_index. destruct (Z.leb_spec 0 i); [|lia].
  apply list_lookup_insert_eq. lia.
Qed.

Lemma slice_length {A} (v p : list A) (off n : Z) :
  slice v off n = Some p -> Z.of_nat (length p) = n.
Proof.
  unfold slice.
  destruct ((0 <=? off) && (0 <=? n) && (off + n <=? Z.of_nat (length v)))
    eqn:Hin; [|discriminate].
  unbool Hin. intros [= <-]. rewrite length_take, length_drop. lia.
Qed.

Lemma slice_blit {A} (v v' src : list A) (off : Z) :
  blit v off src = Some v' ->
  slice v' off (Z.of_nat (length src)) = Some src.
Proof.
  unfold blit, slice.
  destruct ((0 <=? off) && (off + Z.of_nat (length src)
                            <=? Z.of_nat (length v))) eqn:Hin;
    [|discriminate].
  unbool Hin. intros [= <-].
  assert (Hlen : length (take (Z.to_nat off) v) = Z.to_nat off)
    by (rewrite length_take; lia).
  rewrite !length_app, length_drop, Hlen.
  replace ((0 <=? off) && (0 <=? Z.of_nat (length src))
           && (off + Z.of_nat (length src)
               <=? Z.of_nat (Z.to_nat off
                             + (length src
                                + (length v - (Z.to_nat off + length src))))))
    with true
    by (symmetry; rewrite !andb_true_iff, !Z.leb_le; lia).
  f_equal. rewrite drop_app_length' by (symmetry; assumption).
  rewrite Nat2Z.id. apply take_app_length.
Qed.

Lemma length_blit {A} (v v' src : list A) (off : Z) :
  blit v off src = Some v' -> length v' = length v.
Proof.
  unfold blit.
  destruct ((0 <=? off) && (off + Z.of_nat (length src)
                            <=? Z.of_nat (length v))) eqn:Hin;
    [|discriminate].
  unbool Hin. intros [= <-].
  rewrite !length_app, length_take, length_drop. lia.
Qed.

Lemma blit_same {A} (v src : list A) (off n : Z) :
  slice v off n = Some src -> blit v off src = Some v.
Proof.
  unfold slice, blit.
  destruct ((0 <=? off) && (0 <=? n) && (off + n <=? Z.of_nat (length v)))
    eqn:Hin; [|discriminate].
  unbool Hin. intros [= <-].
  rewrite length_take, length_drop.
  replace ((0 <=? off)
           && (off + Z.of_nat (Z.to_nat n `min` (length v - Z.to_nat off))
               <=? Z.of_nat (length v)))
    with true by (symmetry; rewrite andb_true_iff, !Z.leb_le; lia).
  f_equal.
  replace (Z.to_nat off + Z.to_nat n `min` (length v - Z.to_nat off))%nat
    with (Z.to_nat off + Z.to_nat n)%nat by lia.
  rewrite <- drop_drop, take_drop. apply take_drop.
Qed.

(** *** Storage *)

Lemma data_prefix_length d n payload :
  data_prefix d n = Some payload -> Z.of_nat (data_length payload) = n.
Proof.
  destruct d as [l|l|l]; simpl;
    destruct (slice l 0 n) as [q|] eqn:Hq; simpl; try discriminate;
    intros [= <-]; simpl; eapply slice_length; eassumption.
Qed.

Lemma write_params_keeps a storage d a' :
  write_params a storage d = Some a' ->
  m_instoverrides a' = m_instoverrides a
  /\ m_instsymbols a' = m_instsymbols a
  /\ m_master a' = m_master a.
Proof.
  unfold write_params.
  destruct storage, d; try discriminate;
    match goal with
    | |- context [blit ?v ?off ?l] => destruct (blit v off l); simpl
    end; try discriminate; intros [= <-]; auto.
Qed.

Lemma param_storage_write a storage d a' i :
  write_params a storage d = Some a' ->
  param_storage a' i = param_storage a i.
Proof.
  intros Hwrite. apply write_params_keeps in Hwrite as (Hov & Hsyms & Hm).
  unfold param_storage, symbol, mastersymbol. rewrite Hov, Hsyms, Hm.
  reflexivity.
Qed.

(** What [memcpy] wrote is what a read through the same pointer
    returns. *)
Lemma read_after_write a storage d a' :
  write_params a storage d = Some a' ->
  read_params a' storage (Z.of_nat (data_length d)) = Some d.
Proof.
  unfold write_params, read_params, read.
  destruct storage, d; try discriminate;
    match goal with
    | |- context [blit ?v ?off ?l] =>
        destruct (blit v off l) as [v'|] eqn:Hblit; simpl
    end; try discriminate; intros [= <-]; simpl;
    rewrite (slice_blit _ _ _ _ Hblit); reflexivity.
Qed.

Lemma pool_size_write a storage d a' b :
  write_params a storage d = Some a' -> pool_size a' b = pool_size a b.
Proof.
  unfold write_params.
  destruct storage, d; try discriminate;
    match goal with
    | |- context [blit ?v ?off ?l] =>
        destruct (blit v off l) as [v'|] eqn:Hblit; simpl
    end; try discriminate; intros [= <-];
    apply length_blit in Hblit; destruct b; simpl; auto.
Qed.

Lemma set_index_Some {A} (v : list A) (i : Z) (x y : A) :
  at_index v i = Some x -> set_index v i y = Some (<[Z.to_nat i := y]> v).
Proof. unfold set_index. intros ->. reflexivity. Qed.

Lemma blit_Some {A} (v src : list A) (off : Z) :
  0 <= off -> off + Z.of_nat (length src) <= Z.of_nat (length v) ->
  exists v', blit v off src = Some v'.
Proof.
  intros Hoff Hfit. unfold blit.
  replace ((0 <=? off)
           && (off + Z.of_nat (length src) <=? Z.of_nat (length v)))
    with true by (symmetry; rewrite andb_true_iff, !Z.leb_le; lia).
  eexists. reflexivity.
Qed.

(** Before specialization, a parameter whose override records an array
    length lives at the data offset of the override. *)
Lemma param_storage_override a i sm so :
  m_instsymbols a = [] ->
  at_index (m_symbols (m_master a)) i = Some sm ->
  at_index (m_instoverrides a) i = Some so ->
  so_arraylen so <> 0 ->
  param_storage a i
  = Some (storage_of (simpletype (typespec sm)) (so_dataoffset so)).
Proof.
  intros Hpre Hsm Hso Hlen. unfold param_storage, mastersymbol.
  rewrite Hpre, Hsm. simpl.
  rewrite bool_decide_eq_false_2
    by (intros Hnil; rewrite Hnil in Hso; unfold at_index in Hso;
        destruct (0 <=? i); discriminate).
  simpl. rewrite Hso. simpl.
  replace (so_arraylen so =? 0) with false by (symmetry; lia).
  reflexivity.
Qed.

(** Before specialization, [param_storage] points into the pool of the
    base type of the master's symbol: at the data offset of the override
    when the override records an array length, and at the data offset of
    the master's symbol otherwise. *)
Lemma param_storage_before_specialization a i sm so :
  m_instsymbols a = [] ->
  at_index (m_symbols (m_master a)) i = Some sm ->
  at_index (m_instoverrides a) i = Some so ->
  param_storage a i
  = Some (storage_of (simpletype (typespec sm))
            (if so_arraylen so =? 0 then dataoffset sm
             else so_dataoffset so)).
Proof.
  intros Hpre Hsm Hso. unfold param_storage, mastersymbol.
  rewrite Hpre, Hsm. simpl.
  rewrite bool_decide_eq_false_2
    by (intros Hnil; rewrite Hnil in Hso; unfold at_index in Hso;
        destruct (0 <=? i); discriminate).
  simpl. rewrite Hso. simpl.
  destruct (so_arraylen so =? 0); reflexivity.
Qed.

(** *** parameters *)

Section parameters.
Context `{TypeRules} `{Conversions} `{Printer} (ss : ShadingSystem).

(** The steps of [bind_param] on a value that passes the checks. *)
Lemma bind_param_accepted hints pi p inst inst' msgs i sm cmsgs data
    valuetype :
  bind_param ss hints pi p inst = Some (inst', msgs) ->
  pv_name p <> EmptyString ->
  findparam inst (pv_name p) true = Some i ->
  0 <= i ->
  at_index (m_symbols (m_master inst)) i = Some sm ->
  is_closure_based (typespec sm) = false ->
  is_structure (typespec sm) = false ->
  typecheck ss sm (pv_data p) (pv_type p)
  = Some (cmsgs, Some (data, valuetype)) ->
  let paramtype := simpletype (typespec sm) in
  exists so hint data' valuetype' so' inst1 ov storage payload,
    at_index (m_instoverrides inst) i = Some so
    /\ at_index hints pi = Some hint
    /\ replicate_float paramtype data valuetype = Some (data', valuetype')
    /\ (let so1 :=
          set_dataoffset
            (set_interactive
               (set_interpolated (set_valuesource so InstanceVal)
                  (interpolated sm || has_hint hint hint_interpolated))
               (has_hint hint hint_interactive))
            (dataoffset sm) in
        if arraylen paramtype <? 0
        then allocate_unsized inst so1 paramtype valuetype'
             = Some (so', inst1)
        else
          inst1 = inst
          /\ exists defaultdata,
               param_default_storage (m_master inst) i = Some defaultdata
               /\ if negb (interpolated sm
                           || has_hint hint hint_interpolated)
                     && negb (has_hint hint hint_interactive)
                     && negb (has_init_ops sm)
                  then exists same,
                         same_as_default (m_master inst) defaultdata data'
                           valuetype' = Some same
                         /\ so' = (if same : bool
                                   then set_valuesource so1 DefaultVal
                                   else so1)
                  else so' = so1)
    /\ set_index (m_instoverrides inst1) i so' = Some ov
    /\ param_storage (with_overrides inst1 ov) i = Some storage
    /\ data_prefix data' (basevalues valuetype') = Some payload
    /\ write_params (with_overrides inst1 ov) storage payload = Some inst'
    /\ msgs = cmsgs.
Proof.
  intros Hrun Hname Hfind Hi Hsm Hclosure Hstruct Hcheck paramtype.
  unfold bind_param in Hrun.
  rewrite decide_False in Hrun by assumption.
  rewrite Hfind in Hrun. cbn [mbind option_bind] in Hrun.
  replace (0 <=? i) with true in Hrun by (symmetry; lia).
  rewrite Hsm in Hrun. cbn [mbind option_bind] in Hrun.
  destruct (at_index (m_instoverrides inst) i) as [so|] eqn:Hso;
    [|discriminate].
  cbn [mbind option_bind] in Hrun.
  rewrite Hclosure, Hstruct, Hcheck in Hrun.
  cbn [mbind option_bind] in Hrun.
  destruct (at_index hints pi) as [hint|] eqn:Hhint; [|discriminate].
  cbn [mbind option_bind] in Hrun. fold paramtype in Hrun.
  destruct (replicate_float paramtype data valuetype)
    as [[data' valuetype']|] eqn:Hrep; [|discriminate].
  cbn [mbind option_bind] in Hrun.
  cbn [so_interpolated so_interactive set_dataoffset set_interactive
         set_interpolated set_valuesource] in Hrun.
  match type of Hrun with
  | mbind _ ?m = Some _ =>
      destruct m as [[so' inst1]|] eqn:Hbranch; [|discriminate]
  end.
  cbn [mbind option_bind] in Hrun.
  destruct (set_index (m_instoverrides inst1) i so') as [ov|] eqn:Hov;
    [|discriminate].
  cbn [mbind option_bind] in Hrun.
  destruct (param_storage (with_overrides inst1 ov) i) as [storage|]
    eqn:Hstorage; [|discriminate].
  cbn [mbind option_bind] in Hrun.
  destruct (data_prefix data' (basevalues valuetype')) as [payload|]
    eqn:Hpayload; [|discriminate].
  cbn [mbind option_bind] in Hrun.
  destruct (write_params (with_overrides inst1 ov) storage payload)
    as [inst2|] eqn:Hwrite; [|discriminate].
  cbn [mbind option_bind] in Hrun. injection Hrun as <- <-.
  exists so, hint, data', valuetype', so', inst1, ov, storage, payload.
  repeat (split; [reflexivity || assumption|]).
  split; [|auto].
  cbv zeta.
  cbn [so_interpolated so_interactive set_dataoffset set_interactive
         set_interpolated set_valuesource].
  destruct (arraylen paramtype <? 0); [exact Hbranch|].
  destruct (param_default_storage (m_master inst) i) as [defaultdata|]
    eqn:Hdefault; [|discriminate].
  cbn [mbind option_bind] in Hbranch.
  destruct (negb (interpolated sm || has_hint hint hint_interpolated)
            && negb (has_hint hint hint_interactive)
            && negb (has_init_ops sm)).
  - destruct (same_as_default (m_master inst) defaultdata data' valuetype')
      as [same|] eqn:Hsame; [|discriminate].
    cbn [mbind option_bind] in Hbranch. injection Hbranch as <- <-.
    split; [reflexivity|]. exists defaultdata. split; [reflexivity|].
    exists same. split; [exact Hsame | reflexivity].
  - injection Hbranch as <- <-.
    split; [reflexivity|]. exists defaultdata. auto.
Qed.

(** C5 (amended).  When [parameters] binds a value to a parameter of
    definite size that is neither interpolated nor interactive (by its
    master or by the hint of the value) and has no initialization ops,
    and the value compares equal to the master's default under
    [memcmp], the value source of the override is [DefaultVal]. *)
Theorem exact_default_reverts_to_default hints pi p inst inst' msgs i sm
    cmsgs data valuetype hint data' valuetype' defaultdata :
  bind_param ss hints pi p inst = Some (inst', msgs) ->
  pv_name p <> EmptyString ->
  findparam inst (pv_name p) true = Some i ->
  0 <= i ->
  at_index (m_symbols (m_master inst)) i = Some sm ->
  is_closure_based (typespec sm) = false ->
  is_structure (typespec sm) = false ->
  typecheck ss sm (pv_data p) (pv_type p)
  = Some (cmsgs, Some (data, valuetype)) ->
  at_index hints pi = Some hint ->
  replicate_float (simpletype (typespec sm)) data valuetype
  = Some (data', valuetype') ->
  0 <= arraylen (simpletype (typespec sm)) ->
  interpolated sm = false ->
  has_hint hint hint_interpolated = false ->
  has_hint hint hint_interactive = false ->
  has_init_ops sm = false ->
  param_default_storage (m_master inst) i = Some defaultdata ->
  same_as_default (m_master inst) defaultdata data' valuetype' = Some true ->
  (exists so',
     at_index (m_instoverrides inst') i = Some so'
     /\ so_valuesource so' = DefaultVal)
  /\ (m_instsymbols inst = [] ->
      m_iparams inst = m_idefaults (m_master inst) ->
      m_fparams inst = m_fdefaults (m_master inst) ->
      m_sparams inst = m_sdefaults (m_master inst) ->
      forall so,
        at_index (m_instoverrides inst) i = Some so ->
        so_valuesource so = DefaultVal ->
        so_interpolated so = false ->
        so_interactive so = false ->
        so_dataoffset so = dataoffset sm ->
        inst' = inst).
Proof.
  intros Hrun Hname Hfind Hi Hsm Hclosure Hstruct Hcheck Hhint Hrep
    Hsized Hinterp Hhint1 Hhint2 Hinit Hdefault Hsame.
  destruct (bind_param_accepted _ _ _ _ _ _ _ _ _ _ _ Hrun Hname Hfind Hi
              Hsm Hclosure Hstruct Hcheck)
    as (so & hint0 & data0 & valuetype0 & so' & inst1 & ov & storage
        & payload & Hso & Hhint0 & Hrep0 & Hbranch & Hov & Hstorage
        & Hpayload & Hwrite & _).
  rewrite Hhint in Hhint0. injection Hhint0 as <-.
  rewrite Hrep in Hrep0. injection Hrep0 as <- <-.
  cbv zeta in Hbranch.
  replace (arraylen (simpletype (typespec sm)) <? 0) with false in Hbranch
    by (symmetry; lia).
  destruct Hbranch as (-> & defaultdata0 & Hdefault0 & Hso').
  rewrite Hdefault in Hdefault0. injection Hdefault0 as <-.
  rewrite Hinterp, Hhint1, Hhint2, Hinit in Hso'. simpl in Hso'.
  destruct Hso' as (same & Hsame0 & ->).
  rewrite Hsame in Hsame0. injection Hsame0 as <-.
  split.
  { eexists. split.
    - apply write_params_keeps in Hwrite as (-> & _ & _).
      simpl. eapply at_index_set. eassumption.
    - reflexivity. }
  intros Hpre Hip Hfp Hsp so1 Hso1 Hsource Hi1 Hi2 Hoffset.
  rewrite Hso in Hso1. injection Hso1 as <-.
  match type of Hov with
  | set_index _ _ ?so' = _ =>
      assert (Hsame_so : so' = so)
        by (destruct so; simpl in *; subst; reflexivity);
      rewrite Hsame_so in Hov
  end.
  assert (Hov' : ov = m_instoverrides inst).
  { unfold set_index in Hov. rewrite Hso in Hov. injection Hov as <-.
    apply list_insert_id. unfold at_index in Hso.
    destruct (0 <=? i); [assumption | discriminate]. }
  subst ov.
  assert (Hinst : with_overrides inst (m_instoverrides inst) = inst)
    by (destruct inst; reflexivity).
  rewrite Hinst in Hstorage, Hwrite.
  assert (Hptr : storage = defaultdata).
  { unfold param_storage, mastersymbol in Hstorage.
    rewrite Hpre, Hsm in Hstorage. simpl in Hstorage.
    unfold param_default_storage in Hdefault. rewrite Hsm in Hdefault.
    simpl in Hdefault. injection Hdefault as <-.
    case_bool_decide as Hnil; simpl in Hstorage.
    - injection Hstorage as <-. reflexivity.
    - rewrite Hso in Hstorage. simpl in Hstorage.
      rewrite Hoffset in Hstorage.
      destruct (negb (so_arraylen so =? 0)); injection Hstorage as <-;
        reflexivity. }
  subst storage.
  unfold same_as_default in Hsame.
  match type of Hsame with
  | mbind _ ?r = _ => destruct r as [d1|] eqn:Hd1; [|discriminate]
  end.
  cbn [mbind option_bind] in Hsame. rewrite Hpayload in Hsame.
  cbn [mbind option_bind] in Hsame.
  destruct (decide (data_basetype d1 = data_basetype payload));
    [|discriminate].
  injection Hsame as Hsame. apply bool_decide_eq_true_1 in Hsame. subst d1.
  unfold read_defaults, read in Hd1. unfold write_params in Hwrite.
  rewrite <- Hip, <- Hfp, <- Hsp in Hd1.
  destruct defaultdata as [off|off|off|]; simpl in Hd1; try discriminate;
    match type of Hd1 with
    | _ <$> slice ?v ?o ?n = _ =>
        destruct (slice v o n) as [l|] eqn:Hslice; [|discriminate]
    end;
    simpl in Hd1; injection Hd1 as <-;
    rewrite (blit_same _ _ _ _ Hslice) in Hwrite; simpl in Hwrite;
    injection Hwrite as <-; destruct inst; reflexivity.
Qed.

(** C8.  When [parameters] binds a value to an array parameter of
    undetermined length whose base type is int, float or string, the
    override records the number of supplied base values divided by the
    aggregate of the parameter as the array length and the old size of
    the pool of that base type as the data offset, the pool grows by
    the number of supplied base values, and reading that many values
    through [param_storage] returns the supplied values.  Before
    specialization, the storage that [param_storage] returns for the
    parameter is the pool of its base type at the data offset of the
    override, that is at the old size of the pool, whenever the recorded
    array length is not zero; when it is zero (fewer values than one
    element were supplied), it is that pool at the data offset of the
    master's symbol. *)
Theorem unsized_array_binding hints pi p inst inst' msgs i sm cmsgs data
    valuetype :
  bind_param ss hints pi p inst = Some (inst', msgs) ->
  pv_name p <> EmptyString ->
  findparam inst (pv_name p) true = Some i ->
  0 <= i ->
  at_index (m_symbols (m_master inst)) i = Some sm ->
  is_closure_based (typespec sm) = false ->
  is_structure (typespec sm) = false ->
  typecheck ss sm (pv_data p) (pv_type p)
  = Some (cmsgs, Some (data, valuetype)) ->
  let paramtype := simpletype (typespec sm) in
  arraylen paramtype < 0 ->
  basetype paramtype = INT \/ basetype paramtype = FLOAT
  \/ basetype paramtype = STRING ->
  0 <= basevalues valuetype < 2 ^ 31 ->
  Z.of_nat (pool_size inst (basetype paramtype)) < 2 ^ 31 ->
  exists so' storage payload,
    at_index (m_instoverrides inst') i = Some so'
    /\ so_valuesource so' = InstanceVal
    /\ so_arraylen so'
       = Z.quot (basevalues valuetype) (aggregate paramtype)
    /\ so_dataoffset so'
       = Z.of_nat (pool_size inst (basetype paramtype))
    /\ Z.of_nat (pool_size inst' (basetype paramtype))
       = Z.of_nat (pool_size inst (basetype paramtype))
         + basevalues valuetype
    /\ data_prefix data (basevalues valuetype) = Some payload
    /\ param_storage inst' i = Some storage
    /\ read_params inst' storage (basevalues valuetype) = Some payload
    /\ (m_instsymbols inst = [] ->
        storage
        = storage_of paramtype
            (if so_arraylen so' =? 0 then dataoffset sm
             else so_dataoffset so')
        /\ (so_arraylen so' <> 0 ->
            storage
            = storage_of paramtype
                (Z.of_nat (pool_size inst (basetype paramtype))))).
Proof.
  intros Hrun Hname Hfind Hi Hsm Hclosure Hstruct Hcheck paramtype
    Hunsized Hbase Hcount Hpool.
  destruct (bind_param_accepted _ _ _ _ _ _ _ _ _ _ _ Hrun Hname Hfind Hi
              Hsm Hclosure Hstruct Hcheck)
    as (so & hint & data' & valuetype' & so' & inst1 & ov & storage
        & payload & Hso & Hhint & Hrep & Hbranch & Hov & Hstorage
        & Hpayload & Hwrite & _).
  fold paramtype in Hrep, Hbranch.
  assert (Hnovec : is_vec3 paramtype = false).
  { unfold is_vec3, td_is_array.
    replace (arraylen paramtype =? 0) with false by (symmetry; lia).
    simpl. apply andb_false_r. }
  unfold replicate_float in Hrep. rewrite Hnovec in Hrep. simpl in Hrep.
  injection Hrep as <- <-.
  cbv zeta in Hbranch.
  replace (arraylen paramtype <? 0) with true in Hbranch
    by (symmetry; lia).
  unfold allocate_unsized in Hbranch.
  rewrite (to_int_small (basevalues valuetype)) in Hbranch
    by (unfold is_int; lia).
  destruct (aggregate paramtype =? 0); [discriminate|].
  assert (Hso' : so_valuesource so' = InstanceVal
                 /\ so_arraylen so'
                    = Z.quot (basevalues valuetype) (aggregate paramtype)
                 /\ so_dataoffset so'
                    = Z.of_nat (pool_size inst (basetype paramtype))
                 /\ Z.of_nat (pool_size inst1 (basetype paramtype))
                    = Z.of_nat (pool_size inst (basetype paramtype))
                      + basevalues valuetype
                 /\ m_instsymbols inst1 = m_instsymbols inst
                 /\ m_master inst1 = m_master inst).
  { destruct Hbase as [Hb | [Hb | Hb]]; rewrite Hb in Hbranch, Hpool |- *;
      injection Hbranch as <- <-; simpl in Hpool |- *;
      rewrite size_as_int_small by assumption;
      unfold expand; rewrite length_app, length_replicate;
      repeat split; lia. }
  destruct Hso' as (Hsource & Hlen & Hoffset & Hgrow & Hsyms & Hmaster).
  assert (Hnew : at_index (m_instoverrides (with_overrides inst1 ov)) i
                 = Some so').
  { simpl. eapply at_index_set. eassumption. }
  exists so', storage, payload.
  split.
  { apply write_params_keeps in Hwrite as (-> & _ & _). exact Hnew. }
  repeat (split; [assumption|]).
  split.
  { rewrite (pool_size_write _ _ _ _ _ Hwrite). exact Hgrow. }
  split; [assumption|]. split.
  { rewrite (param_storage_write _ _ _ _ _ Hwrite). assumption. }
  split.
  { rewrite <- (data_prefix_length _ _ _ Hpayload).
    eapply read_after_write. eassumption. }
  intros Hpre.
  assert (Hwhere : storage
                   = storage_of paramtype
                       (if so_arraylen so' =? 0 then dataoffset sm
                        else so_dataoffset so')).
  { rewrite (param_storage_before_specialization
               (with_overrides inst1 ov) i sm so') in Hstorage.
    - injection Hstorage as <-. reflexivity.
    - simpl. rewrite Hsyms. exact Hpre.
    - simpl. rewrite Hmaster. exact Hsm.
    - exact Hnew. }
  split; [exact Hwhere|].
  intros Hnonzero. rewrite Hwhere, <- Hoffset.
  replace (so_arraylen so' =? 0) with false by (symmetry; lia).
  reflexivity.
Qed.


(** An accepted value for an array of undetermined length is always
    bound: before specialization, with a value that holds at least one
    whole element of the parameter's base type and pools within the range
    of [int], [bind_param] returns an instance. *)
Lemma unsized_array_binding_succeeds hints pi p inst i sm so cmsgs data
    valuetype hint payload :
  pv_name p <> EmptyString ->
  findparam inst (pv_name p) true = Some i ->
  0 <= i ->
  at_index (m_symbols (m_master inst)) i = Some sm ->
  at_index (m_instoverrides inst) i = Some so ->
  m_instsymbols inst = [] ->
  is_closure_based (typespec sm) = false ->
  is_structure (typespec sm) = false ->
  typecheck ss sm (pv_data p) (pv_type p)
  = Some (cmsgs, Some (data, valuetype)) ->
  at_index hints pi = Some hint ->
  arraylen (simpletype (typespec sm)) < 0 ->
  basetype (simpletype (typespec sm)) = data_basetype data ->
  data_prefix data (basevalues valuetype) = Some payload ->
  0 < aggregate (simpletype (typespec sm)) <= basevalues valuetype ->
  Z.of_nat (pool_size inst (basetype (simpletype (typespec sm))))
  + basevalues valuetype < 2 ^ 31 ->
  exists inst', bind_param ss hints pi p inst = Some (inst', cmsgs).
Proof.
  intros Hname Hfind Hi Hsm Hso Hpre Hclosure Hstruct Hcheck Hhint Hunsized
    Hkind Hpayload Hagg Hpool.
  set (paramtype := simpletype (typespec sm)) in *.
  set (n := basevalues valuetype) in *.
  assert (Hnovec : is_vec3 paramtype = false).
  { unfold is_vec3, td_is_array.
    replace (arraylen paramtype =? 0) with false by (symmetry; lia).
    simpl. apply andb_false_r. }
  assert (Hquot : (n ÷ aggregate paramtype =? 0) = false).
  { apply Z.eqb_neq. intros Hq.
    pose proof (Z.quot_le_lower_bound n (aggregate paramtype) 1) as Hlow.
    lia. }
  apply data_prefix_length in Hpayload as Hlen.
  unfold bind_param.
  rewrite decide_False by assumption.
  rewrite Hfind. cbn [mbind option_bind].
  replace (0 <=? i) with true by (symmetry; lia).
  rewrite Hsm. cbn [mbind option_bind].
  rewrite Hso. cbn [mbind option_bind].
  rewrite Hclosure, Hstruct, Hcheck. cbn [mbind option_bind].
  rewrite Hhint. cbn [mbind option_bind].
  fold paramtype. unfold replicate_float. rewrite Hnovec.
  cbn [andb mbind option_bind].
  replace (arraylen paramtype <? 0) with true by (symmetry; lia).
  unfold allocate_unsized. fold n.
  rewrite (to_int_small n) by (unfold is_int; lia).
  replace (aggregate paramtype =? 0) with false by (symmetry; lia).
  apply at_index_lt in Hso as Hrange.
  assert (Hi' : (0 <=? i) = true) by lia.
  destruct data as [l|l|l]; simpl in Hkind, Hpayload; rewrite Hkind in *;
    simpl in Hpool;
    (destruct (slice l 0 n) as [q|] eqn:Hq; [|discriminate]);
    simpl in Hpayload; injection Hpayload as <-; simpl in Hlen;
    cbn [mbind option_bind];
    cbn [m_instoverrides with_params];
    rewrite (set_index_Some _ _ _ _ Hso); cbn [mbind option_bind];
    (erewrite param_storage_override;
     [ | exact Hpre | exact Hsm
       | cbn [m_instoverrides with_overrides]; unfold at_index; rewrite Hi';
         apply list_lookup_insert_eq; lia
       | cbn [so_arraylen set_dataoffset set_arraylen]; apply Z.eqb_neq;
         exact Hquot ]);
    cbn [mbind option_bind so_dataoffset set_dataoffset];
    unfold data_prefix; rewrite Hq; cbn [fmap option_fmap option_map mbind
                                          option_bind];
    fold paramtype; unfold storage_of; rewrite Hkind; unfold write_params;
    cbn [m_iparams m_fparams m_sparams with_overrides with_params];
    rewrite size_as_int_small by lia;
    match goal with
    | |- context [blit ?v ?off q] =>
        destruct (blit_Some v q off) as [v' ->];
          [ lia
          | unfold expand; rewrite length_app, length_replicate; lia
          | ]
    end;
    cbn [mbind option_bind]; eexists; reflexivity.
Qed.

End parameters.

(** *** mergeable *)

Lemma bool_decide_refl {A} `{EqDecision A} (x : A) :
  bool_decide (x = x) = true.
Proof. apply bool_decide_eq_true_2. reflexivity. Qed.

Lemma at_index_Some {A} (v : list A) (i : Z) :
  0 <= i < Z.of_nat (length v) -> exists x, at_index v i = Some x.
Proof.
  intros Hi. unfold at_index.
  replace (0 <=? i) with true by (symmetry; lia).
  apply lookup_lt_is_Some. lia.
Qed.

Section mergeable.
Context `{MergeRules} (ss : ShadingSystem).

Lemma overrides_loop_refl (a : ShaderInstance) (n : nat) :
  (forall o, equivalent_override o o = true) ->
  forall i, 0 <= i ->
    i + Z.of_nat n <= Z.of_nat (length (m_instoverrides a)) ->
    overrides_loop a a n i = Some true.
Proof.
  intros Hrefl. induction n as [|n IH]; intros i Hi Hn; simpl.
  - reflexivity.
  - destruct (at_index_Some (m_instoverrides a) i) as [o Ho]; [lia|].
    rewrite Ho. cbn [mbind option_bind].
    destruct (default_or_instance (so_valuesource o)
              && default_or_instance (so_valuesource o));
      [apply IH; lia|].
    rewrite Hrefl. simpl.
    rewrite !bool_decide_refl. simpl.
    apply IH; lia.
Qed.

Lemma params_differ_refl (a : ShaderInstance) (i n : Z) p d :
  param_storage a i = Some p ->
  read_params a p n = Some d ->
  params_differ a a i n = Some false.
Proof.
  intros Hp Hd. unfold params_differ. rewrite Hp. cbn [mbind option_bind].
  rewrite Hd. cbn [mbind option_bind].
  rewrite decide_True by reflexivity.
  rewrite bool_decide_eq_true_2 by reflexivity. reflexivity.
Qed.

Lemma params_loop_refl (a : ShaderInstance) (opt : bool) (n : nat) :
  forall i,
    (forall j, i <= j < i + Z.of_nat n ->
       exists s,
         (if opt then symbol a j else mastersymbol a j) = Some s
         /\ (everused_in_group s = true ->
             is_closure (typespec s) = false ->
             default_or_instance (valuesource s) = true ->
             interactive s = false
             /\ exists p d,
                  param_storage a j = Some p
                  /\ read_params a p (basevalues (simpletype (typespec s)))
                     = Some d)) ->
    params_loop a a opt n i = Some true.
Proof.
  induction n as [|n IH]; intros i Hall; simpl.
  - reflexivity.
  - destruct (Hall i) as (s & Hs & Hcompared); [lia|].
    assert (Hrest : params_loop a a opt n (i + 1) = Some true)
      by (apply IH; intros j Hj; apply Hall; lia).
    rewrite Hs. cbn [mbind option_bind].
    destruct (everused_in_group s); simpl; [|assumption].
    destruct (is_closure (typespec s)); [assumption|].
    destruct (default_or_instance (valuesource s)); [|assumption].
    destruct Hcompared as (Hquiet & p & d & Hp & Hd); try reflexivity.
    rewrite (params_differ_refl a i _ p d Hp Hd).
    cbn [mbind option_bind]. rewrite Hquiet. assumption.
Qed.

Lemma equivalent_symbol_refl (s : Symbol) :
  (everused s = true -> symtype s = SymTypeConst ->
   exists d q,
     sym_data s = Some d
     /\ data_prefix d (basevalues (simpletype (typespec s))) = Some q) ->
  equivalent_symbol s s = Some true.
Proof.
  intros Hconst. unfold equivalent_symbol.
  destruct (everused s) eqn:Hused; simpl; [|reflexivity].
  rewrite !bool_decide_refl. simpl. rewrite andb_false_r.
  case_bool_decide as Hc.
  - destruct (Hconst eq_refl Hc) as (d & q & Hd & Hq).
    unfold data_differ. rewrite Hd. cbn [mbind option_bind].
    rewrite Hq. cbn [mbind option_bind].
    rewrite decide_True by reflexivity.
    rewrite !bool_decide_refl. simpl.
    rewrite !Z.eqb_refl. reflexivity.
  - cbn [mbind option_bind]. rewrite !Z.eqb_refl. reflexivity.
Qed.

Lemma equivalent_vectors_refl {T} (eqv : T -> T -> option bool)
    (v : list T) :
  (forall x, In x v -> eqv x x = Some true) ->
  equivalent_vectors eqv v v = Some true.
Proof.
  intros Hrefl. unfold equivalent_vectors.
  rewrite Nat.eqb_refl. simpl.
  induction v as [|x v IH]; simpl; [reflexivity|].
  rewrite Hrefl by (left; reflexivity). cbn [mbind option_bind].
  apply IH. intros y Hy. apply Hrefl. right. assumption.
Qed.

(** C3 (amended).  [mergeable (A, A)] is true for every instance [A]
    that is not bound to a renderer output, that does not read userdata
    unless the system merges such instances, and none of whose
    parameters that are used in the group, are not closures and hold a
    default or an instance value is interactive; the instance is taken
    to be well formed (override records only before optimization,
    parameters and constants within the bounds of their storage). *)
Theorem mergeable_reflexive (a : ShaderInstance) :
  (forall o, equivalent_override o o = true) ->
  (forall o, equivalent_opcode o o = true) ->
  m_renderer_outputs a = false ->
  m_opt_merge_instances_with_userdata ss = true
  \/ m_userdata_params a = false ->
  m_instoverrides a = [] \/ optimized a = false ->
  (forall j, m_firstparam a <= j < m_lastparam a ->
     exists s,
       (if optimized a then symbol a j else mastersymbol a j) = Some s
       /\ (everused_in_group s = true ->
           is_closure (typespec s) = false ->
           default_or_instance (valuesource s) = true ->
           interactive s = false
           /\ exists p d,
                param_storage a j = Some p
                /\ read_params a p (basevalues (simpletype (typespec s)))
                   = Some d)) ->
  (forall s, In s (m_instsymbols a) ->
     everused s = true -> symtype s = SymTypeConst ->
     exists d q,
       sym_data s = Some d
       /\ data_prefix d (basevalues (simpletype (typespec s))) = Some q) ->
  mergeable ss a a = Some true.
Proof.
  intros Hov Hop Hout Huser Hassert Hparams Hconst.
  unfold mergeable.
  rewrite Z.eqb_refl, Hout. simpl. cbv zeta.
  assert (Hloop :
            (if negb (bool_decide (m_instoverrides a = []))
                || negb (bool_decide (m_instoverrides a = []))
             then
               if optimized a then None
               else if negb (length (m_instoverrides a)
                             =? length (m_instoverrides a))%nat
               then None
               else overrides_loop a a (length (m_instoverrides a)) 0
             else Some true) = Some true).
  { case_bool_decide as Hnil; simpl; [reflexivity|].
    destruct Hassert as [Hnone | Hpre]; [contradiction|].
    rewrite Hpre, Nat.eqb_refl. simpl.
    apply overrides_loop_refl; [assumption | lia | lia]. }
  rewrite Hloop. cbn [mbind option_bind negb].
  rewrite (params_loop_refl a (optimized a)
             (Z.to_nat (m_lastparam a - m_firstparam a)) (m_firstparam a))
    by (intros j Hj; apply Hparams; lia).
  cbn [mbind option_bind negb].
  rewrite !bool_decide_refl, Nat.eqb_refl. simpl.
  assert (Hu : negb (m_opt_merge_instances_with_userdata ss)
               && (m_userdata_params a || m_userdata_params a) = false).
  { destruct Huser as [-> | ->]; [reflexivity|]. apply andb_false_r. }
  rewrite Hu.
  destruct (optimized a); simpl; [|reflexivity].
  rewrite (equivalent_vectors_refl equivalent_symbol)
    by (intros s Hs; apply equivalent_symbol_refl; auto).
  cbn [mbind option_bind negb].
  rewrite (equivalent_vectors_refl
             (fun x y => Some (equivalent_opcode x y)))
    by (intros o _; rewrite Hop; reflexivity).
  cbn [mbind option_bind negb].
  rewrite !Z.eqb_refl. reflexivity.
Qed.


Lemma overrides_loop_mismatch (a b : ShaderInstance) (k : Z) oa ob :
  length (m_instoverrides a) = length (m_instoverrides b) ->
  (length (m_instoverrides a) <= length (m_symbols (m_master a)))%nat ->
  (length (m_instoverrides b) <= length (m_symbols (m_master b)))%nat ->
  at_index (m_instoverrides a) k = Some oa ->
  at_index (m_instoverrides b) k = Some ob ->
  default_or_instance (so_valuesource oa)
  && default_or_instance (so_valuesource ob) = false ->
  equivalent_override oa ob = true ->
  so_interpolated oa <> so_interpolated ob
  \/ so_interactive oa <> so_interactive ob ->
  forall n i, 0 <= i <= k -> k < i + Z.of_nat n ->
    i + Z.of_nat n <= Z.of_nat (length (m_instoverrides a)) ->
    overrides_loop a b n i = Some false.
Proof.
  intros Hlen Hma Hmb Hoa Hob Hsource Heqv Hflags.
  induction n as [|n IH]; intros i Hi Hk Hn; [lia|]. simpl.
  destruct (Z.eq_dec i k) as [->|Hne].
  - rewrite Hoa, Hob. cbn [mbind option_bind].
    rewrite Hsource, Heqv. simpl.
    destruct Hflags as [Hf | Hf].
    + rewrite (bool_decide_eq_false_2 _ Hf). reflexivity.
    + rewrite (bool_decide_eq_false_2 _ Hf).
      rewrite orb_true_r. reflexivity.
  - assert (Hrest : overrides_loop a b n (i + 1) = Some false)
      by (apply IH; lia).
    destruct (at_index_Some (m_instoverrides a) i) as [o1 Ho1]; [lia|].
    destruct (at_index_Some (m_instoverrides b) i) as [o2 Ho2]; [lia|].
    destruct (at_index_Some (m_symbols (m_master a)) i) as [s1 Hs1]; [lia|].
    destruct (at_index_Some (m_symbols (m_master b)) i) as [s2 Hs2]; [lia|].
    rewrite Ho1, Ho2. cbn [mbind option_bind].
    unfold mastersymbol. rewrite Hs1, Hs2. cbn [mbind option_bind].
    repeat match goal with
           | |- (if ?c then _ else _) = _ => destruct c
           end; auto.
Qed.

(** The loop over the override records compares neither flag of two
    records that are both default or instance valued: when this holds at
    every index, it runs to its end, whatever the flags. *)
Lemma overrides_loop_skips_values (a b : ShaderInstance) :
  length (m_instoverrides a) = length (m_instoverrides b) ->
  (forall j oa ob,
     at_index (m_instoverrides a) j = Some oa ->
     at_index (m_instoverrides b) j = Some ob ->
     default_or_instance (so_valuesource oa)
     && default_or_instance (so_valuesource ob) = true) ->
  forall n i, 0 <= i ->
    i + Z.of_nat n <= Z.of_nat (length (m_instoverrides a)) ->
    overrides_loop a b n i = Some true.
Proof.
  intros Hlen Hvalues. induction n as [|n IH]; intros i Hi Hn;
    [reflexivity|]. simpl.
  destruct (at_index_Some (m_instoverrides a) i) as [oa Hoa]; [lia|].
  destruct (at_index_Some (m_instoverrides b) i) as [ob Hob]; [lia|].
  rewrite Hoa, Hob. cbn [mbind option_bind].
  rewrite (Hvalues i oa ob Hoa Hob). apply IH; lia.
Qed.

(** Where the flags are compared.  Before specialization, when the
    override records of two instances at some index are not both default
    or instance valued, are equivalent, and differ in their interpolated
    or in their interactive flag, [mergeable] returns false, whether or
    not the symbols are used in the group. *)
Theorem flag_mismatch_disqualifies (a b : ShaderInstance) (k : Z) oa ob :
  optimized a = false ->
  length (m_instoverrides a) = length (m_instoverrides b) ->
  (length (m_instoverrides a) <= length (m_symbols (m_master a)))%nat ->
  (length (m_instoverrides b) <= length (m_symbols (m_master b)))%nat ->
  at_index (m_instoverrides a) k = Some oa ->
  at_index (m_instoverrides b) k = Some ob ->
  default_or_instance (so_valuesource oa)
  && default_or_instance (so_valuesource ob) = false ->
  equivalent_override oa ob = true ->
  so_interpolated oa <> so_interpolated ob
  \/ so_interactive oa <> so_interactive ob ->
  mergeable ss a b = Some false.
Proof.
  intros Hpre Hlen Hma Hmb Hoa Hob Hsource Heqv Hflags.
  unfold mergeable.
  destruct (negb (master_addr (m_master a) =? master_addr (m_master b)));
    [reflexivity|].
  destruct (m_renderer_outputs a || m_renderer_outputs b); [reflexivity|].
  cbv zeta. rewrite Hpre.
  apply at_index_lt in Hoa as Hk.
  assert (Hnonempty : bool_decide (m_instoverrides a = []) = false).
  { apply bool_decide_eq_false_2. intros Hnil. rewrite Hnil in Hk.
    simpl in Hk. lia. }
  rewrite Hnonempty, Hlen, Nat.eqb_refl. simpl. rewrite <- Hlen.
  rewrite (overrides_loop_mismatch a b k oa ob) by (assumption || lia).
  reflexivity.
Qed.

End mergeable.

Import Models.

(** C3, as stated, fails: an instance bound to a renderer output is not
    mergeable with itself. *)
Lemma not_reflexive_on_renderer_output :
  mergeable shadingsys Examples.on_output Examples.on_output = Some false.
Proof. reflexivity. Qed.

(** The specialized instance of the example shader is mergeable with
    itself. *)
Lemma mergeable_reflexive_witness :
  mergeable shadingsys Examples.specialized Examples.specialized = Some true.
Proof.
  apply mergeable_reflexive.
  - intros o. simpl. rewrite bool_decide_refl, Z.eqb_refl. reflexivity.
  - intros o. simpl. rewrite !bool_decide_refl, !Z.eqb_refl. reflexivity.
  - reflexivity.
  - left. reflexivity.
  - left. reflexivity.
  - intros j Hj. simpl in Hj.
    assert (j = 0 \/ j = 1) as [-> | ->] by lia;
      (eexists; split; [reflexivity|]; intros _ _ _;
       split; [reflexivity|]; eexists _, _; split; reflexivity).
  - intros s Hs _ Hconstant. simpl in Hs.
    repeat (destruct Hs as [<- | Hs]; [try discriminate Hconstant|]);
      try contradiction;
      eexists _, _; split; reflexivity.
Defined.

(** C4.  [mergeable] departs from the rule, and from the comments of its
    own loops: binding [Kd] to its default with the interactive hint
    gives an instance whose override of [Kd] is interactive; the override
    of the unset instance is not; [Kd] is used in the group; and the two
    instances are mergeable, in either order.  Both records are default
    or instance valued, so that the loop over the overrides skips them,
    and the loop over the parameters reads the interactive flag of the
    master's symbol, which no binding sets. *)
Lemma flag_mismatch_counterexample :
  parameters shadingsys Examples.fresh [Examples.Kd_default]
    [hint_interactive] = Some (Examples.Kd_interactive, [])
  /\ parameters shadingsys Examples.fresh [] [] = Some (Examples.unset, [])
  /\ so_interactive <$> at_index (m_instoverrides Examples.Kd_interactive) 0
     = Some true
  /\ so_interactive <$> at_index (m_instoverrides Examples.unset) 0
     = Some false
  /\ everused_in_group <$> mastersymbol Examples.unset 0 = Some true
  /\ interactive <$> mastersymbol Examples.Kd_interactive 0 = Some false
  /\ mergeable shadingsys Examples.Kd_interactive Examples.unset = Some true
  /\ mergeable shadingsys Examples.unset Examples.Kd_interactive = Some true.
Proof. repeat split; reflexivity. Qed.

(** In the other direction, a parameter that is never used in the group
    does not excuse a mismatch of the flags: the override records of
    [unused] are equivalent and differ in their interpolated flag, and the
    instances are not mergeable. *)
Lemma dead_parameter_flag_mismatch :
  so_interpolated <$> at_index (m_instoverrides (Examples.connected true)) 0
  = Some true
  /\ so_interpolated
       <$> at_index (m_instoverrides (Examples.connected false)) 0
     = Some false
  /\ everused_in_group <$> mastersymbol (Examples.connected true) 0
     = Some false
  /\ mergeable shadingsys (Examples.connected true)
       (Examples.connected false) = Some false.
Proof. repeat split; reflexivity. Qed.

(** Two connected parameters, one interpolated and one not. *)
Lemma flag_mismatch_disqualifies_witness :
  mergeable shadingsys (Examples.connected true) (Examples.connected false)
  = Some false.
Proof.
  apply (flag_mismatch_disqualifies shadingsys (Examples.connected true)
           (Examples.connected false) 0
           (mkOverride ConnectedVal false true false 0 0)
           (mkOverride ConnectedVal false false false 0 0));
    try reflexivity.
  left. discriminate.
Defined.

(** Binding [Kd] to 0.8, its default, without hints. *)
Lemma exact_default_reverts_to_default_witness :
  (exists so',
     at_index (m_instoverrides Examples.Kd_set) 0 = Some so'
     /\ so_valuesource so' = DefaultVal)
  /\ (m_instsymbols Examples.unset = [] ->
      m_iparams Examples.unset = m_idefaults (m_master Examples.unset) ->
      m_fparams Examples.unset = m_fdefaults (m_master Examples.unset) ->
      m_sparams Examples.unset = m_sdefaults (m_master Examples.unset) ->
      forall so,
        at_index (m_instoverrides Examples.unset) 0 = Some so ->
        so_valuesource so = DefaultVal ->
        so_interpolated so = false ->
        so_interactive so = false ->
        so_dataoffset so = dataoffset (Examples.symbol_at 0) ->
        Examples.Kd_set = Examples.unset).
Proof.
  apply (exact_default_reverts_to_default shadingsys [0] 0
           Examples.Kd_default Examples.unset Examples.Kd_set [] 0
           (Examples.symbol_at 0) [] (DFloat [Examples.f0_8]) TypeFloat 0
           (DFloat [Examples.f0_8]) TypeFloat (InFloats 0));
    try reflexivity.
  discriminate.
Defined.

(** C5, as stated, fails: [Kd] is bound to the bytes of its default, it
    has no initialization ops, and the hint marks it interactive; the
    value source stays [InstanceVal]. *)
Lemma interactive_default_stays_instance :
  bind_param shadingsys [hint_interactive] 0 Examples.Kd_default
    Examples.unset = Some (Examples.Kd_interactive, [])
  /\ has_init_ops (Examples.symbol_at 0) = false
  /\ same_as_default Examples.master (InFloats 0) (DFloat [Examples.f0_8])
       TypeFloat = Some true
  /\ so_valuesource <$> at_index (m_instoverrides Examples.Kd_interactive) 0
     = Some InstanceVal.
Proof. repeat split; reflexivity. Qed.

(** The scenario of the spec: an instance that sets [Kd] to its default
    0.8 is mergeable with one that leaves it unset. *)
Lemma default_and_unset_mergeable :
  mergeable shadingsys Examples.unset Examples.Kd_set = Some true
  /\ mergeable shadingsys Examples.Kd_set Examples.unset = Some true.
Proof. split; reflexivity. Qed.

(** Binding three floats to the array [knots] of undetermined length:
    the storage of [knots] is the pool of floats at its old size. *)
Lemma unsized_array_binding_witness :
  let paramtype := simpletype (typespec (Examples.symbol_at 1)) in
  let old_size := Z.of_nat (pool_size Examples.unset (basetype paramtype)) in
  exists so' payload,
    at_index (m_instoverrides Examples.knots_set) 1 = Some so'
    /\ so_valuesource so' = InstanceVal
    /\ so_arraylen so'
       = Z.quot (basevalues (pv_type Examples.three_knots))
           (aggregate paramtype)
    /\ so_arraylen so' = 3
    /\ so_dataoffset so' = old_size
    /\ Z.of_nat (pool_size Examples.knots_set (basetype paramtype))
       = old_size + basevalues (pv_type Examples.three_knots)
    /\ data_prefix (pv_data Examples.three_knots)
         (basevalues (pv_type Examples.three_knots)) = Some payload
    /\ param_storage Examples.knots_set 1 = Some (InFloats old_size)
    /\ read_params Examples.knots_set (InFloats old_size)
         (basevalues (pv_type Examples.three_knots)) = Some payload.
Proof.
  intros paramtype old_size.
  destruct (unsized_array_binding shadingsys [0] 0 Examples.three_knots
              Examples.unset Examples.knots_set [] 1 (Examples.symbol_at 1)
              [] (pv_data Examples.three_knots)
              (pv_type Examples.three_knots))
    as (so' & storage & payload & Hso' & Hsource & Hlen & Hoffset & Hgrow
        & Hpayload & Hstorage & Hread & Hwhere);
    try reflexivity.
  - discriminate.
  - simpl. lia.
  - right. left. reflexivity.
  - vm_compute. split; [discriminate | reflexivity].
  - assert (Hthree : so_arraylen so' = 3) by (rewrite Hlen; reflexivity).
    destruct (Hwhere eq_refl) as [_ Hpool].
    rewrite Hpool in Hstorage, Hread by (rewrite Hthree; discriminate).
    exists so', payload.
    split; [exact Hso'|]. split; [exact Hsource|]. split; [exact Hlen|].
    split; [exact Hthree|]. split; [exact Hoffset|]. split; [exact Hgrow|].
    split; [exact Hpayload|]. split; [exact Hstorage | exact Hread].
Defined.

End InstanceFacts.
(** ** dictionary.cpp: documents and queries for nodes *)

Module DocumentsFacts.
Import Dictionary Documents.

(** *** Vectors and the cache *)

(** Proves [true = b] for a conjunction [b] of comparisons. *)
Ltac holds :=
  symmetry; rewrite ?andb_true_iff, ?Z.leb_le, ?Z.ltb_lt, ?Z.eqb_eq; lia.

(** Proves [false = b] for a comparison [b]. *)
Ltac fails :=
  symmetry; first [apply Z.leb_gt | apply Z.ltb_ge | apply Z.eqb_neq]; lia.

Lemma to_int_succ (n : Z) :
  - 2 ^ 31 <= to_int (n + 1) - 1 -> to_int (n + 1) - 1 = to_int n.
Proof.
  unfold to_int.
  replace (n + 1 + 2 ^ 31) with ((n + 2 ^ 31) + 1) by lia.
  rewrite (Zplus_mod (n + 2 ^ 31) 1).
  pose proof (Z.mod_pos_bound (n + 2 ^ 31) (2 ^ 32) eq_refl) as Ha.
  set (a := (n + 2 ^ 31) mod 2 ^ 32) in *.
  change (1 mod 2 ^ 32) with 1. intros Hlow.
  destruct (Z.eq_dec (a + 1) (2 ^ 32)) as [Hwrap|Hno].
  - rewrite Hwrap in Hlow. change (2 ^ 32 mod 2 ^ 32) with 0 in Hlow. lia.
  - rewrite Z.mod_small by lia. lia.
Qed.

Lemma int_of_Some (z r : Z) : int_of z = Some r -> r = z /\ is_int z.
Proof.
  unfold int_of, is_int.
  destruct ((- 2 ^ 31 <=? z) && (z <? 2 ^ 31)) eqn:Hin; [|discriminate].
  InstanceFacts.unbool Hin. intros [= <-]. lia.
Qed.

Lemma int_of_small (z : Z) : is_int z -> int_of z = Some z.
Proof.
  unfold int_of, is_int. intros Hz.
  replace ((- 2 ^ 31 <=? z) && (z <? 2 ^ 31)) with true by holds.
  reflexivity.
Qed.

Lemma at_index_app_l {A} (v w : list A) (i : Z) (x : A) :
  at_index v i = Some x -> at_index (v ++ w) i = Some x.
Proof.
  unfold at_index. destruct (0 <=? i); [|discriminate].
  intros Hx. apply lookup_app_l_Some. exact Hx.
Qed.

Lemma at_index_app_r {A} (v w : list A) (k : nat) :
  at_index (v ++ w) (Z.of_nat (length v) + Z.of_nat k) = w !! k.
Proof.
  unfold at_index.
  replace (0 <=? Z.of_nat (length v) + Z.of_nat k) with true by holds.
  replace (Z.to_nat (Z.of_nat (length v) + Z.of_nat k))
    with (length v + k)%nat by lia.
  rewrite lookup_app_r by lia. f_equal. lia.
Qed.

Lemma lookup_cons_0 {A} (x : A) (l : list A) : (x :: l) !! 0%nat = Some x.
Proof. reflexivity. Qed.

Lemma lookup_cons_S {A} (x : A) (l : list A) (k : nat) :
  (x :: l) !! S k = l !! k.
Proof. reflexivity. Qed.

Lemma at_index_nat {A} (v : list A) (k : nat) :
  at_index v (Z.of_nat k) = v !! k.
Proof.
  unfold at_index. replace (0 <=? Z.of_nat k) with true by holds.
  rewrite Nat2Z.id. reflexivity.
Qed.

Lemma cache_find_set (m : QueryMap) (q : Query) (r : QueryResult) :
  cache_find (cache_set m q r) q = Some r.
Proof.
  induction m as [|[k r'] m IH]; simpl.
  - rewrite decide_True by reflexivity. reflexivity.
  - destruct (decide (k = q)) as [->|Hne]; simpl.
    + rewrite decide_True by reflexivity. reflexivity.
    + rewrite decide_False by exact Hne. exact IH.
Qed.

Lemma cache_find_set_ne (m : QueryMap) (q q' : Query) (r : QueryResult) :
  q' <> q -> cache_find (cache_set m q r) q' = cache_find m q'.
Proof.
  intros Hq. induction m as [|[k r'] m IH]; simpl.
  - rewrite decide_False by congruence. reflexivity.
  - destruct (decide (k = q)) as [->|Hne]; simpl.
    + rewrite !decide_False by congruence. reflexivity.
    + destruct (decide (k = q')); [reflexivity | exact IH].
Qed.

(** *** The chain of nodes that a query adds *)

Lemma length_chain document first ms :
  length (chain document first ms) = length ms.
Proof.
  revert first. induction ms as [|m ms IH]; intros first; simpl;
    [reflexivity | rewrite IH; reflexivity].
Qed.

Lemma chain_lookup document ms : forall first k m,
  ms !! k = Some m ->
  chain document first ms !! k
  = Some (mkNode document m
            (if (Z.of_nat k + 1 <? Z.of_nat (length ms))
             then first + Z.of_nat k + 1 else 0)).
Proof.
  induction ms as [|m0 ms IH]; intros first k m Hk; [discriminate|].
  destruct k as [|k]; cbn [chain length].
  - rewrite lookup_cons_0 in *. injection Hk as ->.
    f_equal. f_equal. destruct ms; cbn [length];
      match goal with
      | |- context [?a <? ?b] => destruct (Z.ltb_spec a b)
      end; lia.
  - rewrite lookup_cons_S in *.
    rewrite (IH (first + 1) k m Hk). f_equal. f_equal.
    repeat match goal with
      | |- context [?a <? ?b] => destruct (Z.ltb_spec a b)
      end; lia.
Qed.

Lemma set_next_last (pre : list Node) (n x : Node) (nodeid : Z) :
  set_next (pre ++ [n] ++ [x]) (Z.of_nat (length pre)) nodeid
  = Some (pre ++ [mkNode (document n) (node n) nodeid] ++ [x]).
Proof.
  unfold set_next.
  assert (Hn : at_index (pre ++ [n] ++ [x]) (Z.of_nat (length pre)) = Some n).
  { rewrite at_index_nat. apply list_lookup_middle. reflexivity. }
  rewrite Hn. cbn [mbind option_bind]. unfold set_index. rewrite Hn. f_equal.
  rewrite Nat2Z.id.
  rewrite (insert_app_r_alt pre) by lia. rewrite Nat.sub_diag. reflexivity.
Qed.

Section find.
Context `{Pugi}.

Lemma with_nodes_nodes (d : t) nodes nodes' :
  with_nodes (with_nodes d nodes) nodes' = with_nodes d nodes'.
Proof. reflexivity. Qed.

(** The iterations after the first: [d] ends with the node of the match
    before, which is still linked to 0. *)
Lemma link_rest (document : Z) (q : Query) (ms : list xml_node) :
  forall pre m0 d last,
  last = Z.of_nat (length pre) ->
  m_nodes d = pre ++ [mkNode document m0 0] ->
  Z.of_nat (length pre + 1 + length ms) < 2 ^ 31 ->
  link_matches document q ms last d
  = Some (with_nodes d (pre ++ chain document last (m0 :: ms))).
Proof.
  induction ms as [|m ms IH]; intros pre m0 d last -> Hnodes Hfit.
  - cbn [link_matches chain]. rewrite <- Hnodes. destruct d; reflexivity.
  - cbn [link_matches]. rewrite Hnodes.
    rewrite size_as_int_small
      by (rewrite !length_app; cbn [length] in *; lia).
    rewrite int_of_small
      by (unfold is_int; rewrite !length_app; cbn [length]; lia).
    cbn [mbind option_bind].
    replace (Z.of_nat (length pre) <? 0) with false by fails.
    replace (Z.of_nat (length ((pre ++ [mkNode document m0 0])
                               ++ [mkNode document m 0])) - 1)
      with (Z.of_nat (length pre) + 1)
      by (rewrite !length_app; cbn [length]; lia).
    rewrite <- app_assoc, set_next_last. cbn [mbind option_bind].
    cbn [Dictionary.document node].
    rewrite (IH (pre ++ [mkNode document m0 (Z.of_nat (length pre) + 1)])
               m).
    + rewrite with_nodes_nodes. f_equal. f_equal.
      rewrite <- app_assoc. reflexivity.
    + rewrite length_app. cbn [length]. lia.
    + cbn [with_nodes m_nodes]. rewrite app_assoc. reflexivity.
    + rewrite length_app. cbn [length] in *. lia.
Qed.

(** The whole loop, from a dictionary of [n] nodes: the cache receives
    the handle [n] and the nodes grow by the chain of the matches. *)
Lemma link_first (document : Z) (q : Query) (m0 : xml_node)
    (ms : list xml_node) (d : t) :
  Z.of_nat (length (m_nodes d) + 1 + length ms) < 2 ^ 31 ->
  link_matches document q (m0 :: ms) (-1) d
  = Some (mkDictionary
            (cache_set (m_cache d) q
               (mkQueryResult (Z.of_nat (length (m_nodes d))) true))
            (m_nodes d
             ++ chain document (Z.of_nat (length (m_nodes d))) (m0 :: ms))
            (m_floatdata d) (m_intdata d) (m_stringdata d)).
Proof.
  intros Hfit. cbn [link_matches].
  rewrite size_as_int_small by (rewrite length_app; cbn [length]; lia).
  rewrite int_of_small
    by (unfold is_int; rewrite length_app; cbn [length]; lia).
  cbn [mbind option_bind]. change (-1 <? 0) with true. cbn iota.
  replace (Z.of_nat (length (m_nodes d ++ [mkNode document m0 0])) - 1)
    with (Z.of_nat (length (m_nodes d)))
    by (rewrite length_app; cbn [length]; lia).
  cbn [mbind option_bind].
  rewrite (link_rest document q ms (m_nodes d) m0) by (reflexivity || lia).
  reflexivity.
Qed.

Lemma link_matches_length (document : Z) (q : Query) (ms : list xml_node) :
  forall last d d',
  link_matches document q ms last d = Some d' ->
  length (m_nodes d') = (length (m_nodes d) + length ms)%nat.
Proof.
  induction ms as [|m ms IH]; intros last d d' Hrun.
  - injection Hrun as <-. cbn [length]. lia.
  - cbn [link_matches] in Hrun.
    destruct (int_of (size_as_int (m_nodes d ++ [mkNode document m 0]) - 1))
      as [nodeid|]; [|discriminate].
    cbn [mbind option_bind] in Hrun.
    destruct (last <? 0).
    + cbn [mbind option_bind] in Hrun. apply IH in Hrun.
      rewrite Hrun. cbn [with_cache with_nodes m_nodes length].
      rewrite length_app. cbn [length]. lia.
    + unfold set_next in Hrun.
      destruct (at_index (m_nodes d ++ [mkNode document m 0]) last)
        as [n|] eqn:Hn; [|discriminate].
      cbn [mbind option_bind] in Hrun.
      rewrite (InstanceFacts.set_index_Some _ _ _ _ Hn) in Hrun.
      cbn [mbind option_bind] in Hrun. apply IH in Hrun.
      rewrite Hrun. cbn [with_nodes m_nodes length].
      rewrite length_insert, length_app. cbn [length]. lia.
Qed.

(** *** Looking up a document *)

Lemma get_document_index_dict ec name (st st' : Store) (dindex : Z) :
  get_document_index ec name st = (dindex, st') -> dict st' = dict st.
Proof.
  unfold get_document_index.
  destruct (m_document_map st !! name).
  - intros [= _ <-]. reflexivity.
  - destruct (if ends_with name ".xml" then load_file name
              else load_string name) as [doc result].
    destruct (negb (parse_ok result)); intros [= _ <-]; reflexivity.
Qed.

Lemma get_document_index_log ec name (st st' : Store) (dindex : Z) :
  get_document_index ec name st = (dindex, st') ->
  Z.of_nat (length (m_documents st')) < 2 ^ 31 ->
  0 <= dindex -> log st' = log st.
Proof.
  unfold get_document_index.
  destruct (m_document_map st !! name).
  - intros [= _ <-]. reflexivity.
  - destruct (if ends_with name ".xml" then load_file name
              else load_string name) as [doc result].
    destruct (negb (parse_ok result)); intros [= <- <-]; [lia|reflexivity].
Qed.

Lemma get_document_index_known ec name (st : Store) (dindex : Z) :
  m_document_map st !! name = Some dindex ->
  get_document_index ec name st = (dindex, st).
Proof. unfold get_document_index. intros ->. reflexivity. Qed.

(** After a look-up, the name is in the map, with the index returned. *)
Lemma get_document_index_map ec name (st st' : Store) (dindex : Z) :
  get_document_index ec name st = (dindex, st') ->
  m_document_map st' !! name = Some dindex.
Proof.
  unfold get_document_index.
  destruct (m_document_map st !! name) eqn:Hname.
  - intros [= <- <-]. exact Hname.
  - destruct (if ends_with name ".xml" then load_file name
              else load_string name) as [doc result].
    destruct (negb (parse_ok result)); intros [= <- <-];
      cbn [m_document_map errorfmt]; apply lookup_insert_eq.
Qed.

(** *** The handles of a query *)

Section chained.
Variables (d : t) (document : Z) (pre : list Node) (ms : list xml_node).
Hypothesis Hnodes :
  m_nodes d = pre ++ chain document (Z.of_nat (length pre)) ms.
Hypothesis Hpre : pre <> [].
Hypothesis Hfit : Z.of_nat (length pre + length ms) < 2 ^ 31.

Lemma chained_node (k : nat) (m : xml_node) :
  ms !! k = Some m ->
  at_index (m_nodes d) (Z.of_nat (length pre) + Z.of_nat k)
  = Some (mkNode document m
            (if Z.of_nat k + 1 <? Z.of_nat (length ms)
             then Z.of_nat (length pre) + Z.of_nat k + 1 else 0)).
Proof.
  intros Hk. rewrite Hnodes, at_index_app_r. apply chain_lookup. exact Hk.
Qed.

Lemma chained_next (k : nat) :
  (k < length ms)%nat ->
  dict_next d (Z.of_nat (length pre) + Z.of_nat k)
  = if Z.of_nat k + 1 <? Z.of_nat (length ms)
    then Z.of_nat (length pre) + Z.of_nat k + 1 else 0.
Proof.
  intros Hk. destruct (lookup_lt_is_Some_2 ms k Hk) as [m Hm].
  assert (Hlen : (0 < length pre)%nat) by (destruct pre; simpl; [done|lia]).
  unfold dict_next. rewrite (chained_node k m Hm).
  rewrite size_as_int_small
    by (rewrite Hnodes, length_app, length_chain; lia).
  rewrite Hnodes, length_app, length_chain.
  replace (Z.of_nat (length pre) + Z.of_nat k <=? 0) with false by fails.
  replace (Z.of_nat (length pre + length ms)
           <=? Z.of_nat (length pre) + Z.of_nat k) with false by fails.
  reflexivity.
Qed.

Lemma chained_handles (n : nat) : forall k : nat,
  (k + S n = length ms)%nat ->
  handles d (S (S n)) (Z.of_nat (length pre) + Z.of_nat k)
  = map (fun i => Z.of_nat (length pre) + Z.of_nat i) (seq k (S n)).
Proof.
  assert (Hlen : (0 < length pre)%nat) by (destruct pre; simpl; [done|lia]).
  induction n as [|n IH]; intros k Hk.
  - cbn [handles seq map].
    replace (Z.of_nat (length pre) + Z.of_nat k =? 0) with false by fails.
    rewrite chained_next by lia.
    replace (Z.of_nat k + 1 <? Z.of_nat (length ms)) with false by fails.
    reflexivity.
  - change (handles d (S (S (S n))) (Z.of_nat (length pre) + Z.of_nat k))
      with (if Z.of_nat (length pre) + Z.of_nat k =? 0 then []
            else (Z.of_nat (length pre) + Z.of_nat k)
                 :: handles d (S (S n))
                      (dict_next d (Z.of_nat (length pre) + Z.of_nat k))).
    replace (Z.of_nat (length pre) + Z.of_nat k =? 0) with false by fails.
    rewrite chained_next by lia.
    replace (Z.of_nat k + 1 <? Z.of_nat (length ms)) with true by holds.
    replace (Z.of_nat (length pre) + Z.of_nat k + 1)
      with (Z.of_nat (length pre) + Z.of_nat (S k)) by lia.
    rewrite IH by lia. reflexivity.
Qed.

End chained.

(** *** dict_find *)

Lemma lookup_found ec document q query m0 ms (st : Store) :
  Z.of_nat (length (m_nodes (dict st)) + 1 + length ms) < 2 ^ 31 ->
  lookup ec document q query (inr (m0 :: ms)) st
  = Some (Z.of_nat (length (m_nodes (dict st))),
          with_dict st
            (mkDictionary
               (cache_set (m_cache (dict st)) q
                  (mkQueryResult (Z.of_nat (length (m_nodes (dict st))))
                     true))
               (m_nodes (dict st)
                ++ chain document (Z.of_nat (length (m_nodes (dict st))))
                     (m0 :: ms))
               (m_floatdata (dict st)) (m_intdata (dict st))
               (m_stringdata (dict st)))).
Proof.
  intros Hfit. unfold lookup. rewrite link_first by exact Hfit.
  cbn [mbind option_bind]. rewrite size_as_int_small by lia. reflexivity.
Qed.

(** What a look-up that finds [ms] leaves behind. *)
Lemma lookup_enumerates ec document q query ms (st : Store) :
  ms <> [] ->
  m_nodes (dict st) <> [] ->
  Z.of_nat (length (m_nodes (dict st)) + length ms) < 2 ^ 31 ->
  exists st',
    lookup ec document q query (inr ms) st
    = Some (Z.of_nat (length (m_nodes (dict st))), st')
    /\ handles (dict st') (S (length ms))
         (Z.of_nat (length (m_nodes (dict st))))
       = map (fun i => Z.of_nat (length (m_nodes (dict st))) + Z.of_nat i)
           (seq 0 (length ms))
    /\ forall k m, ms !! k = Some m ->
       exists n,
         at_index (m_nodes (dict st'))
           (Z.of_nat (length (m_nodes (dict st))) + Z.of_nat k) = Some n
         /\ Dictionary.document n = document /\ node n = m.
Proof.
  intros Hms Hpre Hfit. destruct ms as [|m0 ms]; [done|].
  cbn [length] in Hfit.
  eexists. split; [apply lookup_found; lia|].
  cbn [dict with_dict]. split.
  - match goal with
    | |- handles ?d' _ _ = _ =>
        pose proof (chained_handles d' document (m_nodes (dict st))
                      (m0 :: ms) eq_refl Hpre ltac:(cbn [length]; lia)
                      (length ms) 0%nat ltac:(cbn [length]; lia)) as Hh
    end.
    rewrite Z.add_0_r in Hh. exact Hh.
  - intros k m Hk. eexists. split.
    + eapply chained_node; [reflexivity | exact Hk].
    + split; reflexivity.
Qed.

(** X1.  A query for a dictionary that finds the nodes [ms], and that was
    not asked before, returns the number of nodes there were as the handle
    of the first match; from that handle [dict_next] visits one handle per
    match, in the order of the node set that the query returned (which
    the code iterates as it is, without sorting it), then returns 0, and
    the node of each handle is the match at that position of the set, in
    its document. *)
Theorem dict_find_enumerates ec name query (st st1 : Store) dindex doc ms :
  get_document_index ec name st = (dindex, st1) ->
  0 <= dindex ->
  cache_find (m_cache (dict st)) (mkQuery dindex 0 query TypeUnknown) = None ->
  at_index (m_documents st1) dindex = Some doc ->
  document_select_nodes doc query = inr ms ->
  ms <> [] ->
  m_nodes (dict st) <> [] ->
  Z.of_nat (length (m_nodes (dict st)) + length ms) < 2 ^ 31 ->
  exists st',
    dict_find ec name query st
    = Some (Z.of_nat (length (m_nodes (dict st))), st')
    /\ handles (dict st') (S (length ms))
         (Z.of_nat (length (m_nodes (dict st))))
       = map (fun i => Z.of_nat (length (m_nodes (dict st))) + Z.of_nat i)
           (seq 0 (length ms))
    /\ forall k m, ms !! k = Some m ->
       exists n,
         at_index (m_nodes (dict st'))
           (Z.of_nat (length (m_nodes (dict st))) + Z.of_nat k) = Some n
         /\ Dictionary.document n = dindex /\ node n = m.
Proof.
  intros Hget Hdindex Hmiss Hdoc Hselect Hms Hpre Hfit.
  pose proof (get_document_index_dict _ _ _ _ _ Hget) as Hdict.
  unfold dict_find. rewrite Hget.
  replace (dindex <? 0) with false by fails.
  rewrite Hdict, Hmiss, Hdoc. cbn [mbind option_bind]. rewrite Hselect.
  rewrite <- Hdict. apply lookup_enumerates; rewrite ?Hdict; assumption.
Qed.

(** X2.  A query that reported no error is answered from the cache from
    then on: asked again, it returns the same handle and changes nothing,
    whether it had found nodes or not. *)
Theorem dict_find_cached ec ec' name query (st st' : Store) r :
  dict_find ec name query st = Some (r, st') ->
  log st' = log st ->
  Z.of_nat (length (m_documents st')) < 2 ^ 31 ->
  Z.of_nat (length (m_nodes (dict st'))) < 2 ^ 31 ->
  dict_find ec' name query st' = Some (r, st').
Proof.
  unfold dict_find at 1.
  destruct (get_document_index ec name st) as [dindex [docs map d l]]
    eqn:Hget.
  pose proof (get_document_index_map _ _ _ _ _ Hget) as Hmap.
  pose proof (get_document_index_dict _ _ _ _ _ Hget) as Hdict.
  cbn [m_document_map m_documents dict log] in *.
  assert (Hagain : forall d l,
            get_document_index ec' name (mkStore docs map d l)
            = (dindex, mkStore docs map d l))
    by (intros d0 l0; apply get_document_index_known; exact Hmap).
  destruct (Z.ltb_spec dindex 0) as [Hneg|Hpos].
  - intros [= <- <-] _ _ _. unfold dict_find. rewrite Hagain.
    replace (dindex <? 0) with true by holds. reflexivity.
  - destruct (cache_find (m_cache d) (mkQuery dindex 0 query TypeUnknown))
      as [found|] eqn:Hcache.
    + intros [= <- <-] _ _ _. unfold dict_find. rewrite Hagain.
      replace (dindex <? 0) with false by fails.
      cbn [dict]. rewrite Hcache. reflexivity.
    + destruct (at_index docs dindex) as [doc|]; [|discriminate].
      cbn [mbind option_bind].
      destruct (document_select_nodes doc query) as [what|[|m0 ms]]
        eqn:Hselect.
      * intros [= <- <-] Hlog Hdocs _. exfalso.
        cbn [log errorfmt m_documents] in Hlog, Hdocs.
        pose proof (get_document_index_log _ _ _ _ _ Hget Hdocs Hpos) as Hl.
        cbn [log] in Hl. rewrite <- Hl in Hlog.
        apply (f_equal length) in Hlog. rewrite length_app in Hlog.
        cbn [length] in Hlog. lia.
      * intros [= <- <-] _ _ _. unfold dict_find.
        unfold with_dict. cbn [m_documents m_document_map dict log].
        rewrite Hagain. replace (dindex <? 0) with false by fails.
        unfold with_cache. cbn [dict m_cache]. rewrite cache_find_set.
        reflexivity.
      * unfold lookup.
        destruct (link_matches dindex (mkQuery dindex 0 query TypeUnknown)
                    (m0 :: ms) (-1) (Documents.dict (mkStore docs map d l)))
          as [d'|] eqn:Hlink; [|discriminate].
        cbn [mbind option_bind]. intros [= <- <-] _ _ Hnodes.
        cbn [dict with_dict] in Hnodes, Hlink.
        pose proof (link_matches_length _ _ _ _ _ _ Hlink) as Hlen.
        cbn [length] in Hlen.
        rewrite link_first in Hlink by lia. injection Hlink as <-.
        unfold dict_find.
        unfold with_dict. cbn [m_documents m_document_map dict log].
        rewrite Hagain. replace (dindex <? 0) with false by fails.
        cbn [dict m_cache]. rewrite cache_find_set.
        cbn [valueoffset]. rewrite size_as_int_small by lia. reflexivity.
Qed.

Lemma append_empty (s : string) : (s ++ EmptyString)%string = s.
Proof.
  induction s as [|c s IH]; [reflexivity|].
  change (String c (s ++ EmptyString)%string = String c s).
  f_equal. exact IH.
Qed.

(** X3.  A dictionary that does not parse is reported once: the query
    returns -1 and one error is reported, with the description and the
    offset that the parser gave; from then on every query for that
    dictionary returns -1 and changes nothing, the log included. *)
Theorem failed_document_is_reported_once ec name query (st : Store) doc
    result :
  m_document_map st !! name = None ->
  (if ends_with name ".xml" then load_file name else load_string name)
  = (doc, result) ->
  parse_ok result = false ->
  exists st',
    dict_find ec name query st = Some (-1, st')
    /\ log st'
       = log st
         ++ [(sink_of ec,
              mkDiag SevError
                ("XML parsed with errors: " ++ description result
                 ++ ", at offset " ++ print_int (parse_offset result)))]
    /\ dict st' = dict st
    /\ forall ec' query', dict_find ec' name query' st' = Some (-1, st').
Proof.
  intros Hnew Hload Hbad. unfold dict_find at 1, get_document_index.
  rewrite Hnew, Hload, Hbad. cbn [negb]. change (-1 <? 0) with true.
  eexists. split; [reflexivity|]. cbn [log dict errorfmt]. split.
  - do 2 f_equal. f_equal. unfold fmtformat.
    cbn [fmtformat_from Ascii.eqb Bool.eqb orb negb andb].
    rewrite append_empty. reflexivity.
  - split; [reflexivity|]. intros ec' query'. unfold dict_find.
    rewrite (get_document_index_known ec' name _ (-1))
      by (cbn [m_document_map]; apply lookup_insert_eq).
    reflexivity.
Qed.

(** What a look-up leaves as it was. *)
Lemma lookup_frame ec document q query selected (st st' : Store) r :
  lookup ec document q query selected st = Some (r, st') ->
  Z.of_nat (length (m_nodes (dict st'))) < 2 ^ 31 ->
  m_documents st' = m_documents st
  /\ m_document_map st' = m_document_map st
  /\ m_floatdata (dict st') = m_floatdata (dict st)
  /\ m_intdata (dict st') = m_intdata (dict st)
  /\ m_stringdata (dict st') = m_stringdata (dict st)
  /\ (exists new, m_nodes (dict st') = m_nodes (dict st) ++ new)
  /\ (forall q', q' <> q ->
      cache_find (m_cache (dict st')) q' = cache_find (m_cache (dict st)) q').
Proof.
  unfold lookup. destruct selected as [what|[|m0 ms]].
  - intros [= _ <-] _. cbn [errorfmt m_documents m_document_map dict].
    repeat split; try reflexivity. exists []. rewrite app_nil_r. reflexivity.
  - intros [= _ <-] _. unfold with_dict, with_cache.
    cbn [m_documents m_document_map dict m_floatdata m_intdata m_stringdata
         m_nodes m_cache].
    repeat split; try reflexivity.
    + exists []. rewrite app_nil_r. reflexivity.
    + intros q' Hq'. apply cache_find_set_ne. exact Hq'.
  - destruct (link_matches document q (m0 :: ms) (-1) (dict st)) as [d'|]
      eqn:Hlink; [|discriminate].
    cbn [mbind option_bind]. intros [= _ <-] Hfit.
    cbn [with_dict dict] in Hfit.
    pose proof (link_matches_length _ _ _ _ _ _ Hlink) as Hlen.
    cbn [length] in Hlen.
    rewrite link_first in Hlink by lia. injection Hlink as <-.
    unfold with_dict.
    cbn [m_documents m_document_map dict m_floatdata m_intdata m_stringdata
         m_nodes m_cache].
    repeat split; try reflexivity.
    + eexists. reflexivity.
    + intros q' Hq'. apply cache_find_set_ne. exact Hq'.
Qed.

Lemma dict_next_old (d d' : t) (new : list Node) (id : Z) :
  m_nodes d' = m_nodes d ++ new ->
  Z.of_nat (length (m_nodes d')) < 2 ^ 31 ->
  0 < id < Z.of_nat (length (m_nodes d)) ->
  at_index (m_nodes d') id = at_index (m_nodes d) id
  /\ dict_next d' id = dict_next d id.
Proof.
  intros Hnodes Hfit Hid.
  destruct (InstanceFacts.at_index_Some (m_nodes d) id ltac:(lia))
    as [n Hn].
  assert (Hn' : at_index (m_nodes d') id = Some n)
    by (rewrite Hnodes; apply at_index_app_l; exact Hn).
  split; [congruence|]. unfold dict_next. rewrite Hn, Hn'.
  rewrite Hnodes, length_app in Hfit.
  rewrite !size_as_int_small by (rewrite ?Hnodes, ?length_app; lia).
  rewrite Hnodes, length_app.
  replace (id <=? 0) with false by fails.
  replace (Z.of_nat (length (m_nodes d)) <=? id) with false by fails.
  replace (Z.of_nat (length (m_nodes d) + length new) <=? id) with false
    by fails.
  reflexivity.
Qed.

Lemma dict_find_frame ec name query (st st' : Store) r :
  dict_find ec name query st = Some (r, st') ->
  Z.of_nat (length (m_nodes (dict st'))) < 2 ^ 31 ->
  m_floatdata (dict st') = m_floatdata (dict st)
  /\ m_intdata (dict st') = m_intdata (dict st)
  /\ m_stringdata (dict st') = m_stringdata (dict st)
  /\ exists new, m_nodes (dict st') = m_nodes (dict st) ++ new.
Proof.
  unfold dict_find.
  destruct (get_document_index ec name st) as [dindex st1] eqn:Hget.
  pose proof (get_document_index_dict _ _ _ _ _ Hget) as Hdict.
  assert (Hsame :
    m_floatdata (dict st1) = m_floatdata (dict st)
    /\ m_intdata (dict st1) = m_intdata (dict st)
    /\ m_stringdata (dict st1) = m_stringdata (dict st)
    /\ exists new, m_nodes (dict st1) = m_nodes (dict st) ++ new).
  { rewrite Hdict. repeat split. exists []. rewrite app_nil_r. reflexivity. }
  destruct (dindex <? 0); [intros [= _ <-] _; exact Hsame|].
  destruct (cache_find (m_cache (dict st1))
              (mkQuery dindex 0 query TypeUnknown));
    [intros [= _ <-] _; exact Hsame|].
  destruct (at_index (m_documents st1) dindex) as [doc|]; [|discriminate].
  cbn [mbind option_bind]. intros Hlookup Hfit.
  destruct (lookup_frame _ _ _ _ _ _ _ _ Hlookup Hfit)
    as (_ & _ & Hf & Hi & Hs & Hn & _).
  rewrite Hf, Hi, Hs, <- Hdict. repeat split. exact Hn.
Qed.

Lemma dict_find_node_frame ec nodeID query (st st' : Store) r :
  dict_find_node ec nodeID query st = Some (r, st') ->
  Z.of_nat (length (m_nodes (dict st'))) < 2 ^ 31 ->
  m_floatdata (dict st') = m_floatdata (dict st)
  /\ m_intdata (dict st') = m_intdata (dict st)
  /\ m_stringdata (dict st') = m_stringdata (dict st)
  /\ exists new, m_nodes (dict st') = m_nodes (dict st) ++ new.
Proof.
  unfold dict_find_node.
  assert (Hsame :
    m_floatdata (dict st) = m_floatdata (dict st)
    /\ m_intdata (dict st) = m_intdata (dict st)
    /\ m_stringdata (dict st) = m_stringdata (dict st)
    /\ exists new, m_nodes (dict st) = m_nodes (dict st) ++ new).
  { repeat split. exists []. rewrite app_nil_r. reflexivity. }
  destruct ((nodeID <=? 0) || (size_as_int (m_nodes (dict st)) <=? nodeID));
    [intros [= _ <-] _; exact Hsame|].
  destruct (at_index (m_nodes (dict st)) nodeID) as [nd|]; [|discriminate].
  cbn [mbind option_bind].
  destruct (cache_find (m_cache (dict st))
              (mkQuery (document nd) nodeID query TypeUnknown));
    [intros [= _ <-] _; exact Hsame|].
  intros Hlookup Hfit.
  destruct (lookup_frame _ _ _ _ _ _ _ _ Hlookup Hfit)
    as (_ & _ & Hf & Hi & Hs & Hn & _).
  repeat split; assumption.
Qed.

(** X4.  A query, for a dictionary or from a node, only adds nodes: the
    decoded values are as they were, and every handle that was valid
    names the node it named and has the successor it had. *)
Theorem old_handles_survive ec name nodeID query (st st' : Store) r :
  dict_find ec name query st = Some (r, st')
  \/ dict_find_node ec nodeID query st = Some (r, st') ->
  Z.of_nat (length (m_nodes (dict st'))) < 2 ^ 31 ->
  m_floatdata (dict st') = m_floatdata (dict st)
  /\ m_intdata (dict st') = m_intdata (dict st)
  /\ m_stringdata (dict st') = m_stringdata (dict st)
  /\ forall id, 0 < id < Z.of_nat (length (m_nodes (dict st))) ->
     at_index (m_nodes (dict st')) id = at_index (m_nodes (dict st)) id
     /\ dict_next (dict st') id = dict_next (dict st) id.
Proof.
  intros Hfind Hfit.
  assert (Hframe :
    m_floatdata (dict st') = m_floatdata (dict st)
    /\ m_intdata (dict st') = m_intdata (dict st)
    /\ m_stringdata (dict st') = m_stringdata (dict st)
    /\ exists new, m_nodes (dict st') = m_nodes (dict st) ++ new).
  { destruct Hfind as [Hfind|Hfind];
      [eapply dict_find_frame | eapply dict_find_node_frame]; eassumption. }
  destruct Hframe as (Hf & Hi & Hs & new & Hn).
  repeat split; try assumption; eapply dict_next_old; eassumption.
Qed.

(** X5.  A query from a valid handle that finds the nodes [ms], and that
    was not asked before, chains them as a query for a dictionary does;
    the new nodes belong to the document of the node searched. *)
Theorem dict_find_node_enumerates ec nodeID query (st : Store) nd ms :
  0 < nodeID < Z.of_nat (length (m_nodes (dict st))) ->
  at_index (m_nodes (dict st)) nodeID = Some nd ->
  cache_find (m_cache (dict st))
    (mkQuery (document nd) nodeID query TypeUnknown) = None ->
  node_select_nodes (node nd) query = inr ms ->
  ms <> [] ->
  Z.of_nat (length (m_nodes (dict st)) + length ms) < 2 ^ 31 ->
  exists st',
    dict_find_node ec nodeID query st
    = Some (Z.of_nat (length (m_nodes (dict st))), st')
    /\ handles (dict st') (S (length ms))
         (Z.of_nat (length (m_nodes (dict st))))
       = map (fun i => Z.of_nat (length (m_nodes (dict st))) + Z.of_nat i)
           (seq 0 (length ms))
    /\ forall k m, ms !! k = Some m ->
       exists n,
         at_index (m_nodes (dict st'))
           (Z.of_nat (length (m_nodes (dict st))) + Z.of_nat k) = Some n
         /\ document n = document nd /\ node n = m.
Proof.
  intros Hid Hnd Hmiss Hselect Hms Hfit. unfold dict_find_node.
  rewrite size_as_int_small by lia.
  replace (nodeID <=? 0) with false by fails.
  replace (Z.of_nat (length (m_nodes (dict st))) <=? nodeID) with false
    by fails.
  cbn [orb]. rewrite Hnd. cbn [mbind option_bind]. rewrite Hmiss, Hselect.
  apply lookup_enumerates; [assumption | | assumption].
  intros Hnil. rewrite Hnil in Hid. cbn [length] in Hid. lia.
Qed.

(** *** The dictionaries that can be reached *)

Lemma linked_chain document (pre : list Node) (ms : list xml_node) :
  linked pre ->
  linked (pre ++ chain document (Z.of_nat (length pre)) ms).
Proof.
  intros Hpre i n Hn. rewrite length_app, length_chain.
  apply lookup_app_Some in Hn as [Hn|[Hi Hn]].
  - destruct (Hpre i n Hn) as [Hz|Hlt]; [left; exact Hz | right; lia].
  - pose proof (lookup_lt_Some _ _ _ Hn) as Hk.
    rewrite length_chain in Hk.
    destruct (lookup_lt_is_Some_2 ms _ Hk) as [m Hm].
    rewrite (chain_lookup _ _ _ _ _ Hm) in Hn. injection Hn as <-.
    cbn [next].
    destruct (Z.ltb_spec (Z.of_nat (i - length pre) + 1)
                (Z.of_nat (length ms))); [right; lia | left; reflexivity].
Qed.

Lemma sound_new : sound Dictionary_new.
Proof.
  unfold sound, Dictionary_new. cbn [dict m_nodes m_cache m_document_map].
  split; [discriminate|]. split; [|split].
  - intros [|i] n Hn; [|discriminate]. injection Hn as <-. left. reflexivity.
  - discriminate.
  - intros name i Hi. rewrite lookup_empty in Hi. discriminate.
Qed.

(** The cache after an answer to a query for nodes has been entered. *)
Lemma cache_sound (c : QueryMap) (q : Query) (v : Z) (valid : bool)
    (n n' : nat) :
  (forall q r, cache_find c q = Some r -> basetype (q_type q) = UNKNOWN ->
               0 <= valueoffset r < Z.of_nat n) ->
  (n <= n')%nat -> 0 <= v < Z.of_nat n' ->
  forall q' r, cache_find (cache_set c q (mkQueryResult v valid)) q' = Some r ->
               basetype (q_type q') = UNKNOWN ->
               0 <= valueoffset r < Z.of_nat n'.
Proof.
  intros Hcache Hn Hv q' r Hfind Htype.
  destruct (decide (q' = q)) as [->|Hq].
  - rewrite cache_find_set in Hfind. injection Hfind as <-. exact Hv.
  - rewrite cache_find_set_ne in Hfind by exact Hq.
    pose proof (Hcache q' r Hfind Htype). lia.
Qed.

Lemma get_document_index_sound ec name (st st1 : Store) dindex :
  get_document_index ec name st = (dindex, st1) ->
  Z.of_nat (length (m_documents st1)) < 2 ^ 31 ->
  sound st -> sound st1.
Proof.
  unfold get_document_index.
  destruct (m_document_map st !! name).
  { intros [= _ <-] _ Hsound. exact Hsound. }
  destruct (if ends_with name ".xml" then load_file name
            else load_string name) as [doc result].
  intros Hget Hfit (Hne & Hlinked & Hcache & Hmap).
  assert (Hsize : 0 <= size_as_int (m_documents st)).
  { destruct (negb (parse_ok result)); injection Hget as _ <-;
      cbn [m_documents errorfmt] in Hfit; rewrite length_app in Hfit;
      rewrite size_as_int_small by lia; lia. }
  destruct (negb (parse_ok result)); injection Hget as _ <-;
    unfold sound; cbn [dict m_document_map errorfmt];
    (split; [exact Hne|]); (split; [exact Hlinked|]);
    (split; [exact Hcache|]); intros name' i Hi.
  - apply lookup_insert_Some in Hi as [[_ <-]|[_ Hi]]; [lia|].
    apply lookup_insert_Some in Hi as [[_ <-]|[_ Hi]]; [lia|].
    eapply Hmap. exact Hi.
  - apply lookup_insert_Some in Hi as [[_ <-]|[_ Hi]]; [lia|].
    eapply Hmap. exact Hi.
Qed.

Lemma get_document_index_documents ec name (st st1 : Store) dindex :
  get_document_index ec name st = (dindex, st1) ->
  (length (m_documents st) <= length (m_documents st1))%nat.
Proof.
  unfold get_document_index.
  destruct (m_document_map st !! name).
  { intros [= _ <-]. lia. }
  destruct (if ends_with name ".xml" then load_file name
            else load_string name) as [doc result].
  destruct (negb (parse_ok result)); intros [= _ <-];
    cbn [m_documents errorfmt]; rewrite length_app; lia.
Qed.

Lemma lookup_length ec document q query selected (st st' : Store) r :
  lookup ec document q query selected st = Some (r, st') ->
  m_documents st' = m_documents st
  /\ (length (m_nodes (dict st)) <= length (m_nodes (dict st')))%nat.
Proof.
  unfold lookup. destruct selected as [what|[|m0 ms]].
  - intros [= _ <-]. split; [reflexivity | cbn [errorfmt dict]; lia].
  - intros [= _ <-]. split; [reflexivity|].
    unfold with_dict, with_cache. cbn [dict m_nodes]. lia.
  - destruct (link_matches document q (m0 :: ms) (-1) (dict st)) as [d'|]
      eqn:Hlink; [|discriminate].
    cbn [mbind option_bind]. intros [= _ <-].
    apply link_matches_length in Hlink. split; [reflexivity|].
    unfold with_dict. cbn [dict]. lia.
Qed.

Lemma lookup_sound ec document q query selected (st st' : Store) r :
  lookup ec document q query selected st = Some (r, st') ->
  Z.of_nat (length (m_nodes (dict st'))) < 2 ^ 31 ->
  sound st ->
  sound st' /\ 0 <= r < Z.of_nat (length (m_nodes (dict st'))).
Proof.
  intros Hlookup Hfit (Hne & Hlinked & Hcache & Hmap).
  assert (Hpos : (0 < length (m_nodes (dict st)))%nat)
    by (destruct (m_nodes (dict st)); [done | cbn [length]; lia]).
  revert Hlookup Hfit. unfold lookup.
  destruct selected as [what|[|m0 ms]].
  - intros [= <- <-] _. split; [|cbn [errorfmt dict]; lia].
    unfold sound. cbn [errorfmt dict m_document_map]. auto.
  - intros [= <- <-] _. unfold sound, with_dict, with_cache.
    cbn [dict m_nodes m_cache m_document_map].
    split; [|lia]. split; [exact Hne|]. split; [exact Hlinked|].
    split; [|exact Hmap].
    eapply cache_sound; [exact Hcache | reflexivity | lia].
  - destruct (link_matches document q (m0 :: ms) (-1) (dict st)) as [d'|]
      eqn:Hlink; [|discriminate].
    cbn [mbind option_bind]. intros [= <- <-] Hfit.
    cbn [with_dict dict] in Hfit.
    pose proof (link_matches_length _ _ _ _ _ _ Hlink) as Hlen.
    cbn [length] in Hlen.
    rewrite link_first in Hlink by lia. apply (inj Some) in Hlink.
    subst d'. rewrite size_as_int_small by lia.
    unfold sound, with_dict. cbn [dict m_nodes m_cache m_document_map].
    rewrite length_app, length_chain. cbn [length].
    split; [|lia]. split; [|split; [|split; [|exact Hmap]]].
    + intros Hnil. apply app_eq_nil in Hnil as [Hnil _]. auto.
    + apply linked_chain. exact Hlinked.
    + eapply cache_sound; [exact Hcache | lia | lia].
Qed.

Lemma dict_find_sound ec name query (st st' : Store) r :
  dict_find ec name query st = Some (r, st') ->
  Z.of_nat (length (m_documents st')) < 2 ^ 31 ->
  Z.of_nat (length (m_nodes (dict st'))) < 2 ^ 31 ->
  sound st ->
  sound st' /\ -1 <= r < Z.of_nat (length (m_nodes (dict st'))).
Proof.
  unfold dict_find.
  destruct (get_document_index ec name st) as [dindex st1] eqn:Hget.
  intros Hfind Hdocs Hnodes Hsound.
  assert (Hdocs1 : Z.of_nat (length (m_documents st1)) < 2 ^ 31).
  { destruct (dindex <? 0); [injection Hfind as _ <-; exact Hdocs|].
    destruct (cache_find (m_cache (dict st1))
                (mkQuery dindex 0 query TypeUnknown));
      [injection Hfind as _ <-; exact Hdocs|].
    destruct (at_index (m_documents st1) dindex); [|discriminate].
    apply lookup_length in Hfind as [<- _]. exact Hdocs. }
  pose proof (get_document_index_sound _ _ _ _ _ Hget Hdocs1 Hsound)
    as Hsound1.
  pose proof (get_document_index_map _ _ _ _ _ Hget) as Hmap.
  pose proof Hsound1 as (Hne & Hlinked & Hcache & Hindex).
  assert (Hpos : (0 < length (m_nodes (dict st1)))%nat)
    by (destruct (m_nodes (dict st1)); [done | cbn [length]; lia]).
  destruct (Z.ltb_spec dindex 0).
  - injection Hfind as <- <-. split; [exact Hsound1|].
    pose proof (Hindex name dindex Hmap). lia.
  - destruct (cache_find (m_cache (dict st1))
                (mkQuery dindex 0 query TypeUnknown)) as [found|] eqn:Hfound.
    + injection Hfind as <- <-. split; [exact Hsound1|].
      pose proof (Hcache _ _ Hfound eq_refl). lia.
    + destruct (at_index (m_documents st1) dindex); [|discriminate].
      cbn [mbind option_bind] in Hfind.
      destruct (lookup_sound _ _ _ _ _ _ _ _ Hfind Hnodes Hsound1)
        as [Hs Hr].
      split; [exact Hs | lia].
Qed.

Lemma dict_find_node_sound ec nodeID query (st st' : Store) r :
  dict_find_node ec nodeID query st = Some (r, st') ->
  Z.of_nat (length (m_nodes (dict st'))) < 2 ^ 31 ->
  sound st ->
  sound st' /\ 0 <= r < Z.of_nat (length (m_nodes (dict st'))).
Proof.
  unfold dict_find_node. intros Hfind Hnodes Hsound.
  pose proof Hsound as (Hne & Hlinked & Hcache & Hindex).
  assert (Hpos : (0 < length (m_nodes (dict st)))%nat)
    by (destruct (m_nodes (dict st)); [done | cbn [length]; lia]).
  destruct ((nodeID <=? 0) || (size_as_int (m_nodes (dict st)) <=? nodeID)).
  { injection Hfind as <- <-. split; [exact Hsound | lia]. }
  destruct (at_index (m_nodes (dict st)) nodeID) as [nd|]; [|discriminate].
  cbn [mbind option_bind] in Hfind.
  destruct (cache_find (m_cache (dict st))
              (mkQuery (document nd) nodeID query TypeUnknown))
    as [found|] eqn:Hfound.
  - injection Hfind as <- <-. split; [exact Hsound|].
    apply (Hcache _ _ Hfound eq_refl).
  - apply (lookup_sound _ _ _ _ _ _ _ _ Hfind Hnodes Hsound).
Qed.

End find.

(** *** dict_value *)

Section value.
Context `{Strutil}.

(** Runs the option binds of a hypothesis-free goal [_ = Some _ -> _]. *)
Ltac run_binds :=
  repeat match goal with
    | |- (?o ≫= _) = Some _ -> _ =>
        let x := fresh "x" in
        destruct o as [x|] eqn:?; cbn [mbind option_bind];
        [try (destruct x as [? ?]) | discriminate]
    end.

(** [dict_value] keeps the nodes, and the cached answers to the queries
    for nodes. *)
Lemma dict_value_frame (d d' : t) nodeID attribname type data hash r data' :
  dict_value d nodeID attribname type data hash = Some (r, d', data') ->
  m_nodes d' = m_nodes d
  /\ forall q, basetype (q_type q) = UNKNOWN ->
     cache_find (m_cache d') q = cache_find (m_cache d) q.
Proof.
  unfold dict_value.
  destruct ((nodeID <=? 0) || (size_as_int (m_nodes d) <=? nodeID));
    [intros [= _ <- _]; auto|].
  destruct (at_index (m_nodes d) nodeID) as [nd|]; [|discriminate].
  cbn [mbind option_bind].
  assert (Hset : forall r0 q,
            basetype type <> UNKNOWN ->
            basetype (q_type q) = UNKNOWN ->
            cache_find
              (cache_set (m_cache d)
                 (mkQuery (document nd) nodeID attribname type) r0) q
            = cache_find (m_cache d) q).
  { intros r0 q Htype Hq. apply cache_find_set_ne. intros ->.
    cbn [q_type] in Hq. contradiction. }
  destruct (cache_find (m_cache d)
              (mkQuery (document nd) nodeID attribname type)) as [found|].
  - destruct (basetype type); run_binds; intros [= _ <- _]; auto.
  - destruct (if decide (attribname = EmptyString)
              then Some (xml_value (node nd))
              else find_attribute (xml_attributes (node nd)) attribname)
      as [val|]; [|intros [= _ <- _]; auto].
    destruct (basetype type) eqn:Htype; try (intros [= _ <- _]; auto).
    + run_binds. intros [= _ <- _]. cbn [m_nodes m_cache].
      split; [reflexivity|]. intros q Hq. apply Hset; [discriminate|exact Hq].
    + run_binds. intros [= _ <- _]. cbn [m_nodes m_cache].
      split; [reflexivity|]. intros q Hq. apply Hset; [discriminate|exact Hq].
    + destruct (to_int (numelements type * aggregate type) =? 1);
        [|intros [= _ <- _]; auto].
      run_binds. intros [= _ <- _]. cbn [m_nodes m_cache].
      split; [reflexivity|]. intros q Hq. apply Hset; [discriminate|exact Hq].
Qed.

(** X8.  When [dict_value] returns 0 it has changed nothing: neither the
    dictionary, its cache included, nor the caller's buffer. *)
Theorem dict_value_failure_changes_nothing (d d' : t) nodeID attribname
    type data hash data' :
  dict_value d nodeID attribname type data hash = Some (0, d', data') ->
  d' = d /\ data' = data.
Proof.
  unfold dict_value.
  destruct ((nodeID <=? 0) || (size_as_int (m_nodes d) <=? nodeID));
    [intros [= <- <-]; auto|].
  destruct (at_index (m_nodes d) nodeID) as [nd|]; [|discriminate].
  cbn [mbind option_bind].
  destruct (cache_find (m_cache d)
              (mkQuery (document nd) nodeID attribname type)) as [found|].
  - destruct (basetype type); run_binds; intros [= <- <-]; auto.
  - destruct (if decide (attribname = EmptyString)
              then Some (xml_value (node nd))
              else find_attribute (xml_attributes (node nd)) attribname)
      as [val|]; [|intros [= <- <-]; auto].
    destruct (basetype type); try (intros [= <- <-]; auto);
      try (run_binds; discriminate).
    destruct (to_int (numelements type * aggregate type) =? 1);
      [run_binds; discriminate | intros [= <- <-]; auto].
Qed.

(** *** Decoding, then reading the cache *)

Lemma decode_prefix parse skip wrap (count : nat) :
  forall i valstr pool data pool' data',
  decode parse skip wrap count i valstr pool data = Some (pool', data') ->
  exists vs, pool' = pool ++ vs.
Proof.
  induction count as [|count IH]; intros i valstr pool data pool' data'.
  - intros [= <- _]. exists []. rewrite app_nil_r. reflexivity.
  - cbn [decode]. destruct (parse valstr) as [[v|] valstr1];
      cbn [mbind option_bind]; [|discriminate].
    destruct (set_index data i (wrap v)) as [data1|];
      cbn [mbind option_bind]; [|discriminate].
    intros Hrest. apply IH in Hrest as [vs ->].
    exists (v :: vs). rewrite <- app_assoc. reflexivity.
Qed.

(** The values that [decode] appended and wrote are the values that
    [copy_out] reads from the place where they were appended. *)
Lemma decode_copy parse skip wrap (count : nat) :
  forall i valstr pool data pool' data',
  decode parse skip wrap count i valstr pool data = Some (pool', data') ->
  copy_out wrap pool' count i (Z.of_nat (length pool)) data = Some data'.
Proof.
  induction count as [|count IH]; intros i valstr pool data pool' data'.
  - intros [= _ <-]. reflexivity.
  - cbn [decode copy_out]. destruct (parse valstr) as [[v|] valstr1];
      cbn [mbind option_bind]; [|discriminate].
    destruct (set_index data i (wrap v)) as [data1|] eqn:Hset;
      cbn [mbind option_bind]; [|discriminate].
    intros Hrest. destruct (decode_prefix _ _ _ _ _ _ _ _ _ _ Hrest)
      as [vs Hpool].
    assert (Hv : at_index pool' (Z.of_nat (length pool)) = Some v).
    { rewrite Hpool, <- app_assoc, at_index_nat.
      apply list_lookup_middle. reflexivity. }
    rewrite Hv. cbn [mbind option_bind]. rewrite Hset.
    cbn [mbind option_bind]. apply IH in Hrest.
    rewrite length_app in Hrest. cbn [length] in Hrest.
    replace (Z.of_nat (length pool) + 1)
      with (Z.of_nat (length pool + 1)) by lia.
    exact Hrest.
Qed.

(** X9.  What [dict_value] decodes it caches: after a call that returned
    1, the same call on the same buffer returns 1 again, fills the buffer
    with the same values and leaves the dictionary as it is. *)
Theorem dict_value_cached (d d' : t) nodeID attribname type data hash
    data' :
  dict_value d nodeID attribname type data hash = Some (1, d', data') ->
  Z.of_nat (length (m_floatdata d)) < 2 ^ 31 ->
  Z.of_nat (length (m_intdata d)) < 2 ^ 31 ->
  Z.of_nat (length (m_stringdata d)) < 2 ^ 31 ->
  dict_value d' nodeID attribname type data hash = Some (1, d', data').
Proof.
  intros Hrun Hfloats Hints Hstrings. pose proof Hrun as Hfirst.
  revert Hrun. unfold dict_value at 1.
  destruct ((nodeID <=? 0) || (size_as_int (m_nodes d) <=? nodeID))
    eqn:Hguard; [discriminate|].
  destruct (at_index (m_nodes d) nodeID) as [nd|] eqn:Hnd; [|discriminate].
  cbn [mbind option_bind].
  destruct (cache_find (m_cache d)
              (mkQuery (document nd) nodeID attribname type)) as [found|].
  - destruct (basetype type); try discriminate; run_binds;
      intros [= <- <-]; exact Hfirst.
  - destruct (if decide (attribname = EmptyString)
              then Some (xml_value (node nd))
              else find_attribute (xml_attributes (node nd)) attribname)
      as [val|]; [|discriminate].
    destruct (basetype type) eqn:Htype; try discriminate.
    + destruct (decode parse_int (fun s => parse_char s ","%char) CInt
                  (Z.to_nat (to_int (numelements type * aggregate type))) 0
                  val (m_intdata d) data) as [[pool data1]|] eqn:Hdecode;
        [|discriminate].
      cbn [mbind option_bind]. intros [= <- <-].
      unfold dict_value. cbn [m_nodes m_cache m_intdata].
      rewrite Hguard, Hnd. cbn [mbind option_bind].
      rewrite cache_find_set, Htype. cbn [valueoffset].
      rewrite size_as_int_small by exact Hints.
      rewrite (decode_copy _ _ _ _ _ _ _ _ _ _ Hdecode). reflexivity.
    + destruct (decode parse_float (fun s => parse_char s ","%char) CFloat
                  (Z.to_nat (to_int (numelements type * aggregate type))) 0
                  val (m_floatdata d) data) as [[pool data1]|] eqn:Hdecode;
        [|discriminate].
      cbn [mbind option_bind]. intros [= <- <-].
      unfold dict_value. cbn [m_nodes m_cache m_floatdata].
      rewrite Hguard, Hnd. cbn [mbind option_bind].
      rewrite cache_find_set, Htype. cbn [valueoffset].
      rewrite size_as_int_small by exact Hfloats.
      rewrite (decode_copy _ _ _ _ _ _ _ _ _ _ Hdecode). reflexivity.
    + destruct (to_int (numelements type * aggregate type) =? 1);
        [|discriminate].
      destruct (set_index data 0
                  (if hash then CHash (ustring_hash val) else CString val))
        as [data1|] eqn:Hset; [|discriminate].
      cbn [mbind option_bind]. intros [= <- <-].
      unfold dict_value. cbn [m_nodes m_cache m_stringdata].
      rewrite Hguard, Hnd. cbn [mbind option_bind].
      rewrite cache_find_set, Htype. cbn [valueoffset].
      rewrite size_as_int_small by exact Hstrings.
      rewrite at_index_nat, list_lookup_middle by reflexivity.
      cbn [mbind option_bind]. rewrite Hset. reflexivity.
Qed.

End value.

(** *** Every dictionary that can be reached is sound *)

Section reach.
Context `{Pugi} `{Strutil}.

Lemma step_grows (st st' : Store) :
  step st st' ->
  (length (m_documents st) <= length (m_documents st'))%nat
  /\ (length (m_nodes (dict st)) <= length (m_nodes (dict st')))%nat.
Proof.
  intros [ec name query st0 r st0' Hfind
         |ec nodeID query st0 r st0' Hfind
         |nodeID attribname type data hash st0 r d data' Hvalue].
  - unfold dict_find in Hfind.
    destruct (get_document_index ec name st0) as [dindex st1] eqn:Hget.
    pose proof (get_document_index_documents _ _ _ _ _ Hget) as Hdocs.
    pose proof (get_document_index_dict _ _ _ _ _ Hget) as Hdict.
    rewrite <- Hdict.
    destruct (dindex <? 0); [injection Hfind as _ <-; lia|].
    destruct (cache_find (m_cache (dict st1))
                (mkQuery dindex 0 query TypeUnknown));
      [injection Hfind as _ <-; lia|].
    destruct (at_index (m_documents st1) dindex); [|discriminate].
    apply lookup_length in Hfind as [-> Hnodes]. lia.
  - unfold dict_find_node in Hfind.
    destruct ((nodeID <=? 0)
              || (size_as_int (m_nodes (dict st0)) <=? nodeID));
      [injection Hfind as _ <-; lia|].
    destruct (at_index (m_nodes (dict st0)) nodeID) as [nd|];
      [|discriminate].
    cbn [mbind option_bind] in Hfind.
    destruct (cache_find (m_cache (dict st0))
                (mkQuery (document nd) nodeID query TypeUnknown));
      [injection Hfind as _ <-; lia|].
    apply lookup_length in Hfind as [-> Hnodes]. lia.
  - apply dict_value_frame in Hvalue as [Hnodes _].
    unfold with_dict. cbn [m_documents dict]. rewrite Hnodes. lia.
Qed.

Lemma step_sound (st st' : Store) :
  step st st' ->
  Z.of_nat (length (m_documents st')) < 2 ^ 31 ->
  Z.of_nat (length (m_nodes (dict st'))) < 2 ^ 31 ->
  sound st -> sound st'.
Proof.
  intros [ec name query st0 r st0' Hfind
         |ec nodeID query st0 r st0' Hfind
         |nodeID attribname type data hash st0 r d data' Hvalue]
    Hdocs Hnodes Hsound.
  - apply (dict_find_sound _ _ _ _ _ _ Hfind Hdocs Hnodes Hsound).
  - apply (dict_find_node_sound _ _ _ _ _ _ Hfind Hnodes Hsound).
  - apply dict_value_frame in Hvalue as [Hsame Hcache].
    destruct Hsound as (Hne & Hlinked & Hhandles & Hindex).
    unfold sound, with_dict. cbn [dict m_document_map]. rewrite Hsame.
    split; [exact Hne|]. split; [exact Hlinked|]. split; [|exact Hindex].
    intros q r0 Hfound Hq. rewrite (Hcache q Hq) in Hfound.
    apply (Hhandles q r0 Hfound Hq).
Qed.

Lemma reachable_sound (st : Store) :
  reachable st ->
  Z.of_nat (length (m_documents st)) < 2 ^ 31 ->
  Z.of_nat (length (m_nodes (dict st))) < 2 ^ 31 ->
  sound st.
Proof.
  unfold reachable. intros Hreach. pattern st.
  eapply rtc_ind_r; [| |exact Hreach].
  - intros _ _. apply sound_new.
  - intros y z _ Hstep IH Hdocs Hnodes.
    pose proof (step_grows _ _ Hstep) as [Hd Hn].
    apply (step_sound _ _ Hstep Hdocs Hnodes). apply IH; lia.
Qed.

(** From a handle [id], at most [n] more handles are visited. *)
Lemma linked_terminates (d : t) :
  linked (m_nodes d) ->
  Z.of_nat (length (m_nodes d)) < 2 ^ 31 ->
  forall (n : nat) (id : Z),
    0 < id < Z.of_nat (length (m_nodes d)) ->
    Z.of_nat (length (m_nodes d)) - id <= Z.of_nat n ->
    exists k, (k <= n)%nat /\ Nat.iter k (dict_next d) id = 0.
Proof.
  intros Hlinked Hfit.
  induction n as [|n IH]; intros id Hid Hn; [lia|].
  destruct (InstanceFacts.at_index_Some (m_nodes d) id ltac:(lia))
    as [nd Hnd].
  assert (Hnext : dict_next d id = next nd).
  { unfold dict_next. rewrite Hnd, size_as_int_small by lia.
    replace (id <=? 0) with false by fails.
    replace (Z.of_nat (length (m_nodes d)) <=? id) with false by fails.
    reflexivity. }
  assert (Hlookup : m_nodes d !! Z.to_nat id = Some nd).
  { unfold at_index in Hnd. destruct (0 <=? id); [exact Hnd|discriminate]. }
  destruct (Hlinked _ _ Hlookup) as [Hzero|Hlater].
  - exists 1%nat. split; [lia|]. cbn [Nat.iter nat_rect]. congruence.
  - destruct (IH (next nd)) as (k & Hk & Hiter); [lia | lia |].
    exists (S k). split; [lia|].
    rewrite Nat.iter_succ_r, Hnext. exact Hiter.
Qed.

(** X6.  In every dictionary that the queries can build, walking with
    [dict_next] ends: from any handle, valid or not, 0 is reached after
    at most as many steps as there are nodes. *)
Theorem iteration_terminates (st : Store) (id : Z) :
  reachable st ->
  Z.of_nat (length (m_documents st)) < 2 ^ 31 ->
  Z.of_nat (length (m_nodes (dict st))) < 2 ^ 31 ->
  exists k,
    (k <= length (m_nodes (dict st)))%nat
    /\ Nat.iter k (dict_next (dict st)) id = 0.
Proof.
  intros Hreach Hdocs Hnodes.
  destruct (reachable_sound st Hreach Hdocs Hnodes)
    as (Hne & Hlinked & _ & _).
  assert (Hpos : (0 < length (m_nodes (dict st)))%nat)
    by (destruct (m_nodes (dict st)); [done | cbn [length]; lia]).
  destruct (Z.leb_spec id 0) as [Hlow|Hlow];
    [|destruct (Z.leb_spec (Z.of_nat (length (m_nodes (dict st)))) id)
        as [Hhigh|Hhigh]].
  - exists 1%nat. split; [lia|]. cbn [Nat.iter nat_rect]. unfold dict_next.
    replace (id <=? 0) with true by holds. reflexivity.
  - exists 1%nat. split; [lia|]. cbn [Nat.iter nat_rect]. unfold dict_next.
    rewrite size_as_int_small by lia.
    replace (Z.of_nat (length (m_nodes (dict st))) <=? id) with true
      by holds.
    rewrite orb_true_r. reflexivity.
  - destruct (linked_terminates (dict st) Hlinked Hnodes
                (length (m_nodes (dict st))) id) as (k & Hk & Hiter);
      [lia | lia |].
    exists k. auto.
Qed.

(** X7.  In every dictionary that the queries can build, a query returns
    -1, 0 or a valid handle: the result is at least -1 and below the
    number of nodes. *)
Theorem returned_handle_is_valid ec name nodeID query (st st' : Store) r :
  reachable st ->
  dict_find ec name query st = Some (r, st')
  \/ dict_find_node ec nodeID query st = Some (r, st') ->
  Z.of_nat (length (m_documents st')) < 2 ^ 31 ->
  Z.of_nat (length (m_nodes (dict st'))) < 2 ^ 31 ->
  -1 <= r < Z.of_nat (length (m_nodes (dict st'))).
Proof.
  intros Hreach Hfind Hdocs Hnodes.
  assert (Hstep : step st st')
    by (destruct Hfind; [eapply step_find | eapply step_find_node];
        eassumption).
  pose proof (step_grows _ _ Hstep) as [Hd Hn].
  assert (Hsound : sound st) by (apply reachable_sound; [exact Hreach|lia..]).
  destruct Hfind as [Hfind|Hfind].
  - apply (dict_find_sound _ _ _ _ _ _ Hfind Hdocs Hnodes Hsound).
  - destruct (dict_find_node_sound _ _ _ _ _ _ Hfind Hnodes Hsound)
      as [_ Hr]. lia.
Qed.

End reach.

(** *** Examples *)

Import DocumentExamples.

(** The query [//*] on the new dictionary: the handles 1 and 2. *)
Lemma dict_find_enumerates_witness :
  exists st',
    dict_find None materials "//*" Dictionary_new = Some (1, st')
    /\ handles (dict st') 3 1 = [1; 2]
    /\ forall k m, [steel; gold] !! k = Some m ->
       exists n,
         at_index (m_nodes (dict st')) (1 + Z.of_nat k) = Some n
         /\ document n = 0 /\ node n = m.
Proof.
  apply (dict_find_enumerates (H := two_materials) None materials "//*"
           Dictionary_new
           (snd (get_document_index None materials Dictionary_new)) 0
           [steel; gold] [steel; gold]).
  - vm_compute. reflexivity.
  - lia.
  - reflexivity.
  - reflexivity.
  - reflexivity.
  - discriminate.
  - discriminate.
  - simpl. lia.
Defined.

(** The same query, asked again on behalf of an execution context. *)
Lemma dict_find_cached_witness :
  dict_find (Some 7) materials "//*" after_find = Some (1, after_find).
Proof.
  apply (dict_find_cached None (Some 7) materials "//*" Dictionary_new).
  - vm_compute. reflexivity.
  - reflexivity.
  - vm_compute. reflexivity.
  - vm_compute. reflexivity.
Defined.

(** A file that cannot be read. *)
Lemma failed_document_is_reported_once_witness :
  exists st',
    dict_find (Some 7) "missing.xml" "//*" Dictionary_new = Some (-1, st')
    /\ log st'
       = log Dictionary_new
         ++ [(ToExecContext 7,
              mkDiag SevError
                "XML parsed with errors: File was not found, at offset 0")]
    /\ dict st' = dict Dictionary_new
    /\ forall ec' query',
       dict_find ec' "missing.xml" query' st' = Some (-1, st').
Proof.
  apply (failed_document_is_reported_once (H := two_materials) (Some 7)
           "missing.xml" "//*" Dictionary_new []
           (mk_parse_result false "File was not found" 0)).
  - reflexivity.
  - reflexivity.
  - reflexivity.
Defined.

(** The query [//gold] after the query [//*]: the handles 1 and 2 stay. *)
Lemma old_handles_survive_witness :
  m_floatdata (dict after_gold) = m_floatdata (dict after_find)
  /\ m_intdata (dict after_gold) = m_intdata (dict after_find)
  /\ m_stringdata (dict after_gold) = m_stringdata (dict after_find)
  /\ forall id, 0 < id < 3 ->
     at_index (m_nodes (dict after_gold)) id
     = at_index (m_nodes (dict after_find)) id
     /\ dict_next (dict after_gold) id = dict_next (dict after_find) id.
Proof.
  apply (old_handles_survive None materials 0 "//gold" after_find after_gold
           3).
  - left. vm_compute. reflexivity.
  - vm_compute. reflexivity.
Defined.

(** The query [.] from the handle 2. *)
Lemma dict_find_node_enumerates_witness :
  exists st',
    dict_find_node None 2 "." after_find = Some (3, st')
    /\ handles (dict st') 2 3 = [3]
    /\ forall k m, [gold] !! k = Some m ->
       exists n,
         at_index (m_nodes (dict st')) (3 + Z.of_nat k) = Some n
         /\ document n = 0 /\ node n = m.
Proof.
  apply (dict_find_node_enumerates None 2 "." after_find
           (mkNode 0 gold 0) [gold]).
  - vm_compute. split; reflexivity.
  - reflexivity.
  - reflexivity.
  - reflexivity.
  - discriminate.
  - vm_compute. reflexivity.
Defined.

Lemma after_find_reachable : reachable after_find.
Proof.
  eapply rtc_l; [|apply rtc_refl].
  eapply (step_find None materials "//*" Dictionary_new 1 after_find).
  vm_compute. reflexivity.
Qed.

(** From the handle 1 of the dictionary of the example. *)
Lemma iteration_terminates_witness :
  exists k,
    (k <= length (m_nodes (dict after_find)))%nat
    /\ Nat.iter k (dict_next (dict after_find)) 1 = 0.
Proof.
  apply (iteration_terminates after_find 1).
  - exact after_find_reachable.
  - vm_compute. reflexivity.
  - vm_compute. reflexivity.
Defined.

Lemma returned_handle_is_valid_witness :
  -1 <= 3 < Z.of_nat (length (m_nodes (dict after_gold))).
Proof.
  apply (returned_handle_is_valid None materials 0 "//gold" after_find
           after_gold 3).
  - exact after_find_reachable.
  - left. vm_compute. reflexivity.
  - vm_compute. reflexivity.
  - vm_compute. reflexivity.
Defined.

(** An attribute that the node does not have. *)
Lemma dict_value_failure_changes_nothing_witness :
  dict after_find = dict after_find /\ buffer = buffer.
Proof.
  apply (dict_value_failure_changes_nothing (dict after_find)
           (dict after_find) 2 "weight" int3 buffer false buffer).
  vm_compute. reflexivity.
Defined.

(** The colour of the second match, decoded then read from the cache. *)
Lemma dict_value_cached_witness :
  dict_value (fst after_value) 2 "color" int3 buffer false
  = Some (1, fst after_value, [CInt 1; CInt 2; CInt 3]).
Proof.
  apply (dict_value_cached (dict after_find) (fst after_value) 2 "color"
           int3 buffer false [CInt 1; CInt 2; CInt 3]).
  - vm_compute. reflexivity.
  - vm_compute. reflexivity.
  - vm_compute. reflexivity.
  - vm_compute. reflexivity.
Defined.

End DocumentsFacts.
(** ** instance.cpp: looking parameters up and binding them *)

Module ParameterFacts.
Import Inst Wiring InstanceFacts.

(** *** findparam *)

(** The loop of [findparam]: what it returns is the first index of the
    range whose symbol has the name. *)
Lemma find_name_found (syms : list Symbol) (name : string) (n : nat) :
  forall first i,
  find_name syms name n first = Some (Some i) ->
  first <= i < first + Z.of_nat n
  /\ (exists s, at_index syms i = Some s /\ sym_name s = name)
  /\ forall j s, first <= j < i -> at_index syms j = Some s ->
                 sym_name s <> name.
Proof.
  induction n as [|n IH]; intros first i; [discriminate|].
  cbn [find_name].
  destruct (at_index syms first) as [s|] eqn:Hs; [|discriminate].
  cbn [mbind option_bind].
  destruct (decide (sym_name s = name)) as [Hname|Hname].
  - intros [= <-]. split; [lia|]. split; [eauto|]. intros j s' Hj. lia.
  - intros Hrest. apply IH in Hrest as (Hi & Hfound & Hfirst).
    split; [lia|]. split; [exact Hfound|]. intros j s' Hj Hs'.
    destruct (Z.eq_dec j first) as [->|Hne].
    + congruence.
    + apply (Hfirst j s'); [lia | exact Hs'].
Qed.

Lemma find_name_missing (syms : list Symbol) (name : string) (n : nat) :
  forall first,
  find_name syms name n first = Some None ->
  forall j s, first <= j < first + Z.of_nat n ->
              at_index syms j = Some s -> sym_name s <> name.
Proof.
  induction n as [|n IH]; intros first Hrun j s Hj Hs; [lia|].
  cbn [find_name] in Hrun.
  destruct (at_index syms first) as [s0|] eqn:Hs0; [|discriminate].
  cbn [mbind option_bind] in Hrun.
  destruct (decide (sym_name s0 = name)) as [Hname|Hname]; [discriminate|].
  destruct (Z.eq_dec j first) as [->|Hne].
  - congruence.
  - apply (IH (first + 1) Hrun j s); [lia | exact Hs].
Qed.

(** No symbol of the range has the name: the loop runs to its end. *)
Lemma find_name_none (syms : list Symbol) (name : string) (n : nat) :
  forall first,
  (forall j, first <= j < first + Z.of_nat n ->
             exists s, at_index syms j = Some s /\ sym_name s <> name) ->
  find_name syms name n first = Some None.
Proof.
  induction n as [|n IH]; intros first Hall; [reflexivity|].
  cbn [find_name]. destruct (Hall first ltac:(lia)) as (s & -> & Hname).
  cbn [mbind option_bind]. rewrite decide_False by exact Hname.
  apply IH. intros j Hj. apply Hall. lia.
Qed.

(** X10.  [findparam] returns -1 only when no parameter of the instance,
    nor (when the master is searched) of the master, has the name;
    otherwise it returns an index between [firstparam] and [lastparam]
    whose symbol, in the instance or in the master, has the name. *)
Theorem findparam_finds (inst : ShaderInstance) (name : string)
    (search_master : bool) (i : Z) :
  findparam inst name search_master = Some i ->
  (i = -1
   /\ (forall j s, m_firstparam inst <= j < m_lastparam inst ->
                   symbol inst j = Some s -> sym_name s <> name)
   /\ (search_master = true ->
       forall j s, m_firstparam inst <= j < m_lastparam inst ->
                   mastersymbol inst j = Some s -> sym_name s <> name))
  \/ (m_firstparam inst <= i < m_lastparam inst
      /\ exists s, sym_name s = name
           /\ (symbol inst i = Some s
               \/ search_master = true /\ mastersymbol inst i = Some s)).
Proof.
  unfold findparam, symbol, mastersymbol.
  set (n := Z.to_nat (m_lastparam inst - m_firstparam inst)).
  assert (Hrange : forall j, m_firstparam inst <= j < m_lastparam inst ->
            m_firstparam inst <= j < m_firstparam inst + Z.of_nat n)
    by (intros j Hj; unfold n; lia).
  assert (Hback : forall j,
            m_firstparam inst <= j < m_firstparam inst + Z.of_nat n ->
            m_firstparam inst <= j < m_lastparam inst)
    by (intros j Hj; unfold n in Hj; lia).
  assert (Hinst : forall found,
            (if negb (bool_decide (m_instsymbols inst = []))
             then find_name (m_instsymbols inst) name n (m_firstparam inst)
             else Some None) = Some found ->
            match found with
            | Some i =>
                m_firstparam inst <= i < m_lastparam inst
                /\ exists s, sym_name s = name
                     /\ at_index (m_instsymbols inst) i = Some s
            | None =>
                forall j s, m_firstparam inst <= j < m_lastparam inst ->
                            at_index (m_instsymbols inst) j = Some s ->
                            sym_name s <> name
            end).
  { intros found. destruct (bool_decide_reflect (m_instsymbols inst = []))
      as [Hnil|Hsome]; cbn [negb].
    - intros [= <-]. intros j s _. rewrite Hnil. unfold at_index.
      destruct (0 <=? j); discriminate.
    - destruct found as [k|]; intros Hrun.
      + apply find_name_found in Hrun as (Hk & (s & Hs & Hname) & _).
        split; [auto|]. eauto.
      + intros j s Hj. apply (find_name_missing _ _ _ _ Hrun). auto. }
  destruct (if negb (bool_decide (m_instsymbols inst = []))
            then find_name (m_instsymbols inst) name n (m_firstparam inst)
            else Some None) as [found|]; [|discriminate].
  specialize (Hinst found eq_refl). cbn [mbind option_bind].
  destruct found as [k|].
  - intros [= <-]. right. destruct Hinst as (Hk & s & Hname & Hs).
    split; [exact Hk|]. exists s. auto.
  - destruct search_master.
    + destruct (find_name (m_symbols (m_master inst)) name n
                  (m_firstparam inst)) as [[k|]|] eqn:Hmaster;
        [| |discriminate]; cbn [mbind option_bind default]; intros [= <-].
      * right. apply find_name_found in Hmaster
          as (Hk & (s & Hs & Hname) & _).
        split; [auto|]. exists s. auto.
      * left. split; [reflexivity|]. split; [exact Hinst|].
        intros _ j s Hj. apply (find_name_missing _ _ _ _ Hmaster). auto.
    + intros [= <-]. left. split; [reflexivity|]. split; [exact Hinst|].
      discriminate.
Qed.

(** *** What binding a value keeps *)

Section parameters.
Context `{TypeRules} `{Conversions} `{Printer} (ss : ShadingSystem).

Lemma same_shell_refl a : same_shell a a.
Proof. repeat split. Qed.

Lemma same_shell_trans a b c :
  same_shell a b -> same_shell b c -> same_shell a c.
Proof.
  unfold same_shell. intros (? & ? & ? & ? & ? & ? & ? & ?)
    (? & ? & ? & ? & ? & ? & ? & ?).
  repeat split; congruence.
Qed.

Lemma pools_grow_refl a : pools_grow a a.
Proof. repeat split; lia. Qed.

Lemma pools_grow_trans a b c :
  pools_grow a b -> pools_grow b c -> pools_grow a c.
Proof. unfold pools_grow. intros (? & ? & ?) (? & ? & ?). lia. Qed.

Lemma write_params_frame a storage d a' :
  write_params a storage d = Some a' ->
  same_shell a a' /\ pools_grow a a'
  /\ m_instoverrides a' = m_instoverrides a.
Proof.
  unfold write_params.
  destruct storage, d; try discriminate;
    match goal with
    | |- context [blit ?v ?off ?l] =>
        destruct (blit v off l) as [v'|] eqn:Hblit; simpl
    end; try discriminate; intros [= <-];
    apply length_blit in Hblit;
    (split; [repeat split|]); (split; [|reflexivity]);
    unfold pools_grow; simpl; lia.
Qed.

Lemma allocate_unsized_frame a so paramtype valuetype so' a' :
  allocate_unsized a so paramtype valuetype = Some (so', a') ->
  same_shell a a' /\ pools_grow a a'
  /\ m_instoverrides a' = m_instoverrides a.
Proof.
  unfold allocate_unsized.
  destruct (aggregate paramtype =? 0); [discriminate|].
  destruct (basetype paramtype); intros [= _ <-];
    (split; [repeat split|]); (split; [|reflexivity]);
    unfold pools_grow, expand; simpl; rewrite ?length_app; lia.
Qed.

Lemma length_set_index {A} (v v' : list A) (i : Z) (x : A) :
  set_index v i x = Some v' -> length v' = length v.
Proof.
  unfold set_index. destruct (at_index v i); [|discriminate].
  intros [= <-]. apply length_insert.
Qed.

(** One supplied value: whatever happens to it, the instance keeps its
    master, its symbols, its code and its connections, as many override
    records, and pools that are no shorter. *)
Lemma bind_param_frame hints pi p inst inst' msgs :
  bind_param ss hints pi p inst = Some (inst', msgs) ->
  same_shell inst inst' /\ pools_grow inst inst'
  /\ length (m_instoverrides inst') = length (m_instoverrides inst).
Proof.
  assert (Hsame : same_shell inst inst /\ pools_grow inst inst
                  /\ length (m_instoverrides inst)
                     = length (m_instoverrides inst))
    by (split; [apply same_shell_refl|]; split;
        [apply pools_grow_refl | reflexivity]).
  unfold bind_param.
  destruct (decide (pv_name p = EmptyString)); [intros [= <- _]; exact Hsame|].
  destruct (findparam inst (pv_name p) true) as [i|]; [|discriminate].
  cbn [mbind option_bind].
  destruct (0 <=? i); [|intros [= <- _]; exact Hsame].
  destruct (at_index (m_symbols (m_master inst)) i) as [sm|]; [|discriminate].
  cbn [mbind option_bind].
  destruct (at_index (m_instoverrides inst) i) as [so|]; [|discriminate].
  cbn [mbind option_bind].
  destruct (is_closure_based (typespec sm)); [intros [= <- _]; exact Hsame|].
  destruct (is_structure (typespec sm)); [intros [= <- _]; exact Hsame|].
  destruct (typecheck ss sm (pv_data p) (pv_type p))
    as [[cmsgs [[data valuetype]|]]|]; cbn [mbind option_bind];
    [|intros [= <- _]; exact Hsame|discriminate].
  destruct (at_index hints pi) as [hint|]; [|discriminate].
  cbn [mbind option_bind].
  destruct (replicate_float (simpletype (typespec sm)) data valuetype)
    as [[data' valuetype']|]; [|discriminate].
  cbn [mbind option_bind].
  match goal with
  | |- mbind _ ?m = Some _ -> _ =>
      destruct m as [[so' inst1]|] eqn:Hbranch; [|discriminate]
  end.
  cbn [mbind option_bind].
  assert (Hinst1 : same_shell inst inst1 /\ pools_grow inst inst1
                   /\ m_instoverrides inst1 = m_instoverrides inst).
  { destruct (arraylen (simpletype (typespec sm)) <? 0).
    - eapply allocate_unsized_frame. exact Hbranch.
    - destruct (param_default_storage (m_master inst) i); [|discriminate].
      cbn [mbind option_bind] in Hbranch.
      match type of Hbranch with
      | (if ?c then _ else _) = _ => destruct c
      end.
      + match type of Hbranch with
        | mbind _ ?m = _ => destruct m; [|discriminate]
        end.
        injection Hbranch as _ <-.
        split; [apply same_shell_refl|]. split;
          [apply pools_grow_refl | reflexivity].
      + injection Hbranch as _ <-.
        split; [apply same_shell_refl|]. split;
          [apply pools_grow_refl | reflexivity]. }
  destruct Hinst1 as (Hshell1 & Hgrow1 & Hov1).
  destruct (set_index (m_instoverrides inst1) i so') as [ov|] eqn:Hov;
    [|discriminate].
  cbn [mbind option_bind].
  destruct (param_storage (with_overrides inst1 ov) i) as [storage|];
    [|discriminate].
  cbn [mbind option_bind].
  destruct (data_prefix data' (basevalues valuetype')) as [payload|];
    [|discriminate].
  cbn [mbind option_bind].
  destruct (write_params (with_overrides inst1 ov) storage payload)
    as [inst2|] eqn:Hwrite; [|discriminate].
  cbn [mbind option_bind]. intros [= <- _].
  apply write_params_frame in Hwrite as (Hshell2 & Hgrow2 & Hov2).
  split; [|split].
  - eapply same_shell_trans; [exact Hshell1|].
    eapply same_shell_trans; [|exact Hshell2]. repeat split.
  - eapply pools_grow_trans; [exact Hgrow1|].
    eapply pools_grow_trans; [|exact Hgrow2]. repeat split; simpl; lia.
  - rewrite Hov2. cbn [with_overrides m_instoverrides].
    rewrite (length_set_index _ _ _ _ Hov), Hov1. reflexivity.
Qed.

Lemma bind_params_frame hints params : forall pi inst inst' msgs,
  bind_params ss hints params pi inst = Some (inst', msgs) ->
  same_shell inst inst' /\ pools_grow inst inst'
  /\ length (m_instoverrides inst') = length (m_instoverrides inst).
Proof.
  induction params as [|p params IH]; intros pi inst inst' msgs.
  - intros [= <- _]. split; [apply same_shell_refl|]. split;
      [apply pools_grow_refl | reflexivity].
  - cbn [bind_params].
    destruct (bind_param ss hints pi p inst) as [[inst1 msgs1]|] eqn:Hone;
      [|discriminate].
    cbn [mbind option_bind].
    destruct (bind_params ss hints params (pi + 1) inst1)
      as [[inst2 msgs2]|] eqn:Hrest; [|discriminate].
    cbn [mbind option_bind]. intros [= <- _].
    apply bind_param_frame in Hone as (Hs1 & Hg1 & Hl1).
    apply IH in Hrest as (Hs2 & Hg2 & Hl2).
    split; [eapply same_shell_trans; eassumption|].
    split; [eapply pools_grow_trans; eassumption | congruence].
Qed.

Lemma length_seed_overrides m ov : forall i ov',
  seed_overrides m ov i = Some ov' -> length ov' = length ov.
Proof.
  induction ov as [|so ov IH]; intros i ov'.
  - intros [= <-]. reflexivity.
  - cbn [seed_overrides].
    destruct (at_index (m_symbols m) i); [|discriminate].
    cbn [mbind option_bind].
    destruct (seed_overrides m ov (i + 1)) as [rest|] eqn:Hrest;
      [|discriminate].
    cbn [mbind option_bind]. intros [= <-]. cbn [length].
    rewrite (IH _ _ Hrest). reflexivity.
Qed.

(** X11.  Whatever values are supplied, [parameters] leaves an instance
    with one override record per symbol below [lastparam] (what
    [copy_code_from_master] asserts), with the master, the symbols, the
    connections and the parameter range it had, and with pools that are
    at least as long as the master's defaults. *)
Theorem parameters_keeps_the_instance (inst inst' : ShaderInstance)
    (params : list ParamValue) (hints : list Z) (msgs : list Diagnostic) :
  parameters ss inst params hints = Some (inst', msgs) ->
  length (m_instoverrides inst') = Z.to_nat (Z.max 0 (m_lastparam inst))
  /\ m_master inst' = m_master inst
  /\ m_instsymbols inst' = m_instsymbols inst
  /\ m_connections inst' = m_connections inst
  /\ m_firstparam inst' = m_firstparam inst
  /\ m_lastparam inst' = m_lastparam inst
  /\ (length (m_idefaults (m_master inst)) <= length (m_iparams inst'))%nat
  /\ (length (m_fdefaults (m_master inst)) <= length (m_fparams inst'))%nat
  /\ (length (m_sdefaults (m_master inst)) <= length (m_sparams inst'))%nat.
Proof.
  unfold parameters. cbn [with_params m_instoverrides m_lastparam m_master].
  match goal with
  | |- mbind _ ?m = Some _ -> _ =>
      destruct m as [ov|] eqn:Hseed; [|discriminate]
  end.
  cbn [mbind option_bind]. intros Hbind.
  apply bind_params_frame in Hbind
    as ((Hm & Hsyms & _ & _ & _ & Hconn & Hfirst & Hlast) & Hgrow & Hlen).
  cbn [with_overrides with_params m_master m_instsymbols m_connections
       m_firstparam m_lastparam m_instoverrides] in *.
  unfold pools_grow in Hgrow.
  cbn [with_overrides with_params m_iparams m_fparams m_sparams] in Hgrow.
  apply length_seed_overrides in Hseed.
  unfold resize in Hseed. rewrite length_app, length_take, length_replicate
    in Hseed.
  repeat split; try assumption; try lia.
Qed.

(** X12.  A value for a name that no parameter of the master has
    changes nothing: before specialization, [parameters] skips it and
    reports the warning "attempting to set nonexistent parameter". *)
Theorem nonexistent_parameter_is_skipped hints pi p inst :
  pv_name p <> EmptyString ->
  m_instsymbols inst = [] ->
  (forall j, m_firstparam inst <= j < m_lastparam inst ->
             exists s, mastersymbol inst j = Some s
                       /\ sym_name s <> pv_name p) ->
  bind_param ss hints pi p inst
  = Some (inst,
          [mkDiag SevWarning
             ("attempting to set nonexistent parameter: " ++ pv_name p)]).
Proof.
  intros Hname Hpre Hnone. unfold bind_param, findparam.
  rewrite decide_False by exact Hname. rewrite Hpre.
  cbn [bool_decide decide_rel negb mbind option_bind].
  rewrite bool_decide_eq_true_2 by reflexivity. cbn [negb mbind option_bind].
  rewrite find_name_none; [|intros j Hj; apply Hnone; lia].
  cbn [mbind option_bind default]. change (0 <=? -1) with false. cbn iota.
  unfold warning, fmtformat.
  cbn [fmtformat_from Ascii.eqb Bool.eqb orb negb andb].
  rewrite DocumentsFacts.append_empty. reflexivity.
Qed.

(** X13.  A value that is accepted for a parameter of definite size is
    copied to the storage of the parameter: reading as many base values
    through [param_storage] returns the supplied values (for a single
    float supplied to a triple: the float, three times), and no pool
    changes its length. *)
Theorem sized_binding_reads_back hints pi p inst inst' msgs i sm cmsgs data
    valuetype :
  bind_param ss hints pi p inst = Some (inst', msgs) ->
  pv_name p <> EmptyString ->
  findparam inst (pv_name p) true = Some i ->
  0 <= i ->
  at_index (m_symbols (m_master inst)) i = Some sm ->
  is_closure_based (typespec sm) = false ->
  is_structure (typespec sm) = false ->
  typecheck ss sm (pv_data p) (pv_type p)
  = Some (cmsgs, Some (data, valuetype)) ->
  0 <= arraylen (simpletype (typespec sm)) ->
  exists data' valuetype' payload storage,
    replicate_float (simpletype (typespec sm)) data valuetype
    = Some (data', valuetype')
    /\ (is_vec3 (simpletype (typespec sm)) = true ->
        valuetype = TypeFloat ->
        exists x, data' = DFloat [x; x; x]
                  /\ valuetype' = simpletype (typespec sm))
    /\ data_prefix data' (basevalues valuetype') = Some payload
    /\ param_storage inst' i = Some storage
    /\ read_params inst' storage (basevalues valuetype') = Some payload
    /\ length (m_iparams inst') = length (m_iparams inst)
    /\ length (m_fparams inst') = length (m_fparams inst)
    /\ length (m_sparams inst') = length (m_sparams inst).
Proof.
  intros Hrun Hname Hfind Hi Hsm Hclosure Hstruct Hcheck Hsized.
  destruct (bind_param_accepted ss _ _ _ _ _ _ _ _ _ _ _ Hrun Hname Hfind Hi
              Hsm Hclosure Hstruct Hcheck)
    as (so & hint & data' & valuetype' & so' & inst1 & ov & storage
        & payload & Hso & Hhint & Hrep & Hbranch & Hov & Hstorage
        & Hpayload & Hwrite & _).
  cbv zeta in Hbranch.
  replace (arraylen (simpletype (typespec sm)) <? 0) with false in Hbranch
    by (symmetry; apply Z.ltb_ge; lia).
  destruct Hbranch as [-> _].
  exists data', valuetype', payload, storage.
  split; [exact Hrep|]. split.
  { intros Hvec Hfloat. unfold replicate_float in Hrep.
    rewrite Hvec, Hfloat in Hrep.
    rewrite bool_decide_eq_true_2 in Hrep by reflexivity.
    cbn [andb] in Hrep. destruct data as [l|[|x l]|l]; try discriminate.
    injection Hrep as <- <-. eauto. }
  split; [exact Hpayload|]. split.
  { rewrite (param_storage_write _ _ _ _ _ Hwrite). exact Hstorage. }
  split.
  { rewrite <- (data_prefix_length _ _ _ Hpayload).
    eapply read_after_write. exact Hwrite. }
  pose proof (pool_size_write _ _ _ _ INT Hwrite) as Hint.
  pose proof (pool_size_write _ _ _ _ FLOAT Hwrite) as Hfloat.
  pose proof (pool_size_write _ _ _ _ STRING Hwrite) as Hstring.
  cbn [pool_size with_overrides m_iparams m_fparams m_sparams] in *.
  auto.
Qed.

End parameters.

(** *** Examples *)

Import Models Examples InstanceExamples.

(** The array parameter of the master of the example. *)
Lemma findparam_finds_witness :
  (1 = -1
   /\ (forall j s, m_firstparam paint <= j < m_lastparam paint ->
                   symbol paint j = Some s -> sym_name s <> "knots")
   /\ (true = true ->
       forall j s, m_firstparam paint <= j < m_lastparam paint ->
                   mastersymbol paint j = Some s -> sym_name s <> "knots"))
  \/ (m_firstparam paint <= 1 < m_lastparam paint
      /\ exists s, sym_name s = "knots"
           /\ (symbol paint 1 = Some s
               \/ true = true /\ mastersymbol paint 1 = Some s)).
Proof.
  apply (findparam_finds paint "knots" true 1). vm_compute. reflexivity.
Defined.

(** The colour of the example, set to a single float. *)
Lemma parameters_keeps_the_instance_witness :
  length (m_instoverrides (fst painted)) = 2%nat
  /\ m_master (fst painted) = paint_master
  /\ m_instsymbols (fst painted) = []
  /\ m_connections (fst painted) = []
  /\ m_firstparam (fst painted) = 0
  /\ m_lastparam (fst painted) = 2
  /\ (0 <= length (m_iparams (fst painted)))%nat
  /\ (4 <= length (m_fparams (fst painted)))%nat
  /\ (0 <= length (m_sparams (fst painted)))%nat.
Proof.
  apply (parameters_keeps_the_instance shadingsys paint_new (fst painted)
           [grey] [0] (snd painted)).
  vm_compute. reflexivity.
Defined.

(** A value for [Ks], which the master of the example does not have. *)
Lemma nonexistent_parameter_is_skipped_witness :
  bind_param shadingsys [0] 0 Ks paint
  = Some (paint,
          [mkDiag SevWarning "attempting to set nonexistent parameter: Ks"]).
Proof.
  apply (nonexistent_parameter_is_skipped shadingsys [0] 0 Ks paint).
  - discriminate.
  - reflexivity.
  - intros j Hj. change (0 <= j < 2) in Hj.
    assert (j = 0 \/ j = 1) as [-> | ->] by lia.
    + exists Cs_symbol. split; [reflexivity | discriminate].
    + exists knots_symbol. split; [reflexivity | discriminate].
Defined.

(** The single float that is supplied for the colour is read back three
    times. *)
Lemma sized_binding_reads_back_witness :
  exists data' valuetype' payload storage,
    replicate_float (simpletype (typespec Cs_symbol)) (DFloat [f2_0])
      TypeFloat
    = Some (data', valuetype')
    /\ (is_vec3 (simpletype (typespec Cs_symbol)) = true ->
        TypeFloat = TypeFloat ->
        exists x, data' = DFloat [x; x; x]
                  /\ valuetype' = simpletype (typespec Cs_symbol))
    /\ data_prefix data' (basevalues valuetype') = Some payload
    /\ param_storage (fst painted) 0 = Some storage
    /\ read_params (fst painted) storage (basevalues valuetype')
       = Some payload
    /\ length (m_iparams (fst painted)) = length (m_iparams paint)
    /\ length (m_fparams (fst painted)) = length (m_fparams paint)
    /\ length (m_sparams (fst painted)) = length (m_sparams paint).
Proof.
  apply (sized_binding_reads_back shadingsys [0] 0 grey paint (fst painted)
           (snd painted) 0 Cs_symbol []).
  - vm_compute. reflexivity.
  - discriminate.
  - vm_compute. reflexivity.
  - lia.
  - reflexivity.
  - reflexivity.
  - reflexivity.
  - vm_compute. reflexivity.
  - simpl. lia.
Defined.

End ParameterFacts.
(** ** instance.cpp: connections *)

Module WiringFacts.
Import Inst Wiring InstanceFacts.

(** [specialize_unsized] in one step: the new override and the new
    pools. *)
Lemma specialize_unsized_steps inst srccon dstcon inst' :
  specialize_unsized inst srccon dstcon = Some inst' ->
  exists so so' ip fp sp,
    at_index (m_instoverrides inst) (cp_param dstcon) = Some so
    /\ inst'
       = with_overrides (with_params inst ip fp sp)
           (<[Z.to_nat (cp_param dstcon) := so']> (m_instoverrides inst))
    /\ so_arraylen so' = arraylength (cp_type srccon)
    /\ match basetype (simpletype (cp_type srccon)) with
       | FLOAT =>
           so_dataoffset so' = size_as_int (m_fparams inst)
           /\ ip = m_iparams inst /\ sp = m_sparams inst
           /\ fp = m_fparams inst
                   ++ replicate
                        (Z.to_nat
                           (LLVMGen.td_size (simpletype (cp_type srccon))))
                        0
       | INT =>
           so_dataoffset so' = size_as_int (m_iparams inst)
           /\ fp = m_fparams inst /\ sp = m_sparams inst
           /\ ip = m_iparams inst
                   ++ replicate
                        (Z.to_nat
                           (LLVMGen.td_size (simpletype (cp_type srccon))))
                        0
       | STRING =>
           so_dataoffset so' = size_as_int (m_sparams inst)
           /\ ip = m_iparams inst /\ fp = m_fparams inst
           /\ sp = m_sparams inst
                   ++ replicate
                        (Z.to_nat
                           (LLVMGen.td_size (simpletype (cp_type srccon))))
                        EmptyString
       | _ =>
           so_dataoffset so' = so_dataoffset so
           /\ ip = m_iparams inst /\ fp = m_fparams inst
           /\ sp = m_sparams inst
       end.
Proof.
  unfold specialize_unsized.
  destruct (at_index (m_instoverrides inst) (cp_param dstcon)) as [so|]
    eqn:Hso; [|discriminate].
  cbn [mbind option_bind]. unfold expand.
  destruct (basetype (simpletype (cp_type srccon))) eqn:Hbase;
    cbn [with_params m_instoverrides];
    rewrite (set_index_Some _ _ _ _ Hso); cbn [mbind option_bind];
    intros [= <-]; do 5 eexists;
    (split; [reflexivity|]); (split; [reflexivity|]);
    (split; [reflexivity|]); repeat split; reflexivity.
Qed.

(** X14.  [add_connection] appends the connection to the end of the list
    and keeps the master, the symbols and the number of override records;
    no pool gets shorter; and unless the destination is an array of
    undetermined length, the override records and the pools are not
    touched at all. *)
Theorem add_connection_appends inst srclayer srccon dstcon inst' :
  add_connection inst srclayer srccon dstcon = Some inst' ->
  m_connections inst'
  = m_connections inst ++ [mkConnection srclayer srccon dstcon]
  /\ m_master inst' = m_master inst
  /\ m_instsymbols inst' = m_instsymbols inst
  /\ length (m_instoverrides inst') = length (m_instoverrides inst)
  /\ (length (m_iparams inst) <= length (m_iparams inst'))%nat
  /\ (length (m_fparams inst) <= length (m_fparams inst'))%nat
  /\ (length (m_sparams inst) <= length (m_sparams inst'))%nat
  /\ (is_unsized_array (cp_type dstcon) = false ->
      m_instoverrides inst' = m_instoverrides inst
      /\ m_iparams inst' = m_iparams inst
      /\ m_fparams inst' = m_fparams inst
      /\ m_sparams inst' = m_sparams inst).
Proof.
  unfold add_connection.
  destruct (is_unsized_array (cp_type dstcon)).
  - destruct (specialize_unsized inst srccon dstcon) as [inst1|] eqn:Hspec;
      [|discriminate].
    cbn [mbind option_bind]. intros [= <-].
    apply specialize_unsized_steps in Hspec
      as (so & so' & ip & fp & sp & Hso & -> & _ & Hpools).
    cbn [with_connections with_overrides with_params m_connections m_master
         m_instsymbols m_instoverrides m_iparams m_fparams m_sparams].
    rewrite length_insert.
    repeat (split; [reflexivity|]).
    destruct (basetype (simpletype (cp_type srccon)));
      destruct Hpools as (_ & -> & -> & ->); rewrite ?length_app;
      repeat split; try lia; discriminate.
  - cbn [mbind option_bind]. intros [= <-].
    cbn [with_connections m_connections m_master m_instsymbols
         m_instoverrides m_iparams m_fparams m_sparams].
    repeat split; lia.
Qed.

Lemma slice_fresh {A} (v : list A) (k : nat) (zero : A) (n : Z) :
  0 <= n <= Z.of_nat k ->
  slice (v ++ replicate k zero) (Z.of_nat (length v)) n
  = Some (replicate (Z.to_nat n) zero).
Proof.
  intros Hn. unfold slice. rewrite length_app, length_replicate.
  replace ((0 <=? Z.of_nat (length v)) && (0 <=? n)
           && (Z.of_nat (length v) + n <=? Z.of_nat (length v + k)))
    with true
    by (symmetry; rewrite !andb_true_iff, !Z.leb_le; lia).
  f_equal. rewrite Nat2Z.id, drop_app_length, take_replicate.
  f_equal. lia.
Qed.

(** X15.  When the destination of a connection is an array of
    undetermined length, its override takes the array length of the
    source and its storage is allocated at the end of the pool of the base
    type: before specialization [param_storage] of the destination is the
    old end of the pool, the pool has grown by the size of the source type
    in bytes, and the values of the array read from there are all zero
    (empty, for strings). *)
Theorem unsized_destination_is_specialized inst srclayer srccon dstcon inst'
    sm :
  add_connection inst srclayer srccon dstcon = Some inst' ->
  is_unsized_array (cp_type dstcon) = true ->
  m_instsymbols inst = [] ->
  at_index (m_symbols (m_master inst)) (cp_param dstcon) = Some sm ->
  basetype (simpletype (typespec sm))
  = basetype (simpletype (cp_type srccon)) ->
  basetype (simpletype (cp_type srccon)) = INT
  \/ basetype (simpletype (cp_type srccon)) = FLOAT
  \/ basetype (simpletype (cp_type srccon)) = STRING ->
  arraylength (cp_type srccon) <> 0 ->
  0 <= basevalues (simpletype (cp_type srccon)) ->
  Z.of_nat (pool_size inst (basetype (simpletype (cp_type srccon))))
  < 2 ^ 31 ->
  exists so' storage payload,
    at_index (m_instoverrides inst') (cp_param dstcon) = Some so'
    /\ so_arraylen so' = arraylength (cp_type srccon)
    /\ so_dataoffset so'
       = Z.of_nat (pool_size inst (basetype (simpletype (cp_type srccon))))
    /\ pool_size inst' (basetype (simpletype (cp_type srccon)))
       = (pool_size inst (basetype (simpletype (cp_type srccon)))
          + Z.to_nat (LLVMGen.td_size (simpletype (cp_type srccon))))%nat
    /\ param_storage inst' (cp_param dstcon) = Some storage
    /\ storage
       = storage_of (simpletype (typespec sm))
           (Z.of_nat
              (pool_size inst (basetype (simpletype (cp_type srccon)))))
    /\ read_params inst' storage (basevalues (simpletype (cp_type srccon)))
       = Some payload
    /\ (payload
        = DInt (replicate
                  (Z.to_nat (basevalues (simpletype (cp_type srccon)))) 0)
        \/ payload
           = DFloat (replicate
                       (Z.to_nat (basevalues (simpletype (cp_type srccon))))
                       0)
        \/ payload
           = DString (replicate
                        (Z.to_nat (basevalues (simpletype (cp_type srccon))))
                        EmptyString)).
Proof.
  intros Hadd Hunsized Hpre Hsm Hsame Hbase Hlen Hvalues Hfit.
  unfold add_connection in Hadd. rewrite Hunsized in Hadd.
  destruct (specialize_unsized inst srccon dstcon) as [inst1|] eqn:Hspec;
    [|discriminate].
  cbn [mbind option_bind] in Hadd. injection Hadd as <-.
  apply specialize_unsized_steps in Hspec
    as (so & so' & ip & fp & sp & Hso & -> & Harraylen & Hpools).
  apply at_index_lt in Hso as Hrange.
  assert (Hso' : at_index
                   (<[Z.to_nat (cp_param dstcon) := so']>
                      (m_instoverrides inst)) (cp_param dstcon) = Some so').
  { unfold at_index. replace (0 <=? cp_param dstcon) with true
      by (symmetry; apply Z.leb_le; lia).
    apply list_lookup_insert_eq. lia. }
  assert (Hsize : 0 <= basevalues (simpletype (cp_type srccon))
                  <= LLVMGen.td_size (simpletype (cp_type srccon))).
  { unfold LLVMGen.td_size.
    destruct Hbase as [Hb|[Hb|Hb]]; rewrite Hb; cbn [LLVMGen.basesize]; lia. }
  set (type := simpletype (cp_type srccon)) in *.
  assert (Hstorage :
    forall offset, so_dataoffset so' = offset ->
      param_storage
        (with_connections
           (with_overrides (with_params inst ip fp sp)
              (<[Z.to_nat (cp_param dstcon) := so']> (m_instoverrides inst)))
           (m_connections inst ++ [mkConnection srclayer srccon dstcon]))
        (cp_param dstcon)
      = Some (storage_of (simpletype (typespec sm)) offset)).
  { intros offset <-. apply param_storage_override.
    - exact Hpre.
    - exact Hsm.
    - exact Hso'.
    - rewrite Harraylen. exact Hlen. }
  destruct Hbase as [Hb|[Hb|Hb]]; rewrite Hb in *;
    destruct Hpools as (Hoffset & ? & ? & ?); subst;
    cbn [pool_size] in Hfit; rewrite size_as_int_small in Hoffset by exact Hfit;
    eexists so', _, _;
    (split; [exact Hso'|]); (split; [exact Harraylen|]);
    (split; [exact Hoffset|]);
    (split; [cbn [pool_size with_connections with_overrides with_params
                  m_iparams m_fparams m_sparams];
             rewrite length_app, length_replicate; reflexivity|]);
    (split; [apply (Hstorage _ Hoffset)|]);
    (split; [reflexivity|]);
    unfold storage_of; rewrite Hsame; unfold read_params, read;
    cbn [pool_size with_connections with_overrides with_params m_iparams
         m_fparams m_sparams];
    rewrite slice_fresh by lia; cbn [fmap option_fmap option_map]; auto.
Qed.

(** *** Examples *)

Import Models Examples InstanceExamples.

(** A colour of an earlier layer, connected to the colour of the
    example. *)
Lemma add_connection_appends_witness :
  m_connections Cs_connected
  = m_connections paint ++ [mkConnection 0 a_colour to_Cs]
  /\ m_master Cs_connected = m_master paint
  /\ m_instsymbols Cs_connected = m_instsymbols paint
  /\ length (m_instoverrides Cs_connected) = length (m_instoverrides paint)
  /\ (length (m_iparams paint) <= length (m_iparams Cs_connected))%nat
  /\ (length (m_fparams paint) <= length (m_fparams Cs_connected))%nat
  /\ (length (m_sparams paint) <= length (m_sparams Cs_connected))%nat
  /\ (is_unsized_array (cp_type to_Cs) = false ->
      m_instoverrides Cs_connected = m_instoverrides paint
      /\ m_iparams Cs_connected = m_iparams paint
      /\ m_fparams Cs_connected = m_fparams paint
      /\ m_sparams Cs_connected = m_sparams paint).
Proof.
  apply (add_connection_appends paint 0 a_colour to_Cs Cs_connected).
  vm_compute. reflexivity.
Defined.

(** Three floats of an earlier layer, connected to the array of the
    example: the array gets the length 3 and its storage starts at 4, the
    old end of the pool, which grows by 12. *)
Lemma unsized_destination_is_specialized_witness :
  exists so' storage payload,
    at_index (m_instoverrides knots_connected) 1 = Some so'
    /\ so_arraylen so' = 3
    /\ so_dataoffset so' = 4
    /\ pool_size knots_connected FLOAT = (4 + 12)%nat
    /\ param_storage knots_connected 1 = Some storage
    /\ storage = storage_of (simpletype (typespec knots_symbol)) 4
    /\ read_params knots_connected storage 3 = Some payload
    /\ (payload = DInt (replicate 3 0)
        \/ payload = DFloat (replicate 3 0)
        \/ payload = DString (replicate 3 EmptyString)).
Proof.
  apply (unsized_destination_is_specialized paint 0 three_floats to_knots
           knots_connected knots_symbol).
  - vm_compute. reflexivity.
  - reflexivity.
  - reflexivity.
  - reflexivity.
  - reflexivity.
  - right. left. reflexivity.
  - discriminate.
  - discriminate.
  - reflexivity.
Defined.

End WiringFacts.
(** ** instance.cpp: the merge test, and groups *)

Module MergeFacts.
Import Inst InstanceFacts.

Section mergeable.
Context `{MergeRules} (ss : ShadingSystem).

(** X16.  Two instances are merged only if they have the same master,
    neither is bound to a renderer output, both run lazily or neither
    does, their connection lists are equal and, unless the shading system
    allows it, neither reads userdata. *)
Theorem mergeable_requires (a b : ShaderInstance) :
  mergeable ss a b = Some true ->
  master_addr (m_master a) = master_addr (m_master b)
  /\ m_renderer_outputs a = false
  /\ m_renderer_outputs b = false
  /\ m_run_lazily a = m_run_lazily b
  /\ m_connections a = m_connections b
  /\ (m_opt_merge_instances_with_userdata ss = false ->
      m_userdata_params a = false /\ m_userdata_params b = false).
Proof.
  unfold mergeable.
  destruct (master_addr (m_master a) =? master_addr (m_master b)) eqn:Hm;
    [|discriminate].
  cbn [negb].
  destruct (m_renderer_outputs a || m_renderer_outputs b) eqn:Hout;
    [discriminate|].
  match goal with
  | |- mbind _ ?m = _ -> _ => destruct m as [[|]|]; try discriminate
  end.
  cbn [mbind option_bind negb].
  match goal with
  | |- mbind _ ?m = _ -> _ => destruct m as [[|]|]; try discriminate
  end.
  cbn [mbind option_bind negb].
  destruct (bool_decide_reflect (m_run_lazily a = m_run_lazily b))
    as [Hlazy|]; [|discriminate].
  cbn [negb].
  destruct (length (m_connections a) =? length (m_connections b))%nat;
    [|discriminate].
  cbn [negb].
  destruct (bool_decide_reflect (m_connections a = m_connections b))
    as [Hconn|]; [|discriminate].
  cbn [negb].
  destruct (negb (m_opt_merge_instances_with_userdata ss)
            && (m_userdata_params a || m_userdata_params b)) eqn:Hud;
    [discriminate|].
  intros _. apply orb_false_elim in Hout as [Ha Hb].
  split; [lia|]. repeat (split; [assumption|]).
  intros Hopt. rewrite Hopt in Hud. cbn [negb andb] in Hud.
  apply orb_false_elim in Hud. exact Hud.
Qed.

(** *** Symmetry, before specialization *)

Lemma bool_decide_sym {A} `{EqDecision A} (x y : A) :
  bool_decide (x = y) = bool_decide (y = x).
Proof. apply bool_decide_ext. split; congruence. Qed.

Hypothesis equivalent_override_sym :
  forall x y, equivalent_override x y = equivalent_override y x.

Lemma overrides_loop_sym (a b : ShaderInstance) (n : nat) :
  m_master a = m_master b ->
  forall i, overrides_loop a b n i = overrides_loop b a n i.
Proof.
  intros Hm. induction n as [|n IH]; intros i; [reflexivity|].
  cbn [overrides_loop]. unfold mastersymbol. rewrite Hm.
  destruct (at_index (m_instoverrides a) i) as [oa|],
    (at_index (m_instoverrides b) i) as [ob|];
    cbn [mbind option_bind]; try reflexivity.
  rewrite (andb_comm (default_or_instance (so_valuesource ob))).
  rewrite (equivalent_override_sym ob oa).
  rewrite (bool_decide_sym (so_interpolated ob)).
  rewrite (bool_decide_sym (so_interactive ob)).
  rewrite IH.
  destruct (at_index (m_symbols (m_master b)) i) as [s|];
    cbn [mbind option_bind]; reflexivity.
Qed.

Lemma params_differ_sym (a b : ShaderInstance) (i n : Z) :
  params_differ a b i n = params_differ b a i n.
Proof.
  unfold params_differ.
  destruct (param_storage a i) as [pa|], (param_storage b i) as [pb|];
    cbn [mbind option_bind]; try reflexivity.
  destruct (read_params a pa n) as [da|], (read_params b pb n) as [db|];
    cbn [mbind option_bind]; try reflexivity.
  destruct (decide (data_basetype da = data_basetype db)),
    (decide (data_basetype db = data_basetype da)); try congruence.
  rewrite (bool_decide_sym da). reflexivity.
Qed.

Lemma params_loop_sym (a b : ShaderInstance) (n : nat) :
  m_master a = m_master b ->
  forall i, params_loop a b false n i = params_loop b a false n i.
Proof.
  intros Hm. induction n as [|n IH]; intros i; [reflexivity|].
  cbn [params_loop]. unfold mastersymbol. rewrite Hm.
  destruct (at_index (m_symbols (m_master b)) i) as [s|];
    cbn [mbind option_bind]; [|reflexivity].
  rewrite IH, params_differ_sym. reflexivity.
Qed.

Lemma unoptimized (a : ShaderInstance) :
  m_instsymbols a = [] -> m_instops a = [] -> optimized a = false.
Proof. intros Hs Ho. unfold optimized. rewrite Hs, Ho. reflexivity. Qed.

(** X17.  Before specialization the merge test does not depend on the
    order of the two instances: for instances that own neither symbols
    nor code and whose parameter range is the one of their master,
    [mergeable (a, b)] and [mergeable (b, a)] are the same, when the
    comparison of override records is symmetric. *)
Theorem mergeable_symmetric (a b : ShaderInstance) :
  (master_addr (m_master a) = master_addr (m_master b) ->
   m_master a = m_master b) ->
  m_instsymbols a = [] -> m_instops a = [] ->
  m_instsymbols b = [] -> m_instops b = [] ->
  m_firstparam a = master_firstparam (m_master a) ->
  m_lastparam a = master_lastparam (m_master a) ->
  m_firstparam b = master_firstparam (m_master b) ->
  m_lastparam b = master_lastparam (m_master b) ->
  mergeable ss a b = mergeable ss b a.
Proof.
  intros Hsame Hsa Hoa Hsb Hob Hfa Hla Hfb Hlb. unfold mergeable.
  rewrite (unoptimized a Hsa Hoa), (unoptimized b Hsb Hob).
  rewrite Hfa, Hla, Hfb, Hlb.
  rewrite (Z.eqb_sym (master_addr (m_master b))).
  destruct (Z.eqb_spec (master_addr (m_master a)) (master_addr (m_master b)))
    as [Haddr|]; [|reflexivity].
  cbn [negb]. specialize (Hsame Haddr).
  rewrite (orb_comm (m_renderer_outputs b)).
  destruct (m_renderer_outputs a || m_renderer_outputs b); [reflexivity|].
  cbn [negb].
  rewrite (orb_comm (negb (bool_decide (m_instoverrides b = [])))).
  rewrite (Nat.eqb_sym (length (m_instoverrides b))).
  rewrite (overrides_loop_sym b a _ (eq_sym Hsame)).
  rewrite (params_loop_sym b a _ (eq_sym Hsame)).
  rewrite (bool_decide_sym (m_run_lazily b) (m_run_lazily a)).
  rewrite (Nat.eqb_sym (length (m_connections b))).
  rewrite (bool_decide_sym (m_connections b) (m_connections a)).
  rewrite (orb_comm (m_userdata_params b)).
  rewrite <- Hsame.
  destruct (Nat.eqb_spec (length (m_instoverrides a))
              (length (m_instoverrides b))) as [->|]; reflexivity.
Qed.

End mergeable.

(** *** Examples *)

Import Models Examples.

Lemma merge_rules_symmetric (x y : SymOverrideInfo) :
  equivalent_override x y = equivalent_override y x.
Proof.
  cbn [equivalent_override merge_rules].
  rewrite (bool_decide_sym (so_valuesource x) (so_valuesource y)).
  rewrite (Z.eqb_sym (so_arraylen x)). reflexivity.
Qed.

(** The instance whose parameters are unset and the one whose [Kd] is set
    to the default value can be merged. *)
Lemma mergeable_requires_witness :
  master_addr (m_master unset) = master_addr (m_master Kd_set)
  /\ m_renderer_outputs unset = false
  /\ m_renderer_outputs Kd_set = false
  /\ m_run_lazily unset = m_run_lazily Kd_set
  /\ m_connections unset = m_connections Kd_set
  /\ (m_opt_merge_instances_with_userdata shadingsys = false ->
      m_userdata_params unset = false /\ m_userdata_params Kd_set = false).
Proof.
  apply (mergeable_requires shadingsys unset Kd_set).
  vm_compute. reflexivity.
Defined.

Lemma mergeable_symmetric_witness :
  mergeable shadingsys unset Kd_interactive
  = mergeable shadingsys Kd_interactive unset.
Proof.
  apply (mergeable_symmetric shadingsys merge_rules_symmetric unset
           Kd_interactive); reflexivity.
Defined.

End MergeFacts.

Module GroupFacts.
Import Group InstanceFacts.

(** *** find_layer *)

Lemma find_layer_loop_last (g : ShaderGroup) (name : string) (n : nat) :
  forall i r,
  find_layer_loop g name n i = Some r ->
  i < Z.of_nat n -> -1 <= i ->
  (r = -1
   /\ forall j l, 0 <= j <= i -> layer g j = Some l ->
                  m_layername (layer_instance l) <> name)
  \/ (0 <= r <= i
      /\ (exists l, layer g r = Some l
                    /\ m_layername (layer_instance l) = name)
      /\ forall j l, r < j <= i -> layer g j = Some l ->
                     m_layername (layer_instance l) <> name).
Proof.
  induction n as [|n IH]; intros i r Hrun Hfuel Hi.
  { injection Hrun as <-. left. split; [lia|]. intros j l Hj. exfalso.
    lia. }
  cbn [find_layer_loop] in Hrun.
  destruct (Z.leb_spec 0 i) as [Hpos|Hneg].
  - destruct (layer g i) as [l|] eqn:Hl; [|discriminate].
    cbn [mbind option_bind] in Hrun.
    destruct (bool_decide_reflect (m_layername (layer_instance l) = name))
      as [Hname|Hname]; cbn [negb] in Hrun.
    + injection Hrun as <-. right. split; [lia|]. split; [eauto|].
      intros j l' Hj. exfalso. lia.
    + destruct (IH (i - 1) r Hrun ltac:(lia) ltac:(lia))
        as [[-> Hnone]|(Hr & Hfound & Hlater)].
      * left. split; [reflexivity|]. intros j l' Hj Hl'.
        destruct (Z.eq_dec j i) as [->|]; [congruence|].
        apply (Hnone j l'); [lia | exact Hl'].
      * right. split; [lia|]. split; [exact Hfound|].
        intros j l' Hj Hl'.
        destruct (Z.eq_dec j i) as [->|]; [congruence|].
        apply (Hlater j l'); [lia | exact Hl'].
  - injection Hrun as <-. left. split; [lia|]. intros j l' Hj. exfalso. lia.
Qed.

(** X18.  [find_layer] returns the index of the last layer of the group
    that has the name, and -1 when no layer has it. *)
Theorem find_layer_is_last (g : ShaderGroup) (name : string) (r : Z) :
  find_layer g name = Some r ->
  Z.of_nat (length (m_layers g)) < 2 ^ 31 ->
  (r = -1
   /\ forall j l, layer g j = Some l ->
                  m_layername (layer_instance l) <> name)
  \/ (0 <= r < Z.of_nat (length (m_layers g))
      /\ (exists l, layer g r = Some l
                    /\ m_layername (layer_instance l) = name)
      /\ forall j l, r < j -> layer g j = Some l ->
                     m_layername (layer_instance l) <> name).
Proof.
  unfold find_layer, nlayers. intros Hrun Hfit.
  rewrite size_as_int_small in Hrun by exact Hfit.
  apply find_layer_loop_last in Hrun
    as [[-> Hnone]|(Hr & Hfound & Hlater)]; [| |lia..].
  - left. split; [reflexivity|]. intros j l Hl.
    apply at_index_lt in Hl as Hj. apply (Hnone j l); [lia | exact Hl].
  - right. split; [lia|]. split; [exact Hfound|]. intros j l Hj Hl.
    apply at_index_lt in Hl as Hj'. apply (Hlater j l); [lia | exact Hl].
Qed.

(** *** Entry layers *)

Lemma count_insert {A} (P : A -> Prop) `{forall x, Decision (P x)}
    (l : list A) (i : nat) (x y : A) :
  l !! i = Some x -> ~ P x -> P y ->
  length (filter P (<[i := y]> l)) = S (length (filter P l)).
Proof.
  intros Hx Hnot Hyes.
  pose proof (lookup_lt_Some _ _ _ Hx) as Hi.
  rewrite insert_take_drop by exact Hi.
  rewrite <- (take_drop_middle l i x Hx) at 3.
  rewrite !filter_app, !length_app.
  rewrite filter_cons_True by exact Hyes.
  rewrite filter_cons_False by exact Hnot.
  cbn [length]. lia.
Qed.

(** The counter does not overflow when a layer that is not marked is
    counted. *)
Lemma unmarked_layer_fits (g : ShaderGroup) (i : Z) (l : Layer) :
  Z.of_nat (length (m_layers g)) < 2 ^ 31 ->
  m_num_entry_layers g = Z.of_nat (entry_layers g) ->
  at_index (m_layers g) i = Some l ->
  m_entry_layer l = false ->
  int_of (m_num_entry_layers g + 1) = Some (m_num_entry_layers g + 1).
Proof.
  intros Hfit Hcount Hl Hflag. apply DocumentsFacts.int_of_small.
  assert (Hlt : (entry_layers g < length (m_layers g))%nat).
  { unfold entry_layers. apply (length_filter_lt _ _ l).
    - unfold at_index in Hl. destruct (0 <=? i); [|discriminate].
      eapply list_elem_of_lookup_2. exact Hl.
    - congruence. }
  unfold is_int. lia.
Qed.

Lemma mark_entry_layer_counts (g g' : ShaderGroup) (i : Z) :
  Z.of_nat (length (m_layers g)) < 2 ^ 31 ->
  m_num_entry_layers g = Z.of_nat (entry_layers g) ->
  mark_entry_layer g i = Some g' ->
  m_num_entry_layers g' = Z.of_nat (entry_layers g')
  /\ map layer_instance (m_layers g') = map layer_instance (m_layers g)
  /\ forall j l', at_index (m_layers g') j = Some l' ->
       (m_entry_layer l' = true
        <-> j = i
            \/ exists l, at_index (m_layers g) j = Some l
                         /\ m_entry_layer l = true).
Proof.
  intros Hfit Hcount. unfold mark_entry_layer, nlayers, layer.
  rewrite size_as_int_small by exact Hfit.
  assert (Hold : forall j l', at_index (m_layers g) j = Some l' ->
            j <> i \/ m_entry_layer l' = true ->
            (m_entry_layer l' = true
             <-> j = i
                 \/ exists l, at_index (m_layers g) j = Some l
                              /\ m_entry_layer l = true)).
  { intros j l' Hl' Hcase. split.
    - intros Hflag. right. eauto.
    - intros [->|(l & Hl & Hflag)]; [|congruence].
      destruct Hcase; [contradiction | assumption]. }
  destruct ((0 <=? i) && (i <? Z.of_nat (length (m_layers g)))) eqn:Hin.
  - apply andb_true_iff in Hin as [Hlow Hhigh].
    destruct (at_index (m_layers g) i) as [l|] eqn:Hl; [|discriminate].
    cbn [mbind option_bind].
    destruct (m_entry_layer l) eqn:Hflag; cbn [negb].
    + intros [= <-]. split; [exact Hcount|]. split; [reflexivity|].
      intros j l' Hl'. apply (Hold j l' Hl').
      destruct (Z.eq_dec j i) as [->|]; [right; congruence | left; assumption].
    + rewrite (set_index_Some _ _ _ _ Hl). cbn [mbind option_bind].
      rewrite (unmarked_layer_fits g i l Hfit Hcount Hl Hflag).
      cbn [mbind option_bind].
      intros [= <-]. cbn [m_num_entry_layers m_layers].
      assert (Hlookup : m_layers g !! Z.to_nat i = Some l).
      { unfold at_index in Hl. rewrite Hlow in Hl. exact Hl. }
      split; [|split].
      * unfold entry_layers. cbn [m_layers].
        rewrite (count_insert _ _ _ l) by
          (try exact Hlookup; cbn [entry_layer m_entry_layer]; congruence).
        rewrite Hcount. unfold entry_layers. lia.
      * rewrite list_fmap_insert. cbn [entry_layer layer_instance].
        apply list_eq. intros k.
        destruct (Nat.eq_dec k (Z.to_nat i)) as [->|Hk].
        -- rewrite list_lookup_insert_eq
             by (rewrite length_fmap; eapply lookup_lt_Some; exact Hlookup).
           rewrite list_lookup_fmap, Hlookup. reflexivity.
        -- rewrite list_lookup_insert_ne by congruence. reflexivity.
      * intros j l' Hl'. unfold at_index in Hl'.
        destruct (Z.leb_spec 0 j) as [Hj|]; [|discriminate].
        destruct (Z.eq_dec j i) as [->|Hne].
        -- rewrite list_lookup_insert_eq in Hl'
             by (eapply lookup_lt_Some; exact Hlookup).
           injection Hl' as <-. cbn [entry_layer m_entry_layer].
           split; auto.
        -- rewrite list_lookup_insert_ne in Hl' by lia.
           apply Hold; [|left; exact Hne].
           unfold at_index. replace (0 <=? j) with true
             by (symmetry; apply Z.leb_le; exact Hj).
           exact Hl'.
  - intros [= <-]. split; [exact Hcount|]. split; [reflexivity|].
    intros j l' Hl'. apply (Hold j l' Hl').
    left. intros ->. apply at_index_lt in Hl'.
    apply andb_false_iff in Hin as [Hin|Hin]; lia.
Qed.

Lemma mark_entry_layer_succeeds (g : ShaderGroup) (i : Z) :
  Z.of_nat (length (m_layers g)) < 2 ^ 31 ->
  m_num_entry_layers g = Z.of_nat (entry_layers g) ->
  exists g', mark_entry_layer g i = Some g'.
Proof.
  intros Hfit Hcount. unfold mark_entry_layer, nlayers, layer.
  rewrite size_as_int_small by exact Hfit.
  destruct ((0 <=? i) && (i <? Z.of_nat (length (m_layers g)))) eqn:Hin;
    [|eauto].
  apply andb_true_iff in Hin as [Hlow Hhigh].
  destruct (at_index_Some (m_layers g) i ltac:(lia)) as [l Hl].
  rewrite Hl. cbn [mbind option_bind].
  destruct (m_entry_layer l) eqn:Hflag; cbn [negb]; [eauto|].
  rewrite (set_index_Some _ _ _ _ Hl). cbn [mbind option_bind].
  rewrite (unmarked_layer_fits g i l Hfit Hcount Hl Hflag).
  cbn [mbind option_bind]. eauto.
Qed.

Lemma clear_entry_layers_counts (g : ShaderGroup) :
  Z.of_nat (length (m_layers g)) < 2 ^ 31 ->
  m_num_entry_layers (clear_entry_layers g)
  = Z.of_nat (entry_layers (clear_entry_layers g))
  /\ map layer_instance (m_layers (clear_entry_layers g))
     = map layer_instance (m_layers g)
  /\ forall j l, at_index (m_layers (clear_entry_layers g)) j = Some l ->
                 m_entry_layer l = false.
Proof.
  intros Hfit. unfold clear_entry_layers, nlayers.
  rewrite size_as_int_small by exact Hfit. rewrite Nat2Z.id.
  rewrite firstn_all, drop_all, app_nil_r.
  cbn [m_num_entry_layers m_layers]. unfold entry_layers. cbn [m_layers].
  assert (Hflags : forall l,
            l ∈ map (fun l => entry_layer l false) (m_layers g) ->
            m_entry_layer l = false).
  { intros l Hl. apply list_elem_of_fmap in Hl as (l0 & -> & _).
    reflexivity. }
  split; [|split].
  - clear Hfit Hflags.
    induction (m_layers g) as [|l ls IH]; [reflexivity|].
    cbn [map]. rewrite filter_cons_False by (cbn; congruence).
    exact IH.
  - rewrite map_map. reflexivity.
  - intros j l Hl. apply Hflags. unfold at_index in Hl.
    destruct (0 <=? j); [|discriminate].
    eapply list_elem_of_lookup_2. exact Hl.
Qed.

Lemma mark_entry_layers_counts (marks : list Z) :
  forall g : ShaderGroup,
  Z.of_nat (length (m_layers g)) < 2 ^ 31 ->
  m_num_entry_layers g = Z.of_nat (entry_layers g) ->
  exists g',
    mark_entry_layers g marks = Some g'
    /\ m_num_entry_layers g' = Z.of_nat (entry_layers g')
    /\ map layer_instance (m_layers g') = map layer_instance (m_layers g)
    /\ forall j l', at_index (m_layers g') j = Some l' ->
         (m_entry_layer l' = true
          <-> j ∈ marks
              \/ exists l, at_index (m_layers g) j = Some l
                           /\ m_entry_layer l = true).
Proof.
  induction marks as [|i marks IH]; intros g Hfit Hcount.
  - exists g. split; [reflexivity|]. split; [exact Hcount|].
    split; [reflexivity|]. intros j l' Hl'. split.
    + intros Hflag. right. eauto.
    + intros [Hin|(l & Hl & Hflag)]; [|congruence].
      apply elem_of_nil in Hin. contradiction.
  - cbn [mark_entry_layers].
    destruct (mark_entry_layer_succeeds g i Hfit Hcount) as [g1 Hg1].
    rewrite Hg1. cbn [mbind option_bind].
    destruct (mark_entry_layer_counts g g1 i Hfit Hcount Hg1)
      as (Hcount1 & Hinst1 & Hflags1).
    assert (Hfit1 : Z.of_nat (length (m_layers g1)) < 2 ^ 31).
    { apply (f_equal length) in Hinst1. rewrite !length_map in Hinst1.
      lia. }
    destruct (IH g1 Hfit1 Hcount1) as (g' & Hrun & Hcount' & Hinst' & Hflags').
    exists g'. split; [exact Hrun|]. split; [exact Hcount'|].
    split; [congruence|]. intros j l' Hl'.
    rewrite (Hflags' j l' Hl'). split.
    + intros [Hin|(l1 & Hl1 & Hflag1)].
      * left. apply list_elem_of_further. exact Hin.
      * apply (Hflags1 j l1 Hl1) in Hflag1 as [->|Hold].
        -- left. apply list_elem_of_here.
        -- right. exact Hold.
    + intros [Hin|(l & Hl & Hflag)].
      * apply elem_of_cons in Hin as [->|Hin]; [|left; exact Hin].
        right. apply at_index_lt in Hl' as Hj.
        apply (f_equal length) in Hinst'. rewrite !length_map in Hinst'.
        destruct (at_index_Some (m_layers g1) i ltac:(lia)) as [l1 Hl1].
        exists l1. split; [exact Hl1|]. apply (Hflags1 i l1 Hl1). left.
        reflexivity.
      * right. apply at_index_lt in Hl as Hj.
        apply (f_equal length) in Hinst1. rewrite !length_map in Hinst1.
        destruct (at_index_Some (m_layers g1) j ltac:(lia)) as [l1 Hl1].
        exists l1. split; [exact Hl1|]. apply (Hflags1 j l1 Hl1). right.
        eauto.
Qed.

(** X19.  After [clear_entry_layers] and any sequence of calls of
    [mark_entry_layer], [m_num_entry_layers] is the number of layers that
    are marked; the layers that are marked are those whose indices were
    given, an index that is given twice counts once and an index that is
    not one of a layer changes nothing; the instances are as they
    were. *)
Theorem entry_layers_are_counted (g : ShaderGroup) (marks : list Z) :
  Z.of_nat (length (m_layers g)) < 2 ^ 31 ->
  exists g',
    mark_entry_layers (clear_entry_layers g) marks = Some g'
    /\ m_num_entry_layers g' = Z.of_nat (entry_layers g')
    /\ map layer_instance (m_layers g') = map layer_instance (m_layers g)
    /\ forall j l, at_index (m_layers g') j = Some l ->
                   (m_entry_layer l = true <-> j ∈ marks).
Proof.
  intros Hfit.
  destruct (clear_entry_layers_counts g Hfit) as (Hcount & Hinst & Hflags).
  assert (Hfit0 : Z.of_nat (length (m_layers (clear_entry_layers g)))
                  < 2 ^ 31).
  { apply (f_equal length) in Hinst. rewrite !length_map in Hinst. lia. }
  destruct (mark_entry_layers_counts marks _ Hfit0 Hcount)
    as (g' & Hrun & Hcount' & Hinst' & Hflags').
  exists g'. split; [exact Hrun|]. split; [exact Hcount'|].
  split; [congruence|]. intros j l Hl. rewrite (Hflags' j l Hl). split.
  - intros [Hin|(l0 & Hl0 & Hflag)]; [exact Hin|].
    rewrite (Hflags j l0 Hl0) in Hflag. discriminate.
  - auto.
Qed.

(** *** Examples *)

Import Models Examples InstanceExamples.

(** Of the two layers of the name, the later one. *)
Lemma find_layer_is_last_witness :
  (2 = -1
   /\ forall j l, layer three_layers j = Some l ->
                  m_layername (layer_instance l) <> "base")
  \/ (0 <= 2 < Z.of_nat (length (m_layers three_layers))
      /\ (exists l, layer three_layers 2 = Some l
                    /\ m_layername (layer_instance l) = "base")
      /\ forall j l, 2 < j -> layer three_layers j = Some l ->
                     m_layername (layer_instance l) <> "base").
Proof.
  apply (find_layer_is_last three_layers "base" 2).
  - vm_compute. reflexivity.
  - reflexivity.
Defined.

(** The last layer marked twice, and an index that is not one of a
    layer. *)
Lemma entry_layers_are_counted_witness :
  exists g',
    mark_entry_layers (clear_entry_layers three_layers) [2; 2; 7] = Some g'
    /\ m_num_entry_layers g' = Z.of_nat (entry_layers g')
    /\ map layer_instance (m_layers g')
       = map layer_instance (m_layers three_layers)
    /\ forall j l, at_index (m_layers g') j = Some l ->
                   (m_entry_layer l = true <-> j ∈ [2; 2; 7]).
Proof.
  apply (entry_layers_are_counted three_layers [2; 2; 7]). reflexivity.
Defined.

End GroupFacts.
(** ** llvm_gen.cpp: derivatives of sums, mix, select, Dx and Dy, and the
    colour constructor *)

Module LoweringFacts.
Import LLVMGen Runtime Lowering LLVMGenFacts.

(** After a call that receives a pointer to the symbol, the emitted
    sequence does not determine what the channels of the symbol hold. *)
Lemma content_after_call tr name args s d c :
  existsb (points_to s) args = true ->
  content (tr ++ [Call name args]) s d c = None.
Proof.
  intros Hptr. unfold content. rewrite omap_app.
  cbn [omap list_omap written_to]. rewrite Hptr, last_snoc. reflexivity.
Qed.

Section generators.
Context `{TypeRules} `{Printer} (rop : BackendLLVM).

(** *** add and sub *)

Lemma derivs_loop_stores op_ (Result A B : SymRef) type d n :
  forall i st u st',
    derivs_loop rop op_ Result A B type d n i st = Some (u, st') ->
    exists delta,
      emitted st' = emitted st ++ delta
      /\ (forall j d', ~ (i <= j < i + Z.of_nat n /\ d' = d) ->
            stores_to delta (index Result) d' j = [])
      /\ (forall j, i <= j < i + Z.of_nat n ->
            exists a b,
              load rop A d j type = Some a /\ load rop B d j type = Some b
              /\ stores_to delta (index Result) d j = [op_ a b]).
Proof.
  induction n as [|n IH]; intros i st u st' Hrun; simpl in Hrun.
  - gen_inv. exists []. rewrite app_nil_r.
    split; [reflexivity|]. split; [reflexivity|]. intros j Hj. lia.
  - gen_inv. apply IH in Hrun as (delta & Hdelta & Hout & Hin).
    match goal with
    | Ha : loadLLVMValue _ A _ _ _ = Some ?a,
      Hb : loadLLVMValue _ B _ _ _ = Some ?b |- _ =>
        exists (Store_value (op_ a b) (index Result) d None i :: delta);
        split; [|split]
    end.
    + rewrite Hdelta. simpl. rewrite <- app_assoc. reflexivity.
    + intros j d' Hj. rewrite stores_to_cons_store.
      rewrite Hout by lia.
      rewrite bool_decide_eq_false_2 by (intros (_ & ? & ?); lia).
      reflexivity.
    + intros j Hj. destruct (Z.eq_dec j i) as [->|Hne].
      * eexists _, _. split; [eassumption|]. split; [eassumption|].
        rewrite stores_to_cons_store, Hout by lia.
        rewrite bool_decide_eq_true_2 by auto. reflexivity.
      * destruct (Hin j ltac:(lia)) as (a' & b' & Ha' & Hb' & Hj').
        exists a', b'. repeat (split; [assumption|]).
        rewrite stores_to_cons_store, Hj'.
        rewrite bool_decide_eq_false_2 by (intros (_ & _ & ?); lia).
        reflexivity.
Qed.

(** X20.  The derivative of a sum is the sum of the derivatives: when
    [llvm_gen_add] (not on closures) or [llvm_gen_sub] lowers an
    operation whose result has derivatives and so has one of the
    operands, the only value stored to the dx channel of a component of
    the result is the sum (the difference, for [sub]) of the dx channels
    of that component of the operands, and likewise for dy. *)
Theorem addsub_derivative_rule (gen : Z -> Gen bool)
    (op_ : Value -> Value -> Value) (opnum : Z) (op : Opcode)
    (Result A B : SymRef) (st st' : GenState) :
  gen = llvm_gen_add rop /\ op_ = Op_add
        /\ is_closure (typespec Result) = false
  \/ gen = llvm_gen_sub rop /\ op_ = Op_sub ->
  at_index (m_instops (inst rop)) opnum = Some op ->
  opargsym rop op 0 = Some Result ->
  opargsym rop op 1 = Some A ->
  opargsym rop op 2 = Some B ->
  has_derivs Result = true ->
  has_derivs A || has_derivs B = true ->
  gen opnum st = Some (true, st') ->
  forall i d, 0 <= i < aggregate (simpletype (typespec Result)) ->
    d = 1 \/ d = 2 ->
    let type := simpletype (typespec Result) in
    exists a b,
      load rop A d i type = Some a /\ load rop B d i type = Some b
      /\ stores_to (emitted st') (index Result) d i
         = stores_to (emitted st) (index Result) d i ++ [op_ a b].
Proof.
  intros Hgen Hop HR HA HB HdR HdAB Hrun i d Hi Hd type.
  assert (Hloops : exists st1 ok u st2 v,
            values_loop rop op_ Result A B type (num_components Result) 0 st
            = Some (ok, st1)
            /\ derivs_loop rop op_ Result A B type 1
                 (num_components Result) 0 st1 = Some (u, st2)
            /\ derivs_loop rop op_ Result A B type 2
                 (num_components Result) 0 st2 = Some (v, st')).
  { destruct Hgen as [(-> & -> & Hclosure) | (-> & ->)].
    - unfold llvm_gen_add in Hrun.
      take_operand Hrun Hop. take_operand Hrun HR.
      take_operand Hrun HA. take_operand Hrun HB.
      cbv beta zeta in Hrun. rewrite Hclosure in Hrun.
      apply gbind_inv in Hrun as ([] & st1 & Hloop & Hrun);
        [|gen_inv; discriminate].
      unfold addsub_derivs in Hrun. rewrite HdR, HdAB in Hrun.
      gen_inv. eauto 10.
    - unfold llvm_gen_sub in Hrun.
      take_operand Hrun Hop. take_operand Hrun HR.
      take_operand Hrun HA. take_operand Hrun HB.
      cbv beta zeta in Hrun.
      apply gbind_inv in Hrun as ([] & st1 & Hloop & Hrun);
        [|gen_inv; discriminate].
      unfold addsub_derivs in Hrun. rewrite HdR, HdAB in Hrun.
      gen_inv. eauto 10. }
  destruct Hloops as (st1 & ok & u & st2 & v & Hvalues & Hdx & Hdy).
  apply values_loop_value_only in Hvalues as (delta0 & Hdelta0 & Hvalue).
  apply derivs_loop_stores in Hdx as (delta1 & Hdelta1 & Hout1 & Hin1).
  apply derivs_loop_stores in Hdy as (delta2 & Hdelta2 & Hout2 & Hin2).
  assert (Hrange : 0 <= i < 0 + Z.of_nat (num_components Result))
    by (unfold num_components; lia).
  rewrite Hdelta2, Hdelta1, Hdelta0, !stores_to_app.
  rewrite (stores_to_value_only delta0) by (assumption || lia).
  destruct Hd as [-> | ->].
  - destruct (Hin1 i Hrange) as (a & b & Ha & Hb & Hstores).
    exists a, b. repeat (split; [assumption|]).
    rewrite Hstores, Hout2 by lia. rewrite !app_nil_r. reflexivity.
  - destruct (Hin2 i Hrange) as (a & b & Ha & Hb & Hstores).
    exists a, b. repeat (split; [assumption|]).
    rewrite Hstores, Hout1 by lia. rewrite !app_nil_r. reflexivity.
Qed.

(** *** Dx and Dy *)

Lemma DxDy_loop_stores (Result Src : SymRef) deriv n :
  forall i st u st',
    DxDy_loop rop Result Src deriv n i st = Some (u, st') ->
    exists delta,
      emitted st' = emitted st ++ delta
      /\ Forall value_only delta
      /\ Forall store_only delta
      /\ (forall j, ~ (i <= j < i + Z.of_nat n) ->
            stores_to delta (index Result) 0 j = [])
      /\ (forall j, i <= j < i + Z.of_nat n ->
            exists v,
              load rop Src deriv j TypeUnknown = Some v
              /\ stores_to delta (index Result) 0 j = [v]).
Proof.
  induction n as [|n IH]; intros i st u st' Hrun; simpl in Hrun.
  - gen_inv. exists []. rewrite app_nil_r.
    split; [reflexivity|]. split; [constructor|]. split; [constructor|].
    split; [reflexivity|]. intros j Hj. lia.
  - gen_inv.
    apply IH in Hrun as (delta & Hdelta & Hvalue & Hstore & Hout & Hin).
    match goal with
    | Hv : load _ Src _ _ _ = Some ?v |- _ =>
        exists (Store_value v (index Result) 0 None i :: delta)
    end.
    split; [rewrite Hdelta; simpl; rewrite <- app_assoc; reflexivity|].
    split; [constructor; [solve_value_only | assumption]|].
    split; [constructor; [eauto 6 | assumption]|].
    split.
    + intros j Hj. rewrite stores_to_cons_store, Hout by lia.
      rewrite bool_decide_eq_false_2 by (intros (_ & _ & ?); lia).
      reflexivity.
    + intros j Hj. destruct (Z.eq_dec j i) as [->|Hne].
      * eexists. split; [eassumption|].
        rewrite stores_to_cons_store, Hout by lia.
        rewrite bool_decide_eq_true_2 by auto. reflexivity.
      * destruct (Hin j ltac:(lia)) as (v' & Hv' & Hj').
        exists v'. split; [assumption|].
        rewrite stores_to_cons_store, Hj'.
        rewrite bool_decide_eq_false_2 by (intros (_ & _ & ?); lia).
        reflexivity.
Qed.

(** X21.  [Dx] stores, to the value of every component of its result,
    the dx channel of that component of its operand, and [Dy] (and any
    other opcode that is lowered by [llvm_gen_DxDy]) the dy channel; the
    derivatives of the result are then zero-filled, so that the result
    holds the derivative as its value and zero as its own derivatives. *)
Theorem DxDy_takes_the_channel (opnum : Z) (op : Opcode)
    (Result Src : SymRef) (st st' : GenState) (ok : bool) :
  at_index (m_instops (inst rop)) opnum = Some op ->
  opargsym rop op 0 = Some Result ->
  opargsym rop op 1 = Some Src ->
  llvm_gen_DxDy rop opnum st = Some (ok, st') ->
  let deriv := if decide (opname op = "Dx") then 1 else 2 in
  ok = true
  /\ (forall i, 0 <= i < aggregate (simpletype (typespec Result)) ->
        exists v,
          load rop Src deriv i TypeUnknown = Some v
          /\ content (emitted st') (index Result) 0 i = Some v)
  /\ (forall d c, d = 1 \/ d = 2 ->
        content (emitted st') (index Result) d c = Some (Constant_float 0)).
Proof.
  intros Hop HR HS Hrun deriv. unfold llvm_gen_DxDy in Hrun.
  take_operand Hrun Hop. take_operand Hrun HR. take_operand Hrun HS.
  cbv beta zeta in Hrun. fold deriv in Hrun.
  apply gbind_inv in Hrun as (u & st1 & Hloop & Hrun).
  apply DxDy_loop_stores in Hloop
    as (delta & Hdelta & Hvalue & Hstore & Hout & Hin).
  gen_inv. cbn [emitted]. rewrite Hdelta.
  split; [reflexivity|]. split.
  - intros i Hi. destruct (Hin i) as (v & Hv & Hstores).
    { unfold num_components. lia. }
    exists v. split; [exact Hv|].
    rewrite content_zero_fill_value. apply content_after_stores; assumption.
  - intros d c Hd. apply content_after_zero_fill. exact Hd.
Qed.

(** *** mix *)

Lemma mix_component_reload xc i :
  (0 <? i) && (1 <? xc) = true -> mix_component xc i = i.
Proof.
  intros Hre. apply andb_true_iff in Hre as [_ Hxc].
  unfold mix_component. rewrite Hxc. reflexivity.
Qed.

Lemma mix_component_keep xc i :
  0 <= i -> (0 <? i) && (1 <? xc) = false -> mix_component xc i = 0.
Proof.
  intros Hi Hre. unfold mix_component.
  destruct (1 <? xc); [|reflexivity].
  rewrite andb_true_r in Hre. apply Z.ltb_ge in Hre. lia.
Qed.

Lemma mix_loop_stores (Result A B X : SymRef) type xc derivs n :
  forall i c st st',
    0 <= i ->
    carried rop X type xc derivs i c ->
    mix_loop rop Result A B X type xc derivs n i c st = Some (true, st') ->
    exists delta,
      emitted st' = emitted st ++ delta
      /\ (derivs = false -> Forall value_only delta)
      /\ (forall j d, ~ (i <= j < i + Z.of_nat n) ->
            stores_to delta (index Result) d j = [])
      /\ (forall j, i <= j < i + Z.of_nat n ->
            exists a b x,
              load rop A 0 j type = Some a /\ load rop B 0 j type = Some b
              /\ load rop X 0 (mix_component xc j) type = Some x
              /\ stores_to delta (index Result) 0 j
                 = [Op_add (Op_mul a (Op_sub constant_1_0f x)) (Op_mul b x)]
              /\ (derivs = true ->
                  exists ax bx xx ay by_ xy,
                    load rop A 1 j type = Some ax
                    /\ load rop B 1 j type = Some bx
                    /\ load rop X 1 (mix_component xc j) type = Some xx
                    /\ load rop A 2 j type = Some ay
                    /\ load rop B 2 j type = Some by_
                    /\ load rop X 2 (mix_component xc j) type = Some xy
                    /\ stores_to delta (index Result) 1 j
                       = [Op_add
                            (Op_add
                               (Op_sub
                                  (Op_mul ax (Op_sub constant_1_0f x))
                                  (Op_mul a xx))
                               (Op_mul b xx))
                            (Op_mul bx x)]
                    /\ stores_to delta (index Result) 2 j
                       = [Op_add
                            (Op_add
                               (Op_sub
                                  (Op_mul ay (Op_sub constant_1_0f x))
                                  (Op_mul a xy))
                               (Op_mul b xy))
                            (Op_mul by_ x)])).
Proof.
  induction n as [|n IH]; intros i c st st' Hi Hcarried Hrun;
    cbn [mix_loop] in Hrun.
  - gen_inv. exists []. rewrite app_nil_r.
    split; [reflexivity|]. split; [constructor|].
    split; [reflexivity|]. intros j Hj. lia.
  - destruct (load rop A 0 i type) as [a|] eqn:Ha;
      [destruct (load rop B 0 i type) as [b|] eqn:Hb|];
      try (gen_inv; discriminate).
    unfold carried in Hcarried.
    destruct ((0 <? i) && (1 <? xc)) eqn:Hre.
    + (* [X] is loaded again *)
      pose proof (mix_component_reload _ _ Hre) as Hsel.
      destruct derivs.
      * gen_inv.
        apply IH in Hrun as (delta & Hdelta & _ & Hout & Hin);
          [|lia|].
        2:{ intros Hkeep. exfalso.
            apply andb_true_iff in Hre as [_ Hxc]. rewrite Hxc in Hkeep.
            rewrite andb_true_r in Hkeep. apply Z.ltb_ge in Hkeep. lia. }
        cbn [emitted] in Hdelta. rewrite <- !app_assoc in Hdelta.
        eexists (_ :: _ :: _ :: delta).
        split; [exact Hdelta|]. split; [discriminate|]. split.
        { intros j d Hj. rewrite !stores_to_cons_store, Hout by lia.
          stores_simpl. reflexivity. }
        intros j Hj. destruct (Z.eq_dec j i) as [->|Hne].
        -- rewrite Hsel. eexists _, _, _.
           split; [eassumption|]. split; [eassumption|].
           split; [eassumption|]. split.
           { rewrite !stores_to_cons_store, Hout by lia.
             stores_simpl. reflexivity. }
           intros _. eexists _, _, _, _, _, _.
           repeat (split; [eassumption|]).
           rewrite !stores_to_cons_store, !Hout by lia.
           stores_simpl. split; reflexivity.
        -- destruct (Hin j ltac:(lia))
             as (a' & b' & x' & Ha' & Hb' & Hx' & Hs0 & Hd).
           exists a', b', x'. repeat (split; [assumption|]). split.
           { rewrite !stores_to_cons_store, Hs0. stores_simpl. reflexivity. }
           intros Hderivs.
           destruct (Hd Hderivs)
             as (ax & bx & xx & ay & by_ & xy & ? & ? & ? & ? & ? & ?
                 & Hs1 & Hs2).
           exists ax, bx, xx, ay, by_, xy. repeat (split; [assumption|]).
           rewrite !stores_to_cons_store, Hs1, Hs2. stores_simpl.
           split; reflexivity.
      * gen_inv.
        apply IH in Hrun as (delta & Hdelta & Hvalue & Hout & Hin);
          [|lia|].
        2:{ intros Hkeep. exfalso.
            apply andb_true_iff in Hre as [_ Hxc]. rewrite Hxc in Hkeep.
            rewrite andb_true_r in Hkeep. apply Z.ltb_ge in Hkeep. lia. }
        cbn [emitted] in Hdelta. rewrite <- !app_assoc in Hdelta.
        eexists (_ :: delta).
        split; [exact Hdelta|]. split.
        { intros _. constructor; [solve_value_only | auto]. }
        split.
        { intros j d Hj. rewrite !stores_to_cons_store, Hout by lia.
          stores_simpl. reflexivity. }
        intros j Hj. destruct (Z.eq_dec j i) as [->|Hne].
        -- rewrite Hsel. eexists _, _, _.
           split; [eassumption|]. split; [eassumption|].
           split; [eassumption|]. split; [|discriminate].
           rewrite !stores_to_cons_store, Hout by lia.
           stores_simpl. reflexivity.
        -- destruct (Hin j ltac:(lia))
             as (a' & b' & x' & Ha' & Hb' & Hx' & Hs0 & Hd).
           exists a', b', x'. repeat (split; [assumption|]).
           split; [|discriminate].
           rewrite !stores_to_cons_store, Hs0. stores_simpl. reflexivity.
    + (* [X] is as it was carried *)
      pose proof (mix_component_keep _ _ Hi Hre) as Hsel.
      destruct (Hcarried eq_refl) as (Hx & Homx & Hxd).
      destruct derivs.
      * destruct (Hxd eq_refl) as [Hxx Hxy].
        gen_inv.
        apply IH in Hrun as (delta & Hdelta & _ & Hout & Hin);
          [|lia|].
        2:{ intros Hkeep. cbn [mix_x mix_one_minus_x mix_xx mix_xy].
            auto. }
        cbn [emitted] in Hdelta. rewrite <- !app_assoc in Hdelta.
        eexists (_ :: _ :: _ :: delta).
        split; [exact Hdelta|]. split; [discriminate|]. split.
        { intros j d Hj. rewrite !stores_to_cons_store, Hout by lia.
          stores_simpl. reflexivity. }
        intros j Hj. destruct (Z.eq_dec j i) as [->|Hne].
        -- rewrite Hsel. eexists _, _, _.
           split; [eassumption|]. split; [eassumption|].
           split; [exact Hx|]. split.
           { rewrite !stores_to_cons_store, Hout by lia.
             stores_simpl. rewrite Homx. reflexivity. }
           intros _. eexists _, _, _, _, _, _.
           split; [eassumption|]. split; [eassumption|].
           split; [rewrite <- Hxx; eassumption|].
           split; [eassumption|]. split; [eassumption|].
           split; [rewrite <- Hxy; eassumption|].
           rewrite !stores_to_cons_store, !Hout by lia.
           stores_simpl. rewrite Homx. split; reflexivity.
        -- destruct (Hin j ltac:(lia))
             as (a' & b' & x' & Ha' & Hb' & Hx' & Hs0 & Hd).
           exists a', b', x'. repeat (split; [assumption|]). split.
           { rewrite !stores_to_cons_store, Hs0. stores_simpl. reflexivity. }
           intros Hderivs.
           destruct (Hd Hderivs)
             as (ax & bx & xx & ay & by_ & xy & ? & ? & ? & ? & ? & ?
                 & Hs1 & Hs2).
           exists ax, bx, xx, ay, by_, xy. repeat (split; [assumption|]).
           rewrite !stores_to_cons_store, Hs1, Hs2. stores_simpl.
           split; reflexivity.
      * gen_inv.
        apply IH in Hrun as (delta & Hdelta & Hvalue & Hout & Hin);
          [|lia|].
        2:{ intros Hkeep. cbn [mix_x mix_one_minus_x mix_xx mix_xy].
            split; [exact Hx|]. split; [exact Homx|]. discriminate. }
        cbn [emitted] in Hdelta. rewrite <- !app_assoc in Hdelta.
        eexists (_ :: delta).
        split; [exact Hdelta|]. split.
        { intros _. constructor; [solve_value_only | auto]. }
        split.
        { intros j d Hj. rewrite !stores_to_cons_store, Hout by lia.
          stores_simpl. reflexivity. }
        intros j Hj. destruct (Z.eq_dec j i) as [->|Hne].
        -- rewrite Hsel. eexists _, _, _.
           split; [eassumption|]. split; [eassumption|].
           split; [exact Hx|]. split; [|discriminate].
           rewrite !stores_to_cons_store, Hout by lia.
           stores_simpl. rewrite Homx. reflexivity.
        -- destruct (Hin j ltac:(lia))
             as (a' & b' & x' & Ha' & Hb' & Hx' & Hs0 & Hd).
           exists a', b', x'. repeat (split; [assumption|]).
           split; [|discriminate].
           rewrite !stores_to_cons_store, Hs0. stores_simpl. reflexivity.
Qed.

(** X22.  [llvm_gen_mix] stores [a*(1-x) + b*x] to the value of every
    component of the result, where [x] is that component of [X] when [X]
    has more than one component and its only component otherwise.  When
    the result has derivatives and so has one of the three operands, it
    stores [ax*(1-x) - a*xx + b*xx + bx*x] to the dx channel, and
    likewise to dy; when the result has derivatives and no operand has,
    its derivative channels hold zero. *)
Theorem mix_lowering (opnum : Z) (op : Opcode) (Result A B X : SymRef)
    (st st' : GenState) :
  at_index (m_instops (inst rop)) opnum = Some op ->
  opargsym rop op 0 = Some Result ->
  opargsym rop op 1 = Some A ->
  opargsym rop op 2 = Some B ->
  opargsym rop op 3 = Some X ->
  llvm_gen_mix rop opnum st = Some (true, st') ->
  let type := simpletype (typespec Result) in
  let xc := aggregate (simpletype (typespec X)) in
  let derivs := has_derivs Result
                && (has_derivs A || has_derivs B || has_derivs X) in
  (forall i, 0 <= i < aggregate type ->
     exists a b x,
       load rop A 0 i type = Some a /\ load rop B 0 i type = Some b
       /\ load rop X 0 (mix_component xc i) type = Some x
       /\ stores_to (emitted st') (index Result) 0 i
          = stores_to (emitted st) (index Result) 0 i
            ++ [Op_add (Op_mul a (Op_sub constant_1_0f x)) (Op_mul b x)]
       /\ (derivs = true ->
           exists ax bx xx ay by_ xy,
             load rop A 1 i type = Some ax
             /\ load rop B 1 i type = Some bx
             /\ load rop X 1 (mix_component xc i) type = Some xx
             /\ load rop A 2 i type = Some ay
             /\ load rop B 2 i type = Some by_
             /\ load rop X 2 (mix_component xc i) type = Some xy
             /\ stores_to (emitted st') (index Result) 1 i
                = stores_to (emitted st) (index Result) 1 i
                  ++ [Op_add
                        (Op_add
                           (Op_sub (Op_mul ax (Op_sub constant_1_0f x))
                              (Op_mul a xx))
                           (Op_mul b xx))
                        (Op_mul bx x)]
             /\ stores_to (emitted st') (index Result) 2 i
                = stores_to (emitted st) (index Result) 2 i
                  ++ [Op_add
                        (Op_add
                           (Op_sub (Op_mul ay (Op_sub constant_1_0f x))
                              (Op_mul a xy))
                           (Op_mul b xy))
                        (Op_mul by_ x)]))
  /\ (has_derivs Result = true -> derivs = false ->
      forall d c, d = 1 \/ d = 2 ->
        content (emitted st') (index Result) d c = Some (Constant_float 0)).
Proof.
  intros Hop HR HA HB HX Hrun type xc derivs. unfold llvm_gen_mix in Hrun.
  take_operand Hrun Hop. take_operand Hrun HR. take_operand Hrun HA.
  take_operand Hrun HB. take_operand Hrun HX.
  cbv beta zeta in Hrun. fold type xc derivs in Hrun.
  apply gbind_inv in Hrun as (x0 & st0 & Hx0 & Hrun).
  apply deref_inv in Hx0 as [Hx0 ->].
  apply gbind_inv in Hrun as ([] & st1 & Hloop & Hrun);
    [|gen_inv; discriminate].
  apply mix_loop_stores in Hloop as (delta & Hdelta & Hvalue & Hout & Hin);
    [|lia|].
  2:{ intros _. cbn [mix_x mix_one_minus_x mix_xx mix_xy].
      split; [exact Hx0|]. split; [reflexivity|].
      intros ->. split; reflexivity. }
  assert (Hemit : exists tail_,
            emitted st' = emitted st ++ delta ++ tail_
            /\ (forall d c, stores_to tail_ (index Result) d c = [])
            /\ (has_derivs Result = true -> derivs = false ->
                tail_ = [Zero_derivs (index Result)])).
  { destruct (has_derivs Result && negb derivs) eqn:Hzero; gen_inv.
    - exists [Zero_derivs (index Result)]. cbn [emitted].
      rewrite Hdelta, <- app_assoc. auto.
    - exists []. rewrite app_nil_r.
      split; [exact Hdelta|]. split; [reflexivity|].
      intros HdR Hd. rewrite HdR, Hd in Hzero. discriminate. }
  destruct Hemit as (tail_ & Hemit & Htail & Hfill). split.
  - intros i Hi. destruct (Hin i) as (a & b & x & Ha & Hb & Hx & Hs0 & Hd).
    { unfold num_components. unfold type in Hi. lia. }
    exists a, b, x. repeat (split; [assumption|]). split.
    { rewrite Hemit, !stores_to_app, Hs0, Htail, app_nil_r. reflexivity. }
    intros Hderivs.
    destruct (Hd Hderivs)
      as (ax & bx & xx & ay & by_ & xy & ? & ? & ? & ? & ? & ? & Hs1 & Hs2).
    exists ax, bx, xx, ay, by_, xy. repeat (split; [assumption|]).
    rewrite Hemit, !stores_to_app, Hs1, Hs2, !Htail, !app_nil_r.
    split; reflexivity.
  - intros HdR Hd d c Hdc. rewrite Hemit, (Hfill HdR Hd), app_assoc.
    apply content_after_zero_fill. exact Hdc.
Qed.

(** *** select *)

Lemma at_index_set_ne {A} (v v' : list A) (i j : Z) (x : A) :
  set_index v i x = Some v' -> j <> i -> at_index v' j = at_index v j.
Proof.
  unfold set_index. destruct (at_index v i) as [y|] eqn:Hy; [|discriminate].
  intros [= <-] Hne. apply InstanceFacts.at_index_lt in Hy.
  unfold at_index. destruct (Z.leb_spec 0 j); [|reflexivity].
  apply list_lookup_insert_ne. lia.
Qed.

Lemma cond_loop_sets (X : SymRef) zero n :
  forall i cond st cond' st',
    cond_loop rop X zero n i cond st = Some (cond', st') ->
    st' = st
    /\ length cond' = length cond
    /\ (0 < Z.of_nat n -> 0 <= i /\ i + Z.of_nat n <= Z.of_nat (length cond))
    /\ (forall j, ~ (i <= j < i + Z.of_nat n) ->
          at_index cond' j = at_index cond j)
    /\ (forall j, i <= j < i + Z.of_nat n ->
          exists x,
            load rop X 0 j TypeUnknown = Some x
            /\ at_index cond' j = Some (Some (Op_ne x zero))).
Proof.
  induction n as [|n IH]; intros i cond st cond' st' Hrun;
    cbn [cond_loop] in Hrun.
  - gen_inv. split; [reflexivity|]. split; [reflexivity|].
    split; [lia|]. split; [reflexivity|]. intros j Hj. lia.
  - gen_inv.
    match goal with
    | Hset : set_index cond i _ = Some ?c1 |- _ =>
        rename Hset into Hset1;
        apply IH in Hrun as (-> & Hlen & Hfit & Hout & Hin)
    end.
    pose proof (ParameterFacts.length_set_index _ _ _ _ Hset1) as Hlen1.
    assert (Hi : 0 <= i < Z.of_nat (length cond)).
    { unfold set_index in Hset1.
      destruct (at_index cond i) eqn:Hat; [|discriminate].
      apply InstanceFacts.at_index_lt in Hat. exact Hat. }
    split; [reflexivity|]. split; [congruence|]. split.
    { intros _. destruct n; [lia|]. rewrite Hlen1 in Hfit. lia. }
    split.
    + intros j Hj. rewrite Hout by lia.
      apply (at_index_set_ne _ _ _ _ _ Hset1). lia.
    + intros j Hj. destruct (Z.eq_dec j i) as [->|Hne].
      * eexists. split; [eassumption|]. rewrite Hout by lia.
        apply (InstanceFacts.at_index_set _ _ _ _ Hset1).
      * apply Hin. lia.
Qed.

Lemma select_derivs_stores (Result A B : SymRef) type c i n :
  forall d st u st',
    select_derivs rop Result A B type c i n d st = Some (u, st') ->
    exists delta,
      emitted st' = emitted st ++ delta
      /\ (forall j d', ~ (j = i /\ d <= d' < d + Z.of_nat n) ->
            stores_to delta (index Result) d' j = [])
      /\ (forall d', d <= d' < d + Z.of_nat n ->
            exists a b,
              load rop A d' i type = Some a /\ load rop B d' i type = Some b
              /\ stores_to delta (index Result) d' i = [Op_select c b a]).
Proof.
  induction n as [|n IH]; intros d st u st' Hrun;
    cbn [select_derivs] in Hrun.
  - gen_inv. exists []. rewrite app_nil_r.
    split; [reflexivity|]. split; [reflexivity|]. intros j Hj. lia.
  - gen_inv. apply IH in Hrun as (delta & Hdelta & Hout & Hin).
    cbn [emitted] in Hdelta. rewrite <- !app_assoc in Hdelta.
    eexists (_ :: delta). split; [exact Hdelta|]. split.
    + intros j d' Hj. rewrite stores_to_cons_store, Hout by lia.
      rewrite bool_decide_eq_false_2 by (intros (_ & ? & ?); lia).
      reflexivity.
    + intros d' Hd'. destruct (Z.eq_dec d' d) as [->|Hne].
      * eexists _, _. split; [eassumption|]. split; [eassumption|].
        rewrite stores_to_cons_store, Hout by lia.
        rewrite bool_decide_eq_true_2 by auto. reflexivity.
      * destruct (Hin d' ltac:(lia)) as (a' & b' & Ha' & Hb' & Hs').
        exists a', b'. repeat (split; [assumption|]).
        rewrite stores_to_cons_store, Hs'.
        rewrite bool_decide_eq_false_2 by (intros (_ & ? & _); lia).
        reflexivity.
Qed.

Lemma select_loop_stores (Result A B : SymRef) type xc derivs cond n :
  forall i st u st',
    select_loop rop Result A B type xc derivs cond n i st = Some (u, st') ->
    exists delta,
      emitted st' = emitted st ++ delta
      /\ (derivs = false -> Forall value_only delta)
      /\ (forall j d, ~ (i <= j < i + Z.of_nat n) ->
            stores_to delta (index Result) d j = [])
      /\ (forall j, i <= j < i + Z.of_nat n ->
            exists a b c,
              load rop A 0 j type = Some a /\ load rop B 0 j type = Some b
              /\ mjoin (at_index cond (select_component xc j)) = Some c
              /\ stores_to delta (index Result) 0 j = [Op_select c b a]
              /\ (derivs = true ->
                  forall d, d = 1 \/ d = 2 ->
                    exists ad bd,
                      load rop A d j type = Some ad
                      /\ load rop B d j type = Some bd
                      /\ stores_to delta (index Result) d j
                         = [Op_select c bd ad])).
Proof.
  induction n as [|n IH]; intros i st u st' Hrun;
    cbn [select_loop] in Hrun.
  - gen_inv. exists []. rewrite app_nil_r.
    split; [reflexivity|]. split; [constructor|].
    split; [reflexivity|]. intros j Hj. lia.
  - apply gbind_inv in Hrun as (a & st1 & Ha & Hrun).
    apply deref_inv in Ha as [Ha ->].
    apply gbind_inv in Hrun as (b & st1 & Hb & Hrun).
    apply deref_inv in Hb as [Hb ->].
    apply gbind_inv in Hrun as (c & st1 & Hc & Hrun).
    apply deref_inv in Hc as [Hc ->].
    apply gbind_inv in Hrun as (u1 & st1 & Hstore & Hrun).
    apply emit_inv in Hstore. subst st1.
    apply gbind_inv in Hrun as (u2 & st2 & Hderivs & Hrun).
    apply IH in Hrun as (delta & Hdelta & Hvalue & Hout & Hin).
    assert (Hextra : exists extra,
              emitted st2
              = emitted st
                ++ Store_value (Op_select c b a) (index Result) 0 None i
                   :: extra
              /\ (derivs = false -> extra = [])
              /\ (forall j d, ~ (j = i /\ 1 <= d < 3) ->
                    stores_to extra (index Result) d j = [])
              /\ (derivs = true ->
                  forall d, 1 <= d < 3 ->
                    exists ad bd,
                      load rop A d i type = Some ad
                      /\ load rop B d i type = Some bd
                      /\ stores_to extra (index Result) d i
                         = [Op_select c bd ad])).
    { destruct derivs.
      - apply select_derivs_stores in Hderivs
          as (extra & Hextra & Hout' & Hin').
        cbn [emitted] in Hextra. rewrite <- app_assoc in Hextra.
        exists extra. split; [exact Hextra|]. split; [discriminate|].
        split; [exact Hout'|]. intros _. exact Hin'.
      - gen_inv. exists []. cbn [emitted].
        split; [reflexivity|]. split; [reflexivity|].
        split; [reflexivity|]. discriminate. }
    destruct Hextra as (extra & Hextra & Hnone & Hout' & Hin').
    exists (Store_value (Op_select c b a) (index Result) 0 None i
              :: extra ++ delta).
    split.
    { rewrite Hdelta, Hextra, <- app_assoc. reflexivity. }
    split.
    { intros Hd. rewrite (Hnone Hd). constructor; [solve_value_only | auto]. }
    split.
    { intros j d Hj.
      rewrite stores_to_cons_store, stores_to_app, Hout, Hout' by lia.
      rewrite bool_decide_eq_false_2 by (intros (_ & _ & ?); lia).
      reflexivity. }
    intros j Hj. destruct (Z.eq_dec j i) as [->|Hne].
    + exists a, b, c. repeat (split; [assumption|]). split.
      { rewrite stores_to_cons_store, stores_to_app, Hout, Hout' by lia.
        rewrite bool_decide_eq_true_2 by auto. reflexivity. }
      intros Hd d Hdc.
      destruct (Hin' Hd d ltac:(lia)) as (ad & bd & Had & Hbd & Hsd).
      exists ad, bd. repeat (split; [assumption|]).
      rewrite stores_to_cons_store, stores_to_app, Hsd, Hout by lia.
      rewrite bool_decide_eq_false_2 by (intros (_ & ? & _); lia).
      reflexivity.
    + destruct (Hin j ltac:(lia))
        as (a' & b' & c' & Ha' & Hb' & Hc' & Hs0 & Hd).
      exists a', b', c'. repeat (split; [assumption|]). split.
      { rewrite stores_to_cons_store, stores_to_app, Hs0, Hout' by lia.
        rewrite bool_decide_eq_false_2 by (intros (_ & _ & ?); lia).
        reflexivity. }
      intros Hon d Hdc.
      destruct (Hd Hon d Hdc) as (ad & bd & Had & Hbd & Hsd).
      exists ad, bd. repeat (split; [assumption|]).
      rewrite stores_to_cons_store, stores_to_app, Hsd, Hout' by lia.
      rewrite bool_decide_eq_false_2 by (intros (_ & _ & ?); lia).
      reflexivity.
Qed.

(** X23.  [llvm_gen_select] stores, to every component of the result,
    [b] where the condition is not zero and [a] where it is; the
    condition of a component is that component of [X] when [X] has it and
    the first component of [X] otherwise.  The derivatives of the result
    are chosen by the same condition, and are zero when neither [A] nor
    [B] has derivatives.  The generator completes only for an [X] of at
    most three components, and of at least one when the result has a
    component. *)
Theorem select_lowering (opnum : Z) (op : Opcode) (Result A B X : SymRef)
    (st st' : GenState) (ok : bool) :
  at_index (m_instops (inst rop)) opnum = Some op ->
  opargsym rop op 0 = Some Result ->
  opargsym rop op 1 = Some A ->
  opargsym rop op 2 = Some B ->
  opargsym rop op 3 = Some X ->
  llvm_gen_select rop opnum st = Some (ok, st') ->
  let type := simpletype (typespec Result) in
  let xc := aggregate (simpletype (typespec X)) in
  let derivs := has_derivs Result && (has_derivs A || has_derivs B) in
  let zero := if typespec_is_int (typespec X) then Constant_int 0
              else constant_0_0f in
  ok = true
  /\ xc <= 3
  /\ (0 < aggregate type -> 0 < xc)
  /\ (forall i, 0 <= i < aggregate type ->
        exists a b x,
          load rop A 0 i type = Some a /\ load rop B 0 i type = Some b
          /\ load rop X 0 (select_component xc i) TypeUnknown = Some x
          /\ stores_to (emitted st') (index Result) 0 i
             = stores_to (emitted st) (index Result) 0 i
               ++ [Op_select (Op_ne x zero) b a]
          /\ (derivs = true ->
              forall d, d = 1 \/ d = 2 ->
                exists ad bd,
                  load rop A d i type = Some ad
                  /\ load rop B d i type = Some bd
                  /\ stores_to (emitted st') (index Result) d i
                     = stores_to (emitted st) (index Result) d i
                       ++ [Op_select (Op_ne x zero) bd ad]))
  /\ (has_derivs Result = true -> derivs = false ->
      forall d c, d = 1 \/ d = 2 ->
        content (emitted st') (index Result) d c = Some (Constant_float 0)).
Proof.
  intros Hop HR HA HB HX Hrun type xc derivs zero.
  unfold llvm_gen_select in Hrun.
  take_operand Hrun Hop. take_operand Hrun HR. take_operand Hrun HA.
  take_operand Hrun HB. take_operand Hrun HX.
  cbv beta zeta in Hrun. fold type xc derivs zero in Hrun.
  apply gbind_inv in Hrun as (cond & st0 & Hcond & Hrun).
  apply cond_loop_sets in Hcond as (-> & Hlen & Hfit & Hkeep & Hset).
  apply gbind_inv in Hrun as (u & st1 & Hloop & Hrun).
  apply select_loop_stores in Hloop
    as (delta & Hdelta & Hvalue & Hout & Hin).
  assert (Hemit : exists tail_,
            emitted st' = emitted st ++ delta ++ tail_
            /\ ok = true
            /\ (forall d c, stores_to tail_ (index Result) d c = [])
            /\ (has_derivs Result = true -> derivs = false ->
                tail_ = [Zero_derivs (index Result)])).
  { destruct (has_derivs Result && negb derivs) eqn:Hzero; gen_inv.
    - exists [Zero_derivs (index Result)]. cbn [emitted].
      rewrite Hdelta, <- app_assoc. auto.
    - exists []. rewrite app_nil_r.
      split; [exact Hdelta|]. split; [reflexivity|].
      split; [reflexivity|].
      intros HdR Hd. rewrite HdR, Hd in Hzero. discriminate. }
  destruct Hemit as (tail_ & Hemit & -> & Htail & Hfill).
  cbn [length] in Hfit.
  assert (Hcomponent : forall k c,
            mjoin (at_index cond k) = Some c ->
            0 <= k < xc
            /\ exists x, load rop X 0 k TypeUnknown = Some x
                         /\ c = Op_ne x zero).
  { intros k c Hc.
    destruct (Z.lt_ge_cases k 0) as [Hneg|Hpos];
      [unfold at_index in Hc;
       replace (0 <=? k) with false in Hc by (symmetry; lia);
       discriminate|].
    destruct (Z.lt_ge_cases k xc) as [Hk|Hk].
    - split; [lia|]. destruct (Hset k) as (x & Hx & Hat); [lia|].
      rewrite Hat in Hc. cbn in Hc. exists x. split; congruence.
    - exfalso. rewrite Hkeep in Hc by lia.
      unfold at_index in Hc.
      replace (0 <=? k) with true in Hc by (symmetry; lia).
      destruct (Z.to_nat k) as [|[|[|?]]]; discriminate. }
  split; [reflexivity|]. split; [lia|]. split.
  { intros Hsome.
    destruct (Hin 0) as (a & b & c & _ & _ & Hc & _).
    { unfold num_components. unfold type in Hsome. lia. }
    apply Hcomponent in Hc as [Hk _]. lia. }
  split.
  - intros i Hi. destruct (Hin i) as (a & b & c & Ha & Hb & Hc & Hs0 & Hd).
    { unfold num_components. unfold type in Hi. lia. }
    apply Hcomponent in Hc as (_ & x & Hx & ->).
    exists a, b, x. repeat (split; [assumption|]). split.
    { rewrite Hemit, !stores_to_app, Hs0, Htail, app_nil_r. reflexivity. }
    intros Hderivs d Hdc.
    destruct (Hd Hderivs d Hdc) as (ad & bd & Had & Hbd & Hsd).
    exists ad, bd. repeat (split; [assumption|]).
    rewrite Hemit, !stores_to_app, Hsd, Htail, app_nil_r. reflexivity.
  - intros HdR Hd d c Hdc. rewrite Hemit, (Hfill HdR Hd), app_assoc.
    apply content_after_zero_fill. exact Hdc.
Qed.

(** *** The colour constructor *)

Lemma components_loop_stores (op : Opcode) (Result : SymRef) using_space d
    n :
  forall c st u st',
    components_loop rop op Result using_space d n c st = Some (u, st') ->
    exists delta,
      emitted st' = emitted st ++ delta
      /\ Forall store_only delta
      /\ (forall j d', ~ (c <= j < c + Z.of_nat n /\ d' = d) ->
            stores_to delta (index Result) d' j = [])
      /\ (forall j, c <= j < c + Z.of_nat n ->
            exists comp val,
              opargsym rop op (j + 1 + Z_of_bool using_space) = Some comp
              /\ load rop comp d 0 TypeFloat = Some val
              /\ stores_to delta (index Result) d j = [val]).
Proof.
  induction n as [|n IH]; intros c st u st' Hrun;
    cbn [components_loop] in Hrun.
  - gen_inv. exists []. rewrite app_nil_r.
    split; [reflexivity|]. split; [constructor|].
    split; [reflexivity|]. intros j Hj. lia.
  - gen_inv. apply IH in Hrun as (delta & Hdelta & Hstore & Hout & Hin).
    cbn [emitted] in Hdelta. rewrite <- !app_assoc in Hdelta.
    eexists (_ :: delta). split; [exact Hdelta|].
    split; [constructor; [eauto 6 | assumption]|]. split.
    + intros j d' Hj. rewrite stores_to_cons_store, Hout by lia.
      rewrite bool_decide_eq_false_2 by (intros (_ & ? & ?); lia).
      reflexivity.
    + intros j Hj. destruct (Z.eq_dec j c) as [->|Hne].
      * eexists _, _. split; [eassumption|]. split; [eassumption|].
        rewrite stores_to_cons_store, Hout by lia.
        rewrite bool_decide_eq_true_2 by auto. reflexivity.
      * destruct (Hin j ltac:(lia)) as (comp & val & Hcomp & Hval & Hs).
        exists comp, val. repeat (split; [assumption|]).
        rewrite stores_to_cons_store, Hs.
        rewrite bool_decide_eq_false_2 by (intros (_ & _ & ?); lia).
        reflexivity.
Qed.

Lemma channels_loop_stores (op : Opcode) (Result : SymRef) using_space n :
  forall d st u st',
    channels_loop rop op Result using_space n d st = Some (u, st') ->
    exists delta,
      emitted st' = emitted st ++ delta
      /\ Forall store_only delta
      /\ (forall j d', ~ (0 <= j < 3 /\ d <= d' < d + Z.of_nat n) ->
            stores_to delta (index Result) d' j = [])
      /\ (forall j d', 0 <= j < 3 -> d <= d' < d + Z.of_nat n ->
            exists comp val,
              opargsym rop op (j + 1 + Z_of_bool using_space) = Some comp
              /\ load rop comp d' 0 TypeFloat = Some val
              /\ stores_to delta (index Result) d' j = [val]).
Proof.
  induction n as [|n IH]; intros d st u st' Hrun;
    cbn [channels_loop] in Hrun.
  - gen_inv. exists []. rewrite app_nil_r.
    split; [reflexivity|]. split; [constructor|].
    split; [reflexivity|]. intros j d' Hj Hd'. lia.
  - apply gbind_inv in Hrun as (u1 & st1 & Hcomponents & Hrun).
    apply components_loop_stores in Hcomponents
      as (delta1 & Hdelta1 & Hstore1 & Hout1 & Hin1).
    apply IH in Hrun as (delta & Hdelta & Hstore & Hout & Hin).
    exists (delta1 ++ delta).
    split; [rewrite Hdelta, Hdelta1, <- app_assoc; reflexivity|].
    split; [apply Forall_app; auto|]. split.
    + intros j d' Hj. rewrite stores_to_app, Hout1, Hout by lia.
      reflexivity.
    + intros j d' Hj Hd'. destruct (Z.eq_dec d' d) as [->|Hne].
      * destruct (Hin1 j ltac:(lia)) as (comp & val & Hcomp & Hval & Hs).
        exists comp, val. repeat (split; [assumption|]).
        rewrite stores_to_app, Hs, Hout by lia. reflexivity.
      * destruct (Hin j d' Hj ltac:(lia))
          as (comp & val & Hcomp & Hval & Hs).
        exists comp, val. repeat (split; [assumption|]).
        rewrite stores_to_app, Hs, Hout1 by lia. reflexivity.
Qed.

(** X24.  The colour constructor stores the three floats, and their
    derivatives when the result has derivatives, to the three components
    of the result, and returns true.  Without the name of a colour space
    it emits nothing else: it calls nothing, and the channels of the
    result hold what was stored.  With the name of a colour space (five
    arguments) the stores are followed by one call of
    [osl_prepend_color_from] on the result and the name, which converts
    the result in place, so that the emitted sequence no longer
    determines what the value channels hold; the call is followed by the
    zero-fill of the derivatives when the result has derivatives, which
    are then zero whatever those of the floats are, and by nothing
    otherwise. *)
Theorem construct_color_lowering (opnum : Z) (op : Opcode)
    (Result : SymRef) (st st' : GenState) (ok : bool) :
  at_index (m_instops (inst rop)) opnum = Some op ->
  opargsym rop op 0 = Some Result ->
  llvm_gen_construct_color rop opnum st = Some (ok, st') ->
  let using_space := nargs op =? 5 in
  let first := 1 + Z_of_bool using_space in
  ok = true
  /\ (forall c d, 0 <= c < 3 ->
        d = 0 \/ has_derivs Result = true /\ (d = 1 \/ d = 2) ->
        exists comp val,
          opargsym rop op (c + first) = Some comp
          /\ load rop comp d 0 TypeFloat = Some val
          /\ stores_to (emitted st') (index Result) d c
             = stores_to (emitted st) (index Result) d c ++ [val]
          /\ (using_space = false ->
              content (emitted st') (index Result) d c = Some val))
  /\ (using_space = false ->
      exists stores,
        emitted st' = emitted st ++ stores
        /\ Forall store_only stores
        /\ calls_of (emitted st') "osl_prepend_color_from"
           = calls_of (emitted st) "osl_prepend_color_from")
  /\ (using_space = true ->
      exists Space from stores,
        opargsym rop op 1 = Some Space
        /\ load rop Space 0 0 TypeUnknown = Some from
        /\ emitted st'
           = emitted st ++ stores
             ++ Call "osl_prepend_color_from"
                  [Sg_void_ptr; Void_ptr (index Result); from]
                :: (if has_derivs Result
                    then [Zero_derivs (index Result)] else [])
        /\ Forall store_only stores
        /\ calls_of (emitted st') "osl_prepend_color_from"
           = calls_of (emitted st) "osl_prepend_color_from"
             ++ [[Sg_void_ptr; Void_ptr (index Result); from]]
        /\ (forall c, content (emitted st') (index Result) 0 c = None)
        /\ (has_derivs Result = true ->
            forall c d, d = 1 \/ d = 2 ->
              content (emitted st') (index Result) d c
              = Some (Constant_float 0))).
Proof.
  intros Hop HR Hrun using_space first.
  unfold llvm_gen_construct_color in Hrun.
  take_operand Hrun Hop. take_operand Hrun HR.
  cbv beta zeta in Hrun. fold using_space in Hrun.
  apply gbind_inv in Hrun as (Space & st0 & HSpace & Hrun).
  apply deref_inv in HSpace as [HSpace ->].
  apply gbind_inv in Hrun as (X & st0 & HX & Hrun).
  apply deref_inv in HX as [HX ->].
  apply gbind_inv in Hrun as (Y & st0 & HY & Hrun).
  apply deref_inv in HY as [HY ->].
  apply gbind_inv in Hrun as (Z_ & st0 & HZ & Hrun).
  apply deref_inv in HZ as [HZ ->].
  apply gbind_inv in Hrun as (u & st1 & Hloop & Hrun).
  apply channels_loop_stores in Hloop
    as (delta & Hdelta & Hstore & Hout & Hin).
  assert (Hchannel : forall c d,
            0 <= c < 3 ->
            d = 0 \/ has_derivs Result = true /\ (d = 1 \/ d = 2) ->
            exists comp val,
              opargsym rop op (c + first) = Some comp
              /\ load rop comp d 0 TypeFloat = Some val
              /\ stores_to delta (index Result) d c = [val]).
  { intros c d Hc Hd. destruct (Hin c d Hc) as (comp & val & ? & ? & Hs).
    { destruct (has_derivs Result); cbn [Z.of_nat]; [lia|].
      destruct Hd as [->|[? _]]; [lia | discriminate]. }
    exists comp, val. unfold first. rewrite Z.add_assoc.
    repeat (split; [assumption|]). exact Hs. }
  destruct using_space eqn:Hspace.
  - unfold call_function in Hrun.
    assert (Hemit : exists from,
              load rop Space 0 0 TypeUnknown = Some from
              /\ ok = true
              /\ emitted st'
                 = emitted st ++ delta
                   ++ Call "osl_prepend_color_from"
                        [Sg_void_ptr; Void_ptr (index Result); from]
                      :: (if has_derivs Result
                          then [Zero_derivs (index Result)] else [])).
    { destruct (has_derivs Result); gen_inv; cbn [emitted];
        rewrite Hdelta, <- !app_assoc; eexists;
        (split; [eassumption|]); split; reflexivity. }
    destruct Hemit as (from & Hfrom & -> & Hemit).
    split; [reflexivity|]. split.
    { intros c d Hc Hd.
      destruct (Hchannel c d Hc Hd) as (comp & val & ? & ? & Hs).
      exists comp, val. repeat (split; [assumption|]).
      split; [|discriminate].
      rewrite Hemit, !stores_to_app, Hs.
      destruct (has_derivs Result); reflexivity. }
    split; [discriminate|]. intros _.
    exists Space, from, delta. repeat (split; [assumption|]). split.
    { rewrite Hemit, !calls_of_app, (calls_of_store_only delta) by assumption.
      destruct (has_derivs Result); reflexivity. }
    split.
    { intros c. rewrite Hemit.
      assert (Hcall : forall tr,
                content
                  (tr ++ [Call "osl_prepend_color_from"
                            [Sg_void_ptr; Void_ptr (index Result); from]])
                  (index Result) 0 c = None).
      { intros tr. apply content_after_call.
        cbn [existsb points_to].
        rewrite bool_decide_eq_true_2 by reflexivity. reflexivity. }
      destruct (has_derivs Result).
      - change (?a ++ ?b ++ ?x :: [?z]) with (a ++ b ++ [x] ++ [z]).
        rewrite !app_assoc, content_zero_fill_value. apply Hcall.
      - rewrite app_assoc. apply Hcall. }
    intros HdR c d Hd. rewrite Hemit, HdR.
    change (?a ++ ?b ++ ?x :: [?z]) with (a ++ b ++ [x] ++ [z]).
    rewrite !app_assoc. apply content_after_zero_fill. exact Hd.
  - gen_inv. split; [reflexivity|]. rewrite Hdelta. split.
    { intros c d Hc Hd.
      destruct (Hchannel c d Hc Hd) as (comp & val & ? & ? & Hs).
      exists comp, val. repeat (split; [assumption|]).
      split; [rewrite stores_to_app, Hs; reflexivity|].
      intros _. apply content_after_stores; assumption. }
    split; [|discriminate]. intros _. exists delta.
    split; [reflexivity|]. split; [assumption|].
    rewrite calls_of_app, (calls_of_store_only delta) by assumption.
    apply app_nil_r.
Qed.

End generators.

(** *** Examples *)

Import Models Examples LoweringExamples.

(** The dy channel of the second component of [add R A B]. *)
Lemma addsub_derivative_rule_witness :
  let st' := after (llvm_gen_add backend 0) in
  let type := simpletype (typespec R) in
  exists a b,
    load backend A 2 1 type = Some a /\ load backend B 2 1 type = Some b
    /\ stores_to (emitted st') (index R) 2 1
       = stores_to (emitted start) (index R) 2 1 ++ [Op_add a b].
Proof.
  apply (addsub_derivative_rule backend (llvm_gen_add backend) Op_add 0
           (opcode 0) R A B start (after (llvm_gen_add backend 0))).
  - left. repeat split.
  - reflexivity.
  - reflexivity.
  - reflexivity.
  - reflexivity.
  - reflexivity.
  - reflexivity.
  - vm_compute. reflexivity.
  - simpl. lia.
  - right. reflexivity.
Defined.

(** [Dx R A]. *)
Lemma DxDy_takes_the_channel_witness :
  let st' := after (llvm_gen_DxDy backend 1) in
  true = true
  /\ (forall i, 0 <= i < aggregate (simpletype (typespec R)) ->
        exists v,
          load backend A 1 i TypeUnknown = Some v
          /\ content (emitted st') (index R) 0 i = Some v)
  /\ (forall d c, d = 1 \/ d = 2 ->
        content (emitted st') (index R) d c = Some (Constant_float 0)).
Proof.
  apply (DxDy_takes_the_channel backend 1 (opcode 1) R A start
           (after (llvm_gen_DxDy backend 1)) true).
  - reflexivity.
  - reflexivity.
  - reflexivity.
  - vm_compute. reflexivity.
Defined.

(** [mix R A A A]: the weight is a colour, and has derivatives. *)
Lemma mix_lowering_witness :
  let st' := after (llvm_gen_mix backend 2) in
  let type := simpletype (typespec R) in
  let xc := aggregate (simpletype (typespec A)) in
  let derivs :=
    has_derivs R && (has_derivs A || has_derivs A || has_derivs A) in
  (forall i, 0 <= i < aggregate type ->
     exists a b x,
       load backend A 0 i type = Some a /\ load backend A 0 i type = Some b
       /\ load backend A 0 (mix_component xc i) type = Some x
       /\ stores_to (emitted st') (index R) 0 i
          = stores_to (emitted start) (index R) 0 i
            ++ [Op_add (Op_mul a (Op_sub constant_1_0f x)) (Op_mul b x)]
       /\ (derivs = true ->
           exists ax bx xx ay by_ xy,
             load backend A 1 i type = Some ax
             /\ load backend A 1 i type = Some bx
             /\ load backend A 1 (mix_component xc i) type = Some xx
             /\ load backend A 2 i type = Some ay
             /\ load backend A 2 i type = Some by_
             /\ load backend A 2 (mix_component xc i) type = Some xy
             /\ stores_to (emitted st') (index R) 1 i
                = stores_to (emitted start) (index R) 1 i
                  ++ [Op_add
                        (Op_add
                           (Op_sub (Op_mul ax (Op_sub constant_1_0f x))
                              (Op_mul a xx))
                           (Op_mul b xx))
                        (Op_mul bx x)]
             /\ stores_to (emitted st') (index R) 2 i
                = stores_to (emitted start) (index R) 2 i
                  ++ [Op_add
                        (Op_add
                           (Op_sub (Op_mul ay (Op_sub constant_1_0f x))
                              (Op_mul a xy))
                           (Op_mul b xy))
                        (Op_mul by_ x)]))
  /\ (has_derivs R = true -> derivs = false ->
      forall d c, d = 1 \/ d = 2 ->
        content (emitted st') (index R) d c = Some (Constant_float 0)).
Proof.
  apply (mix_lowering backend 2 (opcode 2) R A A A start
           (after (llvm_gen_mix backend 2))).
  - reflexivity.
  - reflexivity.
  - reflexivity.
  - reflexivity.
  - reflexivity.
  - vm_compute. reflexivity.
Defined.

(** [select R A A B]: the condition is a float. *)
Lemma select_lowering_witness :
  let st' := after (llvm_gen_select backend 3) in
  let type := simpletype (typespec R) in
  let xc := aggregate (simpletype (typespec B)) in
  let derivs := has_derivs R && (has_derivs A || has_derivs A) in
  let zero := if typespec_is_int (typespec B) then Constant_int 0
              else constant_0_0f in
  true = true
  /\ xc <= 3
  /\ (0 < aggregate type -> 0 < xc)
  /\ (forall i, 0 <= i < aggregate type ->
        exists a b x,
          load backend A 0 i type = Some a /\ load backend A 0 i type = Some b
          /\ load backend B 0 (select_component xc i) TypeUnknown = Some x
          /\ stores_to (emitted st') (index R) 0 i
             = stores_to (emitted start) (index R) 0 i
               ++ [Op_select (Op_ne x zero) b a]
          /\ (derivs = true ->
              forall d, d = 1 \/ d = 2 ->
                exists ad bd,
                  load backend A d i type = Some ad
                  /\ load backend A d i type = Some bd
                  /\ stores_to (emitted st') (index R) d i
                     = stores_to (emitted start) (index R) d i
                       ++ [Op_select (Op_ne x zero) bd ad]))
  /\ (has_derivs R = true -> derivs = false ->
      forall d c, d = 1 \/ d = 2 ->
        content (emitted st') (index R) d c = Some (Constant_float 0)).
Proof.
  apply (select_lowering backend 3 (opcode 3) R A A B start
           (after (llvm_gen_select backend 3)) true).
  - reflexivity.
  - reflexivity.
  - reflexivity.
  - reflexivity.
  - reflexivity.
  - vm_compute. reflexivity.
Defined.

(** [color R "glossy" B B B], a colour in a named space, and
    [color R B B B]; the second component and its dy channel. *)
Lemma construct_color_lowering_witness :
  (let st' := after (llvm_gen_construct_color backend 4) in
   exists Space from stores comp val,
     opargsym backend (opcode 4) 1 = Some Space
     /\ load backend Space 0 0 TypeUnknown = Some from
     /\ emitted st'
        = emitted start ++ stores
          ++ [Call "osl_prepend_color_from"
                [Sg_void_ptr; Void_ptr (index R); from];
              Zero_derivs (index R)]
     /\ Forall store_only stores
     /\ opargsym backend (opcode 4) 3 = Some comp
     /\ load backend comp 0 0 TypeFloat = Some val
     /\ stores_to (emitted st') (index R) 0 1
        = stores_to (emitted start) (index R) 0 1 ++ [val]
     /\ calls_of (emitted st') "osl_prepend_color_from"
        = calls_of (emitted start) "osl_prepend_color_from"
          ++ [[Sg_void_ptr; Void_ptr (index R); from]]
     /\ content (emitted st') (index R) 0 1 = None
     /\ content (emitted st') (index R) 2 1 = Some (Constant_float 0))
  /\ (let st' := after (llvm_gen_construct_color backend 6) in
      exists stores comp val dy,
        emitted st' = emitted start ++ stores
        /\ Forall store_only stores
        /\ opargsym backend (opcode 6) 2 = Some comp
        /\ load backend comp 0 0 TypeFloat = Some val
        /\ load backend comp 2 0 TypeFloat = Some dy
        /\ content (emitted st') (index R) 0 1 = Some val
        /\ content (emitted st') (index R) 2 1 = Some dy
        /\ calls_of (emitted st') "osl_prepend_color_from"
           = calls_of (emitted start) "osl_prepend_color_from").
Proof.
  split; intros st'.
  - destruct (construct_color_lowering backend 4 (opcode 4) R start st'
                true eq_refl eq_refl ltac:(vm_compute; reflexivity))
      as (_ & Hstores & _ & Hspace).
    destruct (Hspace eq_refl)
      as (Space & from & stores & HSpace & Hfrom & Hemit & Hstore & Hcalls
          & Hnone & Hzero).
    destruct (Hstores 1 0 ltac:(lia) (or_introl eq_refl))
      as (comp & val & Hcomp & Hval & Hs & _).
    exists Space, from, stores, comp, val.
    split; [exact HSpace|]. split; [exact Hfrom|]. split; [exact Hemit|].
    split; [exact Hstore|]. split; [exact Hcomp|]. split; [exact Hval|].
    split; [exact Hs|]. split; [exact Hcalls|]. split; [exact (Hnone 1)|].
    exact (Hzero eq_refl 1 2 (or_intror eq_refl)).
  - destruct (construct_color_lowering backend 6 (opcode 6) R start st'
                true eq_refl eq_refl ltac:(vm_compute; reflexivity))
      as (_ & Hstores & Hplain & _).
    destruct (Hplain eq_refl) as (stores & Hemit & Hstore & Hcalls).
    destruct (Hstores 1 0 ltac:(lia) (or_introl eq_refl))
      as (comp & val & Hcomp & Hval & _ & Hc0).
    destruct (Hstores 1 2 ltac:(lia)
                (or_intror (conj eq_refl (or_intror eq_refl))))
      as (comp' & dy & Hcomp' & Hdy & _ & Hc2).
    assert (comp' = comp) as -> by congruence.
    exists stores, comp, val, dy.
    split; [exact Hemit|]. split; [exact Hstore|]. split; [exact Hcomp|].
    split; [exact Hval|]. split; [exact Hdy|].
    split; [exact (Hc0 eq_refl)|]. split; [exact (Hc2 eq_refl) | exact Hcalls].
Defined.

End LoweringFacts.
(** ** llvm_gen.cpp: the allocation of a closure component *)

Module ClosureFacts.
Import LLVMGen Runtime Lowering LLVMGenFacts.

Lemma quiet_gret {A} (x : A) : quiet (gret x).
Proof.
  intros st y st' [= <- <-]. exists []. rewrite app_nil_r. auto.
Qed.

Lemma quiet_abort {A} : quiet (@abort A).
Proof. intros st y st' [=]. Qed.

Lemma quiet_deref {A} (o : option A) : quiet (deref o).
Proof.
  intros st y st' Hrun. apply deref_inv in Hrun as [_ ->].
  exists []. rewrite app_nil_r. auto.
Qed.

Lemma quiet_emit (i : Instr) : fills i = true -> quiet (emit i).
Proof.
  intros Hi st y st' Hrun. apply emit_inv in Hrun as ->.
  exists [i]. auto.
Qed.

Lemma quiet_report sev fmt args : quiet (report sev fmt args).
Proof.
  intros st y st' [= _ <-]. exists []. rewrite app_nil_r. auto.
Qed.

Lemma quiet_gbind {A B} (m : Gen A) (k : A -> Gen B) :
  quiet m -> (forall x, quiet (k x)) -> quiet (gbind m k).
Proof.
  intros Hm Hk st y st' Hrun.
  apply gbind_inv in Hrun as (x & st1 & Hfirst & Hrest).
  apply Hm in Hfirst as (d1 & He1 & Hs1 & Hn1).
  apply Hk in Hrest as (d2 & He2 & Hs2 & Hn2).
  exists (d1 ++ d2). rewrite He2, He1, <- app_assoc.
  split; [reflexivity|]. split; [apply Forall_app; auto | congruence].
Qed.

Lemma quiet_call_pointer fn args : quiet (call_pointer fn args).
Proof.
  apply quiet_gbind; [apply quiet_emit; reflexivity|].
  intros _. apply quiet_gret.
Qed.

Lemma calls_of_fills body name :
  Forall (fun i => fills i = true) body -> calls_of body name = [].
Proof.
  intros Hall. induction Hall as [|i body Hi _ IH]; [reflexivity|].
  unfold calls_of in *. cbn [omap list_omap]. rewrite IH.
  destruct i; try discriminate Hi; reflexivity.
Qed.

Lemma stores_to_fills body s d c :
  Forall (fun i => fills i = true) body -> stores_to body s d c = [].
Proof.
  intros Hall. induction Hall as [|i body Hi _ IH]; [reflexivity|].
  unfold stores_to in *. cbn [omap list_omap]. rewrite IH.
  destruct i; try discriminate Hi; reflexivity.
Qed.

Create HintDb quiet.
#[local] Hint Resolve quiet_gret quiet_abort quiet_deref quiet_report
  quiet_call_pointer : quiet.

Ltac quiet_steps :=
  repeat first
    [ apply quiet_gbind; [|intros ?]
    | apply quiet_emit; reflexivity
    | apply quiet_report
    | solve [auto with quiet] ].

Section generators.
Context `{TypeRules} `{Printer} (rop : BackendLLVM).

Lemma keyword_search_quiet clentry key (Value_ : SymRef) mem n :
  forall t_, quiet (keyword_search clentry key Value_ mem n t_).
Proof.
  induction n as [|n IH]; intros t_; cbn [keyword_search];
    [apply quiet_gret|].
  apply quiet_gbind; [apply quiet_deref|]. intros p.
  destruct (equivalent (cparam_type p) (simpletype (typespec Value_)));
    [|apply IH].
  apply quiet_gbind; [apply quiet_deref|]. intros pkey.
  destruct (decide (key = pkey)); [|apply IH]. quiet_steps.
Qed.

Lemma keyword_loop_quiet op clentry clname mem argsoffset n :
  forall attr_i,
    quiet (keyword_loop rop op clentry clname mem argsoffset n attr_i).
Proof.
  induction n as [|n IH]; intros attr_i; cbn [keyword_loop];
    [apply quiet_gret|].
  apply quiet_gbind; [apply quiet_deref|]. intros Key.
  apply quiet_gbind; [apply quiet_deref|]. intros Value_.
  destruct (is_constant Key); [|apply quiet_abort].
  apply quiet_gbind; [apply quiet_deref|]. intros key.
  apply quiet_gbind; [apply keyword_search_quiet|]. intros legal.
  apply quiet_gbind; [|intros _; apply IH].
  destruct legal; [apply quiet_gret | apply quiet_report].
Qed.

Lemma formal_loop_quiet op clentry name weighted mem n :
  forall carg,
    quiet (formal_loop rop op clentry name weighted mem n carg).
Proof.
  induction n as [|n IH]; intros carg; cbn [formal_loop];
    [apply quiet_gret|].
  apply quiet_gbind; [apply quiet_deref|]. intros p.
  destruct (cparam_key p); [apply quiet_gret|].
  apply quiet_gbind; [apply quiet_deref|]. intros s.
  apply quiet_gbind; [|intros _; apply IH].
  match goal with
  | |- quiet (if ?c then _ else _) => destruct c
  end; [apply quiet_emit; reflexivity | apply quiet_report].
Qed.

(** X25.  Whenever [llvm_gen_closure] returns for a closure that the
    renderer has registered, it returns true, whatever errors it reports
    on the arguments.  The component is allocated by exactly one call:
    the first instruction emitted is the call of the allocation
    function, the weighted one when the first argument is a weight, and
    no other call of a named function is emitted, of either allocation
    function or of any other.  The allocation with a weight may return
    null, so that unless the weight is a constant that is not zero, what
    fills the component is emitted after a branch on the pointer and is
    followed by a branch to the block that joins the two paths.  What
    fills the component is made of memsets, memcpys and calls through the
    pointers of the registry entry only: it holds no branch and no store
    to a symbol.  The pointer is stored to the result last, and it is the
    only store to the result. *)
Theorem closure_allocation_is_guarded (opnum : Z) (op : Opcode)
    (Result arg1 Id : SymRef) (closure_name : string)
    (clentry : ClosureEntry) (st st' : GenState) (ok : bool) :
  at_index (m_instops (inst rop)) opnum = Some op ->
  opargsym rop op 0 = Some Result ->
  opargsym rop op 1 = Some arg1 ->
  opargsym rop op (1 + (if is_string (typespec arg1) then 0 else 1))
  = Some Id ->
  get_string Id = Some closure_name ->
  find_closure rop closure_name = Some clentry ->
  llvm_gen_closure rop opnum st = Some (ok, st') ->
  let weighted := negb (is_string (typespec arg1)) in
  let guarded :=
    weighted && negb (is_constant arg1 && negb (is_zero rop arg1)) in
  let name := if weighted then "osl_allocate_weighted_closure_component"
              else "osl_allocate_closure_component" in
  let args :=
    [Sg_void_ptr; Constant_int (closure_id clentry);
     Constant_int (struct_size clentry)]
    ++ (if weighted then [Void_ptr (index arg1)] else []) in
  let return_ptr := Call_function name args in
  let notnull_block := mkBlock (nblocks st) "non_null_closure" in
  let next_block := mkBlock (S (nblocks st)) EmptyString in
  ok = true
  /\ (exists body,
        Forall (fun i => fills i = true) body
        /\ emitted st'
           = emitted st ++ [Call name args]
             ++ (if guarded
                 then [Branch_if (Op_ne return_ptr Void_ptr_null)
                         notnull_block next_block]
                 else [])
             ++ body
             ++ (if guarded then [Branch next_block] else [])
             ++ [Store_value return_ptr (index Result) 0 None 0]
        /\ nblocks st'
           = (if guarded then S (S (nblocks st)) else nblocks st))
  /\ (forall other,
        calls_of (emitted st') other
        = calls_of (emitted st) other
          ++ (if decide (name = other) then [args] else []))
  /\ (forall d c,
        stores_to (emitted st') (index Result) d c
        = stores_to (emitted st) (index Result) d c
          ++ (if bool_decide (d = 0 /\ c = 0) then [return_ptr] else [])).
Proof.
  intros Hop HR Harg1 HId Hname Hfind Hrun weighted guarded name args
    return_ptr notnull_block next_block.
  assert (Hshape :
    ok = true
    /\ exists body,
         Forall (fun i => fills i = true) body
         /\ emitted st'
            = emitted st ++ [Call name args]
              ++ (if guarded
                  then [Branch_if (Op_ne return_ptr Void_ptr_null)
                          notnull_block next_block]
                  else [])
              ++ body
              ++ (if guarded then [Branch next_block] else [])
              ++ [Store_value return_ptr (index Result) 0 None 0]
         /\ nblocks st'
            = (if guarded then S (S (nblocks st)) else nblocks st)).
  { unfold llvm_gen_closure in Hrun.
    take_operand Hrun Hop. take_operand Hrun HR. take_operand Hrun Harg1.
    cbv beta zeta in Hrun.
    assert (Hbody : forall weighted_ mem st1 u st2,
              (let* _ :=
                 match prepare clentry with
                 | Some f =>
                     let* _ := call_pointer (Constant_ptr f)
                                 [Constant_ptr "renderer";
                                  Constant_int (closure_id clentry); mem] in
                     gret tt
                 | None => emit (Memset mem 0 (struct_size clentry) 4)
                 end in
               let* _ := formal_loop rop op clentry closure_name weighted_ mem
                           (Z.to_nat (nformal clentry)) 0 in
               let* _ :=
                 match setup clentry with
                 | Some f =>
                     let* _ := call_pointer (Constant_ptr f)
                                 [Constant_ptr "renderer";
                                  Constant_int (closure_id clentry); mem] in
                     gret tt
                 | None => gret tt
                 end in
               llvm_gen_keyword_fill rop op clentry closure_name mem
                 (2 + weighted_ + nformal clentry)) st1 = Some (u, st2) ->
              exists body,
                emitted st2 = emitted st1 ++ body
                /\ Forall (fun i => fills i = true) body
                /\ nblocks st2 = nblocks st1).
    { intros weighted_ mem st1 u st2.
      apply quiet_gbind.
      { destruct (prepare clentry); quiet_steps. }
      intros _. apply quiet_gbind; [apply formal_loop_quiet|].
      intros _. apply quiet_gbind.
      { destruct (setup clentry); quiet_steps. }
      intros _. apply keyword_loop_quiet. }
    subst weighted guarded name args return_ptr.
    destruct (is_string (typespec arg1)) eqn:Hstring; cbn [negb andb app].
    - (* no weight *)
      change (0 =? 0) with true in Hrun. cbv iota in Hrun.
      take_operand Hrun HId. take_operand Hrun Hname.
      rewrite Hfind in Hrun. unfold call_function in Hrun.
      apply gbind_inv in Hrun as (ret & st1 & Halloc & Hrun).
      apply gbind_inv in Halloc as (u0 & st0 & Hcall & Hret).
      apply emit_inv in Hcall. apply gret_inv in Hret as [-> ->].
      apply gbind_inv in Hrun as (nb & st2 & Hnb & Hrun).
      apply gret_inv in Hnb as [-> ->].
      apply gbind_inv in Hrun as (u1 & st3 & H1 & Hrun).
      apply gbind_inv in Hrun as (u2 & st4 & H2 & Hrun).
      apply gbind_inv in Hrun as (u3 & st5 & H3 & Hrun).
      apply gbind_inv in Hrun as (u4 & st6 & H4 & Hrun).
      assert (Hfill : exists body,
                emitted st6 = emitted st0 ++ body
                /\ Forall (fun i => fills i = true) body
                /\ nblocks st6 = nblocks st0).
      { eapply (Hbody 0). unfold gbind at 1. rewrite H1.
        unfold gbind at 1. rewrite H2. unfold gbind at 1. rewrite H3.
        exact H4. }
      destruct Hfill as (body & Hemit & Hstraight & Hblocks).
      gen_inv. split; [reflexivity|]. exists body.
      split; [exact Hstraight|]. cbn [emitted nblocks] in *.
      rewrite Hemit, Hblocks, <- !app_assoc. split; reflexivity.
    - (* a weight *)
      change (1 =? 0) with false in Hrun. cbv iota in Hrun.
      take_operand Hrun HId. take_operand Hrun Hname.
      rewrite Hfind in Hrun. unfold call_function in Hrun.
      apply gbind_inv in Hrun as (ret & st1 & Halloc & Hrun).
      apply gbind_inv in Halloc as (u0 & st0 & Hcall & Hret).
      apply emit_inv in Hcall. apply gret_inv in Hret as [-> ->].
      apply gbind_inv in Hrun as (nb & st2 & Hnb & Hrun).
      apply gbind_inv in Hrun as (u1 & st3 & H1 & Hrun).
      apply gbind_inv in Hrun as (u2 & st4 & H2 & Hrun).
      apply gbind_inv in Hrun as (u3 & st5 & H3 & Hrun).
      apply gbind_inv in Hrun as (u4 & st6 & H4 & Hrun).
      assert (Hfill : exists body,
                emitted st6 = emitted st2 ++ body
                /\ Forall (fun i => fills i = true) body
                /\ nblocks st6 = nblocks st2).
      { eapply (Hbody 1). unfold gbind at 1. rewrite H1.
        unfold gbind at 1. rewrite H2. unfold gbind at 1. rewrite H3.
        exact H4. }
      destruct Hfill as (body & Hemit & Hstraight & Hblocks).
      destruct (is_constant arg1 && negb (is_zero rop arg1)); cbn [negb] in *.
      + gen_inv. split; [reflexivity|]. exists body.
        split; [exact Hstraight|]. cbn [emitted nblocks] in *.
        rewrite Hemit, Hblocks, <- !app_assoc. split; reflexivity.
      + unfold new_basic_block in Hnb. gen_inv.
        repeat match goal with
               | Hb : Some _ = Some _ |- _ => injection Hb as ? ?; subst
               end.
        split; [reflexivity|]. exists body.
        split; [exact Hstraight|]. cbn [emitted nblocks] in *.
        rewrite Hemit, Hblocks, <- !app_assoc. split; reflexivity. }
  destruct Hshape as (Hok & body & Hfills & Hemit & Hblocks).
  split; [exact Hok|]. split; [exists body; auto|]. split.
  - intros other. rewrite Hemit, !calls_of_app.
    rewrite (calls_of_fills body) by assumption.
    unfold calls_of at 2 3 4 5. cbn [omap list_omap].
    destruct guarded; cbn [omap list_omap app];
      destruct (decide (name = other)); reflexivity.
  - intros d c. rewrite Hemit, !stores_to_app.
    rewrite (stores_to_fills body) by assumption.
    rewrite stores_to_cons_call, stores_to_nil.
    assert (Hlast : stores_to
                      [Store_value return_ptr (index Result) 0 None 0]
                      (index Result) d c
                    = if bool_decide (d = 0 /\ c = 0)
                      then [return_ptr] else []).
    { rewrite stores_to_cons_store, stores_to_nil.
      destruct (decide (d = 0 /\ c = 0)) as [Hdc | Hdc].
      - rewrite !bool_decide_eq_true_2
          by (repeat split; (reflexivity || lia)).
        reflexivity.
      - rewrite !bool_decide_eq_false_2
          by (first [exact Hdc | intros (_ & ? & ?); apply Hdc; lia]).
        reflexivity. }
    rewrite Hlast. destruct guarded; reflexivity.
Qed.

End generators.

(** *** Example *)

Import Models Examples LoweringExamples.

(** [closure Ci B "glossy"]: the weight [B] is not a constant. *)
Lemma closure_allocation_is_guarded_witness :
  let st' := after (llvm_gen_closure backend 5) in
  let args :=
    [Sg_void_ptr; Constant_int 1; Constant_int 16; Void_ptr (index B)] in
  let return_ptr :=
    Call_function "osl_allocate_weighted_closure_component" args in
  (exists body,
     Forall (fun i => fills i = true) body
     /\ emitted st'
        = emitted start
          ++ [Call "osl_allocate_weighted_closure_component" args]
          ++ [Branch_if (Op_ne return_ptr Void_ptr_null)
                (mkBlock 0 "non_null_closure") (mkBlock 1 EmptyString)]
          ++ body
          ++ [Branch (mkBlock 1 EmptyString)]
          ++ [Store_value return_ptr (index Ci) 0 None 0]
     /\ nblocks st' = 2%nat)
  /\ calls_of (emitted st') "osl_allocate_weighted_closure_component"
     = [args]
  /\ calls_of (emitted st') "osl_allocate_closure_component" = []
  /\ stores_to (emitted st') (index Ci) 0 0 = [return_ptr]
  /\ stores_to (emitted st') (index Ci) 1 0 = [].
Proof.
  intros st' args return_ptr.
  destruct (closure_allocation_is_guarded backend 5 (opcode 5) Ci B
              (symref 6) "glossy" glossy start st' true
              eq_refl eq_refl eq_refl eq_refl eq_refl eq_refl
              ltac:(vm_compute; reflexivity))
    as (_ & Hshape & Hcalls & Hstores).
  split; [exact Hshape|].
  split; [exact (Hcalls "osl_allocate_weighted_closure_component"%string)|].
  split; [exact (Hcalls "osl_allocate_closure_component"%string)|].
  split; [exact (Hstores 0 0) | exact (Hstores 1 0)].
Defined.

End ClosureFacts.
